(** * Doris storage engine and per-database transaction manager

    A shallow embedding of

    - [be/src/olap/storage_engine.cpp]: tablet placement index, unused-rowset
      garbage collection, trash and snapshot sweeping;
    - [DatabaseTransactionMgr.java]: the load-transaction state machine, the
      commit and publish quorum checks.

    Machine integers are [Z] with the wrap-around written out, maps are
    [gmap], sets are [gset], shared mutable objects live in an explicit
    store. *)

From stdpp Require Import gmap strings list fin_maps fin_sets sorting.
From Stdlib Require Import ZArith Lia.
From Stdlib Require Import Strings.Ascii.
From Stdlib Require Uint63.
From Corelib Require Import PrimFloat.

Set Warnings "-clear-no-such-hyp".

Local Open Scope Z_scope.

(** ** Machine integers *)

Module MachineInt.

Definition INT_MIN : Z := - 2 ^ 31.
Definition INT_MAX : Z := 2 ^ 31 - 1.
Definition LONG_MIN : Z := - 2 ^ 63.
Definition LONG_MAX : Z := 2 ^ 63 - 1.

(** Two's complement reduction to [w] bits. *)
Definition wrap (w : Z) (x : Z) : Z :=
  (x + 2 ^ (w - 1)) mod 2 ^ w - 2 ^ (w - 1).

Definition wrap32 : Z → Z := wrap 32.
Definition wrap64 : Z → Z := wrap 64.

Definition in_int (x : Z) : Prop := INT_MIN ≤ x ≤ INT_MAX.
Definition in_long (x : Z) : Prop := LONG_MIN ≤ x ≤ LONG_MAX.

End MachineInt.

Import MachineInt.

(** ** Storage engine (C++) *)

Module StorageEngine.

(** Modelled from the spec: the storage medium tag of a data dir, "one of
    HDD, SSD, REMOTE"; the thrift declaration of [TStorageMedium::type] is
    not part of the sources. *)
Inductive TStorageMedium := HDD | SSD | REMOTE.

#[global] Instance TStorageMedium_eq_dec : EqDecision TStorageMedium.
Proof. solve_decision. Defined.

#[global] Instance TStorageMedium_countable : Countable TStorageMedium.
Proof.
  refine (inj_countable'
            (λ m, match m with HDD => 0%nat | SSD => 1%nat | REMOTE => 2%nat end)
            (λ n, match n with 0%nat => HDD | 1%nat => SSD | _ => REMOTE end) _).
  by intros [].
Defined.

(** *** The create-tablet index cache *)

(** Modelled from the spec: [CreateTabletIdxCache::get_key] builds the cache
    key of "a bounded LRU keyed by (partition_id, medium)"; the key is kept as
    the pair itself. *)
Definition CacheKey : Type := Z * TStorageMedium.

Definition get_key (partition_id : Z) (storage_medium : TStorageMedium) : CacheKey :=
  (partition_id, storage_medium).

Record CacheValue := mkCacheValue {
  last_visit_time : Z;
  idx : Z;
}.

(** Modelled from the spec: the LRU cache behind [cache()] is "a bounded
    LRU"; its implementation is not part of the sources.  Entries are kept
    most recently used first; an insert replaces the entry of its key and
    evicts from the cold end down to the capacity
    ([partition_disk_index_lru_size]). *)
Record LRUCache := mkLRUCache {
  capacity : nat;
  entries : list (CacheKey * CacheValue);
}.

Definition cache_remove (key : CacheKey) (es : list (CacheKey * CacheValue)) :=
  filter (λ e, e.1 ≠ key) es.

Fixpoint cache_find (key : CacheKey) (es : list (CacheKey * CacheValue))
  : option CacheValue :=
  match es with
  | [] => None
  | (k, v) :: es' => if decide (k = key) then Some v else cache_find key es'
  end.

Definition cache_lookup (key : CacheKey) (c : LRUCache) : option CacheValue :=
  cache_find key (entries c).

Definition cache_insert (key : CacheKey) (v : CacheValue) (c : LRUCache) : LRUCache :=
  {| capacity := capacity c;
     entries := take (capacity c) ((key, v) :: cache_remove key (entries c)) |}.

(** [CreateTabletIdxCache::get_index]: the stored index, or [-1] when the
    key is absent.  A hit refreshes the entry's [last_visit_time] and its
    recency. *)
Definition get_index (now_ms : Z) (key : CacheKey) (c : LRUCache) : Z * LRUCache :=
  match cache_lookup key c with
  | Some value =>
      let value' := {| last_visit_time := now_ms; idx := idx value |} in
      (idx value,
       {| capacity := capacity c;
          entries := (key, value') :: cache_remove key (entries c) |})
  | None => (-1, c)
  end.

(** [CreateTabletIdxCache::set_index]. *)
Definition set_index (now_ms : Z) (key : CacheKey) (next_idx : Z) (c : LRUCache)
  : LRUCache :=
  cache_insert key {| last_visit_time := now_ms; idx := next_idx |} c.

(** *** Placement state *)

(** [_last_use_index] is a [std::map<TStorageMedium::type, int>]; reading a
    medium never written yields the value-initialised [0]. *)
Record PlacementState := mkPlacementState {
  _create_tablet_idx_lru_cache : LRUCache;
  _last_use_index : gmap TStorageMedium Z;
}.

Definition last_use_index_of (st : PlacementState) (m : TStorageMedium) : Z :=
  default 0 (_last_use_index st !! m).

(** [StorageEngine::_get_and_set_next_disk_index]. *)
Definition _get_and_set_next_disk_index
    (now_ms : Z) (partition_id : Z) (storage_medium : TStorageMedium)
    (st : PlacementState) : Z * PlacementState :=
  let key := get_key partition_id storage_medium in
  let '(curr_index, cache1) := get_index now_ms key (_create_tablet_idx_lru_cache st) in
  let curr_index :=
    if decide (curr_index = -1)
    then Z.max 0 (wrap32 (last_use_index_of st storage_medium + 1))
    else curr_index in
  let last' := <[storage_medium := curr_index]> (_last_use_index st) in
  let cache2 := set_index now_ms key (Z.max 0 (wrap32 (curr_index + 1))) cache1 in
  (curr_index,
   {| _create_tablet_idx_lru_cache := cache2; _last_use_index := last' |}).

(** The index a later call would find in the cache. *)
Definition cached_index (key : CacheKey) (st : PlacementState) : option Z :=
  idx <$> cache_lookup key (_create_tablet_idx_lru_cache st).

(** *** Unused-rowset garbage collection *)

(** [RowsetId] is an opaque value compared by equality. *)
Definition RowsetId : Type := Z.

(** A [RowsetSharedPtr] is a counted reference to a [Rowset] object; the
    reference is the identity of the object it points to. *)
Definition RowsetPtr : Type := nat.

Record Rowset := mkRowset {
  rowset_id : RowsetId;
  need_delete_file : bool;
  delayed_expired_timestamp : Z;
  is_local : bool;
  rs_tablet_id : Z;
}.

(** Modelled from the spec: a live tablet as the sweeper sees it, whether it
    "uses merge-on-write" and which rowsets have a slice in its delete
    bitmap; the tablet classes are not part of the sources. *)
Record TabletInfo := mkTabletInfo {
  enable_unique_key_merge_on_write : bool;
  delete_bitmap : gset RowsetId;
}.

Record GcState := mkGcState {
  rowsets : RowsetPtr → Rowset;
  _unused_rowsets : gmap RowsetId RowsetPtr;
  _querying_rowsets : gmap RowsetId RowsetPtr;
  (** strong references held outside the two registries (tablets, readers,
      compactions, ...) *)
  other_refs : RowsetPtr → nat;
  tablets : gmap Z TabletInfo;
  (** the rowsets whose files are on disk *)
  disk : gset RowsetId;
}.

(** Number of entries of a registry that hold a reference to [p]. *)
Definition holders (m : gmap RowsetId RowsetPtr) (p : RowsetPtr) : nat :=
  length (filter (λ kv, kv.2 = p) (map_to_list m)).

(** [shared_ptr::use_count]: every holder counted, the removal batch of a
    running sweep included. *)
Definition use_count (unused querying : gmap RowsetId RowsetPtr)
    (batch : list RowsetPtr) (others : RowsetPtr → nat) (p : RowsetPtr) : nat :=
  (holders unused p + holders querying p + length (filter (λ q, q = p) batch)
   + others p)%nat.

Definition use_count_of (st : GcState) (p : RowsetPtr) : nat :=
  use_count (_unused_rowsets st) (_querying_rowsets st) [] (other_refs st) p.

(** [StorageEngine::add_unused_rowset]; [None] is the null pointer. *)
Definition add_unused_rowset (rowset : option RowsetPtr) (st : GcState) : GcState :=
  match rowset with
  | None => st
  | Some p =>
      let r := rowsets st p in
      match _unused_rowsets st !! rowset_id r with
      | Some _ => st
      | None =>
          let r' := {| rowset_id := rowset_id r; need_delete_file := true;
                       delayed_expired_timestamp := delayed_expired_timestamp r;
                       is_local := is_local r; rs_tablet_id := rs_tablet_id r |} in
          {| rowsets := λ q, if decide (q = p) then r' else rowsets st q;
             _unused_rowsets := <[rowset_id r := p]> (_unused_rowsets st);
             _querying_rowsets := _querying_rowsets st;
             other_refs := other_refs st;
             tablets := tablets st;
             disk := disk st |}
      end
  end.

(** [StorageEngine::add_quering_rowset]: [emplace] keeps an entry that is
    already there. *)
Definition add_quering_rowset (rs : RowsetPtr) (st : GcState) : GcState :=
  let id := rowset_id (rowsets st rs) in
  match _querying_rowsets st !! id with
  | Some _ => st
  | None =>
      {| rowsets := rowsets st;
         _unused_rowsets := _unused_rowsets st;
         _querying_rowsets := <[id := rs]> (_querying_rowsets st);
         other_refs := other_refs st;
         tablets := tablets st;
         disk := disk st |}
  end.

(** [StorageEngine::get_quering_rowset]. *)
Definition get_quering_rowset (rs_id : RowsetId) (st : GcState) : option RowsetPtr :=
  _querying_rowsets st !! rs_id.

(** [StorageEngine::evict_querying_rowset], on the registry alone. *)
Definition evict_querying_rowset (rs_id : RowsetId)
    (querying : gmap RowsetId RowsetPtr) : gmap RowsetId RowsetPtr :=
  delete rs_id querying.

(** The variables of the first loop of [start_delete_unused_rowset]. *)
Record SweepLoop := mkSweepLoop {
  sl_unused : gmap RowsetId RowsetPtr;
  sl_querying : gmap RowsetId RowsetPtr;
  sl_copy : list RowsetPtr;
}.

(** One iteration of the loop over [_unused_rowsets]: [e] is the entry under
    the iterator, [now_at k] the clock reading ([UnixSeconds()]) taken when
    the entry with key [k] is visited. *)
Definition sweep_entry (st : GcState) (now_at : RowsetId → Z)
    (acc : SweepLoop) (e : RowsetId * RowsetPtr) : SweepLoop :=
  let rs := e.2 in
  let r := rowsets st rs in
  if bool_decide (use_count (sl_unused acc) (sl_querying acc) (sl_copy acc)
                    (other_refs st) rs = 1%nat)
     && need_delete_file r
     && bool_decide (delayed_expired_timestamp r < now_at e.1)
  then
    {| sl_querying := evict_querying_rowset (rowset_id r) (sl_querying acc);
       sl_copy := if is_local r then sl_copy acc ++ [rs] else sl_copy acc;
       sl_unused := delete e.1 (sl_unused acc) |}
  else acc.

(** Modelled from the spec: [Rowset::remove] "deletes files"; the rowset
    classes are not part of the sources. *)
Definition rowset_remove (r : Rowset) (files : gset RowsetId) : gset RowsetId :=
  files ∖ {[ rowset_id r ]}.

(** One iteration of the second loop, over the removal batch. *)
Definition remove_entry (objs : RowsetPtr → Rowset)
    (acc : gmap Z TabletInfo * gset RowsetId) (rs : RowsetPtr)
  : gmap Z TabletInfo * gset RowsetId :=
  let r := objs rs in
  let tablets' :=
    match acc.1 !! rs_tablet_id r with
    | Some tablet =>
        if enable_unique_key_merge_on_write tablet
        then <[rs_tablet_id r :=
                 {| enable_unique_key_merge_on_write := true;
                    delete_bitmap := delete_bitmap tablet ∖ {[ rowset_id r ]} |}]> acc.1
        else acc.1
    | None => acc.1
    end in
  (tablets', rowset_remove r acc.2).

(** [StorageEngine::start_delete_unused_rowset].  Besides the new state the
    function hands back [unused_rowsets_copy], the rowsets whose [remove()]
    it invoked. *)
Definition start_delete_unused_rowset (now_at : RowsetId → Z) (st : GcState)
  : GcState * list RowsetPtr :=
  let loop :=
    foldl (sweep_entry st now_at)
          {| sl_unused := _unused_rowsets st;
             sl_querying := _querying_rowsets st;
             sl_copy := [] |}
          (map_to_list (_unused_rowsets st)) in
  let '(tablets', disk') :=
    foldl (remove_entry (rowsets st)) (tablets st, disk st) (sl_copy loop) in
  ({| rowsets := rowsets st;
      _unused_rowsets := sl_unused loop;
      _querying_rowsets := sl_querying loop;
      other_refs := other_refs st;
      tablets := tablets';
      disk := disk' |},
   sl_copy loop).

(** Each registry files a rowset under the rowset's own id, as
    [add_unused_rowset] and [add_quering_rowset] do. *)
Definition keyed_by_id (objs : RowsetPtr → Rowset) (m : gmap RowsetId RowsetPtr) : Prop :=
  ∀ k p, m !! k = Some p → rowset_id (objs p) = k.

Definition well_keyed (st : GcState) : Prop :=
  keyed_by_id (rowsets st) (_unused_rowsets st)
  ∧ keyed_by_id (rowsets st) (_querying_rowsets st).

(** The three conditions under which the sweeper takes the entry [(k, p)]. *)
Definition gc_selected (now_at : RowsetId → Z) (st : GcState)
    (k : RowsetId) (p : RowsetPtr) : Prop :=
  use_count_of st p = 1%nat
  ∧ need_delete_file (rowsets st p) = true
  ∧ delayed_expired_timestamp (rowsets st p) < now_at k.

(** *** Trash and snapshot sweeping *)

(** [std::string::find(c, pos)]: the position of the first [c] at or after
    [pos]; [None] is [npos]. *)
Fixpoint string_find (c : ascii) (s : string) (pos : nat) : option nat :=
  match s with
  | EmptyString => None
  | String a s' =>
      match pos with
      | O => if decide (a = c) then Some O else S <$> string_find c s' O
      | S pos' => S <$> string_find c s' pos'
      end
  end.

(** [std::string::substr(pos)], for [pos] within the string. *)
Fixpoint string_drop (pos : nat) (s : string) : string :=
  match pos, s with
  | O, _ => s
  | S pos', String _ s' => string_drop pos' s'
  | S _, EmptyString => EmptyString
  end.

(** [std::string::substr(0, n)]; [None] for the count is [npos]. *)
Fixpoint string_take (n : nat) (s : string) : string :=
  match n, s with
  | S n', String a s' => String a (string_take n' s')
  | _, _ => EmptyString
  end.

Definition substr_to (s : string) (n : option nat) : string :=
  match n with
  | Some n => string_take n s
  | None => s
  end.

Definition is_digit (a : ascii) : bool :=
  let n := Z.of_nat (nat_of_ascii a) in (48 <=? n) && (n <=? 57).

Definition digit_val (a : ascii) : Z := Z.of_nat (nat_of_ascii a) - 48.

(** [isspace] in the C locale. *)
Definition is_space (a : ascii) : bool :=
  let n := Z.of_nat (nat_of_ascii a) in (n =? 32) || ((9 <=? n) && (n <=? 13)).

Fixpoint skip_spaces (s : string) : string :=
  match s with
  | String a s' => if is_space a then skip_spaces s' else s
  | EmptyString => s
  end.

(** Broken-down calendar time, the fields of [struct tm] that
    ["%Y%m%d%H%M%S"] fills, with the year and the month as written. *)
Record tm := mkTm {
  tm_year : Z;
  tm_mon : Z;
  tm_mday : Z;
  tm_hour : Z;
  tm_min : Z;
  tm_sec : Z;
}.

(** The digit loop of the C library's [strptime] for one numeric field:
    after the first digit, read on while fewer than [n] digits are consumed,
    ten times the value still fits [to] and a digit follows. *)
Fixpoint get_digits (to : Z) (n : nat) (val : Z) (s : string) : Z * string :=
  match n, s with
  | S n', String a s' =>
      if (val * 10 <=? to) && is_digit a
      then get_digits to n' (val * 10 + digit_val a) s'
      else (val, s)
  | _, _ => (val, s)
  end.

(** One numeric conversion of [strptime]: leading spaces are skipped, a
    digit must follow, the value must lie in [from, to]. *)
Definition get_number (from to : Z) (n : nat) (s : string) : option (Z * string) :=
  match skip_spaces s with
  | String a s' =>
      if is_digit a then
        let '(val, rest) := get_digits to (n - 1) (digit_val a) s' in
        if (from <=? val) && (val <=? to) then Some (val, rest) else None
      else None
  | EmptyString => None
  end.

(** [strptime(s, "%Y%m%d%H%M%S", &tm)]; [None] is the null result. *)
Definition strptime (s : string) : option tm :=
  '(y, s) ← get_number 0 9999 4 s;
  '(mo, s) ← get_number 1 12 2 s;
  '(d, s) ← get_number 1 31 2 s;
  '(h, s) ← get_number 0 23 2 s;
  '(mi, s) ← get_number 0 59 2 s;
  '(se, _) ← get_number 0 61 2 s;
  Some {| tm_year := y; tm_mon := mo; tm_mday := d;
          tm_hour := h; tm_min := mi; tm_sec := se |}.

(** Days from 1970-01-01 to the given day of the proleptic Gregorian
    calendar; a day number past the end of the month runs into the next
    month, as [mktime] normalises it. *)
Definition days_from_civil (y m d : Z) : Z :=
  let y' := if m <=? 2 then y - 1 else y in
  let era := y' `div` 400 in
  let yoe := y' - era * 400 in
  let doy := (153 * (m + (if 2 <? m then -3 else 9)) + 2) `div` 5 + d - 1 in
  let doe := yoe * 365 + yoe `div` 4 - yoe `div` 100 + doy in
  era * 146097 + doe - 719468.

(** [mktime] with [tm_isdst = 0]: seconds of the local calendar.  Both
    [local_now] and the creation times go through [mktime], so the zone
    offset cancels in their difference and is left out. *)
Definition mktime (t : tm) : Z :=
  days_from_civil (tm_year t) (tm_mon t) (tm_mday t) * 86400
  + tm_hour t * 3600 + tm_min t * 60 + tm_sec t.

Fixpoint stoi_digits (acc : Z) (s : string) : Z :=
  match s with
  | String a s' => if is_digit a then stoi_digits (acc * 10 + digit_val a) s' else acc
  | EmptyString => acc
  end.

(** [std::stoi]: spaces, an optional sign, then at least one digit; [None]
    when it throws ([invalid_argument] or [out_of_range]). *)
Definition stoi (s : string) : option Z :=
  let s := skip_spaces s in
  let '(neg, s) :=
    match s with
    | String "-"%char s' => (true, s')
    | String "+"%char s' => (false, s')
    | _ => (false, s)
    end in
  match s with
  | String a _ =>
      if is_digit a then
        let v := stoi_digits 0 s in
        let v := if neg then - v else v in
        if (INT_MIN <=? v) && (v <=? INT_MAX) then Some v else None
      else None
  | EmptyString => None
  end.

Inductive Status :=
  | OK
  | OS_ERROR (what : string)
  | IO_ERROR (what : string)
  | DELETE_FAILED (path : string).

#[global] Instance Status_eq_dec : EqDecision Status.
Proof. solve_decision. Defined.

(** What one directory entry asks of the sweeper. *)
Inductive EntryVerdict :=
  | BadName                      (* [strptime] fails: skipped *)
  | BadExpire                    (* [stoi] throws *)
  | Entry (create_time : Z) (actual_expire : Z).

(** The part of the loop body of [_do_sweep] that reads the entry name. *)
Definition parse_entry (expire : Z) (dir_name : string) : EntryVerdict :=
  let str_time := substr_to dir_name (string_find "."%char dir_name 0) in
  match strptime str_time with
  | None => BadName
  | Some local_tm_create =>
      match string_find "."%char dir_name (String.length str_time + 1) with
      | Some pos =>
          match stoi (string_drop (pos + 1) dir_name) with
          | Some actual_expire => Entry (mktime local_tm_create) actual_expire
          | None => BadExpire
          end
      | None => Entry (mktime local_tm_create) expire
      end
  end.

(** The loop of [_do_sweep] over the sorted entries.  [delete_ok] is the
    outcome of [delete_directory] on an entry; the result is the status and
    the entries deleted.  The batch counter only paces the loop with a sleep
    and is left out. *)
Fixpoint sweep_sorted (delete_ok : string → bool) (local_now expire : Z)
    (res : Status) (sorted_pathes : list string) : Status * list string :=
  match sorted_pathes with
  | [] => (res, [])
  | dir_name :: rest =>
      match parse_entry expire dir_name with
      | BadName =>
          sweep_sorted delete_ok local_now expire
            (OS_ERROR "fail to strptime time") rest
      | BadExpire => (IO_ERROR "Exception occur when scan directory", [])
      | Entry create_time actual_expire =>
          if actual_expire <=? local_now - create_time then
            if delete_ok dir_name then
              let '(res', deleted) := sweep_sorted delete_ok local_now expire OK rest in
              (res', dir_name :: deleted)
            else
              sweep_sorted delete_ok local_now expire (DELETE_FAILED dir_name) rest
          else (res, [])
      end
  end.

(** Byte-wise lexicographic order, the order [std::sort] puts the paths of
    one directory in. *)
Definition string_le (a b : string) : Prop := String.leb a b = true.

#[global] Instance string_le_dec a b : Decision (string_le a b).
Proof. unfold string_le. apply _. Defined.

(** [StorageEngine::_do_sweep]; [scan_root] is the listing of the directory,
    [None] when it does not exist. *)
Definition _do_sweep (delete_ok : string → bool) (scan_root : option (list string))
    (local_now expire : Z) : Status * list string :=
  match scan_root with
  | None => (OK, [])
  | Some listing => sweep_sorted delete_ok local_now expire OK (merge_sort string_le listing)
  end.

(** An entry is expired when its age has reached its effective TTL. *)
Definition expired (local_now expire : Z) (dir_name : string) : Prop :=
  match parse_entry expire dir_name with
  | Entry create_time actual_expire => actual_expire ≤ local_now - create_time
  | _ => False
  end.

(** One data dir as [get_all_data_dir_info] reports it, with the listings
    of its [snapshot] and [trash] directories. *)
Record DataDirInfo := mkDataDirInfo {
  path : string;
  disk_capacity : Z;
  available : Z;
  is_used : bool;
  snapshot_listing : option (list string);
  trash_listing : option (list string);
}.

Record SweepConfig := mkSweepConfig {
  snapshot_expire_time_sec : Z;
  trash_file_expire_time_sec : Z;
  storage_flood_stage_usage_percent : Z;
}.

(** Conversion of an integer to [double]. *)
Definition to_double (z : Z) : float :=
  if z <? 0 then PrimFloat.opp (PrimFloat.of_uint63 (Uint63.of_Z (- z)))
  else PrimFloat.of_uint63 (Uint63.of_Z z).

(** The guard space of [start_trash_sweep]. *)
Definition guard_space (ignore_guard : bool) (cfg : SweepConfig) : float :=
  if ignore_guard then 0%float
  else PrimFloat.mul
         (PrimFloat.div (to_double (storage_flood_stage_usage_percent cfg)) 100%float)
         0x1.ccccccccccccdp-1%float.

Definition curr_usage (info : DataDirInfo) : float :=
  PrimFloat.div (to_double (wrap64 (disk_capacity info - available info)))
                (to_double (disk_capacity info)).

(** The TTL that [start_trash_sweep] hands to the sweep of a path's trash. *)
Definition trash_expire_of (ignore_guard : bool) (cfg : SweepConfig)
    (info : DataDirInfo) : Z :=
  if PrimFloat.ltb (guard_space ignore_guard cfg) (curr_usage info)
  then 0 else trash_file_expire_time_sec cfg.

(** What the sweep of one data dir deleted. *)
Record DirSwept := mkDirSwept {
  swept_path : string;
  snapshot_deleted : list string;
  trash_deleted : list string;
}.

(** One iteration of the loop of [start_trash_sweep] over the data dirs. *)
Definition sweep_data_dir (delete_ok : string → bool) (ignore_guard : bool)
    (cfg : SweepConfig) (local_now : Z)
    (acc : Status * list DirSwept) (info : DataDirInfo) : Status * list DirSwept :=
  if negb (is_used info) then acc
  else
    let '(res1, snap) :=
      _do_sweep delete_ok (snapshot_listing info) local_now
        (snapshot_expire_time_sec cfg) in
    let '(res2, trash) :=
      _do_sweep delete_ok (trash_listing info) local_now
        (trash_expire_of ignore_guard cfg info) in
    let res := if decide (res1 = OK) then acc.1 else res1 in
    let res := if decide (res2 = OK) then res else res2 in
    (res, acc.2 ++ [{| swept_path := path info; snapshot_deleted := snap;
                       trash_deleted := trash |}]).

(** The per-path part of [StorageEngine::start_trash_sweep]: [busy] tells
    that another sweep holds the try-lock, in which case nothing is swept;
    [data_dir_infos] are the dirs in the order the function visits them.
    The clean-up of transactions, metas and remote files that follows the
    loop is outside this model. *)
Definition start_trash_sweep (delete_ok : string → bool) (busy ignore_guard : bool)
    (cfg : SweepConfig) (local_now : Z) (data_dir_infos : list DataDirInfo)
  : Status * list DirSwept :=
  if busy then (OK, [])
  else foldl (sweep_data_dir delete_ok ignore_guard cfg local_now) (OK, []) data_dir_infos.

End StorageEngine.


(** ** Storage engine (C++): stores, listeners and small registries *)

Module StorageEngineStores.
Import MachineInt StorageEngine.
Local Open Scope Z_scope.

(** *** Round robin over the candidate stores *)

Inductive DiskRemainingLevel := LOW | MID | HIGH.

#[global] Instance DiskRemainingLevel_eq_dec : EqDecision DiskRemainingLevel.
Proof. solve_decision. Defined.

(** A [DirInfo], with the two fields the source reads; the data dir is
    named by its path. *)
Record DirInfo := mkDirInfo {
  data_dir : string;
  available_level : DiskRemainingLevel;
}.

#[global] Instance DirInfo_eq_dec : EqDecision DirInfo.
Proof. solve_decision. Defined.

(** Arithmetic in [size_t]. *)
Definition wrap_size (z : Z) : Z := z `mod` 2 ^ 64.

(** The inner [while] of [get_round_robin_stores]: how many of the entries
    that follow have the level [lv]. *)
Fixpoint same_level_run (lv : DiskRemainingLevel) (rest : list DirInfo) : nat :=
  match rest with
  | d :: rest' =>
      if decide (lv = available_level d) then S (same_level_run lv rest') else O
  | [] => O
  end.

(** The [for] over [k] of one range [[i, i + count)]; an index out of
    range, which the source would read past the vector, pushes nothing. *)
Definition push_range (curr_index : Z) (dir_infos : list DirInfo) (i count : nat)
    (stores : list string) : list string :=
  foldl (λ stores k,
           let index := (i + Z.to_nat (wrap_size (Z.of_nat k + curr_index)
                                       `mod` Z.of_nat count))%nat in
           match dir_infos !! index with
           | Some d => stores ++ [data_dir d]
           | None => stores
           end)
        stores (seq 0 count).

(** The outer loop, from index [i]; every turn moves [i] forward, so
    [length dir_infos] turns are enough. *)
Fixpoint round_robin_from (curr_index : Z) (dir_infos : list DirInfo) (turns : nat)
    (i : nat) (stores : list string) : list string :=
  match turns with
  | O => stores
  | S turns' =>
      match dir_infos !! i with
      | None => stores
      | Some first =>
          let end_ := (i + 1 + same_level_run (available_level first)
                                 (drop (i + 1) dir_infos))%nat in
          let count := (end_ - i)%nat in
          round_robin_from curr_index dir_infos turns' end_
            (push_range curr_index dir_infos i count stores)
      end
  end.

(** [get_round_robin_stores]. *)
Definition get_round_robin_stores (curr_index : Z) (dir_infos : list DirInfo)
    (stores : list string) : list string :=
  round_robin_from curr_index dir_infos (length dir_infos) 0 stores.

(** *** Candidate stores *)

(** Modelled from the spec: what [_get_candidate_stores] reads of a
    [DataDir], "health state", "storage medium tag" and "current usage
    fraction"; the class is not part of the sources.  [reach_capacity_limit0]
    and [usage0] are [reach_capacity_limit(0)] and [get_usage(0)]. *)
Record DataDir := mkDataDir {
  dir_path : string;
  dir_is_used : bool;
  dir_storage_medium : TStorageMedium;
  reach_capacity_limit0 : bool;
  usage0 : float;
}.

(** [get_available_level]; the two bounds are the doubles [0.7] and
    [0.85]. *)
Definition get_available_level (disk_usage_percent : float) : DiskRemainingLevel :=
  if PrimFloat.ltb disk_usage_percent 0x1.6666666666666p-1%float then LOW
  else if PrimFloat.ltb disk_usage_percent 0x1.b333333333333p-1%float then MID
  else HIGH.

(** [StorageEngine::_update_storage_medium_type_count], on the stores of
    [_store_map] in the order of the map: the size of the set of the media
    of the used stores. *)
Definition _update_storage_medium_type_count (store_map : list DataDir) : nat :=
  size (foldl (λ (types : gset TStorageMedium) d,
                 if dir_is_used d then {[ dir_storage_medium d ]} ∪ types else types)
              ∅ store_map).

(** [StorageEngine::_get_candidate_stores]. *)
Definition _get_candidate_stores (_available_storage_medium_type_count : nat)
    (storage_medium : TStorageMedium) (store_map : list DataDir)
    (dir_infos : list DirInfo) : list DirInfo :=
  foldl (λ dir_infos d,
           if dir_is_used d then
             if (bool_decide (_available_storage_medium_type_count = 1%nat)
                 || bool_decide (dir_storage_medium d = storage_medium))
                && negb (reach_capacity_limit0 d)
             then dir_infos ++ [{| data_dir := dir_path d;
                                   available_level := get_available_level (usage0 d) |}]
             else dir_infos
           else dir_infos)
        dir_infos store_map.

(** [StorageEngine::get_stores]. *)
Definition get_stores (include_unused : bool) (store_map : list DataDir) : list DataDir :=
  if include_unused then
    foldl (λ stores d, stores ++ [d]) [] store_map
  else
    foldl (λ stores d, if dir_is_used d then stores ++ [d] else stores) [] store_map.

(** *** Cluster id *)

(** Modelled from the spec: the "cluster-id (32-bit signed, [-1] = unset)"
    of a [DataDir] and whether its cluster-id file was missing or empty. *)
Record StoreClusterId := mkStoreClusterId {
  cluster_id : Z;
  cluster_id_incomplete : bool;
}.

Record ClusterIdState := mkClusterIdState {
  cluster_stores : list StoreClusterId;
  _effective_cluster_id : Z;
  _is_all_cluster_id_exist : bool;
}.

Inductive ClusterStatus :=
  | ClusterOK
  | Corruption (one other : Z)
  | StoreError (what : string).

(** [StorageEngine::_judge_and_update_effective_cluster_id]. *)
Definition _judge_and_update_effective_cluster_id (cluster_id : Z) (st : ClusterIdState)
  : ClusterStatus * ClusterIdState :=
  if bool_decide (cluster_id = -1) && bool_decide (_effective_cluster_id st = -1) then
    (ClusterOK, st)
  else if negb (bool_decide (cluster_id = -1))
          && bool_decide (_effective_cluster_id st = -1) then
    (ClusterOK, {| cluster_stores := cluster_stores st;
                   _effective_cluster_id := cluster_id;
                   _is_all_cluster_id_exist := _is_all_cluster_id_exist st |})
  else if bool_decide (cluster_id = -1)
          && negb (bool_decide (_effective_cluster_id st = -1)) then
    (ClusterOK, st)
  else if negb (bool_decide (cluster_id = _effective_cluster_id st)) then
    (Corruption (_effective_cluster_id st) cluster_id, st)
  else (ClusterOK, st).

Section ClusterId.

(** [DataDir::set_cluster_id], which is not part of the sources: the store
    after the call, or the error it returns. *)
Variable store_set_cluster_id : Z → StoreClusterId → string + StoreClusterId.

(** The loop of [StorageEngine::set_cluster_id]: the stores written before
    the first error stay written. *)
Fixpoint set_cluster_id_stores (cluster_id : Z) (stores : list StoreClusterId)
  : option string * list StoreClusterId :=
  match stores with
  | [] => (None, [])
  | s :: rest =>
      match store_set_cluster_id cluster_id s with
      | inl err => (Some err, s :: rest)
      | inr s' =>
          let '(r, rest') := set_cluster_id_stores cluster_id rest in
          (r, s' :: rest')
      end
  end.

(** [StorageEngine::set_cluster_id]. *)
Definition set_cluster_id (cluster_id : Z) (st : ClusterIdState)
  : ClusterStatus * ClusterIdState :=
  match set_cluster_id_stores cluster_id (cluster_stores st) with
  | (Some err, stores') =>
      (StoreError err,
       {| cluster_stores := stores';
          _effective_cluster_id := _effective_cluster_id st;
          _is_all_cluster_id_exist := _is_all_cluster_id_exist st |})
  | (None, stores') =>
      (ClusterOK,
       {| cluster_stores := stores';
          _effective_cluster_id := cluster_id;
          _is_all_cluster_id_exist := true |})
  end.

(** The loop of [_check_all_root_path_cluster_id] over the stores: the local
    [cluster_id] and the flag [_is_all_cluster_id_exist] at the end of the
    loop, or else the two ids that differ and the flag at that point. *)
Fixpoint check_stores (stores : list StoreClusterId) (cluster_id : Z) (all_exist : bool)
  : (Z * Z * bool) + (Z * bool) :=
  match stores with
  | [] => inr (cluster_id, all_exist)
  | s :: rest =>
      let tmp_cluster_id := StorageEngineStores.cluster_id s in
      if cluster_id_incomplete s then check_stores rest cluster_id false
      else if bool_decide (tmp_cluster_id = cluster_id) then
        check_stores rest cluster_id all_exist
      else if bool_decide (cluster_id = -1) then
        check_stores rest tmp_cluster_id all_exist
      else inl (cluster_id, tmp_cluster_id, all_exist)
  end.

(** [StorageEngine::_check_all_root_path_cluster_id]. *)
Definition _check_all_root_path_cluster_id (st : ClusterIdState)
  : ClusterStatus * ClusterIdState :=
  match check_stores (cluster_stores st) (-1) (_is_all_cluster_id_exist st) with
  | inl (one, other, all_exist) =>
      (Corruption one other,
       {| cluster_stores := cluster_stores st;
          _effective_cluster_id := _effective_cluster_id st;
          _is_all_cluster_id_exist := all_exist |})
  | inr (cluster_id, all_exist) =>
      let st1 := {| cluster_stores := cluster_stores st;
                    _effective_cluster_id := _effective_cluster_id st;
                    _is_all_cluster_id_exist := all_exist |} in
      match _judge_and_update_effective_cluster_id cluster_id st1 with
      | (ClusterOK, st2) =>
          if negb (bool_decide (_effective_cluster_id st2 = -1))
             && negb (_is_all_cluster_id_exist st2)
          then set_cluster_id (_effective_cluster_id st2) st2
          else (ClusterOK, st2)
      | r => r
      end
  end.

End ClusterId.

(** *** Report listeners *)

(** A [ReportWorker*]: the pointer is the identity of the worker. *)
Definition ReportWorkerPtr : Type := nat.

(** [StorageEngine::register_report_listener]. *)
Definition register_report_listener (listener : ReportWorkerPtr)
    (_report_listeners : list ReportWorkerPtr) : list ReportWorkerPtr :=
  if bool_decide (listener ∈ _report_listeners) then _report_listeners
  else _report_listeners ++ [listener].

(** [erase] at the position [std::find] returns: the first occurrence. *)
Fixpoint erase_first (listener : ReportWorkerPtr) (l : list ReportWorkerPtr)
  : list ReportWorkerPtr :=
  match l with
  | [] => []
  | x :: l' => if decide (x = listener) then l' else x :: erase_first listener l'
  end.

(** [StorageEngine::deregister_report_listener]. *)
Definition deregister_report_listener (listener : ReportWorkerPtr)
    (_report_listeners : list ReportWorkerPtr) : list ReportWorkerPtr :=
  if bool_decide (listener ∈ _report_listeners)
  then erase_first listener _report_listeners
  else _report_listeners.

(** [StorageEngine::notify_listeners]: the workers notified, in order. *)
Definition notify_listeners (_report_listeners : list ReportWorkerPtr)
  : list ReportWorkerPtr :=
  foldl (λ notified listener, notified ++ [listener]) [] _report_listeners.

(** [StorageEngine::notify_listener]: [found] and the workers notified;
    [name_of] is [ReportWorker::name]. *)
Definition notify_listener (name_of : ReportWorkerPtr → string) (name : string)
    (_report_listeners : list ReportWorkerPtr) : bool * list ReportWorkerPtr :=
  foldl (λ '(found, notified) listener,
           if bool_decide (name_of listener = name)
           then (true, notified ++ [listener])
           else (found, notified))
        (false, []) _report_listeners.

(** *** Unused and querying rowsets *)

(** [StorageEngine::check_rowset_id_in_unused_rowsets]. *)
Definition check_rowset_id_in_unused_rowsets (rowset_id : RowsetId) (st : GcState) : bool :=
  bool_decide (is_Some (_unused_rowsets st !! rowset_id)).

(** *** Broken paths *)

(** [_broken_paths] is a [std::set<std::string>]; [broken_storage_path] is
    the configuration value of that name. *)
Record BrokenPathState := mkBrokenPathState {
  _broken_paths : gset string;
  broken_storage_path : string;
}.

(** [StorageEngine::_persist_broken_paths]: the paths in the order of the
    set, each followed by [;].  [set_config_ok] tells whether
    [config::set_config], which is not part of the sources, accepts the
    value. *)
Definition _persist_broken_paths (set_config_ok : bool) (st : BrokenPathState)
  : BrokenPathState :=
  let config_value :=
    foldl (λ config_value path, config_value +:+ (path +:+ ";"))%string ""%string
          (merge_sort string_le (elements (_broken_paths st))) in
  if (0 <? String.length config_value)%nat && set_config_ok then
    {| _broken_paths := _broken_paths st; broken_storage_path := config_value |}
  else st.

(** [StorageEngine::add_broken_path]. *)
Definition add_broken_path (set_config_ok : bool) (path : string) (st : BrokenPathState)
  : bool * BrokenPathState :=
  let success := negb (bool_decide (path ∈ _broken_paths st)) in
  let st1 := {| _broken_paths := {[ path ]} ∪ _broken_paths st;
                broken_storage_path := broken_storage_path st |} in
  if success then (success, _persist_broken_paths set_config_ok st1) else (success, st).

(** [StorageEngine::remove_broken_path]. *)
Definition remove_broken_path (set_config_ok : bool) (path : string) (st : BrokenPathState)
  : bool * BrokenPathState :=
  let count := if bool_decide (path ∈ _broken_paths st) then 1%nat else 0%nat in
  let st1 := {| _broken_paths := _broken_paths st ∖ {[ path ]};
                broken_storage_path := broken_storage_path st |} in
  if (0 <? count)%nat then (true, _persist_broken_paths set_config_ok st1) else (false, st).

(** *** Low-priority compaction tasks *)

Record TaskConfig := mkTaskConfig {
  enable_compaction_priority_scheduling : bool;
  low_priority_compaction_task_num_per_disk : Z;
}.

(** [_low_priority_task_nums], keyed by the path of the data dir; reading a
    dir that has no entry yet yields the value-initialised [0]. *)
Definition task_nums_of (nums : gmap string Z) (dir : string) : Z :=
  default 0 (nums !! dir).

(** [StorageEngine::_increase_low_priority_task_nums]. *)
Definition _increase_low_priority_task_nums (cfg : TaskConfig) (dir : string)
    (_low_priority_task_nums : gmap string Z) : bool * gmap string Z :=
  if negb (enable_compaction_priority_scheduling cfg) then (true, _low_priority_task_nums)
  else
    let n := task_nums_of _low_priority_task_nums dir in
    if n <? low_priority_compaction_task_num_per_disk cfg then
      (true, <[dir := wrap32 (n + 1)]> _low_priority_task_nums)
    else (false, <[dir := n]> _low_priority_task_nums).

(** [StorageEngine::_decrease_low_priority_task_nums]. *)
Definition _decrease_low_priority_task_nums (cfg : TaskConfig) (dir : string)
    (_low_priority_task_nums : gmap string Z) : gmap string Z :=
  if enable_compaction_priority_scheduling cfg then
    <[dir := wrap32 (task_nums_of _low_priority_task_nums dir - 1)]> _low_priority_task_nums
  else _low_priority_task_nums.

(** *** Peer replicas *)

Record TReplicaInfo := mkTReplicaInfo {
  replica_host : string;
  replica_id : Z;
}.

(** Modelled from the spec: the tablet manager's [get_tablet] is given as
    the map from the id of a tablet that exists to its [replica_id]; the
    manager is not part of the sources. *)
Record PeerState := mkPeerState {
  tablet_replica_id : gmap Z Z;
  _peer_replica_infos : gmap Z TReplicaInfo;
  _token : string;
}.

(** [StorageEngine::get_peer_replica_info]: the values written to [replica]
    and [token] when the call returns [true]. *)
Definition get_peer_replica_info (tablet_id : Z) (st : PeerState)
  : option (TReplicaInfo * string) :=
  match tablet_replica_id st !! tablet_id with
  | None => None
  | Some local_replica =>
      match _peer_replica_infos st !! tablet_id with
      | Some info =>
          if negb (bool_decide (replica_id info = local_replica))
          then Some (info, _token st)
          else None
      | None => None
      end
  end.

(** [StorageEngine::should_fetch_from_peer]. *)
Definition should_fetch_from_peer (tablet_id : Z) (st : PeerState) : bool :=
  match tablet_replica_id st !! tablet_id with
  | None => false
  | Some local_replica =>
      match _peer_replica_infos st !! tablet_id with
      | Some info => negb (bool_decide (replica_id info = local_replica))
      | None => false
      end
  end.

End StorageEngineStores.
(** ** Per-database transaction manager (Java) *)

Module TxnMgr.

(** *** Transactions *)

Inductive TransactionStatus :=
  | UNKNOWN | PREPARE | COMMITTED | VISIBLE | ABORTED | PRECOMMITTED.

#[global] Instance TransactionStatus_eq_dec : EqDecision TransactionStatus.
Proof. solve_decision. Defined.

(** [TransactionStatus.isFinalStatus]: "VISIBLE and ABORTED are final; all
    others are running". *)
Definition isFinalStatus (s : TransactionStatus) : bool :=
  match s with
  | VISIBLE | ABORTED => true
  | _ => false
  end.

(** Modelled from the spec: the load source of a transaction, "FRONTEND,
    BACKEND, ROUTINE_LOAD_TASK, etc."; the enum is declared outside the
    sources. *)
Inductive LoadJobSourceType :=
  | FRONTEND | BACKEND | ROUTINE_LOAD_TASK | OTHER_SOURCE.

#[global] Instance LoadJobSourceType_eq_dec : EqDecision LoadJobSourceType.
Proof. solve_decision. Defined.

(** A thrift [TUniqueId]. *)
Record TUniqueId := mkTUniqueId { hi : Z; lo : Z }.

#[global] Instance TUniqueId_eq_dec : EqDecision TUniqueId.
Proof. solve_decision. Defined.

Record TxnCoordinator := mkTxnCoordinator {
  coord_from_backend : bool;
  coord_ip : string;
}.

(** The attachment a caller hands over with a commit or an abort; opaque. *)
Definition TxnCommitAttachment : Type := Z.

Record PartitionCommitInfo := mkPartitionCommitInfo {
  partitionId : Z;
  partitionRange : string;
  version : Z;
  versionTime : Z;
}.

(** [idToPartitionCommitInfo] is a [HashMap]; the list gives its entries in
    iteration order. *)
Record TableCommitInfo := mkTableCommitInfo {
  tableId : Z;
  idToPartitionCommitInfo : list (Z * PartitionCommitInfo);
}.

(** What the manager reads of a [PublishVersionTask]: the two tablet
    reports are nullable. *)
Record PublishVersionTask := mkPublishVersionTask {
  isFinished : bool;
  getSuccTablets : option (gmap Z Z);
  getErrorTablets : option (list Z);
}.

(** The messages that [setErrorMsg] records, by their arguments. *)
Inductive ErrMsg :=
  | WaitForPublishing (partition_id next_visible self_version table_id : Z)
  | PublishFailed (tablet_id succ_num required_num table_id partition_id
                   publish_version : Z).

#[global] Instance ErrMsg_eq_dec : EqDecision ErrMsg.
Proof. solve_decision. Defined.

(** The fields of a [TransactionState] that its constructor fixes. *)
Record TxnHeader := mkTxnHeader {
  dbId : Z;
  tableIdList : list Z;
  transactionId : Z;
  label : string;
  requestId : option TUniqueId;
  sourceType : LoadJobSourceType;
  coordinator : TxnCoordinator;
  callbackId : Z;
  timeoutMs : Z;
  isPartialUpdate : bool;
  loadedTblIndexes : gmap Z (list Z);
}.

(** A [TransactionState] object: the header and the fields the manager
    rewrites. *)
Record TransactionState := mkTransactionState {
  header : TxnHeader;
  transactionStatus : TransactionStatus;
  prepareTime : Z;
  preCommitTime : Z;
  commitTime : Z;
  finishTime : Z;
  firstPublishVersionTime : Z;
  lastPublishLogTime : Z;
  reason : string;
  errMsg : option ErrMsg;
  errorReplicas : gset Z;
  idToTableCommitInfos : list (Z * TableCommitInfo);
  publishVersionTasks : gmap Z (option PublishVersionTask);
  txnCommitAttachment : option TxnCommitAttachment;
  publishTimeoutProlonged : bool;
}.

Definition setTransactionStatus (v : TransactionStatus) (t : TransactionState) : TransactionState :=
  {| header := header t; transactionStatus := v;
     prepareTime := prepareTime t; preCommitTime := preCommitTime t;
     commitTime := commitTime t; finishTime := finishTime t;
     firstPublishVersionTime := firstPublishVersionTime t;
     lastPublishLogTime := lastPublishLogTime t; reason := reason t;
     errMsg := errMsg t; errorReplicas := errorReplicas t;
     idToTableCommitInfos := idToTableCommitInfos t;
     publishVersionTasks := publishVersionTasks t;
     txnCommitAttachment := txnCommitAttachment t;
     publishTimeoutProlonged := publishTimeoutProlonged t |}.

Definition setPrepareTime (v : Z) (t : TransactionState) : TransactionState :=
  {| header := header t; transactionStatus := transactionStatus t;
     prepareTime := v; preCommitTime := preCommitTime t;
     commitTime := commitTime t; finishTime := finishTime t;
     firstPublishVersionTime := firstPublishVersionTime t;
     lastPublishLogTime := lastPublishLogTime t; reason := reason t;
     errMsg := errMsg t; errorReplicas := errorReplicas t;
     idToTableCommitInfos := idToTableCommitInfos t;
     publishVersionTasks := publishVersionTasks t;
     txnCommitAttachment := txnCommitAttachment t;
     publishTimeoutProlonged := publishTimeoutProlonged t |}.

Definition setPreCommitTime (v : Z) (t : TransactionState) : TransactionState :=
  {| header := header t; transactionStatus := transactionStatus t;
     prepareTime := prepareTime t; preCommitTime := v;
     commitTime := commitTime t; finishTime := finishTime t;
     firstPublishVersionTime := firstPublishVersionTime t;
     lastPublishLogTime := lastPublishLogTime t; reason := reason t;
     errMsg := errMsg t; errorReplicas := errorReplicas t;
     idToTableCommitInfos := idToTableCommitInfos t;
     publishVersionTasks := publishVersionTasks t;
     txnCommitAttachment := txnCommitAttachment t;
     publishTimeoutProlonged := publishTimeoutProlonged t |}.

Definition setCommitTime (v : Z) (t : TransactionState) : TransactionState :=
  {| header := header t; transactionStatus := transactionStatus t;
     prepareTime := prepareTime t; preCommitTime := preCommitTime t;
     commitTime := v; finishTime := finishTime t;
     firstPublishVersionTime := firstPublishVersionTime t;
     lastPublishLogTime := lastPublishLogTime t; reason := reason t;
     errMsg := errMsg t; errorReplicas := errorReplicas t;
     idToTableCommitInfos := idToTableCommitInfos t;
     publishVersionTasks := publishVersionTasks t;
     txnCommitAttachment := txnCommitAttachment t;
     publishTimeoutProlonged := publishTimeoutProlonged t |}.

Definition setFinishTime (v : Z) (t : TransactionState) : TransactionState :=
  {| header := header t; transactionStatus := transactionStatus t;
     prepareTime := prepareTime t; preCommitTime := preCommitTime t;
     commitTime := commitTime t; finishTime := v;
     firstPublishVersionTime := firstPublishVersionTime t;
     lastPublishLogTime := lastPublishLogTime t; reason := reason t;
     errMsg := errMsg t; errorReplicas := errorReplicas t;
     idToTableCommitInfos := idToTableCommitInfos t;
     publishVersionTasks := publishVersionTasks t;
     txnCommitAttachment := txnCommitAttachment t;
     publishTimeoutProlonged := publishTimeoutProlonged t |}.

Definition setLastPublishLogTime (v : Z) (t : TransactionState) : TransactionState :=
  {| header := header t; transactionStatus := transactionStatus t;
     prepareTime := prepareTime t; preCommitTime := preCommitTime t;
     commitTime := commitTime t; finishTime := finishTime t;
     firstPublishVersionTime := firstPublishVersionTime t;
     lastPublishLogTime := v; reason := reason t; errMsg := errMsg t;
     errorReplicas := errorReplicas t;
     idToTableCommitInfos := idToTableCommitInfos t;
     publishVersionTasks := publishVersionTasks t;
     txnCommitAttachment := txnCommitAttachment t;
     publishTimeoutProlonged := publishTimeoutProlonged t |}.

Definition setReason (v : string) (t : TransactionState) : TransactionState :=
  {| header := header t; transactionStatus := transactionStatus t;
     prepareTime := prepareTime t; preCommitTime := preCommitTime t;
     commitTime := commitTime t; finishTime := finishTime t;
     firstPublishVersionTime := firstPublishVersionTime t;
     lastPublishLogTime := lastPublishLogTime t; reason := v;
     errMsg := errMsg t; errorReplicas := errorReplicas t;
     idToTableCommitInfos := idToTableCommitInfos t;
     publishVersionTasks := publishVersionTasks t;
     txnCommitAttachment := txnCommitAttachment t;
     publishTimeoutProlonged := publishTimeoutProlonged t |}.

Definition setErrMsg (v : option ErrMsg) (t : TransactionState) : TransactionState :=
  {| header := header t; transactionStatus := transactionStatus t;
     prepareTime := prepareTime t; preCommitTime := preCommitTime t;
     commitTime := commitTime t; finishTime := finishTime t;
     firstPublishVersionTime := firstPublishVersionTime t;
     lastPublishLogTime := lastPublishLogTime t; reason := reason t;
     errMsg := v; errorReplicas := errorReplicas t;
     idToTableCommitInfos := idToTableCommitInfos t;
     publishVersionTasks := publishVersionTasks t;
     txnCommitAttachment := txnCommitAttachment t;
     publishTimeoutProlonged := publishTimeoutProlonged t |}.

Definition setErrorReplicas (v : gset Z) (t : TransactionState) : TransactionState :=
  {| header := header t; transactionStatus := transactionStatus t;
     prepareTime := prepareTime t; preCommitTime := preCommitTime t;
     commitTime := commitTime t; finishTime := finishTime t;
     firstPublishVersionTime := firstPublishVersionTime t;
     lastPublishLogTime := lastPublishLogTime t; reason := reason t;
     errMsg := errMsg t; errorReplicas := v;
     idToTableCommitInfos := idToTableCommitInfos t;
     publishVersionTasks := publishVersionTasks t;
     txnCommitAttachment := txnCommitAttachment t;
     publishTimeoutProlonged := publishTimeoutProlonged t |}.

Definition setIdToTableCommitInfos (v : list (Z * TableCommitInfo)) (t : TransactionState) : TransactionState :=
  {| header := header t; transactionStatus := transactionStatus t;
     prepareTime := prepareTime t; preCommitTime := preCommitTime t;
     commitTime := commitTime t; finishTime := finishTime t;
     firstPublishVersionTime := firstPublishVersionTime t;
     lastPublishLogTime := lastPublishLogTime t; reason := reason t;
     errMsg := errMsg t; errorReplicas := errorReplicas t;
     idToTableCommitInfos := v; publishVersionTasks := publishVersionTasks t;
     txnCommitAttachment := txnCommitAttachment t;
     publishTimeoutProlonged := publishTimeoutProlonged t |}.

Definition setPublishVersionTasks (v : gmap Z (option PublishVersionTask)) (t : TransactionState) : TransactionState :=
  {| header := header t; transactionStatus := transactionStatus t;
     prepareTime := prepareTime t; preCommitTime := preCommitTime t;
     commitTime := commitTime t; finishTime := finishTime t;
     firstPublishVersionTime := firstPublishVersionTime t;
     lastPublishLogTime := lastPublishLogTime t; reason := reason t;
     errMsg := errMsg t; errorReplicas := errorReplicas t;
     idToTableCommitInfos := idToTableCommitInfos t;
     publishVersionTasks := v; txnCommitAttachment := txnCommitAttachment t;
     publishTimeoutProlonged := publishTimeoutProlonged t |}.

Definition setTxnCommitAttachmentOpt (v : option TxnCommitAttachment) (t : TransactionState) : TransactionState :=
  {| header := header t; transactionStatus := transactionStatus t;
     prepareTime := prepareTime t; preCommitTime := preCommitTime t;
     commitTime := commitTime t; finishTime := finishTime t;
     firstPublishVersionTime := firstPublishVersionTime t;
     lastPublishLogTime := lastPublishLogTime t; reason := reason t;
     errMsg := errMsg t; errorReplicas := errorReplicas t;
     idToTableCommitInfos := idToTableCommitInfos t;
     publishVersionTasks := publishVersionTasks t; txnCommitAttachment := v;
     publishTimeoutProlonged := publishTimeoutProlonged t |}.

Definition setPublishTimeoutProlonged (v : bool) (t : TransactionState) : TransactionState :=
  {| header := header t; transactionStatus := transactionStatus t;
     prepareTime := prepareTime t; preCommitTime := preCommitTime t;
     commitTime := commitTime t; finishTime := finishTime t;
     firstPublishVersionTime := firstPublishVersionTime t;
     lastPublishLogTime := lastPublishLogTime t; reason := reason t;
     errMsg := errMsg t; errorReplicas := errorReplicas t;
     idToTableCommitInfos := idToTableCommitInfos t;
     publishVersionTasks := publishVersionTasks t;
     txnCommitAttachment := txnCommitAttachment t;
     publishTimeoutProlonged := v |}.
Definition getTransactionId (t : TransactionState) : Z := transactionId (header t).
Definition getLabel (t : TransactionState) : string := label (header t).
Definition getSourceType (t : TransactionState) : LoadJobSourceType := sourceType (header t).
Definition getRequestId (t : TransactionState) : option TUniqueId := requestId (header t).

(** [HashMap.put] on a map kept as a list of entries. *)
Fixpoint assoc_put {V} (k : Z) (v : V) (l : list (Z * V)) : list (Z * V) :=
  match l with
  | [] => [(k, v)]
  | (k', v') :: l' => if decide (k' = k) then (k, v) :: l' else (k', v') :: assoc_put k v l'
  end.

Fixpoint assoc_get {V} (k : Z) (l : list (Z * V)) : option V :=
  match l with
  | [] => None
  | (k', v') :: l' => if decide (k' = k) then Some v' else assoc_get k l'
  end.

(** *** The catalog *)

Inductive ReplicaState := REPLICA_NORMAL | REPLICA_ALTER | REPLICA_OTHER.

#[global] Instance ReplicaState_eq_dec : EqDecision ReplicaState.
Proof. solve_decision. Defined.

Record Replica := mkReplica {
  replica_id : Z;
  backendId : Z;
  replica_version : Z;
  lastFailedVersion : Z;
  lastSuccessVersion : Z;
  replica_state : ReplicaState;
}.

#[global] Instance Replica_eq_dec : EqDecision Replica.
Proof. solve_decision. Defined.

Record Tablet := mkTablet {
  tablet_id : Z;
  replicas : list Replica;
}.

Record MaterializedIndex := mkMaterializedIndex {
  index_id : Z;
  tablets : list Tablet;
}.

Record Partition := mkPartition {
  partition_id : Z;
  visibleVersion : Z;
  visibleVersionTime : Z;
  nextVersion : Z;
  (** [getMaterializedIndices(IndexExtState.ALL)] *)
  materializedIndices : list MaterializedIndex;
}.

Inductive OlapTableState :=
  | TABLE_NORMAL | TABLE_ROLLUP | TABLE_SCHEMA_CHANGE | TABLE_RESTORE | TABLE_OTHER.

#[global] Instance OlapTableState_eq_dec : EqDecision OlapTableState.
Proof. solve_decision. Defined.

Record OlapTable := mkOlapTable {
  table_id : Z;
  table_name : string;
  table_state : OlapTableState;
  (** [getAllPartitions()], in iteration order *)
  partitions : list Partition;
  (** [getLoadRequiredReplicaNum(partitionId)] *)
  loadRequiredReplicaNum : Z → Z;
  (** the range or list items of a partition, printed; empty for an
      unpartitioned table *)
  partitionRangeOf : Z → string;
}.

Record Database := mkDatabase {
  db_id : Z;
  db_fullName : string;
  idToTable : gmap Z OlapTable;
  dataQuota : Z;
  usedDataQuotaWithLock : Z;
  transactionQuotaSize : Z;
  (** what [InternalDatabaseUtil.checkDatabase] decides for the caller *)
  db_access_ok : bool;
}.

Definition getPartition (table : OlapTable) (partitionId : Z) : option Partition :=
  snd <$> list_find (λ p, partition_id p = partitionId) (partitions table).

Definition getIndex (partition : Partition) (indexId : Z) : option MaterializedIndex :=
  snd <$> list_find (λ i, index_id i = indexId) (materializedIndices partition).

Definition getTableNullable (db : Database) (tableId : Z) : option OlapTable :=
  idToTable db !! tableId.

Record TabletMeta := mkTabletMeta {
  tm_tableId : Z;
  tm_partitionId : Z;
}.

(** [TabletInvertedIndex]: tablet id to meta, and (tablet id, backend id) to
    replica. *)
Record TabletInvertedIndex := mkTabletInvertedIndex {
  tabletMetaMap : gmap Z TabletMeta;
  replicaMetaTable : gmap (Z * Z) Replica;
}.

Definition getReplica (idx : TabletInvertedIndex) (tabletId backend : Z) : option Replica :=
  replicaMetaTable idx !! (tabletId, backend).

(** An unfinished alter job, by its watershed transaction id. *)
Record AlterJobV2 := mkAlterJobV2 { watershedTxnId : Z }.

Record Config := mkConfig {
  publish_wait_time_second : Z;
  publish_version_check_alter_replica : bool;
  publish_fail_log_interval_second : Z;
  label_num_threshold : Z;
}.

(** Everything outside the manager that an operation reads: the catalog,
    the inverted index, the alter handlers, the configuration. *)
Record Env := mkEnv {
  idToDb : gmap Z Database;
  tabletInvertedIndex : TabletInvertedIndex;
  (** [getUnfinishedAlterJobV2ByTableId] of the schema change handler and of
      the materialized view handler *)
  schemaChangeJobs : Z → list AlterJobV2;
  rollupJobs : Z → list AlterJobV2;
  config : Config;
}.

Definition setIdToDb (dbs : gmap Z Database) (env : Env) : Env :=
  {| idToDb := dbs; tabletInvertedIndex := tabletInvertedIndex env;
     schemaChangeJobs := schemaChangeJobs env; rollupJobs := rollupJobs env;
     config := config env |}.

(** Methods of [TransactionState], [Replica], [FeNameFormat] and the
    state-change listeners that the manager calls and whose bodies are not
    part of the sources. *)
Class Collaborators := {
  isExpired : TransactionState → Z → bool;
  isTimeout : TransactionState → Z → bool;
  isShortTxn : TransactionState → bool;
  checkSchemaCompatibility : TransactionState → OlapTable → bool;
  checkVersionCatchUp : Replica → Z → bool → bool;
  updateVersionWithFailedInfo : Replica → Z → Z → Z → Replica;
  updateLastFailedVersion : Replica → Z → Replica;
  checkLabel : string → bool;
  (** [beforeStateTransform]: [false] when the listener throws *)
  beforeStateTransform : TransactionState → TransactionStatus → bool;
}.

(** Why a [TransactionCommitFailedException] is thrown. *)
Inductive CommitFailure :=
  | TxnNotFound
  | TxnAlreadyAborted
  | TxnAlreadyVisible
  | TxnAlreadyCommitted
  | TxnAlreadyVisibleNotPreCommitted
  | TxnAlreadyCommittedNotPreCommitted
  | TxnIsPrepareNotPreCommitted
  | SchemaCompatibilityFailed
  | ReplicaNotFound (tablet_id backend_id : Z).

#[global] Instance CommitFailure_eq_dec : EqDecision CommitFailure.
Proof. solve_decision. Defined.

Inductive Exception :=
  | MetaNotFoundException
  | AnalysisException
  | QuotaExceedException
  | NullPointerException
  | IllegalStateException
  | DuplicatedRequestException (request : TUniqueId) (txn_id : Z)
  | LabelAlreadyUsedException (txn_id : Z)
  | BeginTransactionException
  | TransactionCommitFailedException (why : CommitFailure)
  | TabletQuorumFailedException (txn_id tablet_id succ_num required_num : Z)
  | LoadException
  | TransactionNotFoundException
  | TransactionException
  | UserException.

#[global] Instance Exception_eq_dec : EqDecision Exception.
Proof. solve_decision. Defined.

(** How a call ends: a normal return or a thrown exception.  Either way
    the state the call leaves behind is reported next to it. *)
Inductive Outcome (A : Type) :=
  | Returned (a : A)
  | Thrown (e : Exception).
Arguments Returned {A} a.
Arguments Thrown {A} e.

(** *** The manager *)

Inductive EditLogEntry :=
  | LogInsertTransactionState (t : TransactionState)
  | LogBatchRemoveTransactions (db latestTxnIdForShort latestTxnIdForLong : Z).

(** The fields of a [DatabaseTransactionMgr].  [TransactionState] objects are
    shared between the indexes and mutated in place, so they live in
    [txnObjects], addressed by the transaction id they were created with;
    [idToRunningTransactionState] and [idToFinalStatusTransactionState] keep
    the key sets of the two maps (the value at a key is the object of that
    id), and the two deques hold references. *)
Record Mgr := mkMgr {
  mgr_dbId : Z;
  txnObjects : gmap Z TransactionState;
  idToRunningTransactionState : gset Z;
  idToFinalStatusTransactionState : gset Z;
  finalStatusTransactionStateDequeShort : list Z;
  finalStatusTransactionStateDequeLong : list Z;
  labelToTxnIds : gmap string (gset Z);
  runningTxnNums : Z;
  runningRoutineLoadTxnNums : Z;
  (** Modelled from the spec: "allocate txn_id from a monotonic generator";
      the generator class is not part of the sources.  The field is the last
      id handed out. *)
  idGenerator : Z;
  usedQuotaDataBytes : Z;
  maxFinalTxnsNum : Z;
  editLog : list EditLogEntry;
}.

Definition MAX_REMOVE_TXN_PER_ROUND : Z := 10000.

(** A write to a field of a [TransactionState] object already in the store. *)
Definition storeTxn (t : TransactionState) (m : Mgr) : Mgr :=
  {| mgr_dbId := mgr_dbId m;
     txnObjects := <[getTransactionId t := t]> (txnObjects m);
     idToRunningTransactionState := idToRunningTransactionState m;
     idToFinalStatusTransactionState := idToFinalStatusTransactionState m;
     finalStatusTransactionStateDequeShort := finalStatusTransactionStateDequeShort m;
     finalStatusTransactionStateDequeLong := finalStatusTransactionStateDequeLong m;
     labelToTxnIds := labelToTxnIds m;
     runningTxnNums := runningTxnNums m;
     runningRoutineLoadTxnNums := runningRoutineLoadTxnNums m;
     idGenerator := idGenerator m;
     usedQuotaDataBytes := usedQuotaDataBytes m;
     maxFinalTxnsNum := maxFinalTxnsNum m;
     editLog := editLog m |}.

(** [unprotectedGetTransactionState]. *)
Definition unprotectedGetTransactionState (transactionId : Z) (m : Mgr)
  : option TransactionState :=
  if decide (transactionId ∈ idToRunningTransactionState m)
  then txnObjects m !! transactionId
  else if decide (transactionId ∈ idToFinalStatusTransactionState m)
       then txnObjects m !! transactionId
       else None.

(** [unprotectedGetTxnIdsByLabel]. *)
Definition unprotectedGetTxnIdsByLabel (label : string) (m : Mgr) : option (gset Z) :=
  labelToTxnIds m !! label.

(** [updateTxnLabels], on the index alone. *)
Definition updateTxnLabels (t : TransactionState) (labels : gmap string (gset Z))
  : gmap string (gset Z) :=
  <[getLabel t := default ∅ (labels !! getLabel t) ∪ {[getTransactionId t]}]> labels.

Section Operations.
Context `{Collaborators}.

(** [unprotectUpsertTransactionState]. *)
Definition unprotectUpsertTransactionState (t : TransactionState) (isReplay : bool)
    (m : Mgr) : Mgr :=
  let id := getTransactionId t in
  let routine := bool_decide (getSourceType t = ROUTINE_LOAD_TASK) in
  let log :=
    if negb isReplay
       && (negb (bool_decide (transactionStatus t = PREPARE))
           || bool_decide (getSourceType t = FRONTEND))
    then editLog m ++ [LogInsertTransactionState t]
    else editLog m in
  let was_running := bool_decide (id ∈ idToRunningTransactionState m) in
  if negb (isFinalStatus (transactionStatus t)) then
    {| mgr_dbId := mgr_dbId m;
       txnObjects := <[id := t]> (txnObjects m);
       idToRunningTransactionState := idToRunningTransactionState m ∪ {[id]};
       idToFinalStatusTransactionState := idToFinalStatusTransactionState m;
       finalStatusTransactionStateDequeShort := finalStatusTransactionStateDequeShort m;
       finalStatusTransactionStateDequeLong := finalStatusTransactionStateDequeLong m;
       labelToTxnIds := updateTxnLabels t (labelToTxnIds m);
       runningTxnNums :=
         if negb was_running && negb routine
         then wrap32 (runningTxnNums m + 1) else runningTxnNums m;
       runningRoutineLoadTxnNums :=
         if negb was_running && routine
         then wrap32 (runningRoutineLoadTxnNums m + 1) else runningRoutineLoadTxnNums m;
       idGenerator := idGenerator m;
       usedQuotaDataBytes := usedQuotaDataBytes m;
       maxFinalTxnsNum := maxFinalTxnsNum m;
       editLog := log |}
  else
    {| mgr_dbId := mgr_dbId m;
       txnObjects := <[id := t]> (txnObjects m);
       idToRunningTransactionState := idToRunningTransactionState m ∖ {[id]};
       idToFinalStatusTransactionState := idToFinalStatusTransactionState m ∪ {[id]};
       finalStatusTransactionStateDequeShort :=
         if isShortTxn t then finalStatusTransactionStateDequeShort m ++ [id]
         else finalStatusTransactionStateDequeShort m;
       finalStatusTransactionStateDequeLong :=
         if isShortTxn t then finalStatusTransactionStateDequeLong m
         else finalStatusTransactionStateDequeLong m ++ [id];
       labelToTxnIds := updateTxnLabels t (labelToTxnIds m);
       runningTxnNums :=
         if was_running && negb routine
         then wrap32 (runningTxnNums m - 1) else runningTxnNums m;
       runningRoutineLoadTxnNums :=
         if was_running && routine
         then wrap32 (runningRoutineLoadTxnNums m - 1) else runningRoutineLoadTxnNums m;
       idGenerator := idGenerator m;
       usedQuotaDataBytes := usedQuotaDataBytes m;
       maxFinalTxnsNum := maxFinalTxnsNum m;
       editLog := log |}.

(** *** Finish (publish) *)

Inductive PublishResult := FAILED | TIMEOUT_SUCC | QUORUM_SUCC.

#[global] Instance PublishResult_eq_dec : EqDecision PublishResult.
Proof. solve_decision. Defined.

(** The three lists a quorum check fills for one tablet. *)
Record ReplicaTally := mkReplicaTally {
  tabletSuccReplicas : list Replica;
  tabletWriteFailedReplicas : list Replica;
  tabletVersionFailedReplicas : list Replica;
}.

Definition emptyTally : ReplicaTally :=
  {| tabletSuccReplicas := []; tabletWriteFailedReplicas := [];
     tabletVersionFailedReplicas := [] |}.

Definition addSucc (r : Replica) (t : ReplicaTally) : ReplicaTally :=
  {| tabletSuccReplicas := tabletSuccReplicas t ++ [r];
     tabletWriteFailedReplicas := tabletWriteFailedReplicas t;
     tabletVersionFailedReplicas := tabletVersionFailedReplicas t |}.

Definition addWriteFailed (r : Replica) (t : ReplicaTally) : ReplicaTally :=
  {| tabletSuccReplicas := tabletSuccReplicas t;
     tabletWriteFailedReplicas := tabletWriteFailedReplicas t ++ [r];
     tabletVersionFailedReplicas := tabletVersionFailedReplicas t |}.

Definition addVersionFailed (r : Replica) (t : ReplicaTally) : ReplicaTally :=
  {| tabletSuccReplicas := tabletSuccReplicas t;
     tabletWriteFailedReplicas := tabletWriteFailedReplicas t;
     tabletVersionFailedReplicas := tabletVersionFailedReplicas t ++ [r] |}.

(** The first statement of [checkReplicaContinuousVersionSucc]: what the
    publish task of the replica's backend does to [errorReplicaIds]. *)
Definition applyPublishTask (tabletId : Z) (replica : Replica)
    (backendPublishTask : option PublishVersionTask) (errorReplicaIds : gset Z)
  : gset Z :=
  match backendPublishTask with
  | None => errorReplicaIds ∪ {[replica_id replica]}
  | Some task =>
      if negb (isFinished task) then errorReplicaIds ∪ {[replica_id replica]}
      else
        match getSuccTablets task with
        | Some backendSuccTablets =>
            if decide (is_Some (backendSuccTablets !! tabletId))
            then errorReplicaIds ∖ {[replica_id replica]}
            else errorReplicaIds ∪ {[replica_id replica]}
        | None =>
            match getErrorTablets task with
            | Some backendErrorTablets =>
                if decide (tabletId ∈ backendErrorTablets)
                then errorReplicaIds ∪ {[replica_id replica]}
                else errorReplicaIds
            | None => errorReplicaIds
            end
        end
  end.

(** [checkReplicaContinuousVersionSucc]: the set and the three lists go in
    and come out. *)
Definition checkReplicaContinuousVersionSucc (cfg : Config) (tabletId : Z)
    (replica : Replica) (alterReplicaLoadedTxn : bool) (version : Z)
    (backendPublishTask : option PublishVersionTask)
    (acc : gset Z * ReplicaTally) : gset Z * ReplicaTally :=
  let errorReplicaIds := applyPublishTask tabletId replica backendPublishTask acc.1 in
  let errorReplicaIds :=
    if bool_decide (replica_state replica = REPLICA_ALTER)
       && (negb alterReplicaLoadedTxn || negb (publish_version_check_alter_replica cfg))
    then errorReplicaIds ∖ {[replica_id replica]}
    else errorReplicaIds in
  if decide (replica_id replica ∉ errorReplicaIds) then
    if checkVersionCatchUp replica (wrap64 (version - 1)) true
    then (errorReplicaIds, addSucc replica acc.2)
    else (errorReplicaIds, addVersionFailed replica acc.2)
  else if version <=? replica_version replica then
    (errorReplicaIds ∖ {[replica_id replica]}, addSucc replica acc.2)
  else (errorReplicaIds, addWriteFailed replica acc.2).

(** [isAlterReplicaLoadedTxn]. *)
Definition isAlterReplicaLoadedTxn (env : Env) (transactionId : Z) (table : OlapTable)
  : bool :=
  match table_state table with
  | TABLE_SCHEMA_CHANGE =>
      forallb (λ job, watershedTxnId job <? transactionId) (schemaChangeJobs env (table_id table))
  | TABLE_ROLLUP =>
      forallb (λ job, watershedTxnId job <? transactionId) (rollupJobs env (table_id table))
  | _ => true
  end.

(** The indices a check walks for a partition: all of them, or those the
    transaction loaded; [None] is the [NullPointerException] of a loaded-index
    map without an entry for the table. *)
Definition allIndicesOf (t : TransactionState) (tableId : Z) (partition : Partition)
  : option (list MaterializedIndex) :=
  if decide (loadedTblIndexes (header t) = ∅) then Some (materializedIndices partition)
  else
    match loadedTblIndexes (header t) !! tableId with
    | None => None
    | Some indexIds => Some (omap (getIndex partition) indexIds)
    end.

(** What the quorum check found for one tablet. *)
Record TabletCheck := mkTabletCheck {
  tc_tabletId : Z;
  tc_tally : ReplicaTally;
  tc_required : Z;
}.

Definition healthReplicaNum (c : TabletCheck) : Z :=
  Z.of_nat (length (tabletSuccReplicas (tc_tally c))).

(** The variables of the loops of [finishCheckQuorumReplicas]; [ql_checks]
    keeps the tally of every tablet visited, in order. *)
Record QuorumLoop := mkQuorumLoop {
  ql_errorReplicaIds : gset Z;
  ql_publishResult : PublishResult;
  ql_errMsg : option ErrMsg;
  ql_checks : list TabletCheck;
}.

(** [allowPublishOneSucc]. *)
Definition allowPublishOneSucc (cfg : Config) (now : Z) (t : TransactionState) : bool :=
  (0 <? publish_wait_time_second cfg)
  && (0 <? firstPublishVersionTime t)
  && (wrap64 (firstPublishVersionTime t + wrap64 (publish_wait_time_second cfg * 1000))
      <=? now).

(** The body of the loop over the tablets of an index. *)
Definition checkTabletQuorum (cfg : Config) (allow : bool)
    (tableId partitionId newVersion loadRequiredReplicaNum : Z)
    (alterReplicaLoadedTxn : bool)
    (publishTasks : gmap Z (option PublishVersionTask))
    (st : QuorumLoop) (tablet : Tablet) : QuorumLoop :=
  let '(errs, tally) :=
    foldl (λ acc replica,
             checkReplicaContinuousVersionSucc cfg (tablet_id tablet) replica
               alterReplicaLoadedTxn newVersion
               (mjoin (publishTasks !! backendId replica)) acc)
          (ql_errorReplicaIds st, emptyTally) (replicas tablet) in
  let check := {| tc_tabletId := tablet_id tablet; tc_tally := tally;
                  tc_required := loadRequiredReplicaNum |} in
  let healthReplicaNum := Z.of_nat (length (tabletSuccReplicas tally)) in
  if loadRequiredReplicaNum <=? healthReplicaNum then
    {| ql_errorReplicaIds := errs; ql_publishResult := ql_publishResult st;
       ql_errMsg := ql_errMsg st; ql_checks := ql_checks st ++ [check] |}
  else if allow && (0 <? healthReplicaNum) then
    {| ql_errorReplicaIds := errs;
       ql_publishResult :=
         if decide (ql_publishResult st = QUORUM_SUCC) then TIMEOUT_SUCC
         else ql_publishResult st;
       ql_errMsg := ql_errMsg st; ql_checks := ql_checks st ++ [check] |}
  else
    {| ql_errorReplicaIds := errs; ql_publishResult := FAILED;
       ql_errMsg := Some (PublishFailed (tablet_id tablet) healthReplicaNum
                            loadRequiredReplicaNum tableId partitionId newVersion);
       ql_checks := ql_checks st ++ [check] |}.

(** The body of the loop over [relatedTblPartitions]; [None] is the
    [NullPointerException] of [allIndicesOf]. *)
Definition checkPartitionQuorum (env : Env) (allow : bool) (t : TransactionState)
    (st : QuorumLoop) (tp : OlapTable * Partition) : option QuorumLoop :=
  let table := tp.1 in
  let partition := tp.2 in
  let newVersion := wrap64 (visibleVersion partition + 1) in
  let loadRequiredReplicaNum := loadRequiredReplicaNum table (partition_id partition) in
  match allIndicesOf t (table_id table) partition with
  | None => None
  | Some allIndices =>
      let alterReplicaLoadedTxn := isAlterReplicaLoadedTxn env (getTransactionId t) table in
      Some (foldl (λ st index,
                     foldl (checkTabletQuorum (config env) allow (table_id table)
                              (partition_id partition) newVersion loadRequiredReplicaNum
                              alterReplicaLoadedTxn (publishVersionTasks t))
                           st (tablets index))
                  st allIndices)
  end.

Fixpoint checkPartitionsQuorum (env : Env) (allow : bool) (t : TransactionState)
    (st : QuorumLoop) (pairs : list (OlapTable * Partition)) : QuorumLoop * bool :=
  match pairs with
  | [] => (st, true)
  | tp :: rest =>
      match checkPartitionQuorum env allow t st tp with
      | None => (st, false)
      | Some st' => checkPartitionsQuorum env allow t st' rest
      end
  end.

(** [finishCheckQuorumReplicas].  [errorReplicaIds] is the transaction's own
    set, so the transaction comes back with it rewritten, together with the
    tallies of the tablets visited and the verdict. *)
Definition finishCheckQuorumReplicas (env : Env) (now : Z) (t : TransactionState)
    (relatedTblPartitions : list (OlapTable * Partition))
  : TransactionState * list TabletCheck * Outcome PublishResult :=
  let allow := allowPublishOneSucc (config env) now t in
  let '(st, completed) :=
    checkPartitionsQuorum env allow t
      {| ql_errorReplicaIds := errorReplicas t; ql_publishResult := QUORUM_SUCC;
         ql_errMsg := errMsg t; ql_checks := [] |}
      relatedTblPartitions in
  let t := setErrMsg (ql_errMsg st) (setErrorReplicas (ql_errorReplicaIds st) t) in
  if completed then
    let needLog :=
      negb (bool_decide (ql_publishResult st = FAILED))
      || (wrap64 (publish_fail_log_interval_second (config env) * 1000)
          <? wrap64 (now - lastPublishLogTime t)) in
    let t := if needLog then setLastPublishLogTime now t else t in
    (t, ql_checks st, Returned (ql_publishResult st))
  else (t, ql_checks st, Thrown NullPointerException).

(** The loop of [finishCheckPartitionVersion] over the partition commit
    infos of one table: the entries kept, the partitions found, and the
    message of the partition that has to wait, if any. *)
Fixpoint checkPartitionVersions (table : OlapTable)
    (infos : list (Z * PartitionCommitInfo))
  : list (Z * PartitionCommitInfo) * list (OlapTable * Partition) * option ErrMsg :=
  match infos with
  | [] => ([], [], None)
  | (key, info) :: rest =>
      match getPartition table (partitionId info) with
      | None => checkPartitionVersions table rest
      | Some partition =>
          if decide (visibleVersion partition ≠ wrap64 (version info - 1)) then
            ((key, info) :: rest, [],
             Some (WaitForPublishing (partitionId info)
                     (wrap64 (visibleVersion partition + 1)) (version info)
                     (table_id table)))
          else
            let '(kept, related, wait) := checkPartitionVersions table rest in
            ((key, info) :: kept, (table, partition) :: related, wait)
      end
  end.

(** The loop of [finishCheckPartitionVersion] over the table commit infos. *)
Fixpoint checkTableVersions (db : Database) (infos : list (Z * TableCommitInfo))
  : list (Z * TableCommitInfo) * list (OlapTable * Partition) * option ErrMsg :=
  match infos with
  | [] => ([], [], None)
  | (key, info) :: rest =>
      match getTableNullable db (tableId info) with
      | None => checkTableVersions db rest
      | Some table =>
          let '(keptP, related, wait) :=
            checkPartitionVersions table (idToPartitionCommitInfo info) in
          let info' := {| tableId := tableId info; idToPartitionCommitInfo := keptP |} in
          match wait with
          | Some msg => ((key, info') :: rest, related, Some msg)
          | None =>
              let '(kept, related', wait') := checkTableVersions db rest in
              ((key, info') :: kept, related ++ related', wait')
          end
      end
  end.

(** [finishCheckPartitionVersion]: the transaction as the call leaves it,
    [relatedTblPartitions], and the result. *)
Definition finishCheckPartitionVersion (t : TransactionState) (db : Database)
  : TransactionState * list (OlapTable * Partition) * bool :=
  let '(kept, related, wait) := checkTableVersions db (idToTableCommitInfos t) in
  let t := setIdToTableCommitInfos kept t in
  match wait with
  | Some msg => (setErrMsg (Some msg) t, related, false)
  | None => (t, related, true)
  end.

(** Rewriting the catalog: every replica of a partition, one partition of
    a table (the one [getPartition] finds). *)
Definition mapReplicas (f : Replica → Replica) (partition : Partition) : Partition :=
  {| partition_id := partition_id partition;
     visibleVersion := visibleVersion partition;
     visibleVersionTime := visibleVersionTime partition;
     nextVersion := nextVersion partition;
     materializedIndices :=
       (λ index,
          {| index_id := index_id index;
             tablets :=
               (λ tablet, {| tablet_id := tablet_id tablet;
                             replicas := f <$> replicas tablet |})
               <$> tablets index |})
       <$> materializedIndices partition |}.

Fixpoint replacePartition (partition : Partition) (l : list Partition) : list Partition :=
  match l with
  | [] => []
  | p :: l' =>
      if decide (partition_id p = partition_id partition) then partition :: l'
      else p :: replacePartition partition l'
  end.

Definition setPartition (partition : Partition) (table : OlapTable) : OlapTable :=
  {| table_id := table_id table; table_name := table_name table;
     table_state := table_state table;
     partitions := replacePartition partition (partitions table);
     loadRequiredReplicaNum := loadRequiredReplicaNum table;
     partitionRangeOf := partitionRangeOf table |}.

Definition setTable (key : Z) (table : OlapTable) (db : Database) : Database :=
  {| db_id := db_id db; db_fullName := db_fullName db;
     idToTable := <[key := table]> (idToTable db);
     dataQuota := dataQuota db; usedDataQuotaWithLock := usedDataQuotaWithLock db;
     transactionQuotaSize := transactionQuotaSize db; db_access_ok := db_access_ok db |}.

(** What [updateCatalogAfterVisible] does to one replica. *)
Definition visibleReplicaUpdate (errorReplicaIds : gset Z) (partition : Partition)
    (newCommitVersion : Z) (replica : Replica) : Replica :=
  if decide (replica_id replica ∉ errorReplicaIds) then
    if negb (checkVersionCatchUp replica (visibleVersion partition) true)
    then updateVersionWithFailedInfo replica (replica_version replica)
           (visibleVersion partition) newCommitVersion
    else updateVersionWithFailedInfo replica newCommitVersion
           (lastFailedVersion replica) newCommitVersion
  else
    updateVersionWithFailedInfo replica (replica_version replica)
      (if lastFailedVersion replica <? newCommitVersion then newCommitVersion
       else lastFailedVersion replica)
      (lastSuccessVersion replica).

(** Modelled from the spec: [Partition.updateVisibleVersionAndTime], "bump
    the partition's visible_version and version_time". *)
Definition updateVisibleVersionAndTime (v time : Z) (partition : Partition) : Partition :=
  {| partition_id := partition_id partition;
     visibleVersion := v;
     visibleVersionTime := time;
     nextVersion := nextVersion partition;
     materializedIndices := materializedIndices partition |}.

(** The loop of [updateCatalogAfterVisible] over the partition commit infos
    of one table.  The bookkeeping for the statistics analyzer is outside
    this model. *)
Definition visiblePartitionUpdate (errorReplicaIds : gset Z) (table : OlapTable)
    (info : Z * PartitionCommitInfo) : OlapTable :=
  match getPartition table (partitionId info.2) with
  | None => table
  | Some partition =>
      let partition' :=
        mapReplicas (visibleReplicaUpdate errorReplicaIds partition (version info.2))
          partition in
      setPartition
        (updateVisibleVersionAndTime (version info.2) (versionTime info.2) partition')
        table
  end.

(** [updateCatalogAfterVisible], as far as the catalog goes.  Its call of
    [TransactionState.addTableIndexes], which is not part of the sources and
    can only touch the loaded-index map of the transaction, is outside this
    model. *)
Definition updateCatalogAfterVisible (t : TransactionState) (db : Database) : Database :=
  foldl (λ db info,
           match getTableNullable db (tableId info.2) with
           | None => db
           | Some table =>
               setTable (tableId info.2)
                 (foldl (visiblePartitionUpdate (errorReplicas t)) table
                        (idToPartitionCommitInfo info.2))
                 db
           end)
        db (idToTableCommitInfos t).

(** How a call of [finishTransaction] that returns has ended. *)
Inductive FinishResult :=
  | FinishWaitVersion                 (* the partition version check failed *)
  | FinishPublishFailed               (* verdict FAILED *)
  | FinishVisible (verdict : PublishResult).

(** [finishTransaction]. *)
Definition finishTransaction (env : Env) (now : Z) (transactionId : Z) (m : Mgr)
  : Mgr * Env * Outcome FinishResult :=
  match unprotectedGetTransactionState transactionId m with
  | None => (m, env, Thrown NullPointerException)
  | Some t =>
      match idToDb env !! dbId (header t) with
      | None => (m, env, Thrown MetaNotFoundException)
      | Some db =>
          let '(t, relatedTblPartitions, ready) := finishCheckPartitionVersion t db in
          if negb ready then (storeTxn t m, env, Returned FinishWaitVersion)
          else
            let '(t, _, verdict) :=
              finishCheckQuorumReplicas env now t relatedTblPartitions in
            match verdict with
            | Thrown e => (storeTxn t m, env, Thrown e)
            | Returned FAILED => (storeTxn t m, env, Returned FinishPublishFailed)
            | Returned publishResult =>
                let t := setFinishTime now t in
                let t := setErrMsg None t in
                let t := setTransactionStatus VISIBLE t in
                let m := unprotectUpsertTransactionState t false m in
                let db := updateCatalogAfterVisible t db in
                (m, setIdToDb (<[dbId (header t) := db]> (idToDb env)) env,
                 Returned (FinishVisible publishResult))
            end
      end
  end.

(** *** Commit *)

(** A loop that an exception leaves: the state reached, and the exception
    if one was thrown. *)
Fixpoint foldE {A B : Type} (f : A → B → A * option Exception) (a : A) (l : list B)
  : A * option Exception :=
  match l with
  | [] => (a, None)
  | b :: l' =>
      match f a b with
      | (a', None) => foldE f a' l'
      | (a', Some e) => (a', Some e)
      end
  end.

Record TabletCommitInfo := mkTabletCommitInfo {
  tci_tabletId : Z;
  tci_backendId : Z;
}.

(** The maps that the first loop of [checkCommitStatus] builds. *)
Record CommitMaps := mkCommitMaps {
  tableToPartition : gmap Z (gset Z);
  tabletToBackends : gmap Z (gset Z);
}.

(** The body of the first loop of [checkCommitStatus], for one reported
    [(tablet, backend)]. *)
Definition collectCommitInfo (idx : TabletInvertedIndex) (idToTable : gmap Z OlapTable)
    (maps : CommitMaps) (info : TabletCommitInfo) : CommitMaps * option Exception :=
  match tabletMetaMap idx !! tci_tabletId info with
  | None => (maps, None)
  | Some tabletMeta =>
      match idToTable !! tm_tableId tabletMeta with
      | None => (maps, None)
      | Some tbl =>
          if decide (table_state tbl = TABLE_RESTORE) then (maps, Some LoadException)
          else
            match getPartition tbl (tm_partitionId tabletMeta) with
            | None => (maps, None)
            | Some _ =>
                ({| tableToPartition :=
                      <[tm_tableId tabletMeta :=
                          default ∅ (tableToPartition maps !! tm_tableId tabletMeta)
                          ∪ {[tm_partitionId tabletMeta]}]> (tableToPartition maps);
                    tabletToBackends :=
                      <[tci_tabletId info :=
                          default ∅ (tabletToBackends maps !! tci_tabletId info)
                          ∪ {[tci_backendId info]}]> (tabletToBackends maps) |},
                 None)
            end
      end
  end.

(** Modelled from the spec: [Tablet.getBackendIds], the backends "that host a
    replica of this tablet"; the tablet class is not part of the sources. *)
Definition getBackendIds (tablet : Tablet) : list Z :=
  remove_dups (backendId <$> replicas tablet).

(** What the second loop of [checkCommitStatus] carries along;
    [cs_checks] keeps the tally of every tablet that passed, in order. *)
Record CommitLoop := mkCommitLoop {
  cs_errorReplicaIds : gset Z;
  cs_totalInvolvedBackends : gset Z;
  cs_prolonged : bool;
  cs_checks : list TabletCheck;
}.

(** The loop over the backends of one tablet. *)
Definition commitReplicaCheck (idx : TabletInvertedIndex) (tabletId : Z)
    (commitBackends : option (gset Z))
    (acc : gset Z * ReplicaTally) (tabletBackend : Z)
  : (gset Z * ReplicaTally) * option Exception :=
  match getReplica idx tabletId tabletBackend with
  | None => (acc, Some (TransactionCommitFailedException
                          (ReplicaNotFound tabletId tabletBackend)))
  | Some replica =>
      if match commitBackends with
         | Some backends => bool_decide (tabletBackend ∈ backends)
         | None => false
         end
      then
        if lastFailedVersion replica <? 0
        then ((acc.1, addSucc replica acc.2), None)
        else ((acc.1, addVersionFailed replica acc.2), None)
      else ((acc.1 ∪ {[replica_id replica]}, addWriteFailed replica acc.2), None)
  end.

(** The body of the loop over the tablets of an index. *)
Definition commitTabletCheck (idx : TabletInvertedIndex) (transactionId : Z)
    (tabletToBackends : gmap Z (gset Z)) (loadRequiredReplicaNum : Z)
    (st : CommitLoop) (tablet : Tablet) : CommitLoop * option Exception :=
  let tabletBackends := getBackendIds tablet in
  let total := cs_totalInvolvedBackends st ∪ list_to_set tabletBackends in
  let commitBackends := tabletToBackends !! tablet_id tablet in
  let '((errs, tally), thrown) :=
    foldE (commitReplicaCheck idx (tablet_id tablet) commitBackends)
          (cs_errorReplicaIds st, emptyTally) tabletBackends in
  let st' := {| cs_errorReplicaIds := errs; cs_totalInvolvedBackends := total;
                cs_prolonged := cs_prolonged st; cs_checks := cs_checks st |} in
  match thrown with
  | Some e => (st', Some e)
  | None =>
      let successReplicaNum := Z.of_nat (length (tabletSuccReplicas tally)) in
      if successReplicaNum <? loadRequiredReplicaNum then
        (st', Some (TabletQuorumFailedException transactionId (tablet_id tablet)
                      successReplicaNum loadRequiredReplicaNum))
      else
        ({| cs_errorReplicaIds := errs; cs_totalInvolvedBackends := total;
            cs_prolonged := cs_prolonged st;
            cs_checks := cs_checks st ++
              [{| tc_tabletId := tablet_id tablet; tc_tally := tally;
                  tc_required := loadRequiredReplicaNum |}] |}, None)
  end.

(** The body of the loop over the partitions of a table. *)
Definition commitPartitionCheck (idx : TabletInvertedIndex) (t : TransactionState)
    (tabletToBackends : gmap Z (gset Z)) (tableId : Z) (affected : gset Z)
    (table : OlapTable) (st : CommitLoop) (partition : Partition)
  : CommitLoop * option Exception :=
  if decide (partition_id partition ∉ affected) then (st, None)
  else
    match allIndicesOf t tableId partition with
    | None => (st, Some NullPointerException)
    | Some allIndices =>
        let st :=
          {| cs_errorReplicaIds := cs_errorReplicaIds st;
             cs_totalInvolvedBackends := cs_totalInvolvedBackends st;
             cs_prolonged :=
               cs_prolonged st
               || bool_decide (table_state table = TABLE_ROLLUP
                               ∨ table_state table = TABLE_SCHEMA_CHANGE);
             cs_checks := cs_checks st |} in
        foldE (λ st index,
                 foldE (commitTabletCheck idx (getTransactionId t) tabletToBackends
                          (loadRequiredReplicaNum table (partition_id partition)))
                       st (tablets index))
              st allIndices
    end.

(** The body of the loop over [tableToPartition.keySet()]. *)
Definition commitTableCheck (idx : TabletInvertedIndex) (db : Database)
    (t : TransactionState) (maps : CommitMaps)
    (st : CommitLoop) (entry : Z * gset Z) : CommitLoop * option Exception :=
  match getTableNullable db entry.1 with
  | None => (st, Some MetaNotFoundException)
  | Some table =>
      foldE (commitPartitionCheck idx t (tabletToBackends maps) entry.1 entry.2 table)
            st (partitions table)
  end.

(** The [idToTable] map that [checkCommitStatus] builds from [tableList]. *)
Definition indexTables (tableList : list OlapTable) : gmap Z OlapTable :=
  foldl (λ acc tbl, <[table_id tbl := tbl]> acc) ∅ tableList.

(** What [checkCommitStatus] hands back through its out-parameters; the
    tallies of the tablets are kept with them. *)
Record CommitCheck := mkCommitCheck {
  cc_errorReplicaIds : gset Z;
  cc_tableToPartition : gmap Z (gset Z);
  cc_totalInvolvedBackends : gset Z;
  cc_checks : list TabletCheck;
}.

(** [checkCommitStatus]: the transaction as the call leaves it, and the
    out-parameters or the exception. *)
Definition checkCommitStatus (env : Env) (dbId : Z) (tableList : list OlapTable)
    (t : TransactionState) (tabletCommitInfos : list TabletCommitInfo)
    (attachment : option TxnCommitAttachment)
  : TransactionState * Outcome CommitCheck :=
  match idToDb env !! dbId with
  | None => (t, Thrown MetaNotFoundException)
  | Some db =>
      let t :=
        match attachment with
        | Some a => setTxnCommitAttachmentOpt (Some a) t
        | None => t
        end in
      match foldE (collectCommitInfo (tabletInvertedIndex env) (indexTables tableList))
                  {| tableToPartition := ∅; tabletToBackends := ∅ |}
                  tabletCommitInfos with
      | (_, Some e) => (t, Thrown e)
      | (maps, None) =>
          let '(st, thrown) :=
            foldE (commitTableCheck (tabletInvertedIndex env) db t maps)
                  {| cs_errorReplicaIds := ∅; cs_totalInvolvedBackends := ∅;
                     cs_prolonged := publishTimeoutProlonged t; cs_checks := [] |}
                  (map_to_list (tableToPartition maps)) in
          let t := setPublishTimeoutProlonged (cs_prolonged st) t in
          match thrown with
          | Some e => (t, Thrown e)
          | None =>
              (t, Returned {| cc_errorReplicaIds := cs_errorReplicaIds st;
                              cc_tableToPartition := tableToPartition maps;
                              cc_totalInvolvedBackends := cs_totalInvolvedBackends st;
                              cc_checks := cs_checks st |})
          end
      end
  end.

(** The commit infos of one table, as [unprotectedCommitTransaction]
    ([twoPhase = false]) and [unprotectedPreCommitTransaction2PC]
    ([twoPhase = true]) build them; [None] is the [NullPointerException] of a
    partition that is gone. *)
Fixpoint newPartitionCommitInfos (twoPhase : bool) (now : Z) (table : OlapTable)
    (partitionIds : list Z) (acc : list (Z * PartitionCommitInfo))
  : option (list (Z * PartitionCommitInfo)) :=
  match partitionIds with
  | [] => Some acc
  | pid :: rest =>
      if twoPhase then
        newPartitionCommitInfos twoPhase now table rest
          (assoc_put pid {| partitionId := pid; partitionRange := partitionRangeOf table pid;
                            version := -1; versionTime := -1 |} acc)
      else
        match getPartition table pid with
        | None => None
        | Some partition =>
            newPartitionCommitInfos twoPhase now table rest
              (assoc_put pid {| partitionId := pid;
                                partitionRange := partitionRangeOf table pid;
                                version := nextVersion partition;
                                versionTime := now |} acc)
        end
  end.

(** The loop over [tableToPartition.keySet()] of the two functions; the
    transaction comes back as far as the loop got. *)
Fixpoint putTableCommitInfos (twoPhase : bool) (now : Z) (db : Database)
    (entries : list (Z * gset Z)) (t : TransactionState)
  : TransactionState * option Exception :=
  match entries with
  | [] => (t, None)
  | (tableId, partitionIds) :: rest =>
      match getTableNullable db tableId with
      | None => (t, Some NullPointerException)
      | Some table =>
          match newPartitionCommitInfos twoPhase now table (elements partitionIds) [] with
          | None => (t, Some NullPointerException)
          | Some infos =>
              putTableCommitInfos twoPhase now db rest
                (setIdToTableCommitInfos
                   (assoc_put tableId
                      {| tableId := tableId; idToPartitionCommitInfo := infos |}
                      (idToTableCommitInfos t)) t)
          end
      end
  end.

(** [addPublishVersionTask(backendId, null)] for every involved backend. *)
Definition addPublishPlaceholders (backends : gset Z) (t : TransactionState)
  : TransactionState :=
  setPublishVersionTasks
    (foldl (λ tasks backend, <[backend := None]> tasks) (publishVersionTasks t)
           (elements backends)) t.

(** [unprotectedCommitTransaction]; the transaction object comes back as the
    call leaves it. *)
Definition unprotectedCommitTransaction (now : Z) (t : TransactionState)
    (cc : CommitCheck) (db : Database) (m : Mgr)
  : Mgr * TransactionState * option Exception :=
  if negb (bool_decide (transactionStatus t = PREPARE)) then (m, t, None)
  else
    let t := setCommitTime now t in
    let t := setTransactionStatus COMMITTED t in
    let t := setErrorReplicas (cc_errorReplicaIds cc) t in
    match putTableCommitInfos false now db (map_to_list (cc_tableToPartition cc)) t with
    | (t, Some e) => (storeTxn t m, t, Some e)
    | (t, None) =>
        let m := unprotectUpsertTransactionState t false m in
        let t := addPublishPlaceholders (cc_totalInvolvedBackends cc) t in
        (storeTxn t m, t, None)
    end.

(** [unprotectedPreCommitTransaction2PC]. *)
Definition unprotectedPreCommitTransaction2PC (now : Z) (t : TransactionState)
    (cc : CommitCheck) (db : Database) (m : Mgr) : Mgr * option Exception :=
  if negb (bool_decide (transactionStatus t = PREPARE)) then (m, None)
  else
    let t := setPreCommitTime now t in
    let t := setTransactionStatus PRECOMMITTED t in
    let t := setErrorReplicas (cc_errorReplicaIds cc) t in
    match putTableCommitInfos true now db (map_to_list (cc_tableToPartition cc)) t with
    | (t, Some e) => (storeTxn t m, Some e)
    | (t, None) =>
        let m := unprotectUpsertTransactionState t false m in
        (storeTxn (addPublishPlaceholders (cc_totalInvolvedBackends cc) t) m, None)
    end.

(** The commit infos of [unprotectedCommitTransaction2PC]: entries of dropped
    tables and partitions go, the others get their version. *)
Definition assignPartitionVersions (now : Z) (table : OlapTable)
    (infos : list (Z * PartitionCommitInfo)) : list (Z * PartitionCommitInfo) :=
  omap (λ e : Z * PartitionCommitInfo,
          match getPartition table (partitionId e.2) with
          | None => None
          | Some partition =>
              Some (e.1, {| partitionId := partitionId e.2;
                            partitionRange := partitionRange e.2;
                            version := nextVersion partition;
                            versionTime := now |})
          end) infos.

Definition assignTableVersions (now : Z) (db : Database)
    (infos : list (Z * TableCommitInfo)) : list (Z * TableCommitInfo) :=
  omap (λ e : Z * TableCommitInfo,
          match getTableNullable db (tableId e.2) with
          | None => None
          | Some table =>
              Some (e.1, {| tableId := tableId e.2;
                            idToPartitionCommitInfo :=
                              assignPartitionVersions now table
                                (idToPartitionCommitInfo e.2) |})
          end) infos.

Definition logInsertTransactionState (t : TransactionState) (m : Mgr) : Mgr :=
  {| mgr_dbId := mgr_dbId m;
     txnObjects := txnObjects m;
     idToRunningTransactionState := idToRunningTransactionState m;
     idToFinalStatusTransactionState := idToFinalStatusTransactionState m;
     finalStatusTransactionStateDequeShort := finalStatusTransactionStateDequeShort m;
     finalStatusTransactionStateDequeLong := finalStatusTransactionStateDequeLong m;
     labelToTxnIds := labelToTxnIds m;
     runningTxnNums := runningTxnNums m;
     runningRoutineLoadTxnNums := runningRoutineLoadTxnNums m;
     idGenerator := idGenerator m;
     usedQuotaDataBytes := usedQuotaDataBytes m;
     maxFinalTxnsNum := maxFinalTxnsNum m;
     editLog := editLog m ++ [LogInsertTransactionState t] |}.

(** [unprotectedCommitTransaction2PC]. *)
Definition unprotectedCommitTransaction2PC (now : Z) (t : TransactionState)
    (db : Database) (m : Mgr) : Mgr * TransactionState :=
  if negb (bool_decide (transactionStatus t = PRECOMMITTED)) then (m, t)
  else
    let t := setCommitTime now t in
    let t := setTransactionStatus COMMITTED t in
    let t := setIdToTableCommitInfos
               (assignTableVersions now db (idToTableCommitInfos t)) t in
    (logInsertTransactionState t (storeTxn t m), t).

Definition setNextVersion (v : Z) (partition : Partition) : Partition :=
  {| partition_id := partition_id partition;
     visibleVersion := visibleVersion partition;
     visibleVersionTime := visibleVersionTime partition;
     nextVersion := v;
     materializedIndices := materializedIndices partition |}.

(** The loop of [updateCatalogAfterCommitted] over the partition commit
    infos of one table. *)
Definition committedPartitionUpdate (errorReplicaIds : gset Z) (table : OlapTable)
    (info : Z * PartitionCommitInfo) : OlapTable :=
  match getPartition table (partitionId info.2) with
  | None => table
  | Some partition =>
      let partition' :=
        mapReplicas (λ replica,
                       if decide (replica_id replica ∈ errorReplicaIds)
                       then updateLastFailedVersion replica (version info.2)
                       else replica) partition in
      setPartition (setNextVersion (wrap64 (nextVersion partition' + 1)) partition') table
  end.

(** [updateCatalogAfterCommitted]. *)
Definition updateCatalogAfterCommitted (t : TransactionState) (db : Database) : Database :=
  foldl (λ db info,
           match getTableNullable db (tableId info.2) with
           | None => db
           | Some table =>
               setTable (tableId info.2)
                 (foldl (committedPartitionUpdate (errorReplicas t)) table
                        (idToPartitionCommitInfo info.2))
                 db
           end)
        db (idToTableCommitInfos t).

(** The schema check that [commitTransaction] makes for a partial update. *)
Definition partialUpdateCompatible (is2PC : bool) (t : TransactionState) (db : Database)
    (tableList : list OlapTable) : bool :=
  if is2PC then
    forallb (λ e : Z * TableCommitInfo,
               match getTableNullable db (tableId e.2) with
               | Some table => checkSchemaCompatibility t table
               | None => true
               end) (idToTableCommitInfos t)
  else forallb (checkSchemaCompatibility t) tableList.

Definition emptyCommitCheck : CommitCheck :=
  {| cc_errorReplicaIds := ∅; cc_tableToPartition := ∅;
     cc_totalInvolvedBackends := ∅; cc_checks := [] |}.

(** [commitTransaction]. *)
Definition commitTransaction (env : Env) (now : Z) (tableList : list OlapTable)
    (transactionId : Z) (tabletCommitInfos : list TabletCommitInfo)
    (attachment : option TxnCommitAttachment) (is2PC : bool) (m : Mgr)
  : Mgr * Env * Outcome unit :=
  match idToDb env !! mgr_dbId m with
  | None => (m, env, Thrown MetaNotFoundException)
  | Some db =>
      match unprotectedGetTransactionState transactionId m with
      | None => (m, env, Thrown (TransactionCommitFailedException TxnNotFound))
      | Some t =>
          match transactionStatus t with
          | ABORTED => (m, env, Thrown (TransactionCommitFailedException TxnAlreadyAborted))
          | VISIBLE =>
              if is2PC
              then (m, env, Thrown (TransactionCommitFailedException
                                      TxnAlreadyVisibleNotPreCommitted))
              else (m, env, Returned ())
          | COMMITTED =>
              if is2PC
              then (m, env, Thrown (TransactionCommitFailedException
                                      TxnAlreadyCommittedNotPreCommitted))
              else (m, env, Returned ())
          | status =>
              if is2PC && bool_decide (status = PREPARE)
              then (m, env, Thrown (TransactionCommitFailedException
                                      TxnIsPrepareNotPreCommitted))
              else if isPartialUpdate (header t)
                      && negb (partialUpdateCompatible is2PC t db tableList)
              then (m, env, Thrown (TransactionCommitFailedException
                                      SchemaCompatibilityFailed))
              else
                let '(t, checked) :=
                  if is2PC then (t, Returned emptyCommitCheck)
                  else checkCommitStatus env (mgr_dbId m) tableList t tabletCommitInfos
                         attachment in
                match checked with
                | Thrown e => (storeTxn t m, env, Thrown e)
                | Returned cc =>
                    if negb (beforeStateTransform t COMMITTED)
                    then (storeTxn t m, env, Thrown TransactionException)
                    else
                      let '(m, t, thrown) :=
                        if is2PC
                        then (unprotectedCommitTransaction2PC now t db (storeTxn t m), None)
                        else unprotectedCommitTransaction now t cc db (storeTxn t m) in
                      match thrown with
                      | Some e => (m, env, Thrown e)
                      | None =>
                          let db := updateCatalogAfterCommitted t db in
                          (m, setIdToDb (<[mgr_dbId m := db]> (idToDb env)) env,
                           Returned ())
                      end
                end
          end
      end
  end.

(** [preCommitTransaction2PC]. *)
Definition preCommitTransaction2PC (env : Env) (now : Z) (tableList : list OlapTable)
    (transactionId : Z) (tabletCommitInfos : list TabletCommitInfo)
    (attachment : option TxnCommitAttachment) (m : Mgr) : Mgr * Outcome unit :=
  match idToDb env !! mgr_dbId m with
  | None => (m, Thrown MetaNotFoundException)
  | Some db =>
      match unprotectedGetTransactionState transactionId m with
      | None => (m, Thrown (TransactionCommitFailedException TxnNotFound))
      | Some t =>
          match transactionStatus t with
          | ABORTED => (m, Thrown (TransactionCommitFailedException TxnAlreadyAborted))
          | VISIBLE => (m, Thrown (TransactionCommitFailedException TxnAlreadyVisible))
          | COMMITTED => (m, Thrown (TransactionCommitFailedException TxnAlreadyCommitted))
          | PRECOMMITTED => (m, Returned ())
          | _ =>
              match checkCommitStatus env (mgr_dbId m) tableList t tabletCommitInfos
                      attachment with
              | (t, Thrown e) => (storeTxn t m, Thrown e)
              | (t, Returned cc) =>
                  match unprotectedPreCommitTransaction2PC now t cc db (storeTxn t m) with
                  | (m, Some e) => (m, Thrown e)
                  | (m, None) => (m, Returned ())
                  end
              end
          end
      end
  end.

(** *** Abort *)

(** [unprotectAbortTransaction]. *)
Definition unprotectAbortTransaction (now : Z) (transactionId : Z) (why : string)
    (m : Mgr) : Mgr * Outcome bool :=
  match unprotectedGetTransactionState transactionId m with
  | None => (m, Thrown TransactionNotFoundException)
  | Some t =>
      match transactionStatus t with
      | ABORTED => (m, Thrown TransactionNotFoundException)
      | COMMITTED | VISIBLE => (m, Thrown UserException)
      | _ =>
          let t := setFinishTime now t in
          let t := setReason why t in
          let t := setTransactionStatus ABORTED t in
          (unprotectUpsertTransactionState t false m, Returned true)
      end
  end.

(** [abortTransaction(long, String, TxnCommitAttachment)].  The clear-
    transaction tasks sent to the backends afterwards are outside this
    model. *)
Definition abortTransaction (now : Z) (transactionId : Z) (why : string)
    (attachment : option TxnCommitAttachment) (m : Mgr) : Mgr * Outcome unit :=
  if transactionId <? 0 then (m, Returned ())
  else
    match (if decide (transactionId ∈ idToRunningTransactionState m)
           then txnObjects m !! transactionId else None) with
    | None => (m, Thrown TransactionNotFoundException)
    | Some t =>
        let t :=
          match attachment with
          | Some a => setTxnCommitAttachmentOpt (Some a) t
          | None => t
          end in
        let m := storeTxn t m in
        if negb (beforeStateTransform t ABORTED) then (m, Thrown TransactionException)
        else
          match unprotectAbortTransaction now transactionId why m with
          | (m, Thrown e) => (m, Thrown e)
          | (m, Returned _) => (m, Returned ())
          end
    end.

(** [abortTransaction2PC]. *)
Definition abortTransaction2PC (now : Z) (transactionId : Z) (m : Mgr)
  : Mgr * Outcome unit :=
  if transactionId <? 0 then (m, Returned ())
  else
    match unprotectedGetTransactionState transactionId m with
    | None => (m, Thrown TransactionNotFoundException)
    | Some t =>
        if negb (beforeStateTransform t ABORTED) then (m, Thrown TransactionException)
        else
          match unprotectAbortTransaction now transactionId "User Abort" m with
          | (m, Thrown e) => (m, Thrown e)
          | (m, Returned _) => (m, Returned ())
          end
    end.

(** *** Begin *)

(** Modelled from the spec: the constructor of [TransactionState] as
    [beginTransaction] calls it, which "inserts a PREPARE state"; the class is
    not part of the sources.  Times not yet reached are [-1]. *)
Definition newTransactionState (dbId : Z) (tableIdList : list Z) (tid : Z)
    (label : string) (requestId : option TUniqueId) (sourceType : LoadJobSourceType)
    (coordinator : TxnCoordinator) (listenerId timeoutMs : Z) : TransactionState :=
  {| header := {| dbId := dbId; tableIdList := tableIdList; transactionId := tid;
                  label := label; requestId := requestId; sourceType := sourceType;
                  coordinator := coordinator; callbackId := listenerId;
                  timeoutMs := timeoutMs; isPartialUpdate := false;
                  loadedTblIndexes := ∅ |};
     transactionStatus := PREPARE;
     prepareTime := -1; preCommitTime := -1; commitTime := -1; finishTime := -1;
     firstPublishVersionTime := -1; lastPublishLogTime := 0;
     reason := ""; errMsg := None; errorReplicas := ∅; idToTableCommitInfos := [];
     publishVersionTasks := ∅; txnCommitAttachment := None;
     publishTimeoutProlonged := false |}.

Definition setUsedQuotaDataBytes (v : Z) (m : Mgr) : Mgr :=
  {| mgr_dbId := mgr_dbId m;
     txnObjects := txnObjects m;
     idToRunningTransactionState := idToRunningTransactionState m;
     idToFinalStatusTransactionState := idToFinalStatusTransactionState m;
     finalStatusTransactionStateDequeShort := finalStatusTransactionStateDequeShort m;
     finalStatusTransactionStateDequeLong := finalStatusTransactionStateDequeLong m;
     labelToTxnIds := labelToTxnIds m;
     runningTxnNums := runningTxnNums m;
     runningRoutineLoadTxnNums := runningRoutineLoadTxnNums m;
     idGenerator := idGenerator m;
     usedQuotaDataBytes := v;
     maxFinalTxnsNum := maxFinalTxnsNum m;
     editLog := editLog m |}.

Definition setIdGenerator (v : Z) (m : Mgr) : Mgr :=
  {| mgr_dbId := mgr_dbId m;
     txnObjects := txnObjects m;
     idToRunningTransactionState := idToRunningTransactionState m;
     idToFinalStatusTransactionState := idToFinalStatusTransactionState m;
     finalStatusTransactionStateDequeShort := finalStatusTransactionStateDequeShort m;
     finalStatusTransactionStateDequeLong := finalStatusTransactionStateDequeLong m;
     labelToTxnIds := labelToTxnIds m;
     runningTxnNums := runningTxnNums m;
     runningRoutineLoadTxnNums := runningRoutineLoadTxnNums m;
     idGenerator := v;
     usedQuotaDataBytes := usedQuotaDataBytes m;
     maxFinalTxnsNum := maxFinalTxnsNum m;
     editLog := editLog m |}.

(** [checkDatabaseDataQuota]: the cached usage is filled on first use. *)
Definition checkDatabaseDataQuota (db : Database) (m : Mgr) : Mgr * bool :=
  let m := if decide (usedQuotaDataBytes m = -1)
           then setUsedQuotaDataBytes (usedDataQuotaWithLock db) m else m in
  (m, bool_decide (usedQuotaDataBytes m < dataQuota db)).

(** The scan of [beginTransaction] over the ids filed under the label:
    the transactions that are not aborted, or [None] when an id has no
    transaction behind it. *)
Definition notAbortedTxnsOf (existingTxnIds : gset Z) (m : Mgr)
  : option (list TransactionState) :=
  filter (λ t, transactionStatus t ≠ ABORTED)
    <$> mapM (λ id, unprotectedGetTransactionState id m) (elements existingTxnIds).

(** [checkRunningTxnExceedLimit]: [true] when the limit allows one more. *)
Definition checkRunningTxnExceedLimit (db : Database) (sourceType : LoadJobSourceType)
    (m : Mgr) : bool :=
  match sourceType with
  | ROUTINE_LOAD_TASK => true
  | _ => bool_decide (runningTxnNums m < transactionQuotaSize db)
  end.

(** [beginTransaction]; [label] and [coordinator] are nullable. *)
Definition beginTransaction (env : Env) (now : Z) (tableIdList : list Z)
    (label : option string) (requestId : option TUniqueId)
    (coordinator : option TxnCoordinator) (sourceType : LoadJobSourceType)
    (listenerId timeoutSecond : Z) (m : Mgr) : Mgr * Outcome Z :=
  match idToDb env !! mgr_dbId m with
  | None => (m, Thrown MetaNotFoundException)
  | Some db =>
      if negb (db_access_ok db) then (m, Thrown AnalysisException)
      else
        let '(m, quota_ok) := checkDatabaseDataQuota db m in
        if negb quota_ok then (m, Thrown QuotaExceedException)
        else
          match coordinator, label with
          | None, _ | _, None => (m, Thrown NullPointerException)
          | Some coordinator, Some label =>
              if negb (checkLabel label) then (m, Thrown AnalysisException)
              else
                let begin_new :=
                  if negb (checkRunningTxnExceedLimit db sourceType m)
                  then (m, Thrown BeginTransactionException)
                  else
                    let tid := idGenerator m + 1 in
                    let t := newTransactionState (mgr_dbId m) tableIdList tid label
                               requestId sourceType coordinator listenerId
                               (wrap64 (timeoutSecond * 1000)) in
                    let t := setPrepareTime now t in
                    (unprotectUpsertTransactionState t false (setIdGenerator tid m),
                     Returned tid) in
                match unprotectedGetTxnIdsByLabel label m with
                | None => begin_new
                | Some existingTxnIds =>
                    if decide (existingTxnIds = ∅) then begin_new
                    else
                      match notAbortedTxnsOf existingTxnIds m with
                      | None => (m, Thrown NullPointerException)
                      | Some [] => begin_new
                      | Some [notAbortedTxn] =>
                          match requestId, getRequestId notAbortedTxn with
                          | Some req, Some req' =>
                              if (bool_decide (transactionStatus notAbortedTxn = PREPARE)
                                  || bool_decide (transactionStatus notAbortedTxn
                                                  = PRECOMMITTED))
                                 && bool_decide (req' = req)
                              then (m, Thrown (DuplicatedRequestException req
                                                 (getTransactionId notAbortedTxn)))
                              else (m, Thrown (LabelAlreadyUsedException
                                                 (getTransactionId notAbortedTxn)))
                          | _, _ =>
                              (m, Thrown (LabelAlreadyUsedException
                                            (getTransactionId notAbortedTxn)))
                          end
                      | Some _ => (m, Thrown IllegalStateException)
                      end
                end
          end
  end.

(** *** Expiry and cleanup *)

Definition setFinalIndexes (final : gset Z) (labels : gmap string (gset Z)) (m : Mgr)
  : Mgr :=
  {| mgr_dbId := mgr_dbId m;
     txnObjects := txnObjects m;
     idToRunningTransactionState := idToRunningTransactionState m;
     idToFinalStatusTransactionState := final;
     finalStatusTransactionStateDequeShort := finalStatusTransactionStateDequeShort m;
     finalStatusTransactionStateDequeLong := finalStatusTransactionStateDequeLong m;
     labelToTxnIds := labels;
     runningTxnNums := runningTxnNums m;
     runningRoutineLoadTxnNums := runningRoutineLoadTxnNums m;
     idGenerator := idGenerator m;
     usedQuotaDataBytes := usedQuotaDataBytes m;
     maxFinalTxnsNum := maxFinalTxnsNum m;
     editLog := editLog m |}.

(** [clearTransactionState]; the exception is the [NullPointerException] of
    a label that the index does not know. *)
Definition clearTransactionState (txnId : Z) (m : Mgr) : Mgr * option Exception :=
  match (if decide (txnId ∈ idToFinalStatusTransactionState m)
         then txnObjects m !! txnId else None) with
  | None => (m, None)
  | Some t =>
      let final := idToFinalStatusTransactionState m ∖ {[txnId]} in
      match unprotectedGetTxnIdsByLabel (getLabel t) m with
      | None => (setFinalIndexes final (labelToTxnIds m) m, Some NullPointerException)
      | Some txnIds =>
          let txnIds := txnIds ∖ {[getTransactionId t]} in
          (setFinalIndexes final
             (if decide (txnIds = ∅) then delete (getLabel t) (labelToTxnIds m)
              else <[getLabel t := txnIds]> (labelToTxnIds m)) m,
           None)
      end
  end.

(** What [unprotectedRemoveUselessTxns] carries through its loops: the
    deque, the manager, [latestTxnId] and [numOfClearedTransaction]. *)
Record RemoveLoop := mkRemoveLoop {
  rl_deque : list Z;
  rl_mgr : Mgr;
  rl_latestTxnId : Z;
  rl_num : Z;
}.

(** The first loop: expired transactions at the head of the deque.  The
    deque holds references, whose objects are in [txnObjects]. *)
Fixpoint removeExpiredLoop (currentMillis left : Z) (deque : list Z) (m : Mgr)
    (latestTxnId num : Z) : RemoveLoop * option Exception :=
  let stop := ({| rl_deque := deque; rl_mgr := m; rl_latestTxnId := latestTxnId;
                  rl_num := num |}, None) in
  match deque with
  | [] => stop
  | ref :: rest =>
      if num <? left then
        match txnObjects m !! ref with
        | None => stop
        | Some t =>
            if isExpired t currentMillis then
              match clearTransactionState (getTransactionId t) m with
              | (m', Some e) =>
                  ({| rl_deque := rest; rl_mgr := m'; rl_latestTxnId := latestTxnId;
                      rl_num := num |}, Some e)
              | (m', None) =>
                  removeExpiredLoop currentMillis left rest m' (getTransactionId t)
                    (wrap32 (num + 1))
              end
            else stop
        end
      else stop
  end.

(** The second loop: the deque is cut down to [maxFinalTxnsNum]. *)
Fixpoint removeOverflowLoop (left : Z) (deque : list Z) (m : Mgr)
    (latestTxnId num : Z) : RemoveLoop * option Exception :=
  let stop := ({| rl_deque := deque; rl_mgr := m; rl_latestTxnId := latestTxnId;
                  rl_num := num |}, None) in
  match deque with
  | [] => stop
  | ref :: rest =>
      if (maxFinalTxnsNum m <? Z.of_nat (length deque)) && (num <? left) then
        match txnObjects m !! ref with
        | None => stop
        | Some t =>
            if negb (bool_decide (finishTime t = -1)) then
              match clearTransactionState (getTransactionId t) m with
              | (m', Some e) =>
                  ({| rl_deque := rest; rl_mgr := m'; rl_latestTxnId := latestTxnId;
                      rl_num := num |}, Some e)
              | (m', None) =>
                  removeOverflowLoop left rest m' (getTransactionId t) (wrap32 (num + 1))
              end
            else stop
        end
      else stop
  end.

(** [unprotectedRemoveUselessTxns]. *)
Definition unprotectedRemoveUselessTxns (currentMillis : Z) (deque : list Z) (left : Z)
    (m : Mgr) : RemoveLoop * option Exception :=
  match removeExpiredLoop currentMillis left deque m (-1) 0 with
  | (r, Some e) => (r, Some e)
  | (r, None) =>
      removeOverflowLoop left (rl_deque r) (rl_mgr r) (rl_latestTxnId r) (rl_num r)
  end.

Definition setDeques (short long : list Z) (log : list EditLogEntry) (m : Mgr) : Mgr :=
  {| mgr_dbId := mgr_dbId m;
     txnObjects := txnObjects m;
     idToRunningTransactionState := idToRunningTransactionState m;
     idToFinalStatusTransactionState := idToFinalStatusTransactionState m;
     finalStatusTransactionStateDequeShort := short;
     finalStatusTransactionStateDequeLong := long;
     labelToTxnIds := labelToTxnIds m;
     runningTxnNums := runningTxnNums m;
     runningRoutineLoadTxnNums := runningRoutineLoadTxnNums m;
     idGenerator := idGenerator m;
     usedQuotaDataBytes := usedQuotaDataBytes m;
     maxFinalTxnsNum := maxFinalTxnsNum m;
     editLog := log |}.

(** [removeUselessTxns]. *)
Definition removeUselessTxns (currentMillis : Z) (m : Mgr) : Mgr * Outcome unit :=
  match unprotectedRemoveUselessTxns currentMillis
          (finalStatusTransactionStateDequeShort m) MAX_REMOVE_TXN_PER_ROUND m with
  | (s, Some e) =>
      (setDeques (rl_deque s) (finalStatusTransactionStateDequeLong m)
         (editLog m) (rl_mgr s), Thrown e)
  | (s, None) =>
      let m1 := setDeques (rl_deque s) (finalStatusTransactionStateDequeLong m)
                  (editLog m) (rl_mgr s) in
      match unprotectedRemoveUselessTxns currentMillis
              (finalStatusTransactionStateDequeLong m1)
              (wrap32 (MAX_REMOVE_TXN_PER_ROUND - rl_num s)) m1 with
      | (l, Some e) =>
          (setDeques (rl_deque s) (rl_deque l) (editLog m) (rl_mgr l), Thrown e)
      | (l, None) =>
          let log :=
            if 0 <? wrap32 (rl_num s + rl_num l)
            then editLog m ++ [LogBatchRemoveTransactions (mgr_dbId m)
                                 (rl_latestTxnId s) (rl_latestTxnId l)]
            else editLog m in
          (setDeques (rl_deque s) (rl_deque l) log (rl_mgr l), Returned ())
      end
  end.

(** [getTimeoutTxns]. *)
Definition getTimeoutTxns (currentMillis : Z) (m : Mgr) : list Z :=
  omap (λ id, match txnObjects m !! id with
              | Some t => if isTimeout t currentMillis then Some (getTransactionId t)
                          else None
              | None => None
              end)
       (elements (idToRunningTransactionState m)).

(** [removeExpiredAndTimeoutTxns]: an abort that fails is logged and
    passed over. *)
Definition removeExpiredAndTimeoutTxns (currentMillis : Z) (m : Mgr)
  : Mgr * Outcome unit :=
  match removeUselessTxns currentMillis m with
  | (m, Thrown e) => (m, Thrown e)
  | (m, Returned _) =>
      (foldl (λ m txnId,
                (abortTransaction currentMillis txnId "timeout by txn manager" None m).1)
             m (getTimeoutTxns currentMillis m),
       Returned ())
  end.

(** *** The manager as a transition system *)

(** A new manager, as the constructor leaves it. *)
Definition newMgr (dbId : Z) (cfg : Config) (lastTxnId : Z) : Mgr :=
  {| mgr_dbId := dbId;
     txnObjects := ∅;
     idToRunningTransactionState := ∅;
     idToFinalStatusTransactionState := ∅;
     finalStatusTransactionStateDequeShort := [];
     finalStatusTransactionStateDequeLong := [];
     labelToTxnIds := ∅;
     runningTxnNums := 0;
     runningRoutineLoadTxnNums := 0;
     idGenerator := lastTxnId;
     usedQuotaDataBytes := -1;
     maxFinalTxnsNum :=
       if 0 <=? label_num_threshold cfg then label_num_threshold cfg else LONG_MAX;
     editLog := [] |}.

(** One call on the manager, with its arguments; [now] is the clock reading
    of the call. *)
Inductive Op :=
  | OpBegin (now : Z) (tableIdList : list Z) (label : option string)
      (requestId : option TUniqueId) (coordinator : option TxnCoordinator)
      (sourceType : LoadJobSourceType) (listenerId timeoutSecond : Z)
  | OpPreCommit2PC (now : Z) (tableList : list OlapTable) (transactionId : Z)
      (tabletCommitInfos : list TabletCommitInfo)
      (attachment : option TxnCommitAttachment)
  | OpCommit (now : Z) (tableList : list OlapTable) (transactionId : Z)
      (tabletCommitInfos : list TabletCommitInfo)
      (attachment : option TxnCommitAttachment) (is2PC : bool)
  | OpAbort (now : Z) (transactionId : Z) (why : string)
      (attachment : option TxnCommitAttachment)
  | OpAbort2PC (now : Z) (transactionId : Z)
  | OpFinish (now : Z) (transactionId : Z)
  | OpRemoveExpiredAndTimeoutTxns (now : Z)
  (** the generator, shared by all databases, hands [n] ids to the others *)
  | OpOtherIds (n : nat).

(** The manager after a call, whether the call returned or threw. *)
Definition run_op (env : Env) (op : Op) (m : Mgr) : Mgr :=
  match op with
  | OpBegin now tableIdList label requestId coordinator sourceType listenerId timeoutSecond =>
      (beginTransaction env now tableIdList label requestId coordinator sourceType
         listenerId timeoutSecond m).1
  | OpPreCommit2PC now tableList transactionId infos attachment =>
      (preCommitTransaction2PC env now tableList transactionId infos attachment m).1
  | OpCommit now tableList transactionId infos attachment is2PC =>
      (commitTransaction env now tableList transactionId infos attachment is2PC m).1.1
  | OpAbort now transactionId why attachment =>
      (abortTransaction now transactionId why attachment m).1
  | OpAbort2PC now transactionId => (abortTransaction2PC now transactionId m).1
  | OpFinish now transactionId => (finishTransaction env now transactionId m).1.1
  | OpRemoveExpiredAndTimeoutTxns now => (removeExpiredAndTimeoutTxns now m).1
  | OpOtherIds n => setIdGenerator (idGenerator m + Z.of_nat n) m
  end.

(** The states a manager reaches from [newMgr]: each call finds the
    catalog, the inverted index and the configuration in whatever state the
    rest of the system has left them, so every step has an environment of its
    own. *)
Inductive reachable (dbId : Z) (cfg : Config) (lastTxnId : Z) : Mgr → Prop :=
  | reachable_new : reachable dbId cfg lastTxnId (newMgr dbId cfg lastTxnId)
  | reachable_step m env op :
      reachable dbId cfg lastTxnId m →
      reachable dbId cfg lastTxnId (run_op env op m).

(** The transactions the manager tracks: those of the running and of the
    final-status index. *)
Definition tracked (m : Mgr) (id : Z) (t : TransactionState) : Prop :=
  (id ∈ idToRunningTransactionState m ∨ id ∈ idToFinalStatusTransactionState m)
  ∧ txnObjects m !! id = Some t.

(** At most one tracked transaction of a label is not aborted. *)
Definition label_unique (m : Mgr) : Prop :=
  ∀ id1 id2 t1 t2,
    tracked m id1 t1 → tracked m id2 t2 →
    getLabel t1 = getLabel t2 →
    transactionStatus t1 ≠ ABORTED → transactionStatus t2 ≠ ABORTED →
    id1 = id2.

(** A call that finishes a transaction which is already aborted. *)
Definition finishes_aborted (op : Op) (m : Mgr) : Prop :=
  match op with
  | OpFinish _ transactionId =>
      ∃ t, unprotectedGetTransactionState transactionId m = Some t
           ∧ transactionStatus t = ABORTED
  | _ => False
  end.

(** The states reached when [finishTransaction] is never called on an
    aborted transaction. *)
Inductive reachable_guarded (dbId : Z) (cfg : Config) (lastTxnId : Z) : Mgr → Prop :=
  | guarded_new : reachable_guarded dbId cfg lastTxnId (newMgr dbId cfg lastTxnId)
  | guarded_step m env op :
      reachable_guarded dbId cfg lastTxnId m →
      ¬ finishes_aborted op m →
      reachable_guarded dbId cfg lastTxnId (run_op env op m).

End Operations.

End TxnMgr.


(** ** Transaction manager (Java): queries, clean-up and replay *)

Module TxnMgrQueries.
Import MachineInt TxnMgr.
Local Open Scope Z_scope.

(** [existingTxnIds.stream().max(...).get()] on a set that is not empty. *)
Definition maxTxnIdOf (existingTxnIds : gset Z) : Z :=
  match elements existingTxnIds with
  | [] => 0
  | id :: ids => foldl Z.max id ids
  end.

(** [getLabelState]. *)
Definition getLabelState (label : string) (m : Mgr) : Outcome TransactionStatus :=
  match unprotectedGetTxnIdsByLabel label m with
  | None => Returned UNKNOWN
  | Some existingTxnIds =>
      if decide (existingTxnIds = ∅) then Returned UNKNOWN
      else
        match unprotectedGetTransactionState (maxTxnIdOf existingTxnIds) m with
        | None => Thrown NullPointerException
        | Some t => Returned (transactionStatus t)
        end
  end.

(** [getTransactionIdByLabel(String)]; [None] is [null]. *)
Definition getTransactionIdByLabel (label : string) (m : Mgr) : option Z :=
  match unprotectedGetTxnIdsByLabel label m with
  | None => None
  | Some existingTxnIds =>
      if decide (existingTxnIds = ∅) then None
      else Some (maxTxnIdOf existingTxnIds)
  end.

(** The inner loop of [getTransactionIdByLabel(String, List)] over the ids
    of the label, in the order the set gives them: the first transaction
    with the status, if there is one. *)
Fixpoint findTxnWithStatus (status : TransactionStatus) (txnIds : list Z) (m : Mgr)
  : Outcome (option TransactionState) :=
  match txnIds with
  | [] => Returned None
  | txnId :: rest =>
      match unprotectedGetTransactionState txnId m with
      | None => Thrown NullPointerException
      | Some txn =>
          if decide (transactionStatus txn = status) then Returned (Some txn)
          else findTxnWithStatus status rest m
      end
  end.

(** The outer loop, over [statusList]; [findTxn] is the variable of that
    name. *)
Fixpoint findTxnByStatusList (label : string) (statusList : list TransactionStatus)
    (findTxn : option TransactionState) (m : Mgr) : Outcome (option TransactionState) :=
  match statusList with
  | [] => Returned findTxn
  | status :: rest =>
      match unprotectedGetTxnIdsByLabel label m with
      | None => Thrown TransactionNotFoundException
      | Some existingTxns =>
          if decide (existingTxns = ∅) then Thrown TransactionNotFoundException
          else
            match findTxnWithStatus status (elements existingTxns) m with
            | Thrown e => Thrown e
            | Returned found =>
                findTxnByStatusList label rest
                  (match found with Some txn => Some txn | None => findTxn end) m
            end
      end
  end.

(** [getTransactionIdByLabel(String, List<TransactionStatus>)]. *)
Definition getTransactionIdByLabelAndStatus (label : string)
    (statusList : list TransactionStatus) (m : Mgr) : Outcome Z :=
  match findTxnByStatusList label statusList None m with
  | Thrown e => Thrown e
  | Returned None => Thrown TransactionNotFoundException
  | Returned (Some findTxn) => Returned (getTransactionId findTxn)
  end.

(** [isIntersectionNotEmpty]; the lists are nullable. *)
Definition isIntersectionNotEmpty (sourceTableIdList targetTableIdList : option (list Z))
  : bool :=
  match sourceTableIdList, targetTableIdList with
  | Some (s :: source), Some (t :: target) =>
      existsb (λ srcValue, existsb (λ targetValue, bool_decide (srcValue = targetValue))
                             (t :: target))
              (s :: source)
  | _, _ => true
  end.

(** [isPreviousTransactionsFinished(long, List<Long>)]. *)
Definition isPreviousTransactionsFinished (endTransactionId : Z)
    (tableIdList : option (list Z)) (m : Mgr) : bool :=
  forallb (λ key,
             match txnObjects m !! key with
             | None => true
             | Some t =>
                 if negb (bool_decide (dbId (header t) = mgr_dbId m))
                    || negb (isIntersectionNotEmpty (Some (TxnMgr.tableIdList (header t)))
                               tableIdList)
                    || isFinalStatus (transactionStatus t)
                 then true
                 else negb (key <=? endTransactionId)
             end)
          (elements (idToRunningTransactionState m)).

(** [isPreviousTransactionsFinished(long, long, long)]. *)
Definition isPreviousTransactionsFinishedOnPartition (endTransactionId tableId partitionId : Z)
    (m : Mgr) : bool :=
  forallb (λ key,
             match txnObjects m !! key with
             | None => true
             | Some t =>
                 if (endTransactionId <? key)
                    || isFinalStatus (transactionStatus t)
                    || negb (bool_decide (dbId (header t) = mgr_dbId m))
                    || negb (bool_decide (tableId ∈ TxnMgr.tableIdList (header t)))
                 then true
                 else
                   if bool_decide (transactionStatus t = COMMITTED) then
                     match assoc_get tableId (idToTableCommitInfos t) with
                     | Some tableCommitInfo =>
                         match assoc_get partitionId
                                 (idToPartitionCommitInfo tableCommitInfo) with
                         | None => true
                         | Some _ => false
                         end
                     | None => false
                     end
                   else false
             end)
          (elements (idToRunningTransactionState m)).

(** The [while] loops of [replayBatchRemoveTransaction(V2)]: pop and clear
    up to and including [latestTxnId].  The deque holds references, whose
    objects are in [txnObjects]; the exception is that of
    [clearTransactionState]. *)
Fixpoint popThrough (latestTxnId : Z) (deque : list Z) (m : Mgr)
  : list Z * Mgr * option Exception :=
  match deque with
  | [] => ([], m, None)
  | ref :: rest =>
      match txnObjects m !! ref with
      | None => (deque, m, None)
      | Some t =>
          match clearTransactionState (getTransactionId t) m with
          | (m', Some e) => (rest, m', Some e)
          | (m', None) =>
              if bool_decide (latestTxnId = getTransactionId t) then (rest, m', None)
              else popThrough latestTxnId rest m'
          end
      end
  end.

(** [replayBatchRemoveTransaction(BatchRemoveTransactionsOperationV2)]. *)
Definition replayBatchRemoveTransactionV2 (latestTxnIdForShort latestTxnIdForLong : Z)
    (m : Mgr) : Mgr * Outcome unit :=
  let '(short, m1, e1) :=
    if negb (bool_decide (latestTxnIdForShort = -1))
    then popThrough latestTxnIdForShort (finalStatusTransactionStateDequeShort m) m
    else (finalStatusTransactionStateDequeShort m, m, None) in
  match e1 with
  | Some e =>
      (setDeques short (finalStatusTransactionStateDequeLong m) (editLog m) m1, Thrown e)
  | None =>
      let '(long, m2, e2) :=
        if negb (bool_decide (latestTxnIdForLong = -1))
        then popThrough latestTxnIdForLong (finalStatusTransactionStateDequeLong m) m1
        else (finalStatusTransactionStateDequeLong m, m1, None) in
      (setDeques short long (editLog m) m2,
       match e2 with Some e => Thrown e | None => Returned () end)
  end.

(** The loop of [cleanLabel] over the ids of one label: the ids that stay
    in the set, the final-status index, and [removedTxnIds]. *)
Definition cleanLabelIds (txnIds : gset Z) (final removedTxnIds : gset Z)
  : gset Z * gset Z * gset Z :=
  foldl (λ '(txnIds, final, removedTxnIds) txnId,
           if decide (txnId ∈ final)
           then (txnIds ∖ {[txnId]}, final ∖ {[txnId]}, removedTxnIds ∪ {[txnId]})
           else (txnIds, final, removedTxnIds))
        (txnIds, final, removedTxnIds) (elements txnIds).

(** The test of the two [removeIf] of [cleanLabel], on a reference of a
    deque. *)
Definition removedRef (m : Mgr) (removedTxnIds : gset Z) (ref : Z) : bool :=
  match txnObjects m !! ref with
  | Some t => bool_decide (getTransactionId t ∈ removedTxnIds)
  | None => false
  end.

(** [cleanLabel], on the manager; [label] is nullable.  The entry that the
    call writes to the edit log when it is not a replay is a
    [CleanLabelOperationLog] of the database and the label, which is given
    back next to the manager. *)
Definition cleanLabel (label : option string) (isReplay : bool) (m : Mgr)
  : Mgr * option (Z * option string) :=
  let finish (labels : gmap string (gset Z)) (final removedTxnIds : gset Z) :=
    let keep deque := filter (λ ref, removedRef m removedTxnIds ref = false) deque in
    (setDeques (keep (finalStatusTransactionStateDequeShort m))
               (keep (finalStatusTransactionStateDequeLong m)) (editLog m)
               (setFinalIndexes final labels m),
     if isReplay then None else Some (mgr_dbId m, label)) in
  match label with
  | None | Some EmptyString =>
      let '(labels, final, removedTxnIds) :=
        foldl (λ '(labels, final, removedTxnIds) (e : string * gset Z),
                 let '(txnIds, final, removedTxnIds) :=
                   cleanLabelIds e.2 final removedTxnIds in
                 (if decide (txnIds = ∅) then delete e.1 labels
                  else <[e.1 := txnIds]> labels,
                  final, removedTxnIds))
              (labelToTxnIds m, idToFinalStatusTransactionState m, (∅ : gset Z))
              (map_to_list (labelToTxnIds m)) in
      finish labels final removedTxnIds
  | Some label' =>
      match labelToTxnIds m !! label' with
      | None => (m, None)
      | Some txnIds =>
          let '(txnIds', final, removedTxnIds) :=
            cleanLabelIds txnIds (idToFinalStatusTransactionState m) ∅ in
          finish (if decide (txnIds' = ∅) then delete label' (labelToTxnIds m)
                  else <[label' := txnIds']> (labelToTxnIds m))
                 final removedTxnIds
      end
  end.

Section Calls.
Context `{Collaborators}.

(** [abortTransaction(String, String)]; [label] is nullable. *)
Definition abortTransactionByLabel (now : Z) (label : option string) (why : string)
    (m : Mgr) : Mgr * Outcome unit :=
  match label with
  | None => (m, Thrown NullPointerException)
  | Some label =>
      match getTransactionIdByLabelAndStatus label [PREPARE] m with
      | Thrown e => (m, Thrown e)
      | Returned transactionId => abortTransaction now transactionId why None m
      end
  end.

End Calls.

End TxnMgrQueries.

(** * Statements

    The properties that the theorems below are about, in the words of the
    specification, and the invariants of the loops. *)

Module StorageSpecs.
Import StorageEngine.

(** The claim as the specification words it: after the call both the cache
    entry and the per-medium last used index hold [curr_index + 1]. *)
Definition both_hold_next_index
    (now_ms partition_id : Z) (m : TStorageMedium) (st : PlacementState) : Prop :=
  let '(curr_index, st') := _get_and_set_next_disk_index now_ms partition_id m st in
  cached_index (get_key partition_id m) st' = Some (curr_index + 1)
  ∧ last_use_index_of st' m = curr_index + 1.

Definition fresh_placement : PlacementState :=
  {| _create_tablet_idx_lru_cache := {| capacity := 4; entries := [] |};
     _last_use_index := ∅ |}.

#[global] Instance gc_selected_dec now_at st k p : Decision (gc_selected now_at st k p).
Proof. unfold gc_selected. apply _. Defined.

Section Sweep.
Variables (now_at : RowsetId → Z) (st : GcState).

(** What the loop of [start_delete_unused_rowset] has done once it has
    visited the entries with a key in [D]. *)
Record sweep_inv (D : gset RowsetId) (acc : SweepLoop) : Prop := {
  inv_unused : ∀ k, sl_unused acc !! k =
    match _unused_rowsets st !! k with
    | Some p => if decide (k ∈ D ∧ gc_selected now_at st k p) then None else Some p
    | None => None
    end;
  inv_querying : ∀ k, sl_querying acc !! k =
    match _unused_rowsets st !! k with
    | Some p => if decide (k ∈ D ∧ gc_selected now_at st k p) then None
                else _querying_rowsets st !! k
    | None => _querying_rowsets st !! k
    end;
  inv_copy : ∀ p, p ∈ sl_copy acc ↔
    ∃ k, k ∈ D ∧ _unused_rowsets st !! k = Some p ∧ gc_selected now_at st k p
         ∧ is_local (rowsets st p) = true;
}.

End Sweep.

(** Scenario: rowset object 0 (id 10) is unused and expired, and is still
    held by the querying registry. *)
Definition pinned_rowset : Rowset :=
  {| rowset_id := 10; need_delete_file := true; delayed_expired_timestamp := 100;
     is_local := true; rs_tablet_id := 1 |}.

Definition pinned_state : GcState :=
  {| rowsets := λ _, pinned_rowset;
     _unused_rowsets := {[ 10 := 0%nat ]};
     _querying_rowsets := {[ 10 := 0%nat ]};
     other_refs := λ _, 0%nat;
     tablets := ∅;
     disk := {[ 10 ]} |}.

End StorageSpecs.

Module TxnSpecs.
Import MachineInt TxnMgr.

(** *** The classes of a replica *)

(** The three lists that a check files a replica in. *)
Inductive ReplicaClass := Success | VersionFailed | WriteFailed.

#[global] Instance ReplicaClass_eq_dec : EqDecision ReplicaClass.
Proof. solve_decision. Defined.

Definition tally_add (c : ReplicaClass) (r : Replica) (t : ReplicaTally) : ReplicaTally :=
  match c with
  | Success => addSucc r t
  | VersionFailed => addVersionFailed r t
  | WriteFailed => addWriteFailed r t
  end.

Section PublishClass.
Context `{Collaborators}.

(** The last step: the class of the replica for the target version [V],
    given the errors recorded. *)
Definition publish_class (R : Replica) (V : Z) (errors : gset Z) : ReplicaClass :=
  if decide (replica_id R ∈ errors) then
    if decide (V ≤ replica_version R) then Success else WriteFailed
  else
    if checkVersionCatchUp R (wrap64 (V - 1)) true then Success else VersionFailed.

End PublishClass.

(** *** The publish quorum *)

(** A tablet is under quorum when fewer replicas succeeded than the load
    requires. *)
Definition under_quorum (c : TabletCheck) : Prop := healthReplicaNum c < tc_required c.

#[global] Instance under_quorum_dec c : Decision (under_quorum c).
Proof. unfold under_quorum. apply _. Defined.

(** The transaction has waited for its publish long enough: the wait is
    configured, a first publish has happened, and at least
    [publish_wait_time_second] seconds have passed since. *)
Definition waited_long_enough (cfg : Config) (now : Z) (t : TransactionState) : Prop :=
  0 < publish_wait_time_second cfg
  ∧ 0 < firstPublishVersionTime t
  ∧ publish_wait_time_second cfg * 1000 ≤ now - firstPublishVersionTime t.

(** What the loops of [finishCheckQuorumReplicas] keep true of the verdict
    and of the tallies gathered so far. *)
Record verdict_inv (allow : bool) (st : QuorumLoop) : Prop := {
  vi_quorum : ql_publishResult st = QUORUM_SUCC ↔
              Forall (λ c, ¬ under_quorum c) (ql_checks st);
  vi_failed : ql_publishResult st = FAILED ↔
              Exists (λ c, under_quorum c ∧ ¬ (allow = true ∧ 0 < healthReplicaNum c))
                     (ql_checks st);
  vi_errMsg : ql_publishResult st = FAILED →
              ∃ c table_id partition_id v,
                c ∈ ql_checks st ∧ under_quorum c
                ∧ ql_errMsg st = Some (PublishFailed (tc_tabletId c) (healthReplicaNum c)
                                         (tc_required c) table_id partition_id v);
}.

(** *** The partition version check *)

(** The commit version is the successor of the visible version, as the code
    tests it in [long] arithmetic. *)
Definition next_of (visible commit : Z) : Prop := visible = wrap64 (commit - 1).

(** A partition commit info survives when its partition still exists; it is
    ready when the partition's visible version is just below its version. *)
Definition partition_survives (table : OlapTable) (e : Z * PartitionCommitInfo) : Prop :=
  is_Some (getPartition table (partitionId e.2)).

Definition partition_ready (table : OlapTable) (e : Z * PartitionCommitInfo) : Prop :=
  ∀ partition, getPartition table (partitionId e.2) = Some partition →
               next_of (visibleVersion partition) (version e.2).

Definition table_ready (db : Database) (e : Z * TableCommitInfo) : Prop :=
  ∀ table, getTableNullable db (tableId e.2) = Some table →
           Forall (partition_ready table) (idToPartitionCommitInfo e.2).

(** The commit infos with every entry of a dropped table or partition
    taken out. *)
Definition survivingPartitionInfos (table : OlapTable)
    (infos : list (Z * PartitionCommitInfo)) : list (Z * PartitionCommitInfo) :=
  filter (partition_survives table) infos.

Definition survivingTableInfos (db : Database) (infos : list (Z * TableCommitInfo))
  : list (Z * TableCommitInfo) :=
  omap (λ e : Z * TableCommitInfo,
          match getTableNullable db (tableId e.2) with
          | None => None
          | Some table =>
              Some (e.1, {| tableId := tableId e.2;
                            idToPartitionCommitInfo :=
                              survivingPartitionInfos table (idToPartitionCommitInfo e.2) |})
          end) infos.

(** No entry of a dropped table or partition is left. *)
Definition no_dropped_entry (db : Database) (infos : list (Z * TableCommitInfo)) : Prop :=
  ∀ e, e ∈ infos →
    ∃ table, getTableNullable db (tableId e.2) = Some table
             ∧ Forall (partition_survives table) (idToPartitionCommitInfo e.2).

(** The claim as the specification words it: the call leaves no entry of a
    dropped table or partition in the commit infos. *)
Definition removes_every_dropped_entry (t : TransactionState) (db : Database) : Prop :=
  no_dropped_entry db (idToTableCommitInfos (finishCheckPartitionVersion t db).1.1).

(** *** The commit status check *)

(** The commit backends of a tablet: [tabletToBackends[tablet]], empty when
    the tablet has no entry. *)
Definition commit_backends (tabletToBackends : gmap Z (gset Z)) (tablet : Tablet) : gset Z :=
  default ∅ (tabletToBackends !! tablet_id tablet).

(** The class of the replica that backend [b] hosts, in the specification's
    words. *)
Definition commit_class (commit : gset Z) (b : Z) (r : Replica) : ReplicaClass :=
  if decide (b ∈ commit) then
    if decide (lastFailedVersion r < 0) then Success else VersionFailed
  else WriteFailed.

(** The replicas of a tablet that fall in class [c], in the order of the
    tablet's backends. *)
Definition replicas_of_class (idx : TabletInvertedIndex) (commit : gset Z)
    (tablet : Tablet) (c : ReplicaClass) : list Replica :=
  omap (λ b, r ← getReplica idx (tablet_id tablet) b;
             if decide (commit_class commit b r = c) then Some r else None)
       (getBackendIds tablet).

Definition commit_tally (idx : TabletInvertedIndex) (commit : gset Z) (tablet : Tablet)
  : ReplicaTally :=
  {| tabletSuccReplicas := replicas_of_class idx commit tablet Success;
     tabletWriteFailedReplicas := replicas_of_class idx commit tablet WriteFailed;
     tabletVersionFailedReplicas := replicas_of_class idx commit tablet VersionFailed |}.

(** Every backend that hosts a replica of the tablet has its replica in the
    inverted index. *)
Definition replicas_found (idx : TabletInvertedIndex) (tablet : Tablet) : Prop :=
  Forall (λ b, is_Some (getReplica idx (tablet_id tablet) b)) (getBackendIds tablet).

Definition tally_app (t1 t2 : ReplicaTally) : ReplicaTally :=
  {| tabletSuccReplicas := tabletSuccReplicas t1 ++ tabletSuccReplicas t2;
     tabletWriteFailedReplicas := tabletWriteFailedReplicas t1 ++ tabletWriteFailedReplicas t2;
     tabletVersionFailedReplicas :=
       tabletVersionFailedReplicas t1 ++ tabletVersionFailedReplicas t2 |}.

Definition class_lists (idx : TabletInvertedIndex) (commit : gset Z) (tabletId : Z)
    (backends : list Z) (c : ReplicaClass) : list Replica :=
  omap (λ b, r ← getReplica idx tabletId b;
             if decide (commit_class commit b r = c) then Some r else None) backends.

(** A report [(tablet, backend)] counts when the inverted index knows the
    tablet, its table is among the tables of the commit and its partition
    is still there. *)
Definition accepted (idx : TabletInvertedIndex) (idToTable : gmap Z OlapTable)
    (info : TabletCommitInfo) (tableId partitionId : Z) : Prop :=
  ∃ tbl, tabletMetaMap idx !! tci_tabletId info
         = Some {| tm_tableId := tableId; tm_partitionId := partitionId |}
         ∧ idToTable !! tableId = Some tbl
         ∧ is_Some (getPartition tbl partitionId).

(** The backends reported for a tablet, and the partitions affected. *)
Definition reported_backend (idx : TabletInvertedIndex) (idToTable : gmap Z OlapTable)
    (infos : list TabletCommitInfo) (tabletId backend : Z) : Prop :=
  ∃ info tableId partitionId,
    info ∈ infos ∧ tci_tabletId info = tabletId ∧ tci_backendId info = backend
    ∧ accepted idx idToTable info tableId partitionId.

Definition affected_partition (idx : TabletInvertedIndex) (idToTable : gmap Z OlapTable)
    (infos : list TabletCommitInfo) (tableId partitionId : Z) : Prop :=
  ∃ info, info ∈ infos ∧ accepted idx idToTable info tableId partitionId.

(** A tablet the check walks, with the number of replicas its partition
    requires. *)
Definition Walked : Type := Z * Tablet.

Section Walk.
Variables (idx : TabletInvertedIndex) (ttb : gmap Z (gset Z)) (transactionId : Z).

Definition succ_num (w : Walked) : Z :=
  Z.of_nat (length (replicas_of_class idx (commit_backends ttb w.2) w.2 Success)).

Definition tablet_ok (w : Walked) : Prop :=
  replicas_found idx w.2 ∧ w.1 ≤ succ_num w.

Definition check_of (w : Walked) : TabletCheck :=
  {| tc_tabletId := tablet_id w.2;
     tc_tally := commit_tally idx (commit_backends ttb w.2) w.2;
     tc_required := w.1 |}.

Definition write_failed_ids (W : list Walked) : gset Z :=
  ⋃ ((λ w, list_to_set (replica_id <$>
                          replicas_of_class idx (commit_backends ttb w.2) w.2 WriteFailed))
     <$> W).

(** What a stretch of the walk that throws nothing has done to the loop
    state. *)
Record walk_rel (st0 st : CommitLoop) (W : list Walked) : Prop := {
  wr_checks : cs_checks st = cs_checks st0 ++ (check_of <$> W);
  wr_errors : cs_errorReplicaIds st = cs_errorReplicaIds st0 ∪ write_failed_ids W;
  wr_ok : Forall tablet_ok W;
}.

End Walk.

(** *** Begin and commit *)

(** An idempotent retry: the transaction found is still PREPARE or
    PRECOMMITTED and was begun by the same request. *)
Definition is_retry (requestId : option TUniqueId) (found : TransactionState) : Prop :=
  (transactionStatus found = PREPARE ∨ transactionStatus found = PRECOMMITTED)
  ∧ ∃ req, requestId = Some req ∧ getRequestId found = Some req.

(** The manager but for its cache of the used quota, which the quota check
    fills when it is empty. *)
Definition same_but_quota_cache (m m' : Mgr) : Prop :=
  ∃ v, m' = setUsedQuotaDataBytes v m.

Definition commit_failed (o : Outcome unit) : Prop :=
  ∃ why, o = Thrown (TransactionCommitFailedException why).


(** *** The invariant of the manager *)

Definition is_tracked (m : Mgr) (id : Z) : Prop :=
  id ∈ idToRunningTransactionState m ∨ id ∈ idToFinalStatusTransactionState m.

(** What every state reached without finishing an aborted transaction
    satisfies: a tracked id has its object and is filed under the object's
    label; an object sits at the key of its id, and no id is ahead of the
    generator; the running index holds the transactions that are not final
    and the final-status index those that are; and labels are unique. *)
Record mgr_inv (m : Mgr) : Prop := {
  inv_tracked : ∀ id, is_tracked m id →
    ∃ t ids, txnObjects m !! id = Some t
             ∧ labelToTxnIds m !! getLabel t = Some ids ∧ id ∈ ids;
  inv_objects : ∀ id t, txnObjects m !! id = Some t →
    getTransactionId t = id ∧ id ≤ idGenerator m;
  inv_running : ∀ id t, id ∈ idToRunningTransactionState m →
    txnObjects m !! id = Some t → isFinalStatus (transactionStatus t) = false;
  inv_final : ∀ id t, id ∈ idToFinalStatusTransactionState m →
    txnObjects m !! id = Some t → isFinalStatus (transactionStatus t) = true;
  inv_unique : label_unique m;
}.

(** A write that leaves header and status alone. *)
Definition touched (t t' : TransactionState) : Prop :=
  header t' = header t ∧ transactionStatus t' = transactionStatus t.

(** A write that may change the status, but neither between final and not
    final nor away from ABORTED. *)
Definition in_place (t t' : TransactionState) : Prop :=
  header t' = header t
  ∧ isFinalStatus (transactionStatus t') = isFinalStatus (transactionStatus t)
  ∧ (transactionStatus t' ≠ ABORTED → transactionStatus t ≠ ABORTED).

(** A status change that an upsert files: never from final to not final,
    never away from ABORTED. *)
Definition advance (t t' : TransactionState) : Prop :=
  header t' = header t
  ∧ (isFinalStatus (transactionStatus t) = true
     → isFinalStatus (transactionStatus t') = true)
  ∧ (transactionStatus t' ≠ ABORTED → transactionStatus t ≠ ABORTED).

(** The invariant, with the object of a tracked [id] at hand. *)
Definition holds (m : Mgr) (id : Z) (t : TransactionState) : Prop :=
  mgr_inv m ∧ is_tracked m id ∧ txnObjects m !! id = Some t.

(** Writes that touch none of the fields the invariant reads, the
    generator apart, which may only grow. *)
Definition same_core (m m' : Mgr) : Prop :=
  txnObjects m' = txnObjects m
  ∧ idToRunningTransactionState m' = idToRunningTransactionState m
  ∧ idToFinalStatusTransactionState m' = idToFinalStatusTransactionState m
  ∧ labelToTxnIds m' = labelToTxnIds m
  ∧ idGenerator m ≤ idGenerator m'.

(** What the scan of [beginTransaction] over the label establishes when it
    lets the call go on. *)
Definition label_free (lbl : string) (m : Mgr) : Prop :=
  match unprotectedGetTxnIdsByLabel lbl m with
  | None => True
  | Some existingTxnIds =>
      existingTxnIds = ∅ ∨ notAbortedTxnsOf existingTxnIds m = Some []
  end.

End TxnSpecs.

Module StorageStoresSpecs.
Import MachineInt StorageEngine StorageEngineStores.
Local Open Scope Z_scope.

(** The maximal runs of entries of one level, in order. *)
Fixpoint level_groups (l : list DirInfo) : list (list DirInfo) :=
  match l with
  | [] => []
  | d :: l' =>
      match level_groups l' with
      | (d' :: g) :: gs =>
          if decide (available_level d = available_level d')
          then (d :: d' :: g) :: gs
          else [d] :: (d' :: g) :: gs
      | _ => [[d]]
      end
  end.

(** The indices that successive calls of [_get_and_set_next_disk_index] for
    one partition and medium return, one call per entry of [times] (the
    clock at the call). *)
Fixpoint next_disk_indices (times : list Z) (partition_id : Z)
    (storage_medium : TStorageMedium) (st : PlacementState) : list Z :=
  match times with
  | [] => []
  | now_ms :: times' =>
      let '(curr_index, st') :=
        _get_and_set_next_disk_index now_ms partition_id storage_medium st in
      curr_index :: next_disk_indices times' partition_id storage_medium st'
  end.

(** Calls of [_get_and_set_next_disk_index] for any partitions and media,
    each with the clock at the call: the indices returned and the state
    left. *)
Fixpoint placement_calls (calls : list (Z * Z * TStorageMedium)) (st : PlacementState)
  : list Z * PlacementState :=
  match calls with
  | [] => ([], st)
  | (now_ms, partition_id, storage_medium) :: calls' =>
      let '(curr_index, st1) :=
        _get_and_set_next_disk_index now_ms partition_id storage_medium st in
      let '(indices, st2) := placement_calls calls' st1 in
      (curr_index :: indices, st2)
  end.

(** Every index in the cache is one that [set_index] accepts. *)
Definition cache_in_range (st : PlacementState) : Prop :=
  Forall (λ e, 0 ≤ idx e.2 ≤ INT_MAX) (entries (_create_tablet_idx_lru_cache st)).

(** Calls of the two functions that change the listeners. *)
Inductive ListenerCall :=
  | Register (listener : ReportWorkerPtr)
  | Deregister (listener : ReportWorkerPtr).

Definition call_subject (c : ListenerCall) : ReportWorkerPtr :=
  match c with Register l | Deregister l => l end.

Definition listener_call (ls : list ReportWorkerPtr) (c : ListenerCall)
  : list ReportWorkerPtr :=
  match c with
  | Register l => register_report_listener l ls
  | Deregister l => deregister_report_listener l ls
  end.

(** The latest call about [listener] is a registration. *)
Definition registered (listener : ReportWorkerPtr) (calls : list ListenerCall) : Prop :=
  last (filter (λ c, call_subject c = listener) calls) = Some (Register listener).

(** [StorageEngine::evict_querying_rowset] on the engine state. *)
Definition evict_querying (rs_id : RowsetId) (st : GcState) : GcState :=
  {| rowsets := rowsets st;
     _unused_rowsets := _unused_rowsets st;
     _querying_rowsets := evict_querying_rowset rs_id (_querying_rowsets st);
     other_refs := other_refs st;
     tablets := tablets st;
     disk := disk st |}.

(** Calls of the functions that change the two rowset registries. *)
Inductive GcCall :=
  | AddUnused (rowset : option RowsetPtr)
  | AddQuerying (rs : RowsetPtr)
  | EvictQuerying (rs_id : RowsetId)
  | DeleteUnused (now_at : RowsetId → Z).

Definition gc_call (st : GcState) (c : GcCall) : GcState :=
  match c with
  | AddUnused rowset => add_unused_rowset rowset st
  | AddQuerying rs => add_quering_rowset rs st
  | EvictQuerying rs_id => evict_querying rs_id st
  | DeleteUnused now_at => (start_delete_unused_rowset now_at st).1
  end.

(** An entry of a listing that may be absent. *)
Definition listed (dir_name : string) (listing : option (list string)) : Prop :=
  ∃ l, listing = Some l ∧ dir_name ∈ l.

End StorageStoresSpecs.

(** ** Statements about the transaction manager as a whole *)

Module TxnMoreSpecs.
Import MachineInt TxnMgr TxnSpecs.

(** The changes of status that the manager makes: none; to VISIBLE, from any
    status; from PREPARE to PRECOMMITTED, COMMITTED or ABORTED; from
    PRECOMMITTED to COMMITTED or ABORTED. *)
Definition status_step (s s' : TransactionStatus) : Prop :=
  s' = s
  ∨ s' = VISIBLE
  ∨ (s = PREPARE ∧ (s' = PRECOMMITTED ∨ s' = COMMITTED ∨ s' = ABORTED))
  ∨ (s = PRECOMMITTED ∧ (s' = COMMITTED ∨ s' = ABORTED)).

(** What every state of the manager satisfies, whatever calls were made: an
    object sits at the key of its id and no id is ahead of the generator; a
    tracked id has its object and is filed under the object's label; an id
    filed under a label is tracked and its object has that label; the
    running index holds the transactions that are not final and the
    final-status index those that are; no object has the status UNKNOWN. *)
Record mgr_wf (m : Mgr) : Prop := {
  wf_objects : ∀ id t, txnObjects m !! id = Some t →
    getTransactionId t = id ∧ id ≤ idGenerator m;
  wf_filed : ∀ id, is_tracked m id →
    ∃ t ids, txnObjects m !! id = Some t
             ∧ labelToTxnIds m !! getLabel t = Some ids ∧ id ∈ ids;
  wf_labels : ∀ l ids id, labelToTxnIds m !! l = Some ids → id ∈ ids →
    is_tracked m id ∧ ∃ t, txnObjects m !! id = Some t ∧ getLabel t = l;
  wf_running : ∀ id t, id ∈ idToRunningTransactionState m →
    txnObjects m !! id = Some t → isFinalStatus (transactionStatus t) = false;
  wf_final : ∀ id t, id ∈ idToFinalStatusTransactionState m →
    txnObjects m !! id = Some t → isFinalStatus (transactionStatus t) = true;
  wf_known : ∀ id t, txnObjects m !! id = Some t → transactionStatus t ≠ UNKNOWN;
}.

(** From [m] to [m']: the invariant holds in [m'], the generator has not
    gone back, and every object of [m] is still there, with the header it
    had and a status it may have moved to. *)
Definition evolves (m m' : Mgr) : Prop :=
  mgr_wf m'
  ∧ idGenerator m ≤ idGenerator m'
  ∧ ∀ id t, txnObjects m !! id = Some t →
      ∃ t', txnObjects m' !! id = Some t' ∧ header t' = header t
            ∧ status_step (transactionStatus t) (transactionStatus t').

(** A tracked transaction of the label with the status. *)
Definition has_status (m : Mgr) (label : string) (status : TransactionStatus) : Prop :=
  ∃ id t, unprotectedGetTransactionState id m = Some t
          ∧ getLabel t = label ∧ transactionStatus t = status.

(** Every object sits at the key of its id. *)
Definition keyed (m : Mgr) : Prop :=
  ∀ ref t, txnObjects m !! ref = Some t → getTransactionId t = ref.

(** [clearTransactionState] on each id of a list in turn. *)
Definition clearAll (txnIds : list Z) (m : Mgr) : Mgr :=
  foldl (λ m txnId, (clearTransactionState txnId m).1) m txnIds.

(** None of the calls of [clearAll] throws. *)
Fixpoint clearsReturn (txnIds : list Z) (m : Mgr) : Prop :=
  match txnIds with
  | [] => True
  | txnId :: rest =>
      (clearTransactionState txnId m).2 = None
      ∧ clearsReturn rest (clearTransactionState txnId m).1
  end.

(** Two managers that differ in the edit log at most. *)
Definition same_but_log (m m' : Mgr) : Prop :=
  m' = setDeques (finalStatusTransactionStateDequeShort m)
         (finalStatusTransactionStateDequeLong m) (editLog m') m.

Section Runs.
Context `{Collaborators}.

(** A run of calls, each in the environment it finds. *)
Definition run_ops (calls : list (Env * Op)) (m : Mgr) : Mgr :=
  foldl (λ m c, run_op c.1 c.2 m) m calls.

End Runs.

End TxnMoreSpecs.

(** ** Statements about the garbage collection of unused rowsets *)

Module UnusedRowsetSpecs.
Import StorageEngine.

(** The claim as the specification words it: the files of a rowset that
    the querying registry holds are never deleted by the sweeper. *)
Definition querying_files_kept (now_at : RowsetId → Z) (st : GcState) : Prop :=
  ∀ k q, _querying_rowsets st !! k = Some q →
         rowset_id (rowsets st q) ∈ disk st →
         rowset_id (rowsets st q) ∈ disk (start_delete_unused_rowset now_at st).1.

(** The entry of the unused registry under the id [k] is one that the sweep
    takes. *)
Definition taken_under (now_at : RowsetId → Z) (st : GcState) (k : RowsetId) : Prop :=
  ∃ p, _unused_rowsets st !! k = Some p ∧ gc_selected now_at st k p.

Definition removed_under (now_at : RowsetId → Z) (st : GcState) (k : RowsetId) : Prop :=
  ∃ p, _unused_rowsets st !! k = Some p ∧ gc_selected now_at st k p
       ∧ is_local (rowsets st p) = true.

(** Scenario: rowset 10 has two objects.  Object 0 is held by the querying
    registry; object 1 was handed to [add_unused_rowset], is held by nobody
    else and has expired. *)
Definition shadowed_state : GcState :=
  {| rowsets := λ _, {| rowset_id := 10; need_delete_file := true;
                        delayed_expired_timestamp := 100; is_local := true;
                        rs_tablet_id := 1 |};
     _unused_rowsets := {[ 10 := 1%nat ]};
     _querying_rowsets := {[ 10 := 0%nat ]};
     other_refs := λ _, 0%nat;
     tablets := ∅;
     disk := {[ 10 ]} |}.

End UnusedRowsetSpecs.

(** ** Statements about the publish of a transaction *)

Module PublishSpecs.
Import MachineInt TxnMgr TxnSpecs.

(** The transaction predates the watermark of an alter job: the table is
    under schema change, or under rollup, and one of its unfinished jobs of
    that kind has a watershed transaction id that is not below the id of the
    transaction. *)
Definition predates_alter_watermark (env : Env) (transactionId : Z) (table : OlapTable)
  : Prop :=
  (table_state table = TABLE_SCHEMA_CHANGE
   ∧ Exists (λ job, transactionId ≤ watershedTxnId job)
            (schemaChangeJobs env (table_id table)))
  ∨ (table_state table = TABLE_ROLLUP
     ∧ Exists (λ job, transactionId ≤ watershedTxnId job)
              (rollupJobs env (table_id table))).

#[global] Instance predates_alter_watermark_dec env transactionId table :
  Decision (predates_alter_watermark env transactionId table).
Proof. unfold predates_alter_watermark. apply _. Defined.

(** The error of an ALTER replica is forgiven when the transaction predates
    the alter watermark or the configuration flag disables the check. *)
Definition alter_forgiven (env : Env) (transactionId : Z) (table : OlapTable)
    (R : Replica) : Prop :=
  replica_state R = REPLICA_ALTER
  ∧ (predates_alter_watermark env transactionId table
     ∨ publish_version_check_alter_replica (config env) = false).

#[global] Instance alter_forgiven_dec env transactionId table R :
  Decision (alter_forgiven env transactionId table R).
Proof. unfold alter_forgiven. apply _. Defined.

(** The errors recorded once the replica has been forgiven, if it is. *)
Definition errors_after_alter (env : Env) (transactionId : Z) (table : OlapTable)
    (R : Replica) (errors : gset Z) : gset Z :=
  if decide (alter_forgiven env transactionId table R)
  then errors ∖ {[replica_id R]} else errors.

(** *** The quorum check of a publish, read off the catalog *)

(** The partitions the transaction committed to that the catalog still has,
    with their tables, in the order of the commit infos. *)
Definition committed_partitions (db : Database) (t : TransactionState)
  : list (OlapTable * Partition) :=
  e ← idToTableCommitInfos t;
  match getTableNullable db (tableId e.2) with
  | None => []
  | Some table =>
      omap (λ pe : Z * PartitionCommitInfo,
              pair table <$> getPartition table (partitionId pe.2))
           (idToPartitionCommitInfo e.2)
  end.

(** Every surviving partition is visible just below its commit version. *)
Definition versions_ready (db : Database) (t : TransactionState) : Prop :=
  Forall (table_ready db) (idToTableCommitInfos t).

(** The loaded-index map of the transaction is empty or knows the table of
    every committed partition. *)
Definition indexes_known (db : Database) (t : TransactionState) : Prop :=
  Forall (λ tp : OlapTable * Partition, is_Some (allIndicesOf t (table_id tp.1) tp.2))
         (committed_partitions db t).

(** A tablet to publish, with its partition and table. *)
Record PublishTablet := mkPublishTablet {
  pt_table : OlapTable;
  pt_partition : Partition;
  pt_tablet : Tablet;
}.

(** The tablets of a partition that the transaction loaded. *)
Definition tablets_to_publish (t : TransactionState) (tp : OlapTable * Partition)
  : list PublishTablet :=
  match allIndicesOf t (table_id tp.1) tp.2 with
  | Some allIndices => index ← allIndices; mkPublishTablet tp.1 tp.2 <$> tablets index
  | None => []
  end.

Definition publish_tablets (db : Database) (t : TransactionState) : list PublishTablet :=
  tp ← committed_partitions db t; tablets_to_publish t tp.

(** The wait for the publish is over: a wait is configured, a first publish
    has happened, and the deadline, computed as the code does in [long]
    arithmetic from the first publish time and [publish_wait_time_second],
    has been reached. *)
Definition publish_wait_over (cfg : Config) (now : Z) (t : TransactionState) : Prop :=
  0 < publish_wait_time_second cfg
  ∧ 0 < firstPublishVersionTime t
  ∧ wrap64 (firstPublishVersionTime t + wrap64 (publish_wait_time_second cfg * 1000)) ≤ now.

Section PublishWalk.
Context `{Collaborators}.

(** The classification of one replica [R] of a tablet for the target
    version [V]: the publish task of its backend, the forgiving of an ALTER
    replica, the class; a replica keeps its error only when it is filed as
    write-failed. *)
Definition publish_step (env : Env) (t : TransactionState) (table : OlapTable)
    (tabletId V : Z) (acc : gset Z * ReplicaTally) (R : Replica)
  : gset Z * ReplicaTally :=
  let errors :=
    errors_after_alter env (getTransactionId t) table R
      (applyPublishTask tabletId R (mjoin (publishVersionTasks t !! backendId R)) acc.1) in
  let class := publish_class R V errors in
  (if decide (class = WriteFailed) then errors else errors ∖ {[replica_id R]},
   tally_add class R acc.2).

(** The check of one tablet: its replicas are classified in turn for the
    version that follows the visible version of the partition, and the
    number required is [loadRequiredReplicaNum] of the partition. *)
Definition publish_tablet (env : Env) (t : TransactionState) (errors : gset Z)
    (w : PublishTablet) : gset Z * TabletCheck :=
  let r :=
    foldl (publish_step env t (pt_table w) (tablet_id (pt_tablet w))
             (wrap64 (visibleVersion (pt_partition w) + 1)))
          (errors, emptyTally) (replicas (pt_tablet w)) in
  (r.1, {| tc_tabletId := tablet_id (pt_tablet w); tc_tally := r.2;
           tc_required :=
             loadRequiredReplicaNum (pt_table w) (partition_id (pt_partition w)) |}).

(** The tablets are checked in order, the recorded errors going from one
    to the next. *)
Definition publish_walk (env : Env) (t : TransactionState)
    (acc : gset Z * list TabletCheck) (ws : list PublishTablet)
  : gset Z * list TabletCheck :=
  foldl (λ acc w, let r := publish_tablet env t acc.1 w in (r.1, acc.2 ++ [r.2])) acc ws.

(** The checks of the tablets of a transaction, starting from the errors
    that its commit recorded. *)
Definition publish_checks (env : Env) (db : Database) (t : TransactionState)
  : list TabletCheck :=
  (publish_walk env t (errorReplicas t, []) (publish_tablets db t)).2.

(** Every tablet under quorum has a successful replica. *)
Definition one_succ_each (checks : list TabletCheck) : Prop :=
  Forall (λ c, under_quorum c → 0 < healthReplicaNum c) checks.

(** C2 as the specification words it, for a transaction with a tablet under
    quorum: once [publish_wait_time_second] is positive and has passed since
    the first publish and every tablet under quorum has a successful
    replica, the transaction is made VISIBLE with verdict TIMEOUT_SUCC. *)
Definition promoted_after_wait (env : Env) (now transactionId : Z) (m : Mgr) : Prop :=
  ∀ t db,
    unprotectedGetTransactionState transactionId m = Some t →
    transactionStatus t = COMMITTED →
    idToDb env !! dbId (header t) = Some db →
    Exists under_quorum (publish_checks env db t) →
    0 < publish_wait_time_second (config env) →
    publish_wait_time_second (config env) * 1000 ≤ now - firstPublishVersionTime t →
    one_succ_each (publish_checks env db t) →
    ∃ m' env' t',
      finishTransaction env now transactionId m
      = (m', env', Returned (FinishVisible TIMEOUT_SUCC))
      ∧ txnObjects m' !! transactionId = Some t'
      ∧ transactionStatus t' = VISIBLE.

End PublishWalk.

(** The variables of the loops of [finishCheckQuorumReplicas] hold what a
    walk over the catalog has gathered so far. *)
Definition tracks (st : QuorumLoop) (acc : gset Z * list TabletCheck) : Prop :=
  ql_errorReplicaIds st = acc.1 ∧ ql_checks st = acc.2.

End PublishSpecs.

(** ** Statements about the commit status check *)

Module CommitWalkSpecs.
Import MachineInt TxnMgr TxnSpecs.

(** A report that makes the first loop of [checkCommitStatus] refuse the
    commit: its tablet is known to the inverted index and belongs to a table
    of the request that is being restored. *)
Definition restore_info (idx : TabletInvertedIndex) (idToTable : gmap Z OlapTable)
    (info : TabletCommitInfo) : Prop :=
  ∃ tabletMeta tbl,
    tabletMetaMap idx !! tci_tabletId info = Some tabletMeta
    ∧ idToTable !! tm_tableId tabletMeta = Some tbl
    ∧ table_state tbl = TABLE_RESTORE.

Definition restore_referenced (idx : TabletInvertedIndex) (idToTable : gmap Z OlapTable)
    (infos : list TabletCommitInfo) : Prop :=
  Exists (restore_info idx idToTable) infos.

(** What the second loop of [checkCommitStatus] comes to, in its order: a
    tablet to check, with the number of replicas that its partition
    requires; an affected table that the database does not have; an
    affected partition of a table for which the loaded-index map of the
    transaction has no entry. *)
Inductive WalkStep :=
  | CheckTablet (required : Z) (tablet : Tablet)
  | TableGone
  | IndexesUnknown.

Definition steps_of_index (required : Z) (index : MaterializedIndex) : list WalkStep :=
  CheckTablet required <$> tablets index.

Definition steps_of_partition (t : TransactionState) (tableId : Z) (affected : gset Z)
    (table : OlapTable) (partition : Partition) : list WalkStep :=
  if decide (partition_id partition ∈ affected) then
    match allIndicesOf t tableId partition with
    | Some allIndices =>
        concat (steps_of_index (loadRequiredReplicaNum table (partition_id partition))
                <$> allIndices)
    | None => [IndexesUnknown]
    end
  else [].

Definition steps_of_table (db : Database) (t : TransactionState) (entry : Z * gset Z)
  : list WalkStep :=
  match getTableNullable db entry.1 with
  | Some table => concat (steps_of_partition t entry.1 entry.2 table <$> partitions table)
  | None => [TableGone]
  end.

Definition walk_steps (db : Database) (t : TransactionState)
    (tableToPartition : gmap Z (gset Z)) : list WalkStep :=
  concat (steps_of_table db t <$> map_to_list tableToPartition).

(** The tablets among the steps. *)
Definition tablets_of (steps : list WalkStep) : list Walked :=
  omap (λ s, match s with
             | CheckTablet required tablet => Some (required, tablet)
             | _ => None
             end) steps.

Section Steps.
Variables (idx : TabletInvertedIndex) (ttb : gmap Z (gset Z)) (transactionId : Z).

(** [b] is the first backend of the tablet whose replica the inverted index
    does not have. *)
Definition first_missing (tablet : Tablet) (b : Z) : Prop :=
  ∃ pre post, getBackendIds tablet = pre ++ b :: post
              ∧ Forall (λ b', is_Some (getReplica idx (tablet_id tablet) b')) pre
              ∧ getReplica idx (tablet_id tablet) b = None.

(** A step that the check passes: a tablet with all its replicas found and
    its quorum of success replicas. *)
Definition step_ok (s : WalkStep) : Prop :=
  match s with
  | CheckTablet required tablet => tablet_ok idx ttb (required, tablet)
  | _ => False
  end.

(** How a step makes the check throw. *)
Definition step_fails (s : WalkStep) (e : Exception) : Prop :=
  match s with
  | CheckTablet required tablet =>
      (∃ b, first_missing tablet b
            ∧ e = TransactionCommitFailedException (ReplicaNotFound (tablet_id tablet) b))
      ∨ (replicas_found idx tablet
         ∧ succ_num idx ttb (required, tablet) < required
         ∧ e = TabletQuorumFailedException transactionId (tablet_id tablet)
                 (succ_num idx ttb (required, tablet)) required)
  | TableGone => e = MetaNotFoundException
  | IndexesUnknown => e = NullPointerException
  end.

(** The first step that fails decides: every step before it is passed. *)
Definition first_failure (steps : list WalkStep) (e : Exception) : Prop :=
  ∃ pre s post, steps = pre ++ s :: post ∧ Forall step_ok pre ∧ step_fails s e.

(** How a stretch of the walk ends. *)
Definition steps_result (st0 st : CommitLoop) (thrown : option Exception)
    (steps : list WalkStep) : Prop :=
  match thrown with
  | None => Forall step_ok steps ∧ walk_rel idx ttb st0 st (tablets_of steps)
  | Some e => first_failure steps e
  end.

End Steps.

(** The tablets that the claim speaks of, taken from the tables of the
    request: for every affected partition, the tablets of its indices. *)
Definition requested_steps (tableList : list OlapTable) (t : TransactionState)
    (tableToPartition : gmap Z (gset Z)) : list WalkStep :=
  concat ((λ table,
             concat (steps_of_partition t (table_id table)
                       (default ∅ (tableToPartition !! table_id table)) table
                     <$> partitions table)) <$> tableList).

(** C3 as the specification words it, in two sentences.  A missing replica
    makes the commit fail with a commit error. *)
Definition missing_replica_is_commit_error (env : Env) (dbId : Z)
    (tableList : list OlapTable) (t : TransactionState)
    (tabletCommitInfos : list TabletCommitInfo) : Prop :=
  ∀ maps,
    foldE (collectCommitInfo (tabletInvertedIndex env) (indexTables tableList))
          {| tableToPartition := ∅; tabletToBackends := ∅ |} tabletCommitInfos
    = (maps, None) →
    (∃ w b, w ∈ tablets_of (requested_steps tableList t (tableToPartition maps))
            ∧ b ∈ getBackendIds w.2
            ∧ getReplica (tabletInvertedIndex env) (tablet_id w.2) b = None) →
    ∃ why, (checkCommitStatus env dbId tableList t tabletCommitInfos None).2
           = Thrown (TransactionCommitFailedException why).

(** Unless every tablet has its quorum of success replicas, the commit fails
    with TabletQuorumFailedException. *)
Definition quorum_failure_is_reported (env : Env) (dbId : Z)
    (tableList : list OlapTable) (t : TransactionState)
    (tabletCommitInfos : list TabletCommitInfo) : Prop :=
  ∀ maps,
    foldE (collectCommitInfo (tabletInvertedIndex env) (indexTables tableList))
          {| tableToPartition := ∅; tabletToBackends := ∅ |} tabletCommitInfos
    = (maps, None) →
    (∃ w, w ∈ tablets_of (requested_steps tableList t (tableToPartition maps))
          ∧ succ_num (tabletInvertedIndex env) (tabletToBackends maps) w < w.1) →
    ∃ txn tablet succ required,
      (checkCommitStatus env dbId tableList t tabletCommitInfos None).2
      = Thrown (TabletQuorumFailedException txn tablet succ required).

End CommitWalkSpecs.

(** * Example states

    A small catalog and a few transactions, on which the statements below
    are evaluated. *)

Module TxnExamples.
Import TxnMgr.
Local Open Scope string_scope.
Local Open Scope Z_scope.

(** Collaborators that let everything through: every label is well formed,
    no listener objects, a replica has caught up when its version has. *)
Definition plain_collaborators : Collaborators :=
  {| isExpired := λ t now,
       negb (bool_decide (finishTime t = -1)) && (finishTime t + 1000 <? now);
     isTimeout := λ t now,
       bool_decide (transactionStatus t = PREPARE)
       && (prepareTime t + timeoutMs (header t) <? now);
     isShortTxn := λ t, bool_decide (getSourceType t = BACKEND);
     checkSchemaCompatibility := λ _ _, true;
     checkVersionCatchUp := λ r v _, v <=? replica_version r;
     updateVersionWithFailedInfo := λ r v lf ls,
       {| replica_id := replica_id r; backendId := backendId r; replica_version := v;
          lastFailedVersion := lf; lastSuccessVersion := ls;
          replica_state := replica_state r |};
     updateLastFailedVersion := λ r lf,
       {| replica_id := replica_id r; backendId := backendId r;
          replica_version := replica_version r; lastFailedVersion := lf;
          lastSuccessVersion := lastSuccessVersion r;
          replica_state := replica_state r |};
     checkLabel := λ _, true;
     beforeStateTransform := λ _ _, true |}.

#[local] Existing Instance plain_collaborators.

Definition cfg0 : Config :=
  {| publish_wait_time_second := 30; publish_version_check_alter_replica := true;
     publish_fail_log_interval_second := 300; label_num_threshold := 2000 |}.

Definition coord : TxnCoordinator :=
  {| coord_from_backend := true; coord_ip := "10.0.0.1" |}.

Definition req1 : TUniqueId := {| hi := 7; lo := 1 |}.
Definition req2 : TUniqueId := {| hi := 7; lo := 2 |}.

(** *** The catalog *)

Definition replica_at (id backend v : Z) : Replica :=
  {| replica_id := id; backendId := backend; replica_version := v;
     lastFailedVersion := -1; lastSuccessVersion := v; replica_state := REPLICA_NORMAL |}.

(** Tablet 1000 has replicas 11, 12 and 13 on the backends 1, 2 and 3. *)
Definition tablet1000 : Tablet :=
  {| tablet_id := 1000;
     replicas := [replica_at 11 1 1; replica_at 12 2 1; replica_at 13 3 1] |}.

(** Tablet 2000 has replicas 21 and 22 on the backends 1 and 2. *)
Definition tablet2000 : Tablet :=
  {| tablet_id := 2000; replicas := [replica_at 21 1 1; replica_at 22 2 1] |}.

Definition base_index : MaterializedIndex := {| index_id := 100; tablets := [tablet1000] |}.
Definition pair_index : MaterializedIndex := {| index_id := 200; tablets := [tablet2000] |}.

(** Partition 10, visible at [visible]. *)
Definition partition_with (visible : Z) (indices : list MaterializedIndex) : Partition :=
  {| partition_id := 10; visibleVersion := visible; visibleVersionTime := 0;
     nextVersion := visible + 1; materializedIndices := indices |}.

(** Table 1, which needs two replicas of a tablet for a load. *)
Definition table_with (partition : Partition) : OlapTable :=
  {| table_id := 1; table_name := "t1"; table_state := TABLE_NORMAL;
     partitions := [partition]; loadRequiredReplicaNum := λ _, 2;
     partitionRangeOf := λ _, "" |}.

Definition db_with (tables : gmap Z OlapTable) : Database :=
  {| db_id := 1; db_fullName := "db1"; idToTable := tables; dataQuota := 1000;
     usedDataQuotaWithLock := 0; transactionQuotaSize := 100; db_access_ok := true |}.

Definition inverted_index : TabletInvertedIndex :=
  {| tabletMetaMap :=
       {[ 1000 := {| tm_tableId := 1; tm_partitionId := 10 |};
          1001 := {| tm_tableId := 1; tm_partitionId := 10 |};
          2000 := {| tm_tableId := 1; tm_partitionId := 10 |} ]};
     replicaMetaTable :=
       {[ (1000, 1) := replica_at 11 1 1; (1000, 2) := replica_at 12 2 1;
          (1000, 3) := replica_at 13 3 1; (1001, 1) := replica_at 14 1 1;
          (2000, 1) := replica_at 21 1 1; (2000, 2) := replica_at 22 2 1 ]} |}.

Definition env_with (db : Database) : Env :=
  {| idToDb := {[ 1 := db ]}; tabletInvertedIndex := inverted_index;
     schemaChangeJobs := λ _, []; rollupJobs := λ _, []; config := cfg0 |}.

(** Database 1 without tables. *)
Definition env0 : Env := env_with (db_with ∅).

(** Partition 10 of table 1 with its base index. *)
Definition table_base_index : OlapTable := table_with (partition_with 1 [base_index]).

(** The backends 1 and 2 report tablet 1000. *)
Definition reported : list TabletCommitInfo :=
  [ {| tci_tabletId := 1000; tci_backendId := 1 |};
    {| tci_tabletId := 1000; tci_backendId := 2 |} ].

(** *** Transactions *)

(** Transaction 100 of label L1, as [beginTransaction] makes it. *)
Definition txn100 : TransactionState :=
  newTransactionState 1 [1] 100 "L1" (Some req1) BACKEND coord 0 60000.

Definition info_table (tid pid v : Z) : Z * TableCommitInfo :=
  (tid, {| tableId := tid;
           idToPartitionCommitInfo :=
             [(pid, {| partitionId := pid; partitionRange := ""; version := v;
                       versionTime := 0 |})] |}).

(** Transaction 100 committed, on partition 10 of table 1 at version [v]
    and on partition 20 of table 2 at version 3. *)
Definition txn_two_tables (v : Z) : TransactionState :=
  setIdToTableCommitInfos [info_table 1 10 v; info_table 2 20 3]
    (setTransactionStatus COMMITTED txn100).

(** Table 1 with partition 10 visible at version 2; there is no table 2. *)
Definition db_one_table : Database :=
  db_with {[ 1 := table_with (partition_with 2 []) ]}.

(** Transaction 100 committed on partition 10 at version 2 and first
    published at time 1000: backend 1 has published tablet 2000, backend 2
    has not finished. *)
Definition txn_half_published : TransactionState :=
  {| header := header txn100;
     transactionStatus := COMMITTED;
     prepareTime := 10; preCommitTime := -1; commitTime := 20; finishTime := -1;
     firstPublishVersionTime := 1000; lastPublishLogTime := 0;
     reason := ""; errMsg := None; errorReplicas := ∅;
     idToTableCommitInfos := [info_table 1 10 2];
     publishVersionTasks :=
       {[ 1 := Some {| isFinished := true; getSuccTablets := Some {[ 2000 := 2 ]};
                       getErrorTablets := None |};
          2 := Some {| isFinished := false; getSuccTablets := None;
                       getErrorTablets := None |} ]};
     txnCommitAttachment := None;
     publishTimeoutProlonged := false |}.

Definition db_pair : Database := db_with {[ 1 := table_with (partition_with 1 [pair_index]) ]}.

(** A manager that tracks just [t]. *)
Definition mgr_of (t : TransactionState) : Mgr :=
  unprotectUpsertTransactionState t true (newMgr 1 cfg0 100).

(** *** Traces *)

Definition begin_L1 (now : Z) (req : option TUniqueId) : Op :=
  OpBegin now [1] (Some "L1") req (Some coord) BACKEND 0 60.

(** L1 is begun as transaction 100. *)
Definition mgr_begun : Mgr := run_op env0 (begin_L1 10 (Some req1)) (newMgr 1 cfg0 99).

(** Transaction 100 is aborted and L1 begun again, as transaction 101. *)
Definition mgr_begun_again : Mgr :=
  run_op env0 (begin_L1 30 (Some req2)) (run_op env0 (OpAbort 20 100 "user" None) mgr_begun).

(** [finishTransaction] is then called on the aborted transaction 100. *)
Definition mgr_aborted_finished : Mgr := run_op env0 (OpFinish 40 100) mgr_begun_again.

End TxnExamples.

(** ** More example states *)

Module TxnExamplesMore.
Import TxnMgr TxnExamples.
Local Open Scope string_scope.
Local Open Scope Z_scope.

#[local] Existing Instance plain_collaborators.

(** The catalog after database 1 has been dropped. *)
Definition env_dropped : Env := setIdToDb ∅ env0.

(** Database 1 with its data quota used up, and database 1 closed to the
    caller. *)
Definition env_quota_used_up : Env :=
  env_with {| db_id := 1; db_fullName := "db1"; idToTable := ∅; dataQuota := 0;
              usedDataQuotaWithLock := 0; transactionQuotaSize := 100;
              db_access_ok := true |}.

Definition env_no_access : Env :=
  env_with {| db_id := 1; db_fullName := "db1"; idToTable := ∅; dataQuota := 1000;
              usedDataQuotaWithLock := 0; transactionQuotaSize := 100;
              db_access_ok := false |}.

End TxnExamplesMore.

Module PublishExamples.
Import TxnMgr TxnExamples.
Local Open Scope string_scope.
Local Open Scope Z_scope.

(** Table 1 under schema change, with an unfinished job whose watershed
    transaction id is 150. *)
Definition table_altering : OlapTable :=
  {| table_id := 1; table_name := "t1"; table_state := TABLE_SCHEMA_CHANGE;
     partitions := [partition_with 1 [pair_index]]; loadRequiredReplicaNum := λ _, 2;
     partitionRangeOf := λ _, "" |}.

Definition env_altering : Env :=
  {| idToDb := {[ 1 := db_with {[ 1 := table_altering ]} ]};
     tabletInvertedIndex := inverted_index;
     schemaChangeJobs := λ _, [ {| watershedTxnId := 150 |} ];
     rollupJobs := λ _, []; config := cfg0 |}.

(** The replica that the schema change is building, on backend 2. *)
Definition replica_altering : Replica :=
  {| replica_id := 22; backendId := 2; replica_version := 1; lastFailedVersion := -1;
     lastSuccessVersion := 1; replica_state := REPLICA_ALTER |}.

End PublishExamples.

Module PublishQuorumExamples.
Import TxnMgr TxnExamples.
Local Open Scope string_scope.
Local Open Scope Z_scope.

(** Table 1 with partition 10 visible at version 1; of the two replicas of
    its tablet 2000, the one on backend 1 is at version 2 and the one on
    backend 2 at version 1. *)
Definition db_pair_ahead : Database :=
  db_with {[ 1 := table_with (partition_with 1
                    [ {| index_id := 200;
                         tablets := [ {| tablet_id := 2000;
                                         replicas := [replica_at 21 1 2;
                                                      replica_at 22 2 1] |} ] |} ]) ]}.

Definition env_pair_ahead : Env :=
  {| idToDb := {[ 1 := db_pair_ahead ]};
     tabletInvertedIndex :=
       {| tabletMetaMap := tabletMetaMap inverted_index;
          replicaMetaTable :=
            <[ (2000, 1) := replica_at 21 1 2 ]> (replicaMetaTable inverted_index) |};
     schemaChangeJobs := λ _, []; rollupJobs := λ _, []; config := cfg0 |}.

(** The half-published transaction 100, committed on partition 10 at
    version 3: another transaction holds version 2. *)
Definition txn_behind : TransactionState :=
  setIdToTableCommitInfos [info_table 1 10 3] txn_half_published.

End PublishQuorumExamples.

Module CommitExamples.
Import TxnMgr TxnExamples.
Local Open Scope string_scope.
Local Open Scope Z_scope.

(** The inverted index has lost the replica of tablet 1000 on backend 3. *)
Definition inverted_index_lost : TabletInvertedIndex :=
  {| tabletMetaMap := tabletMetaMap inverted_index;
     replicaMetaTable := delete (1000, 3) (replicaMetaTable inverted_index) |}.

(** Partition 10 of table 1 with tablet 1000 before tablet 2000, and the
    other way round. *)
Definition table_1000_2000 : OlapTable :=
  table_with (partition_with 1 [base_index; pair_index]).

Definition table_2000_1000 : OlapTable :=
  table_with (partition_with 1 [pair_index; base_index]).

Definition env_lost (table : OlapTable) : Env :=
  {| idToDb := {[ 1 := db_with {[ 1 := table ]} ]};
     tabletInvertedIndex := inverted_index_lost;
     schemaChangeJobs := λ _, []; rollupJobs := λ _, []; config := cfg0 |}.

(** Backend 1 alone reports tablet 2000. *)
Definition reported_2000 : list TabletCommitInfo :=
  [ {| tci_tabletId := 2000; tci_backendId := 1 |} ].

End CommitExamples.

(** * Theorems *)

(** ** Machine integer facts *)

Module MachineIntFacts.

Lemma wrap32_id (x : Z) : in_int x → wrap32 x = x.
Proof.
  unfold in_int, INT_MIN, INT_MAX, wrap32, wrap. intros Hx.
  change (2 ^ (32 - 1)) with 2147483648. change (2 ^ 32) with 4294967296.
  change (2 ^ 31) with 2147483648 in Hx.
  rewrite Z.mod_small; lia.
Qed.

Lemma wrap64_id (x : Z) : in_long x → wrap64 x = x.
Proof.
  unfold in_long, LONG_MIN, LONG_MAX, wrap64, wrap. intros Hx.
  change (2 ^ (64 - 1)) with 9223372036854775808.
  change (2 ^ 64) with 18446744073709551616.
  change (2 ^ 63) with 9223372036854775808 in Hx.
  rewrite Z.mod_small; lia.
Qed.

Lemma wrap32_in_int (x : Z) : in_int (wrap32 x).
Proof.
  unfold in_int, INT_MIN, INT_MAX, wrap32, wrap.
  change (2 ^ (32 - 1)) with 2147483648. change (2 ^ 32) with 4294967296.
  change (2 ^ 31) with 2147483648.
  pose proof (Z.mod_pos_bound (x + 2147483648) 4294967296). lia.
Qed.

Lemma wrap64_in_long (x : Z) : in_long (wrap64 x).
Proof.
  unfold in_long, LONG_MIN, LONG_MAX, wrap64, wrap.
  change (2 ^ (64 - 1)) with 9223372036854775808.
  change (2 ^ 64) with 18446744073709551616.
  change (2 ^ 63) with 9223372036854775808.
  pose proof (Z.mod_pos_bound (x + 9223372036854775808) 18446744073709551616). lia.
Qed.

End MachineIntFacts.

(** ** Tablet placement index *)

Module PlacementProofs.
Import StorageEngine StorageSpecs MachineIntFacts.

Lemma cache_find_remove_ne key key' es :
  key ≠ key' → cache_find key (cache_remove key' es) = cache_find key es.
Proof.
  intros Hne. induction es as [|[k v] es IH]; [done|].
  unfold cache_remove in *. rewrite filter_cons. simpl.
  destruct (decide (k ≠ key')) as [Hk|Hk]; simpl.
  - destruct (decide (k = key)); [done|apply IH].
  - apply dec_stable in Hk. subst k.
    destruct (decide (key' = key)); [congruence|apply IH].
Qed.

Lemma cache_lookup_insert key v c :
  (0 < capacity c)%nat → cache_lookup key (cache_insert key v c) = Some v.
Proof.
  intros Hcap. unfold cache_lookup, cache_insert. simpl.
  destruct (capacity c) as [|n]; [lia|]. simpl.
  by rewrite decide_True.
Qed.

(** C9, counterexample: on a fresh engine the first call for partition 7 on
    HDD misses the cache, yields index 1, stores 2 in the cache, and leaves
    the last used index of HDD at 1, not at 2. *)
Lemma next_disk_index_last_use_not_bumped :
  _get_and_set_next_disk_index 0 7 HDD fresh_placement
  = (1, {| _create_tablet_idx_lru_cache :=
             {| capacity := 4;
                entries := [((7, HDD), {| last_visit_time := 0; idx := 2 |})] |};
           _last_use_index := {[ HDD := 1 ]} |})
  ∧ ¬ both_hold_next_index 0 7 HDD fresh_placement.
Proof.
  assert (Heq : _get_and_set_next_disk_index 0 7 HDD fresh_placement
    = (1, {| _create_tablet_idx_lru_cache :=
               {| capacity := 4;
                  entries := [((7, HDD), {| last_visit_time := 0; idx := 2 |})] |};
             _last_use_index := {[ HDD := 1 ]} |})) by reflexivity.
  split; [exact Heq|].
  unfold both_hold_next_index. rewrite Heq. intros [_ H].
  unfold last_use_index_of in H. simpl in H.
  rewrite lookup_singleton_eq in H. simpl in H. lia.
Qed.

(** C9, as amended: [curr_index] is the cached value on a hit and
    [max(0, last_use_index + 1)] on a miss; after the call the cache entry
    of [(partition_id, medium)] holds [max(0, curr_index + 1)] (int
    arithmetic), while the last used index of the medium holds [curr_index]
    itself. *)
Theorem next_disk_index_step
    (now_ms partition_id : Z) (m : TStorageMedium) (st : PlacementState)
    (curr_index : Z) (st' : PlacementState) :
  (0 < capacity (_create_tablet_idx_lru_cache st))%nat →
  _get_and_set_next_disk_index now_ms partition_id m st = (curr_index, st') →
  (∀ v, cache_lookup (get_key partition_id m) (_create_tablet_idx_lru_cache st) = Some v →
        idx v ≠ -1 → curr_index = idx v)
  ∧ (cache_lookup (get_key partition_id m) (_create_tablet_idx_lru_cache st) = None →
     curr_index = Z.max 0 (wrap32 (last_use_index_of st m + 1)))
  ∧ cached_index (get_key partition_id m) st' = Some (Z.max 0 (wrap32 (curr_index + 1)))
  ∧ last_use_index_of st' m = curr_index
  ∧ (0 ≤ curr_index < INT_MAX →
     cached_index (get_key partition_id m) st' = Some (curr_index + 1)).
Proof.
  intros Hcap Hrun.
  unfold _get_and_set_next_disk_index, get_index in Hrun.
  assert (Hcached : ∀ c n, (0 < capacity c)%nat →
            idx <$> cache_lookup (get_key partition_id m)
                      (set_index now_ms (get_key partition_id m) n c) = Some n).
  { intros c n Hc. unfold set_index. by rewrite cache_lookup_insert. }
  assert (Hlast : ∀ c n,
            last_use_index_of
              {| _create_tablet_idx_lru_cache := c;
                 _last_use_index := <[m := n]> (_last_use_index st) |} m = n).
  { intros c n. unfold last_use_index_of. simpl. by rewrite lookup_insert_eq. }
  destruct (cache_lookup (get_key partition_id m) (_create_tablet_idx_lru_cache st))
    as [v|] eqn:Hlk.
  - destruct (decide (idx v = -1)) as [Hm|Hm];
      injection Hrun as <- <-; unfold cached_index; simpl;
      rewrite Hcached by (simpl; lia); rewrite Hlast;
      (split; [intros v' [= <-] Hv'; congruence|]);
      (split; [done|]); (split; [done|]); (split; [done|]);
      intros Hr; (rewrite wrap32_id by (unfold in_int, INT_MIN, INT_MAX in *; lia));
      f_equal; lia.
  - rewrite decide_True in Hrun by done.
    injection Hrun as <- <-. unfold cached_index. simpl.
    rewrite Hcached by done. rewrite Hlast.
    split; [done|]. split; [done|]. split; [done|]. split; [done|].
    intros Hr. rewrite wrap32_id by (unfold in_int, INT_MIN, INT_MAX in *; lia).
    f_equal; lia.
Qed.

Lemma next_disk_index_step_witness :
  cached_index (get_key 7 HDD)
    (_get_and_set_next_disk_index 0 7 HDD fresh_placement).2 = Some 2
  ∧ last_use_index_of (_get_and_set_next_disk_index 0 7 HDD fresh_placement).2 HDD = 1.
Proof.
  destruct (next_disk_index_step 0 7 HDD fresh_placement 1
              (_get_and_set_next_disk_index 0 7 HDD fresh_placement).2)
    as (_ & _ & Hc & Hl & _).
  - simpl. lia.
  - reflexivity.
  - split; [exact Hc|exact Hl].
Defined.

End PlacementProofs.

(** ** Unused-rowset garbage collection *)

Module UnusedRowsetProofs.
Import StorageEngine StorageSpecs UnusedRowsetSpecs.

Lemma holders_empty p : holders ∅ p = 0%nat.
Proof. unfold holders. by rewrite map_to_list_empty. Qed.

Lemma holders_insert (m : gmap RowsetId RowsetPtr) i x p :
  m !! i = None →
  holders (<[i:=x]> m) p = ((if decide (x = p) then 1 else 0) + holders m p)%nat.
Proof.
  intros Hi. unfold holders.
  rewrite (Permutation_length
             (filter_Permutation (λ kv : RowsetId * RowsetPtr, kv.2 = p) _ _
                (map_to_list_insert m i x Hi))).
  rewrite filter_cons. simpl. by destruct (decide (x = p)).
Qed.

Lemma holders_keyed objs (m : gmap RowsetId RowsetPtr) p :
  keyed_by_id objs m →
  holders m p = if decide (m !! rowset_id (objs p) = Some p) then 1%nat else 0%nat.
Proof.
  induction m as [|i x m Hi IH] using map_ind; intros Hk.
  - rewrite holders_empty. by rewrite lookup_empty, decide_False.
  - rewrite holders_insert by done.
    assert (Hkm : keyed_by_id objs m).
    { intros k q Hq. apply Hk. rewrite lookup_insert_ne; [done|]. intros ->. congruence. }
    rewrite (IH Hkm).
    pose proof (Hk i x (lookup_insert_eq _ _ _)) as Hix.
    destruct (decide (x = p)) as [->|Hx].
    + rewrite Hix, lookup_insert_eq, Hi. simpl.
      repeat case_decide; simplify_eq; done.
    + destruct (decide (rowset_id (objs p) = i)) as [->|Hne].
      * rewrite lookup_insert_eq, Hi. repeat case_decide; simplify_eq; done.
      * rewrite lookup_insert_ne by done. done.
Qed.

Lemma holders_keyed_lookup objs (m : gmap RowsetId RowsetPtr) k p :
  keyed_by_id objs m → m !! k = Some p → holders m p = 1%nat.
Proof.
  intros Hk Hl. rewrite (holders_keyed objs) by done.
  rewrite (Hk _ _ Hl). by rewrite decide_True.
Qed.

Lemma filter_eq_not_elem (p : RowsetPtr) (l : list RowsetPtr) :
  p ∉ l → length (filter (λ q, q = p) l) = 0%nat.
Proof.
  induction l as [|x l IH]; [done|]. intros Hn.
  apply not_elem_of_cons in Hn as [Hx Hl].
  rewrite filter_cons. rewrite decide_False by congruence. by apply IH.
Qed.

Section Sweep.
Variables (now_at : RowsetId → Z) (st : GcState).
Hypothesis Hwk : well_keyed st.

Local Abbreviation sweep_inv := (StorageSpecs.sweep_inv now_at st).

Lemma sweep_inv_init :
  sweep_inv ∅ {| sl_unused := _unused_rowsets st;
                 sl_querying := _querying_rowsets st; sl_copy := [] |}.
Proof.
  split; simpl.
  - intros k. destruct (_unused_rowsets st !! k); [|done].
    rewrite decide_False; [done|]. set_solver.
  - intros k. destruct (_unused_rowsets st !! k); [|done].
    rewrite decide_False; [done|]. set_solver.
  - intros p. split; [intros H; by apply elem_of_nil in H|]. intros (k & Hk & _). set_solver.
Qed.

Lemma sweep_inv_keyed D acc :
  sweep_inv D acc →
  keyed_by_id (rowsets st) (sl_unused acc) ∧ keyed_by_id (rowsets st) (sl_querying acc).
Proof.
  intros [Hu Hq _]. destruct Hwk as [Hwu Hwq]. split; intros k p Hl.
  - rewrite Hu in Hl. destruct (_unused_rowsets st !! k) as [q|] eqn:E; [|done].
    case_decide; [done|]. simplify_eq. by apply Hwu.
  - rewrite Hq in Hl. destruct (_unused_rowsets st !! k) as [q|] eqn:E.
    + case_decide; [done|]. by apply Hwq.
    + by apply Hwq.
Qed.

Lemma sweep_use_count D acc k p :
  sweep_inv D acc → _unused_rowsets st !! k = Some p → k ∉ D →
  use_count (sl_unused acc) (sl_querying acc) (sl_copy acc) (other_refs st) p
  = use_count_of st p.
Proof.
  intros Hinv Hk HD. destruct (sweep_inv_keyed _ _ Hinv) as [Hku Hkq].
  destruct Hwk as [Hwu Hwq]. destruct Hinv as [Hu Hq Hc].
  unfold use_count_of, use_count.
  assert (Hid : rowset_id (rowsets st p) = k) by by apply Hwu.
  rewrite !(holders_keyed (rowsets st)) by done. rewrite Hid.
  rewrite Hu, Hq, Hk.
  destruct (decide (k ∈ D ∧ gc_selected now_at st k p)) as [[? _]|_]; [done|].
  rewrite filter_eq_not_elem; [done|].
  intros Hin. apply Hc in Hin as (k' & Hk' & Hl' & _).
  assert (k' = k) as -> by (rewrite <- Hid; symmetry; by apply Hwu).
  done.
Qed.

Lemma sweep_entry_inv D acc k p :
  sweep_inv D acc → _unused_rowsets st !! k = Some p → k ∉ D →
  sweep_inv (D ∪ {[k]}) (sweep_entry st now_at acc (k, p)).
Proof.
  intros Hinv Hk HD. pose proof (sweep_use_count _ _ _ _ Hinv Hk HD) as Huc.
  assert (Hid : rowset_id (rowsets st p) = k) by (by apply (proj1 Hwk)).
  assert (Hother : ∀ k' q, _unused_rowsets st !! k' = Some q → k' ≠ k →
            (k' ∈ D ∪ {[k]} ∧ gc_selected now_at st k' q) ↔ (k' ∈ D ∧ gc_selected now_at st k' q)).
  { intros k' q _ Hne. set_solver. }
  unfold sweep_entry. simpl. rewrite Huc.
  destruct (decide (gc_selected now_at st k p)) as [Hsel|Hsel].
  - destruct Hsel as (H1 & H2 & H3) eqn:Esel. clear Esel.
    rewrite bool_decide_eq_true_2 by done. rewrite H2.
    rewrite bool_decide_eq_true_2 by done. simpl.
    destruct Hinv as [Hu Hq Hc]. split; simpl.
    + intros k'. destruct (decide (k' = k)) as [->|Hne].
      * rewrite lookup_delete_eq, Hk. rewrite decide_True; [done|]. set_solver.
      * rewrite lookup_delete_ne by done. rewrite Hu.
        destruct (_unused_rowsets st !! k') as [q|] eqn:E; [|done].
        by rewrite (decide_ext _ _ _ _ (Hother _ _ E Hne)).
    + intros k'. rewrite Hid. unfold evict_querying_rowset.
      destruct (decide (k' = k)) as [->|Hne].
      * rewrite lookup_delete_eq, Hk. rewrite decide_True; [done|]. set_solver.
      * rewrite lookup_delete_ne by done. rewrite Hq.
        destruct (_unused_rowsets st !! k') as [q|] eqn:E; [|done].
        by rewrite (decide_ext _ _ _ _ (Hother _ _ E Hne)).
    + intros q. destruct (is_local (rowsets st p)) eqn:Eloc.
      * rewrite elem_of_app, list_elem_of_singleton, Hc. split.
        -- intros [(k' & ? & ? & ? & ?)| ->].
           ++ exists k'. set_solver.
           ++ exists k. set_solver.
        -- intros (k' & Hin & Hl & Hs & Hloc).
           apply elem_of_union in Hin as [Hin|Hin].
           ++ left. by exists k'.
           ++ apply elem_of_singleton in Hin as ->. right. congruence.
      * rewrite Hc. split.
        -- intros (k' & ? & ? & ? & ?). exists k'. set_solver.
        -- intros (k' & Hin & Hl & Hs & Hloc).
           apply elem_of_union in Hin as [Hin|Hin]; [by exists k'|].
           apply elem_of_singleton in Hin as ->. congruence.
  - assert (bool_decide (use_count_of st p = 1%nat) && need_delete_file (rowsets st p)
            && bool_decide (delayed_expired_timestamp (rowsets st p) < now_at k) = false) as ->.
    { apply not_true_is_false. intros Hb.
      apply andb_prop in Hb as [Hb H3]. apply andb_prop in Hb as [H1 H2].
      apply bool_decide_eq_true_1 in H1, H3. by apply Hsel. }
    destruct Hinv as [Hu Hq Hc]. split.
    + intros k'. rewrite Hu. destruct (_unused_rowsets st !! k') as [q|] eqn:E; [|done].
      destruct (decide (k' = k)) as [->|Hne].
      * simplify_eq. rewrite !decide_False; tauto.
      * by rewrite (decide_ext _ _ _ _ (Hother _ _ E Hne)).
    + intros k'. rewrite Hq. destruct (_unused_rowsets st !! k') as [q|] eqn:E; [|done].
      destruct (decide (k' = k)) as [->|Hne].
      * simplify_eq. rewrite !decide_False; tauto.
      * by rewrite (decide_ext _ _ _ _ (Hother _ _ E Hne)).
    + intros q. rewrite Hc. split.
      * intros (k' & ? & ? & ? & ?). exists k'. set_solver.
      * intros (k' & Hin & Hl & Hs & Hloc).
        apply elem_of_union in Hin as [Hin|Hin]; [by exists k'|].
        apply elem_of_singleton in Hin as ->. simplify_eq. done.
Qed.

Lemma sweep_fold_inv l : ∀ D acc,
  sweep_inv D acc → NoDup l.*1 →
  (∀ k p, (k, p) ∈ l → _unused_rowsets st !! k = Some p ∧ k ∉ D) →
  sweep_inv (D ∪ list_to_set l.*1) (foldl (sweep_entry st now_at) acc l).
Proof.
  induction l as [|[k p] l IH]; intros D acc Hinv Hnd Hl; simpl.
  - by rewrite union_empty_r_L.
  - apply NoDup_cons in Hnd as [Hk Hnd].
    destruct (Hl k p) as [Hlk HkD]; [left|].
    rewrite (assoc_L (∪)).
    apply IH; [by apply sweep_entry_inv|done|].
    intros k' p' Hin. destruct (Hl k' p') as [? ?]; [by right|]. split; [done|].
    intros Hin'. apply elem_of_union in Hin' as [?|Hin']; [done|].
    apply elem_of_singleton in Hin'. subst k'.
    apply Hk. apply list_elem_of_fmap. by exists (k, p').
Qed.

Lemma sweep_loop_inv :
  sweep_inv (dom (_unused_rowsets st))
    (foldl (sweep_entry st now_at)
       {| sl_unused := _unused_rowsets st;
          sl_querying := _querying_rowsets st; sl_copy := [] |}
       (map_to_list (_unused_rowsets st))).
Proof.
  pose proof (sweep_fold_inv (map_to_list (_unused_rowsets st)) ∅ _ sweep_inv_init
                (NoDup_fst_map_to_list _)) as H.
  rewrite union_empty_l_L in H.
  assert (list_to_set (map_to_list (_unused_rowsets st)).*1 = dom (_unused_rowsets st)) as <-.
  { apply set_eq. intros k. rewrite elem_of_list_to_set, elem_of_dom.
    rewrite list_elem_of_fmap. split.
    - intros ([k' p] & -> & Hin). apply elem_of_map_to_list in Hin. by exists p.
    - intros [p Hp]. exists (k, p). split; [done|]. by apply elem_of_map_to_list. }
  apply H. intros k p Hin. apply elem_of_map_to_list in Hin. split; [done|set_solver].
Qed.

End Sweep.

(** The registries file every rowset under its own id: they start empty,
    and the two functions that fill them keep it so. *)
Lemma add_unused_rowset_well_keyed rowset st :
  well_keyed st → well_keyed (add_unused_rowset rowset st).
Proof.
  intros [Hu Hq]. unfold add_unused_rowset.
  destruct rowset as [p|]; [|done].
  destruct (_unused_rowsets st !! rowset_id (rowsets st p)) eqn:Hl; [done|].
  assert (Hid : ∀ q, rowset_id (if decide (q = p)
                                 then {| rowset_id := rowset_id (rowsets st p);
                                         need_delete_file := true;
                                         delayed_expired_timestamp :=
                                           delayed_expired_timestamp (rowsets st p);
                                         is_local := is_local (rowsets st p);
                                         rs_tablet_id := rs_tablet_id (rowsets st p) |}
                                 else rowsets st q)
                    = rowset_id (rowsets st q)).
  { intros q. case_decide; [by subst|done]. }
  split; intros k q Hk; simpl in *; rewrite Hid.
  - destruct (decide (k = rowset_id (rowsets st p))) as [->|Hne].
    + rewrite lookup_insert_eq in Hk. by injection Hk as <-.
    + rewrite lookup_insert_ne in Hk by done. by apply Hu.
  - by apply Hq.
Qed.

Lemma add_quering_rowset_well_keyed rs st :
  well_keyed st → well_keyed (add_quering_rowset rs st).
Proof.
  intros [Hu Hq]. unfold add_quering_rowset.
  destruct (_querying_rowsets st !! rowset_id (rowsets st rs)) eqn:Hl; [done|].
  split; [done|]. intros k q Hk. simpl in *.
  destruct (decide (k = rowset_id (rowsets st rs))) as [->|Hne].
  - rewrite lookup_insert_eq in Hk. by injection Hk as <-.
  - rewrite lookup_insert_ne in Hk by done. by apply Hq.
Qed.

Lemma evict_querying_rowset_keyed objs rs_id querying :
  keyed_by_id objs querying → keyed_by_id objs (evict_querying_rowset rs_id querying).
Proof.
  intros Hq k p Hk. unfold evict_querying_rowset in Hk.
  apply lookup_delete_Some in Hk as [_ Hk]. by apply Hq.
Qed.

Lemma remove_fold_disk objs batch : ∀ acc,
  (foldl (remove_entry objs) acc batch).2
  = acc.2 ∖ list_to_set ((λ p, rowset_id (objs p)) <$> batch).
Proof.
  induction batch as [|p batch IH]; intros acc; simpl.
  - set_solver.
  - rewrite IH. simpl. unfold rowset_remove. set_solver.
Qed.

(** C7, as amended: the sweep removes from the unused-rowset registry
    exactly the entries that are held by nobody but the registry, are
    flagged [need_delete_file] and whose [delayed_expired_timestamp] is
    strictly in the past; it invokes [remove()], deleting the files, on
    exactly the local ones among them.  A rowset object that the querying
    registry holds is never selected: it stays in the unused registry if it
    is there, and is not removed.  Its querying entry stays unless the
    unused registry has, under the same rowset id, an entry that is taken,
    and its files stay unless that entry is local as well; in particular
    both stay when the unused registry has nothing, or this very object,
    under the id. *)
Theorem start_delete_unused_rowset_selects
    (now_at : RowsetId → Z) (st st' : GcState) (batch : list RowsetPtr) :
  well_keyed st →
  start_delete_unused_rowset now_at st = (st', batch) →
  (∀ k p, _unused_rowsets st' !! k = Some p ↔
          _unused_rowsets st !! k = Some p ∧ ¬ gc_selected now_at st k p)
  ∧ (∀ p, p ∈ batch ↔
          ∃ k, _unused_rowsets st !! k = Some p ∧ gc_selected now_at st k p
               ∧ is_local (rowsets st p) = true)
  ∧ disk st' = disk st ∖ list_to_set ((λ p, rowset_id (rowsets st p)) <$> batch)
  ∧ (∀ k, k ∈ disk st' ↔ k ∈ disk st ∧ ¬ removed_under now_at st k)
  ∧ (∀ k q, _querying_rowsets st !! k = Some q →
            (q ∉ batch)
            ∧ (∀ k', _unused_rowsets st !! k' = Some q →
                     ¬ gc_selected now_at st k' q ∧ _unused_rowsets st' !! k' = Some q)
            ∧ (_querying_rowsets st' !! k = Some q ↔ ¬ taken_under now_at st k)
            ∧ (rowset_id (rowsets st q) ∈ disk st →
               (rowset_id (rowsets st q) ∈ disk st' ↔ ¬ removed_under now_at st k))
            ∧ ((∀ p, _unused_rowsets st !! k = Some p → p = q) →
               _querying_rowsets st' !! k = Some q
               ∧ (rowset_id (rowsets st q) ∈ disk st → rowset_id (rowsets st q) ∈ disk st')))
  ∧ (∀ k q, _querying_rowsets st' !! k = Some q → _querying_rowsets st !! k = Some q).
Proof.
  intros Hwk Hrun. unfold start_delete_unused_rowset in Hrun.
  pose proof (sweep_loop_inv now_at st Hwk) as [Hu Hq Hc].
  set (loop := foldl (sweep_entry st now_at) _ _) in *.
  pose proof (remove_fold_disk (rowsets st) (sl_copy loop) (tablets st, disk st)) as Hd.
  destruct (foldl (remove_entry (rowsets st)) _ _) as [tablets' disk'].
  injection Hrun as <- <-. simpl in *.
  assert (Hunused : ∀ k p, sl_unused loop !! k = Some p ↔
            _unused_rowsets st !! k = Some p ∧ ¬ gc_selected now_at st k p).
  { intros k p. rewrite Hu. destruct (_unused_rowsets st !! k) as [q|] eqn:E.
    - case_decide as Hdec.
      + split; [done|]. intros [[= ->] Hn]. tauto.
      + split.
        * intros [= ->]. split; [done|]. intros Hs. apply Hdec. split; [|done].
          apply elem_of_dom. by exists p.
        * by intros [? _].
    - split; [done|]. by intros [? _]. }
  assert (Hbatch : ∀ p, p ∈ sl_copy loop ↔
            ∃ k, _unused_rowsets st !! k = Some p ∧ gc_selected now_at st k p
                 ∧ is_local (rowsets st p) = true).
  { intros p. rewrite Hc. split.
    - intros (k & _ & ?). by exists k.
    - intros (k & Hl & ?). exists k. split; [|done]. apply elem_of_dom. by exists p. }
  assert (Hpin : ∀ k p k', _querying_rowsets st !! k = Some p →
            _unused_rowsets st !! k' = Some p → ¬ gc_selected now_at st k' p).
  { intros k p k' Hqp Hup (Hcount & _).
    unfold use_count_of, use_count in Hcount.
    rewrite (holders_keyed_lookup (rowsets st) _ k' p) in Hcount by (first [done | apply Hwk]).
    rewrite (holders_keyed_lookup (rowsets st) _ k p) in Hcount by (first [done | apply Hwk]).
    lia. }
  assert (Hdisk : ∀ k, k ∈ disk' ↔ k ∈ disk st ∧ ¬ removed_under now_at st k).
  { intros k. rewrite Hd, elem_of_difference, elem_of_list_to_set, list_elem_of_fmap.
    unfold removed_under. split.
    - intros [Hin Hn]. split; [done|]. intros (p & Hl & Hs & Hloc). apply Hn.
      exists p. split; [symmetry; by apply (proj1 Hwk)|]. apply Hbatch. by exists k.
    - intros [Hin Hn]. split; [done|]. intros (p & -> & Hp). apply Hn.
      apply Hbatch in Hp as (k & Hl & Hs & Hloc). exists p.
      rewrite (proj1 Hwk _ _ Hl). done. }
  assert (Hquery : ∀ k q, _querying_rowsets st !! k = Some q →
            (sl_querying loop !! k = Some q ↔ ¬ taken_under now_at st k)).
  { intros k q Hqk. rewrite Hq. unfold taken_under.
    destruct (_unused_rowsets st !! k) as [p|] eqn:E.
    - case_decide as Hdec.
      + split; [done|]. intros Hn. exfalso. apply Hn. exists p. tauto.
      + split; [|done]. intros _ (p' & [= <-] & Hs). apply Hdec. split; [|done].
        apply elem_of_dom. by exists p.
    - split; [|done]. by intros _ (p' & ? & _). }
  split; [done|]. split; [done|]. split; [done|]. split; [done|]. split.
  - intros k q Hqk.
    assert (Hid : rowset_id (rowsets st q) = k) by (by apply (proj2 Hwk)).
    split; [intros Hin; apply Hbatch in Hin as (k' & Hl & Hs & _); by eapply Hpin|].
    split; [intros k' Hup; split; [by eapply Hpin|];
            apply Hunused; split; [done|by eapply Hpin]|].
    split; [by apply Hquery|].
    split; [intros Hin; rewrite Hid in *; rewrite Hdisk; tauto|].
    intros Hsame.
    assert (Hnot : ¬ taken_under now_at st k).
    { intros (p & Hl & Hs). pose proof (Hsame p Hl) as ->. by eapply Hpin. }
    split; [by apply Hquery|].
    intros Hin. rewrite Hid in *. apply Hdisk. split; [done|].
    intros (p & Hl & Hs & _). apply Hnot. by exists p.
  - intros k q Hl. rewrite Hq in Hl.
    destruct (_unused_rowsets st !! k) as [p|]; [|done]. by case_decide.
Qed.

Lemma pinned_state_well_keyed : well_keyed pinned_state.
Proof.
  split; intros k p Hl; simpl in Hl; apply lookup_singleton_Some in Hl as [<- _]; reflexivity.
Qed.

(** C7, counterexample: the querying registry holds object 0 of rowset 10,
    and the unused registry object 1 of the same rowset, held by nobody else
    and expired.  The sweep takes object 1, evicts the querying entry of id
    10 and deletes the files of rowset 10: the files of a rowset that the
    querying registry held are gone. *)
Lemma start_delete_unused_rowset_shadowed :
  well_keyed shadowed_state
  ∧ get_quering_rowset 10 shadowed_state = Some 0%nat
  ∧ disk shadowed_state = {[ 10 ]}
  ∧ (start_delete_unused_rowset (λ _, 200) shadowed_state).2 = [1%nat]
  ∧ disk (start_delete_unused_rowset (λ _, 200) shadowed_state).1 = ∅
  ∧ get_quering_rowset 10 (start_delete_unused_rowset (λ _, 200) shadowed_state).1 = None
  ∧ ¬ querying_files_kept (λ _, 200) shadowed_state.
Proof.
  assert (Hdisk : disk (start_delete_unused_rowset (λ _, 200) shadowed_state).1 = ∅)
    by (vm_compute; reflexivity).
  split.
  { split; intros k p Hl; simpl in Hl; apply lookup_singleton_Some in Hl as [<- _];
      reflexivity. }
  split; [reflexivity|]. split; [reflexivity|].
  split; [vm_compute; reflexivity|]. split; [exact Hdisk|].
  split; [vm_compute; reflexivity|].
  intros Hkept. specialize (Hkept 10 0%nat eq_refl). rewrite Hdisk in Hkept.
  simpl in Hkept. set_solver.
Qed.

Lemma start_delete_unused_rowset_selects_witness :
  well_keyed pinned_state
  ∧ _unused_rowsets (start_delete_unused_rowset (λ _, 200) pinned_state).1 !! 10
    = Some 0%nat
  ∧ (0%nat ∉ (start_delete_unused_rowset (λ _, 200) pinned_state).2)
  ∧ _querying_rowsets (start_delete_unused_rowset (λ _, 200) pinned_state).1 !! 10
    = Some 0%nat
  ∧ 10 ∈ disk (start_delete_unused_rowset (λ _, 200) pinned_state).1.
Proof.
  split; [exact pinned_state_well_keyed|].
  destruct (start_delete_unused_rowset_selects (λ _, 200) pinned_state
              (start_delete_unused_rowset (λ _, 200) pinned_state).1
              (start_delete_unused_rowset (λ _, 200) pinned_state).2
              pinned_state_well_keyed) as (_ & _ & _ & _ & Hpin & _).
  - by destruct (start_delete_unused_rowset _ _).
  - destruct (Hpin 10 0%nat) as (Hb & Hk & _ & _ & Hsame); [reflexivity|].
    destruct Hsame as [Hquery Hfiles].
    { intros p Hp. simpl in Hp. apply lookup_singleton_Some in Hp as [_ <-]. done. }
    split; [apply (Hk 10); reflexivity|]. split; [exact Hb|].
    split; [exact Hquery|]. apply Hfiles. simpl. set_solver.
Defined.

(** Once the query lets go of the rowset, the next sweep removes it and
    deletes its files. *)
Example sweep_after_evict :
  let st := {| rowsets := rowsets pinned_state;
               _unused_rowsets := _unused_rowsets pinned_state;
               _querying_rowsets := evict_querying_rowset 10 (_querying_rowsets pinned_state);
               other_refs := other_refs pinned_state;
               tablets := tablets pinned_state;
               disk := disk pinned_state |} in
  let '(st', batch) := start_delete_unused_rowset (λ _, 200) st in
  batch = [0%nat] ∧ _unused_rowsets st' = ∅ ∧ disk st' = ∅.
Proof. vm_compute. done. Qed.

End UnusedRowsetProofs.

(** ** Trash and snapshot sweeping *)

Module TrashSweepProofs.
Import StorageEngine.
Local Open Scope string_scope.
Local Open Scope Z_scope.

(** 2024-01-01 12:00:00 of the local calendar. *)
Example mktime_noon :
  mktime {| tm_year := 2024; tm_mon := 1; tm_mday := 1;
            tm_hour := 12; tm_min := 0; tm_sec := 0 |} = 1704110400.
Proof. reflexivity. Qed.

Example parse_entry_embedded_ttl :
  parse_entry 259200 "20240101120000.1.3600" = Entry 1704110400 3600.
Proof. vm_compute. reflexivity. Qed.

Example parse_entry_global_ttl :
  parse_entry 259200 "20240101120000" = Entry 1704110400 259200.
Proof. vm_compute. reflexivity. Qed.

(** An entry with an embedded TTL of one hour goes at 13:00:01 and stays at
    12:30:00. *)
Example sweep_embedded_ttl_deleted :
  _do_sweep (λ _, true) (Some ["20240101120000.1.3600"]) (1704110400 + 3601) 259200
  = (OK, ["20240101120000.1.3600"]).
Proof. vm_compute. reflexivity. Qed.

Example sweep_embedded_ttl_retained :
  _do_sweep (λ _, true) (Some ["20240101120000.1.3600"]) (1704110400 + 1800) 259200
  = (OK, []).
Proof. vm_compute. reflexivity. Qed.

(** Whatever the sweep deletes had a well-formed name, was expired, and its
    [delete_directory] succeeded. *)
Lemma sweep_sorted_deleted_expired delete_ok local_now expire sorted : ∀ res res' deleted,
  sweep_sorted delete_ok local_now expire res sorted = (res', deleted) →
  ∀ dir_name, dir_name ∈ deleted →
    dir_name ∈ sorted ∧ expired local_now expire dir_name ∧ delete_ok dir_name = true.
Proof.
  induction sorted as [|d rest IH]; intros res res' deleted Hrun dir_name Hin; simpl in Hrun.
  - injection Hrun as <- <-. by apply elem_of_nil in Hin.
  - destruct (parse_entry expire d) as [| |create_time actual_expire] eqn:Hparse.
    + destruct (IH _ _ _ Hrun _ Hin) as (? & ? & ?). split; [by right|done].
    + injection Hrun as <- <-. by apply elem_of_nil in Hin.
    + destruct (actual_expire <=? local_now - create_time) eqn:Hexp.
      * destruct (delete_ok d) eqn:Hdel.
        -- destruct (sweep_sorted delete_ok local_now expire OK rest)
             as [res1 deleted1] eqn:Hrest.
           injection Hrun as <- <-.
           apply elem_of_cons in Hin as [->|Hin].
           ++ split; [by left|]. split; [|done].
              unfold expired. rewrite Hparse. by apply Z.leb_le.
           ++ destruct (IH _ _ _ Hrest _ Hin) as (? & ? & ?). split; [by right|done].
        -- destruct (IH _ _ _ Hrun _ Hin) as (? & ? & ?). split; [by right|done].
      * injection Hrun as <- <-. by apply elem_of_nil in Hin.
Qed.

(** The loop stops at the first entry that has not expired: nothing after
    it is deleted. *)
Lemma sweep_sorted_stops delete_ok local_now expire res d rest create_time actual_expire :
  parse_entry expire d = Entry create_time actual_expire →
  local_now - create_time < actual_expire →
  sweep_sorted delete_ok local_now expire res (d :: rest) = (res, []).
Proof.
  intros Hparse Hlt. simpl. rewrite Hparse.
  destruct (actual_expire <=? local_now - create_time) eqn:Hexp; [|done].
  apply Z.leb_le in Hexp. lia.
Qed.

(** C8, the code at the failing input: a snapshot taken at 12:00:00 with an
    embedded TTL of a day sorts before one taken at 13:00:00 with an embedded
    TTL of a minute; at 14:00:00 the second has expired, its deletion would
    succeed, and the sweep ends at the first entry without deleting it. *)
Theorem do_sweep_keeps_expired_entry :
  let listing := ["20240101130000.1.60"; "20240101120000.1.86400"] in
  let local_now := 1704110400 + 7200 in
  merge_sort string_le listing = ["20240101120000.1.86400"; "20240101130000.1.60"]
  ∧ expired local_now 259200 "20240101130000.1.60"
  ∧ ¬ expired local_now 259200 "20240101120000.1.86400"
  ∧ _do_sweep (λ _, true) (Some listing) local_now 259200 = (OK, []).
Proof.
  cbv zeta. split; [vm_compute; reflexivity|].
  split; [vm_compute; discriminate|].
  split; [vm_compute; intros H; by apply H|].
  vm_compute. reflexivity.
Qed.

(** Above the guard space the trash of a path is swept with TTL 0: a data
    dir 95% full under a flood stage of 90%. *)
Example trash_ttl_forced :
  trash_expire_of false
    {| snapshot_expire_time_sec := 172800; trash_file_expire_time_sec := 259200;
       storage_flood_stage_usage_percent := 90 |}
    {| path := "/data1"; disk_capacity := 1000; available := 50; is_used := true;
       snapshot_listing := None; trash_listing := None |} = 0.
Proof. vm_compute. reflexivity. Qed.

Lemma trash_expire_of_cases ignore_guard cfg info :
  trash_expire_of ignore_guard cfg info
  = if PrimFloat.ltb (guard_space ignore_guard cfg) (curr_usage info)
    then 0 else trash_file_expire_time_sec cfg.
Proof. reflexivity. Qed.

End TrashSweepProofs.

(** ** Per-replica publish classification *)

Module PublishClassificationProofs.
Import MachineInt MachineIntFacts TxnMgr TxnSpecs PublishSpecs.

Lemma forallb_false_Exists {A} (f : A → bool) (l : list A) :
  forallb f l = false ↔ Exists (λ x, f x = false) l.
Proof.
  induction l as [|x l IH]; simpl.
  - split; [done|]. by intros ?%Exists_nil.
  - rewrite andb_false_iff, Exists_cons, IH. done.
Qed.

(** [isAlterReplicaLoadedTxn] answers no exactly for a transaction that
    predates the watermark of an unfinished alter job of the table. *)
Lemma isAlterReplicaLoadedTxn_predates env transactionId table :
  isAlterReplicaLoadedTxn env transactionId table = false
  ↔ predates_alter_watermark env transactionId table.
Proof.
  unfold isAlterReplicaLoadedTxn, predates_alter_watermark.
  assert (Hjobs : ∀ jobs : list AlterJobV2,
            forallb (λ job, watershedTxnId job <? transactionId) jobs = false
            ↔ Exists (λ job, transactionId ≤ watershedTxnId job) jobs).
  { intros jobs. rewrite forallb_false_Exists. apply Exists_proper; [|done].
    intros job. by rewrite Z.ltb_ge. }
  destruct (table_state table) eqn:Hs; rewrite ?Hjobs.
  - split; [done|]. by intros [[? _]|[? _]].
  - split; [intros ?; by right|]. by intros [[? _]|[_ ?]].
  - split; [intros ?; by left|]. by intros [[_ ?]|[? _]].
  - split; [done|]. by intros [[? _]|[? _]].
  - split; [done|]. by intros [[? _]|[? _]].
Qed.

Section Classification.
Context `{Collaborators}.

Lemma applyPublishTask_others tabletId R task errors x :
  x ≠ replica_id R → x ∈ applyPublishTask tabletId R task errors ↔ x ∈ errors.
Proof.
  intros Hx. unfold applyPublishTask.
  destruct task as [task|]; [|set_solver].
  destruct (negb (isFinished task)); [set_solver|].
  destruct (getSuccTablets task) as [succ|].
  - case_decide; set_solver.
  - destruct (getErrorTablets task) as [errTablets|]; [|done].
    case_decide; set_solver.
Qed.

(** The run of [checkReplicaContinuousVersionSucc], with the answer of
    [isAlterReplicaLoadedTxn], in the words of the classification. *)
Lemma checkReplicaContinuousVersionSucc_filed env transactionId table tabletId R V task
    errorReplicaIds tally :
  let errors :=
    errors_after_alter env transactionId table R
      (applyPublishTask tabletId R task errorReplicaIds) in
  let class := publish_class R V errors in
  checkReplicaContinuousVersionSucc (config env) tabletId R
    (isAlterReplicaLoadedTxn env transactionId table) V task (errorReplicaIds, tally)
  = (if decide (class = WriteFailed) then errors else errors ∖ {[replica_id R]},
     tally_add class R tally).
Proof.
  cbv zeta.
  set (after_task := applyPublishTask tabletId R task errorReplicaIds).
  set (errors := errors_after_alter env transactionId table R after_task).
  pose proof (isAlterReplicaLoadedTxn_predates env transactionId table) as Hpre.
  assert (Herr :
    (if bool_decide (replica_state R = REPLICA_ALTER)
        && (negb (isAlterReplicaLoadedTxn env transactionId table)
            || negb (publish_version_check_alter_replica (config env)))
     then after_task ∖ {[replica_id R]} else after_task) = errors).
  { unfold errors, errors_after_alter, alter_forgiven.
    destruct (decide (replica_state R = REPLICA_ALTER
                      ∧ (predates_alter_watermark env transactionId table
                         ∨ publish_version_check_alter_replica (config env) = false)))
      as [Ha|Ha].
    - destruct Ha as [-> Ha]. rewrite bool_decide_eq_true_2 by done.
      destruct Ha as [Ha| ->]; simpl; [|by rewrite orb_true_r].
      apply Hpre in Ha. by rewrite Ha.
    - destruct (bool_decide (replica_state R = REPLICA_ALTER)) eqn:Hst; [|done].
      apply bool_decide_eq_true_1 in Hst. simpl.
      destruct (isAlterReplicaLoadedTxn env transactionId table) eqn:Hal,
        (publish_version_check_alter_replica (config env)) eqn:Hflag;
        simpl; try done; exfalso; apply Ha; split; try done.
      + by right.
      + left. by apply Hpre.
      + by right. }
  unfold checkReplicaContinuousVersionSucc. cbn [fst snd].
  fold after_task. rewrite Herr. unfold publish_class.
  destruct (decide (replica_id R ∈ errors)) as [Hin|Hin].
  - rewrite decide_False by tauto.
    destruct (decide (V ≤ replica_version R)) as [Hv|Hv].
    + rewrite (proj2 (Z.leb_le _ _) Hv). by rewrite decide_False.
    + rewrite (proj2 (Z.leb_gt _ _)) by lia. by rewrite decide_True.
  - rewrite decide_True by done.
    assert (errors ∖ {[replica_id R]} = errors) as Hsame by set_solver.
    destruct (checkVersionCatchUp R (wrap64 (V - 1)) true) eqn:Hc;
      rewrite decide_False by done; by rewrite Hsame.
Qed.


End Classification.

Import TxnExamples PublishExamples.


End PublishClassificationProofs.

(** ** The partition version check of finish *)

Module PartitionVersionProofs.
Import MachineInt MachineIntFacts TxnMgr TxnSpecs.

Lemma next_of_succ visible commit :
  in_long visible → in_long commit →
  next_of visible commit ↔ wrap64 (visible + 1) = commit.
Proof.
  intros Hv Hc. unfold next_of. split; intros Heq.
  - rewrite Heq. unfold wrap64, wrap.
    change (2 ^ (64 - 1)) with 9223372036854775808.
    change (2 ^ 64) with 18446744073709551616.
    unfold in_long, LONG_MIN, LONG_MAX in *.
    change (2 ^ 63) with 9223372036854775808 in *.
    replace ((commit - 1 + 9223372036854775808) `mod` 18446744073709551616
             - 9223372036854775808 + 1 + 9223372036854775808)
      with ((commit - 1 + 9223372036854775808) `mod` 18446744073709551616 + 1) by lia.
    rewrite Zplus_mod_idemp_l.
    replace (commit - 1 + 9223372036854775808 + 1) with (commit + 9223372036854775808) by lia.
    rewrite Z.mod_small; lia.
  - rewrite <- Heq. unfold wrap64, wrap.
    change (2 ^ (64 - 1)) with 9223372036854775808.
    change (2 ^ 64) with 18446744073709551616.
    unfold in_long, LONG_MIN, LONG_MAX in *.
    change (2 ^ 63) with 9223372036854775808 in *.
    replace ((visible + 1 + 9223372036854775808) `mod` 18446744073709551616
             - 9223372036854775808 - 1 + 9223372036854775808)
      with ((visible + 1 + 9223372036854775808) `mod` 18446744073709551616 - 1) by lia.
    rewrite Zminus_mod_idemp_l.
    replace (visible + 1 + 9223372036854775808 - 1) with (visible + 9223372036854775808) by lia.
    rewrite Z.mod_small; lia.
Qed.

Lemma checkPartitionVersions_spec table infos : ∀ kept related wait,
  checkPartitionVersions table infos = (kept, related, wait) →
  (wait = None ↔ Forall (partition_ready table) infos)
  ∧ (wait = None → kept = survivingPartitionInfos table infos)
  ∧ (∀ msg, wait = Some msg →
       ∃ e partition, e ∈ infos ∧ getPartition table (partitionId e.2) = Some partition
         ∧ ¬ next_of (visibleVersion partition) (version e.2)
         ∧ msg = WaitForPublishing (partitionId e.2)
                   (wrap64 (visibleVersion partition + 1)) (version e.2) (table_id table))
  ∧ kept `sublist_of` infos
  ∧ (∀ e, e ∈ infos → partition_survives table e → e ∈ kept).
Proof.
  induction infos as [|[key info] rest IH]; intros kept related wait Hrun; simpl in Hrun.
  - injection Hrun as <- <- <-.
    split; [done|]. split; [done|]. split; [done|]. split; [done|].
    intros e He. by apply elem_of_nil in He.
  - destruct (getPartition table (partitionId info)) as [partition|] eqn:Hp.
    + unfold survivingPartitionInfos. rewrite filter_cons.
      rewrite decide_True by (unfold partition_survives; simpl; by rewrite Hp).
      destruct (decide (visibleVersion partition ≠ wrap64 (version info - 1))) as [Hne|Heq].
      * injection Hrun as <- <- <-. split; [|split; [done|split; [|split]]].
        -- split; [done|]. intros Hall. apply Forall_cons in Hall as [Hr _].
           exfalso. apply Hne. by apply (Hr partition).
        -- intros msg [= <-]. exists (key, info), partition. repeat split; try done. by left.
        -- done.
        -- done.
      * apply dec_stable in Heq.
        destruct (checkPartitionVersions table rest) as [[kept1 related1] wait1] eqn:Hrest.
        injection Hrun as <- <- <-.
        destruct (IH _ _ _ eq_refl) as (Hw & Hk & Hm & Hs & Hin).
        split; [|split; [|split; [|split]]].
        -- rewrite Hw. rewrite Forall_cons. split; [|tauto]. intros Hall. split; [|done].
           intros p Hp'. unfold next_of. simpl in *. by simplify_eq.
        -- intros Hn. by rewrite (Hk Hn).
        -- intros msg Hmsg. destruct (Hm msg Hmsg) as (e & p & He & ?).
           exists e, p. split; [by right|done].
        -- by apply sublist_skip.
        -- intros e He Hsurv. apply elem_of_cons in He as [->|He]; [by left|].
           right. by apply Hin.
    + unfold survivingPartitionInfos. rewrite filter_cons.
      rewrite decide_False
        by (unfold partition_survives; simpl; rewrite Hp; by intros [? ?]).
      destruct (IH _ _ _ Hrun) as (Hw & Hk & Hm & Hs & Hin).
      split; [|split; [|split; [|split]]].
      * rewrite Hw. rewrite Forall_cons. split; [|tauto]. intros Hall. split; [|done].
        intros p Hp'. simpl in *. by simplify_eq.
      * done.
      * intros msg Hmsg. destruct (Hm msg Hmsg) as (e & p & He & ?).
        exists e, p. split; [by right|done].
      * by apply sublist_cons.
      * intros e He Hsurv. apply elem_of_cons in He as [->|He]; [|by apply Hin].
        destruct Hsurv as [? Hsurv]. simpl in Hsurv. congruence.
Qed.

Lemma checkTableVersions_spec db infos : ∀ kept related wait,
  checkTableVersions db infos = (kept, related, wait) →
  (wait = None ↔ Forall (table_ready db) infos)
  ∧ (wait = None → kept = survivingTableInfos db infos)
  ∧ (∀ msg, wait = Some msg →
       ∃ e table pe partition,
         e ∈ infos ∧ getTableNullable db (tableId e.2) = Some table
         ∧ pe ∈ idToPartitionCommitInfo e.2
         ∧ getPartition table (partitionId pe.2) = Some partition
         ∧ ¬ next_of (visibleVersion partition) (version pe.2)
         ∧ msg = WaitForPublishing (partitionId pe.2)
                   (wrap64 (visibleVersion partition + 1)) (version pe.2) (table_id table))
  ∧ (∀ e', e' ∈ kept →
       ∃ e, e ∈ infos ∧ e'.1 = e.1 ∧ tableId e'.2 = tableId e.2
            ∧ idToPartitionCommitInfo e'.2 `sublist_of` idToPartitionCommitInfo e.2)
  ∧ (∀ e table, e ∈ infos → getTableNullable db (tableId e.2) = Some table →
       ∃ e', e' ∈ kept ∧ e'.1 = e.1 ∧ tableId e'.2 = tableId e.2
             ∧ ∀ pe, pe ∈ idToPartitionCommitInfo e.2 → partition_survives table pe →
                     pe ∈ idToPartitionCommitInfo e'.2).
Proof.
  induction infos as [|[key info] rest IH]; intros kept related wait Hrun; simpl in Hrun.
  - injection Hrun as <- <- <-.
    split; [done|]. split; [done|]. split; [done|].
    split; intros e; [intros He|intros table He]; by apply elem_of_nil in He.
  - destruct (getTableNullable db (tableId info)) as [table|] eqn:Ht.
    + destruct (checkPartitionVersions table (idToPartitionCommitInfo info))
        as [[keptP relatedP] waitP] eqn:HP.
      destruct (checkPartitionVersions_spec _ _ _ _ _ HP) as (HwP & HkP & HmP & HsP & HinP).
      assert (Hhead : ∀ l, survivingTableInfos db ((key, info) :: l)
                = (key, {| tableId := tableId info;
                           idToPartitionCommitInfo :=
                             survivingPartitionInfos table (idToPartitionCommitInfo info) |})
                  :: survivingTableInfos db l).
      { intros l. unfold survivingTableInfos. simpl. by rewrite Ht. }
      assert (Hready : table_ready db (key, info)
                ↔ Forall (partition_ready table) (idToPartitionCommitInfo info)).
      { unfold table_ready. simpl. rewrite Ht. split; [intros Hr; by apply Hr|].
        intros Hr table' [= <-]. done. }
      destruct waitP as [msgP|].
      * injection Hrun as <- <- <-.
        split; [|split; [done|split; [|split]]].
        -- split; [done|]. intros Hall. apply Forall_cons in Hall as [Hr _].
           apply (proj1 Hready) in Hr. apply (proj2 HwP) in Hr. done.
        -- intros msg [= <-]. destruct (HmP msgP eq_refl) as (pe & p & Hpe & Hgp & Hn & ->).
           exists (key, info), table, pe, p. split; [by left|done].
        -- intros e' He'. apply elem_of_cons in He' as [->|He'].
           ++ exists (key, info). split; [by left|done].
           ++ exists e'. split; [by right|done].
        -- intros e table' He Ht'. apply elem_of_cons in He as [->|He].
           ++ simpl in Ht'. rewrite Ht in Ht'. injection Ht' as <-.
              eexists. split; [by left|]. simpl. split; [done|]. split; [done|].
              intros pe Hpe Hs. by apply HinP.
           ++ exists e. split; [by right|]. split; [done|]. split; [done|]. done.
      * destruct (checkTableVersions db rest) as [[kept1 related1] wait1] eqn:Hrest.
        injection Hrun as <- <- <-.
        destruct (IH _ _ _ eq_refl) as (Hw & Hk & Hm & Hadd & Hkeep).
        split; [|split; [|split; [|split]]].
        -- rewrite Hw, Forall_cons, Hready, <- HwP. tauto.
        -- intros Hn. rewrite Hhead, <- (Hk Hn), <- (HkP eq_refl). done.
        -- intros msg Hmsg. destruct (Hm msg Hmsg) as (e & tbl & pe & p & He & ?).
           exists e, tbl, pe, p. split; [by right|done].
        -- intros e' He'. apply elem_of_cons in He' as [->|He'].
           ++ exists (key, info). split; [by left|done].
           ++ destruct (Hadd e' He') as (e & He & ?). exists e. split; [by right|done].
        -- intros e table' He Ht'. apply elem_of_cons in He as [->|He].
           ++ simpl in Ht'. rewrite Ht in Ht'. injection Ht' as <-.
              eexists. split; [by left|]. simpl. split; [done|]. split; [done|].
              intros pe Hpe Hs. by apply HinP.
           ++ destruct (Hkeep e table' He Ht') as (e' & He' & ?).
              exists e'. split; [by right|done].
    + destruct (IH _ _ _ Hrun) as (Hw & Hk & Hm & Hadd & Hkeep).
      assert (Hready : table_ready db (key, info)).
      { unfold table_ready. simpl. rewrite Ht. done. }
      split; [|split; [|split; [|split]]].
      * rewrite Hw, Forall_cons. tauto.
      * intros Hn. rewrite (Hk Hn). unfold survivingTableInfos. simpl. by rewrite Ht.
      * intros msg Hmsg. destruct (Hm msg Hmsg) as (e & tbl & pe & p & He & ?).
        exists e, tbl, pe, p. split; [by right|done].
      * intros e' He'. destruct (Hadd e' He') as (e & He & ?).
        exists e. split; [by right|done].
      * intros e table' He Ht'. apply elem_of_cons in He as [->|He].
        -- simpl in Ht'. congruence.
        -- by apply Hkeep.
Qed.

(** The loop over the partitions of a table stops at the first partition
    that is there and not ready; the entries before it have been pruned, it
    and the entries behind it are as they were. *)
Lemma checkPartitionVersions_first table infos : ∀ kept related msg,
  checkPartitionVersions table infos = (kept, related, Some msg) →
  ∃ pre pe post partition,
    infos = pre ++ pe :: post
    ∧ Forall (partition_ready table) pre
    ∧ getPartition table (partitionId pe.2) = Some partition
    ∧ ¬ next_of (visibleVersion partition) (version pe.2)
    ∧ msg = WaitForPublishing (partitionId pe.2)
              (wrap64 (visibleVersion partition + 1)) (version pe.2) (table_id table)
    ∧ kept = survivingPartitionInfos table pre ++ pe :: post.
Proof.
  induction infos as [|[key info] rest IH]; intros kept related msg Hrun; simpl in Hrun;
    [done|].
  destruct (getPartition table (partitionId info)) as [partition|] eqn:Hp.
  - destruct (decide (visibleVersion partition ≠ wrap64 (version info - 1))) as [Hne|Heq].
    + injection Hrun as <- <- <-. exists [], (key, info), rest, partition.
      repeat split; done.
    + apply dec_stable in Heq.
      destruct (checkPartitionVersions table rest) as [[kept1 related1] wait1] eqn:Hrest.
      injection Hrun as <- <- ->.
      destruct (IH _ _ _ eq_refl) as (pre & pe & post & p & -> & Hpre & Hgp & Hn & -> & ->).
      exists ((key, info) :: pre), pe, post, p. split; [done|]. split.
      { constructor; [|done]. intros p' Hp'. simpl in Hp'. unfold next_of. by simplify_eq. }
      split; [done|]. split; [done|]. split; [done|].
      unfold survivingPartitionInfos. rewrite filter_cons.
      rewrite decide_True by (unfold partition_survives; simpl; by rewrite Hp). done.
  - destruct (IH _ _ _ Hrun) as (pre & pe & post & p & -> & Hpre & Hgp & Hn & -> & ->).
    exists ((key, info) :: pre), pe, post, p. split; [done|]. split.
    { constructor; [|done]. intros p' Hp'. simpl in Hp'. congruence. }
    split; [done|]. split; [done|]. split; [done|].
    unfold survivingPartitionInfos. rewrite filter_cons.
    rewrite decide_False
      by (unfold partition_survives; simpl; rewrite Hp; by intros [? ?]). done.
Qed.

(** The same, for the loop over the tables. *)
Lemma checkTableVersions_first db infos : ∀ kept related msg,
  checkTableVersions db infos = (kept, related, Some msg) →
  ∃ pre e post table ppre pe ppost partition,
    infos = pre ++ e :: post
    ∧ Forall (table_ready db) pre
    ∧ getTableNullable db (tableId e.2) = Some table
    ∧ idToPartitionCommitInfo e.2 = ppre ++ pe :: ppost
    ∧ Forall (partition_ready table) ppre
    ∧ getPartition table (partitionId pe.2) = Some partition
    ∧ ¬ next_of (visibleVersion partition) (version pe.2)
    ∧ msg = WaitForPublishing (partitionId pe.2)
              (wrap64 (visibleVersion partition + 1)) (version pe.2) (table_id table)
    ∧ kept = survivingTableInfos db pre
             ++ (e.1, {| tableId := tableId e.2;
                         idToPartitionCommitInfo :=
                           survivingPartitionInfos table ppre ++ pe :: ppost |}) :: post.
Proof.
  induction infos as [|[key info] rest IH]; intros kept related msg Hrun; simpl in Hrun;
    [done|].
  destruct (getTableNullable db (tableId info)) as [table|] eqn:Ht.
  - destruct (checkPartitionVersions table (idToPartitionCommitInfo info))
      as [[keptP relatedP] waitP] eqn:HP.
    destruct waitP as [msgP|].
    + injection Hrun as <- <- <-.
      destruct (checkPartitionVersions_first _ _ _ _ _ HP)
        as (ppre & pe & ppost & p & Hsplit & Hpre & Hgp & Hn & -> & ->).
      exists [], (key, info), rest, table, ppre, pe, ppost, p. repeat split; done.
    + destruct (checkTableVersions db rest) as [[kept1 related1] wait1] eqn:Hrest.
      injection Hrun as <- <- ->.
      destruct (IH _ _ _ eq_refl)
        as (pre & e & post & tbl & ppre & pe & ppost & p & -> & Hpre & Hgt & Hsplit & Hppre
            & Hgp & Hn & -> & ->).
      destruct (checkPartitionVersions_spec _ _ _ _ _ HP) as (HwP & HkP & _).
      exists ((key, info) :: pre), e, post, tbl, ppre, pe, ppost, p.
      split; [done|]. split.
      { constructor; [|done]. intros table' Ht'. simpl in Ht'. rewrite Ht in Ht'.
        injection Ht' as <-. by apply HwP. }
      split; [done|]. split; [done|]. split; [done|]. split; [done|]. split; [done|].
      split; [done|].
      unfold survivingTableInfos at 1. simpl. rewrite Ht. simpl.
      by rewrite (HkP eq_refl).
  - destruct (IH _ _ _ Hrun)
      as (pre & e & post & tbl & ppre & pe & ppost & p & -> & Hpre & Hgt & Hsplit & Hppre
          & Hgp & Hn & -> & ->).
    exists ((key, info) :: pre), e, post, tbl, ppre, pe, ppost, p.
    split; [done|]. split.
    { constructor; [|done]. intros table' Ht'. simpl in Ht'. congruence. }
    split; [done|]. split; [done|]. split; [done|]. split; [done|]. split; [done|].
    split; [done|].
    unfold survivingTableInfos at 1. simpl. by rewrite Ht.
Qed.

Lemma surviving_no_dropped db infos : no_dropped_entry db (survivingTableInfos db infos).
Proof.
  intros e He. unfold survivingTableInfos in He.
  apply list_elem_of_omap in He as ([key info] & _ & He). simpl in He.
  destruct (getTableNullable db (tableId info)) as [table|] eqn:Ht; [|done].
  injection He as <-. simpl. exists table. split; [done|].
  unfold survivingPartitionInfos. apply Forall_forall.
  intros pe Hpe. by apply list_elem_of_filter in Hpe as [? _].
Qed.

Import TxnExamples.

(** C4, counterexample: partition 10 is visible at version 2 and the
    transaction holds version 5 for it, so the check stops there and returns
    [false]; the entry of the dropped table 2 behind it is still in the commit
    infos. *)
Lemma finishCheckPartitionVersion_keeps_dropped_entry :
  (finishCheckPartitionVersion (txn_two_tables 5) db_one_table).2 = false
  ∧ info_table 2 20 3
      ∈ idToTableCommitInfos (finishCheckPartitionVersion (txn_two_tables 5) db_one_table).1.1
  ∧ getTableNullable db_one_table 2 = None
  ∧ ¬ removes_every_dropped_entry (txn_two_tables 5) db_one_table.
Proof.
  assert (Hinfos :
    idToTableCommitInfos (finishCheckPartitionVersion (txn_two_tables 5) db_one_table).1.1
    = [info_table 1 10 5; info_table 2 20 3]) by (vm_compute; reflexivity).
  split; [vm_compute; reflexivity|].
  split; [rewrite Hinfos; set_solver|].
  split; [reflexivity|].
  unfold removes_every_dropped_entry. rewrite Hinfos. intros Hno.
  destruct (Hno (info_table 2 20 3)) as (table & Ht & _); [set_solver|].
  vm_compute in Ht. discriminate.
Qed.

Section Check.
Context `{Collaborators}.

(** C4, as amended: [finishCheckPartitionVersion] walks the commit infos in
    iteration order and stops at the first surviving partition whose visible
    version is not just below its commit version.  It returns [true] iff
    every surviving partition has [visible_version + 1 = version] ([long]
    arithmetic), and then it has removed every entry of a dropped table or
    partition and nothing else.  When it returns [false], the commit infos
    split at the first partition that is there and not ready: the entries
    before it were ready and have been pruned of the dropped ones, the
    message recorded is the "wait for publishing" message of that partition,
    and it and the entries behind it, dropped ones included, are in place.
    It only ever removes entries of dropped tables and partitions, and
    [finishTransaction] then returns with the transaction's status
    unchanged. *)
Theorem finishCheckPartitionVersion_checks_and_prunes
    (t : TransactionState) (db : Database)
    (t' : TransactionState) (related : list (OlapTable * Partition)) (ok : bool) :
  finishCheckPartitionVersion t db = (t', related, ok) →
  (ok = true ↔ Forall (table_ready db) (idToTableCommitInfos t))
  ∧ (ok = true →
       idToTableCommitInfos t' = survivingTableInfos db (idToTableCommitInfos t)
       ∧ no_dropped_entry db (idToTableCommitInfos t')
       ∧ errMsg t' = errMsg t)
  ∧ (ok = false →
       ∃ pre e post table ppre pe ppost partition,
         idToTableCommitInfos t = pre ++ e :: post
         ∧ Forall (table_ready db) pre
         ∧ getTableNullable db (tableId e.2) = Some table
         ∧ idToPartitionCommitInfo e.2 = ppre ++ pe :: ppost
         ∧ Forall (partition_ready table) ppre
         ∧ getPartition table (partitionId pe.2) = Some partition
         ∧ ¬ next_of (visibleVersion partition) (version pe.2)
         ∧ errMsg t' = Some (WaitForPublishing (partitionId pe.2)
                               (wrap64 (visibleVersion partition + 1)) (version pe.2)
                               (table_id table))
         ∧ idToTableCommitInfos t'
           = survivingTableInfos db pre
             ++ (e.1, {| tableId := tableId e.2;
                         idToPartitionCommitInfo :=
                           survivingPartitionInfos table ppre ++ pe :: ppost |}) :: post)
  ∧ (∀ e', e' ∈ idToTableCommitInfos t' →
       ∃ e, e ∈ idToTableCommitInfos t ∧ e'.1 = e.1 ∧ tableId e'.2 = tableId e.2
            ∧ idToPartitionCommitInfo e'.2 `sublist_of` idToPartitionCommitInfo e.2)
  ∧ (∀ e table, e ∈ idToTableCommitInfos t →
       getTableNullable db (tableId e.2) = Some table →
       ∃ e', e' ∈ idToTableCommitInfos t' ∧ e'.1 = e.1 ∧ tableId e'.2 = tableId e.2
             ∧ ∀ pe, pe ∈ idToPartitionCommitInfo e.2 → partition_survives table pe →
                     pe ∈ idToPartitionCommitInfo e'.2)
  ∧ header t' = header t
  ∧ transactionStatus t' = transactionStatus t
  ∧ (ok = false →
       ∀ env now transactionId m,
         unprotectedGetTransactionState transactionId m = Some t →
         idToDb env !! dbId (header t) = Some db →
         finishTransaction env now transactionId m
         = (storeTxn t' m, env, Returned FinishWaitVersion)).
Proof.
  intros Hrun. unfold finishCheckPartitionVersion in Hrun.
  destruct (checkTableVersions db (idToTableCommitInfos t)) as [[kept rel] wait] eqn:Hloop.
  destruct (checkTableVersions_spec _ _ _ _ _ Hloop) as (Hw & Hk & Hm & Hadd & Hkeep).
  destruct wait as [msg|]; injection Hrun as <- <- <-; simpl.
  - split; [split; [done|intros Hall; by apply (proj2 Hw) in Hall]|].
    split; [done|].
    split.
    { intros _. destruct (checkTableVersions_first _ _ _ _ _ Hloop)
        as (pre & e & post & table & ppre & pe & ppost & p & ? & ? & ? & ? & ? & ? & ?
            & -> & ->).
      by exists pre, e, post, table, ppre, pe, ppost, p. }
    split; [done|]. split; [done|]. split; [done|]. split; [done|].
    intros _ env now transactionId m Hget Hdb.
    unfold finishTransaction. rewrite Hget, Hdb.
    unfold finishCheckPartitionVersion. rewrite Hloop. done.
  - split; [split; [intros _; by apply Hw|done]|].
    split.
    { intros _. split; [by apply Hk|]. split; [|done].
      rewrite (Hk eq_refl). apply surviving_no_dropped. }
    split; [done|]. split; [done|]. split; [done|]. split; [done|]. split; [done|].
    done.
Qed.

End Check.

(** Partition 10 is visible at version 2 and the transaction holds
    version 3 for it: the check returns [true], and the entry of the dropped
    table 2 is gone. *)
Lemma finishCheckPartitionVersion_checks_and_prunes_witness :
  (finishCheckPartitionVersion (txn_two_tables 3) db_one_table).2 = true
  ∧ idToTableCommitInfos (finishCheckPartitionVersion (txn_two_tables 3) db_one_table).1.1
    = [info_table 1 10 3].
Proof.
  destruct (finishCheckPartitionVersion (txn_two_tables 3) db_one_table)
    as [[t' related] ok] eqn:Hrun.
  destruct (finishCheckPartitionVersion_checks_and_prunes (H := plain_collaborators)
              (txn_two_tables 3) db_one_table t' related ok Hrun)
    as (Hok & Hpruned & _).
  assert (Hready : ok = true).
  { apply Hok.
    change (idToTableCommitInfos (txn_two_tables 3))
      with [info_table 1 10 3; info_table 2 20 3].
    apply Forall_cons; split; [|apply Forall_cons; split; [|apply Forall_nil_2]].
    - intros table Ht. vm_compute in Ht. injection Ht as <-.
      apply Forall_cons; split; [|apply Forall_nil_2].
      intros partition Hp. vm_compute in Hp. injection Hp as <-. reflexivity.
    - intros table Ht. vm_compute in Ht. discriminate. }
  split; [exact Hready|]. simpl.
  destruct (Hpruned Hready) as (-> & _). vm_compute. reflexivity.
Defined.

End PartitionVersionProofs.

(** ** The publish quorum check of finish *)

Module PublishQuorumProofs.
Import MachineInt MachineIntFacts TxnMgr TxnSpecs PublishSpecs.

(** [allowPublishOneSucc] says that the wait is over. *)
Lemma allowPublishOneSucc_over cfg now t :
  allowPublishOneSucc cfg now t = true ↔ publish_wait_over cfg now t.
Proof.
  unfold allowPublishOneSucc, publish_wait_over.
  rewrite !andb_true_iff, !Z.ltb_lt, Z.leb_le. tauto.
Qed.

(** Without overflow the deadline is the plain sum. *)
Lemma allowPublishOneSucc_waited cfg now t :
  in_int (publish_wait_time_second cfg) →
  firstPublishVersionTime t + publish_wait_time_second cfg * 1000 ≤ LONG_MAX →
  allowPublishOneSucc cfg now t = true ↔ waited_long_enough cfg now t.
Proof.
  intros Hw Hsum. unfold allowPublishOneSucc, waited_long_enough.
  rewrite !andb_true_iff, !Z.ltb_lt, Z.leb_le.
  unfold in_int, INT_MIN, INT_MAX, LONG_MAX in *.
  change (2 ^ 31) with 2147483648 in *. change (2 ^ 63) with 9223372036854775808 in *.
  split.
  - intros [[H1 H2] H3]. split; [done|]. split; [done|].
    rewrite (wrap64_id (publish_wait_time_second cfg * 1000)) in H3
      by (unfold in_long, LONG_MIN, LONG_MAX;
          change (2 ^ 63) with 9223372036854775808; lia).
    rewrite wrap64_id in H3
      by (unfold in_long, LONG_MIN, LONG_MAX;
          change (2 ^ 63) with 9223372036854775808; lia).
    lia.
  - intros (H1 & H2 & H3). split; [done|].
    rewrite (wrap64_id (publish_wait_time_second cfg * 1000))
      by (unfold in_long, LONG_MIN, LONG_MAX;
          change (2 ^ 63) with 9223372036854775808; lia).
    rewrite wrap64_id
      by (unfold in_long, LONG_MIN, LONG_MAX;
          change (2 ^ 63) with 9223372036854775808; lia).
    lia.
Qed.

Lemma foldl_ext_eq {A B} (f g : A → B → A) (l : list B) : ∀ a,
  (∀ a b, f a b = g a b) → foldl f a l = foldl g a l.
Proof. induction l as [|b l IH]; intros a Hfg; simpl; [done|]. rewrite Hfg. by apply IH. Qed.

Lemma foldl_bind {A B C} (g : A → C → A) (k : B → list C) (l : list B) : ∀ a,
  foldl g a (l ≫= k) = foldl (λ a x, foldl g a (k x)) a l.
Proof.
  induction l as [|x l IH]; intros a; [done|].
  change ((x :: l) ≫= k) with (k x ++ (l ≫= k)). rewrite foldl_app. apply IH.
Qed.

Lemma foldl_rel {A A' B} (R : A → A' → Prop) (f : A → B → A) (g : A' → B → A')
    (l : list B) : ∀ a a',
  (∀ a a' b, R a a' → R (f a b) (g a' b)) → R a a' → R (foldl f a l) (foldl g a' l).
Proof. induction l as [|b l IH]; intros a a' Hstep Ha; simpl; [done|]. apply IH; auto. Qed.

(** The surviving partitions that the version check hands on when it
    passes. *)
Lemma checkPartitionVersions_related table infos : ∀ kept related,
  checkPartitionVersions table infos = (kept, related, None) →
  related = omap (λ pe : Z * PartitionCommitInfo,
                    pair table <$> getPartition table (partitionId pe.2)) infos.
Proof.
  induction infos as [|[key info] rest IH]; intros kept related Hrun; simpl in Hrun.
  - by injection Hrun as <- <-.
  - simpl. destruct (getPartition table (partitionId info)) as [partition|] eqn:Hp; simpl.
    + destruct (decide (visibleVersion partition ≠ wrap64 (version info - 1))); [done|].
      destruct (checkPartitionVersions table rest) as [[kept' related'] wait'] eqn:Hrest.
      injection Hrun as <- <- ->. f_equal. by eapply IH.
    + by eapply IH.
Qed.

Lemma checkTableVersions_related db infos : ∀ kept related,
  checkTableVersions db infos = (kept, related, None) →
  related = (e ← infos;
             match getTableNullable db (tableId e.2) with
             | None => []
             | Some table =>
                 omap (λ pe : Z * PartitionCommitInfo,
                         pair table <$> getPartition table (partitionId pe.2))
                      (idToPartitionCommitInfo e.2)
             end).
Proof.
  induction infos as [|[key info] rest IH]; intros kept related Hrun; simpl in Hrun.
  - by injection Hrun as <- <-.
  - match goal with |- _ = ?l ≫= ?k => change (l ≫= k) with (k (key, info) ++ (rest ≫= k)) end.
    simpl. destruct (getTableNullable db (tableId info)) as [table|] eqn:Ht.
    + destruct (checkPartitionVersions table (idToPartitionCommitInfo info))
        as [[keptP relatedP] [msg|]] eqn:Hparts; [done|].
      destruct (checkTableVersions db rest) as [[kept' related'] wait'] eqn:Hrest.
      injection Hrun as <- <- ->.
      rewrite (checkPartitionVersions_related _ _ _ _ Hparts). f_equal. by eapply IH.
    + simpl. by eapply IH.
Qed.

Section Quorum.
Context `{Collaborators}.

Lemma checkTabletQuorum_inv cfg allow tableId partitionId newVersion required alter tasks
    st tablet :
  verdict_inv allow st →
  verdict_inv allow
    (checkTabletQuorum cfg allow tableId partitionId newVersion required alter tasks
       st tablet).
Proof.
  intros [Hq Hf He]. unfold checkTabletQuorum.
  destruct (foldl _ _ (replicas tablet)) as [errs tally].
  set (c := {| tc_tabletId := tablet_id tablet; tc_tally := tally; tc_required := required |}).
  assert (Hh : healthReplicaNum c = Z.of_nat (length (tabletSuccReplicas tally))) by done.
  destruct (required <=? Z.of_nat (length (tabletSuccReplicas tally))) eqn:Hle.
  - apply Z.leb_le in Hle.
    assert (Hc : ¬ under_quorum c) by (unfold under_quorum; simpl; lia).
    split; simpl.
    + rewrite Hq, Forall_app, Forall_singleton. tauto.
    + rewrite Hf, Exists_app, Exists_cons, Exists_nil. tauto.
    + intros Hfail. destruct (He Hfail) as (c' & ? & ? & ? & ? & ?).
      exists c'. do 3 eexists. split; [set_solver|done].
  - apply Z.leb_gt in Hle.
    assert (Hc : under_quorum c) by (unfold under_quorum; simpl; lia).
    destruct (allow && (0 <? Z.of_nat (length (tabletSuccReplicas tally)))) eqn:Hal.
    + apply andb_true_iff in Hal as [-> Hpos]. apply Z.ltb_lt in Hpos.
      split; simpl.
      * rewrite Forall_app, Forall_singleton. split; [|tauto].
        case_decide; done.
      * rewrite Exists_app, Exists_cons, Exists_nil. rewrite <- Hf.
        case_decide as Hd; [rewrite Hd|]; split; try tauto; try done.
        intros [?|[[_ Hn]|[]]]; [done|]. exfalso. apply Hn. split; [done|]. by rewrite Hh.
      * intros Hfail. case_decide as Hd; [done|].
        destruct (He Hfail) as (c' & ? & ? & ? & ? & ?).
        exists c'. do 3 eexists. split; [set_solver|done].
    + split; simpl.
      * rewrite Forall_app, Forall_singleton. split; [done|tauto].
      * rewrite Exists_app, Exists_cons, Exists_nil. split; [|done].
        intros _. right. left. split; [done|]. intros [-> Hpos].
        simpl in Hal. apply Z.ltb_ge in Hal. rewrite Hh in Hpos. lia.
      * intros _. exists c. do 3 eexists. split; [set_solver|]. split; [done|]. done.
Qed.

Lemma foldl_inv {A B} (P : A → Prop) (f : A → B → A) (l : list B) : ∀ a,
  (∀ a b, P a → P (f a b)) → P a → P (foldl f a l).
Proof. induction l as [|b l IH]; intros a Hstep Ha; simpl; [done|]. apply IH; auto. Qed.

Lemma checkPartitionQuorum_inv env allow t st tp st' :
  verdict_inv allow st →
  checkPartitionQuorum env allow t st tp = Some st' →
  verdict_inv allow st'.
Proof.
  intros Hinv Hrun. unfold checkPartitionQuorum in Hrun.
  destruct (allIndicesOf t (table_id tp.1) tp.2) as [allIndices|]; [|done].
  injection Hrun as <-.
  apply foldl_inv; [|done]. intros st1 index Hst1.
  apply foldl_inv; [|done]. intros st2 tablet Hst2.
  by apply checkTabletQuorum_inv.
Qed.

Lemma checkPartitionsQuorum_inv env allow t pairs : ∀ st st' completed,
  verdict_inv allow st →
  checkPartitionsQuorum env allow t st pairs = (st', completed) →
  verdict_inv allow st'.
Proof.
  induction pairs as [|tp rest IH]; intros st st' completed Hinv Hrun; simpl in Hrun.
  - by injection Hrun as <- <-.
  - destruct (checkPartitionQuorum env allow t st tp) as [st1|] eqn:Hp.
    + eapply IH; [|done]. by eapply checkPartitionQuorum_inv.
    + by injection Hrun as <- <-.
Qed.

Lemma verdict_inv_init allow errs msg :
  verdict_inv allow {| ql_errorReplicaIds := errs; ql_publishResult := QUORUM_SUCC;
                       ql_errMsg := msg; ql_checks := [] |}.
Proof. split; simpl; [done| |done]. split; [done|]. by intros ?%Exists_nil. Qed.

(** What the version check leaves of the transaction, and what it hands
    on. *)
Lemma finishCheckPartitionVersion_hands_on t db t1 related ok :
  finishCheckPartitionVersion t db = (t1, related, ok) →
  header t1 = header t ∧ transactionStatus t1 = transactionStatus t
  ∧ firstPublishVersionTime t1 = firstPublishVersionTime t
  ∧ publishVersionTasks t1 = publishVersionTasks t
  ∧ errorReplicas t1 = errorReplicas t
  ∧ (ok = true ↔ versions_ready db t)
  ∧ (ok = true → related = committed_partitions db t).
Proof.
  unfold finishCheckPartitionVersion, versions_ready, committed_partitions.
  destruct (checkTableVersions db (idToTableCommitInfos t)) as [[kept rel] wait] eqn:Hloop.
  destruct (PartitionVersionProofs.checkTableVersions_spec _ _ _ _ _ Hloop) as (Hready & _).
  destruct wait as [msg|]; intros [= <- <- <-]; repeat (split; [done|]).
  - split; [split; [done|]|done]. intros Hr. by apply Hready in Hr.
  - split; [split; [intros _; by apply Hready|done]|].
    intros _. by eapply checkTableVersions_related.
Qed.

(** The classification of a replica, as the quorum check runs it. *)
Lemma checkReplicaContinuousVersionSucc_step env t table tabletId V acc R :
  checkReplicaContinuousVersionSucc (config env) tabletId R
    (isAlterReplicaLoadedTxn env (getTransactionId t) table) V
    (mjoin (publishVersionTasks t !! backendId R)) acc
  = publish_step env t table tabletId V acc R.
Proof.
  destruct acc as [errs tally]. unfold publish_step. cbn [fst snd].
  apply PublishClassificationProofs.checkReplicaContinuousVersionSucc_filed.
Qed.

Lemma checkTabletQuorum_tracks env allow t table partition st acc tablet :
  tracks st acc →
  tracks
    (checkTabletQuorum (config env) allow (table_id table) (partition_id partition)
       (wrap64 (visibleVersion partition + 1))
       (loadRequiredReplicaNum table (partition_id partition))
       (isAlterReplicaLoadedTxn env (getTransactionId t) table) (publishVersionTasks t)
       st tablet)
    (let r := publish_tablet env t acc.1 (mkPublishTablet table partition tablet) in
     (r.1, acc.2 ++ [r.2])).
Proof.
  intros [He Hc]. unfold checkTabletQuorum, publish_tablet. cbn [pt_table pt_partition pt_tablet].
  rewrite (foldl_ext_eq _
             (publish_step env t table (tablet_id tablet)
                (wrap64 (visibleVersion partition + 1))))
    by (intros a b; apply checkReplicaContinuousVersionSucc_step).
  rewrite He.
  destruct (foldl _ (acc.1, emptyTally) (replicas tablet)) as [errs tally].
  cbv zeta. cbn [fst snd].
  destruct (_ <=? _); [by split; simpl; rewrite ?Hc|].
  destruct (allow && _); by split; simpl; rewrite ?Hc.
Qed.

Lemma tablets_to_publish_some t tp allIndices :
  allIndicesOf t (table_id tp.1) tp.2 = Some allIndices →
  tablets_to_publish t tp = (index ← allIndices; mkPublishTablet tp.1 tp.2 <$> tablets index).
Proof. unfold tablets_to_publish. by intros ->. Qed.

Lemma checkPartitionQuorum_tracks env allow t st acc tp st' :
  tracks st acc →
  checkPartitionQuorum env allow t st tp = Some st' →
  tracks st' (publish_walk env t acc (tablets_to_publish t tp)).
Proof.
  intros Htr Hrun. unfold checkPartitionQuorum in Hrun.
  destruct (allIndicesOf t (table_id tp.1) tp.2) as [allIndices|] eqn:Hidx; [|done].
  injection Hrun as <-. rewrite (tablets_to_publish_some _ _ _ Hidx).
  unfold publish_walk. rewrite foldl_bind.
  apply foldl_rel; [|done]. intros st1 acc1 index Htr1.
  rewrite foldl_fmap. apply foldl_rel; [|done]. intros st2 acc2 tablet Htr2.
  by apply checkTabletQuorum_tracks.
Qed.

Lemma checkPartitionsQuorum_tracks env allow t pairs : ∀ st acc st' completed,
  tracks st acc →
  checkPartitionsQuorum env allow t st pairs = (st', completed) →
  (completed = true ↔
   Forall (λ tp : OlapTable * Partition, is_Some (allIndicesOf t (table_id tp.1) tp.2))
          pairs)
  ∧ (completed = true →
     tracks st' (publish_walk env t acc (pairs ≫= tablets_to_publish t))).
Proof.
  induction pairs as [|tp rest IH]; intros st acc st' completed Htr Hrun; simpl in Hrun.
  - injection Hrun as <- <-. split; [done|]. by intros _.
  - destruct (checkPartitionQuorum env allow t st tp) as [st1|] eqn:Hp.
    + pose proof (checkPartitionQuorum_tracks _ _ _ _ _ _ _ Htr Hp) as Htr1.
      destruct (IH _ _ _ _ Htr1 Hrun) as [Hcomp Hwalk]. split.
      * rewrite Hcomp, Forall_cons. split; [|tauto]. intros Hall. split; [|done].
        unfold checkPartitionQuorum in Hp.
        destruct (allIndicesOf t (table_id tp.1) tp.2); [by eexists|done].
      * intros Hc. specialize (Hwalk Hc).
        change ((tp :: rest) ≫= tablets_to_publish t)
          with (tablets_to_publish t tp ++ (rest ≫= tablets_to_publish t)).
        unfold publish_walk in *. by rewrite foldl_app.
    + injection Hrun as <- <-. split; [|done]. split; [done|].
      intros [Hsome _]%Forall_cons. unfold checkPartitionQuorum in Hp.
      destruct (allIndicesOf t (table_id tp.1) tp.2); [done|]. by destruct Hsome.
Qed.

(** The quorum check as a whole. *)
Lemma finishCheckQuorumReplicas_walk env now t related t' checks r :
  finishCheckQuorumReplicas env now t related = (t', checks, r) →
  let walk := publish_walk env t (errorReplicas t, []) (related ≫= tablets_to_publish t) in
  let known :=
    Forall (λ tp : OlapTable * Partition, is_Some (allIndicesOf t (table_id tp.1) tp.2))
           related in
  header t' = header t ∧ transactionStatus t' = transactionStatus t
  ∧ (¬ known → r = Thrown NullPointerException)
  ∧ (known →
     ∃ st, verdict_inv (allowPublishOneSucc (config env) now t) st
           ∧ r = Returned (ql_publishResult st)
           ∧ ql_checks st = walk.2
           ∧ errMsg t' = ql_errMsg st).
Proof.
  unfold finishCheckQuorumReplicas. intros Hrun. cbv zeta.
  destruct (checkPartitionsQuorum _ _ _ _ _) as [st completed] eqn:Hloop.
  pose proof (checkPartitionsQuorum_inv _ _ _ _ _ _ _ (verdict_inv_init _ _ _) Hloop) as Hinv.
  assert (Htr : tracks {| ql_errorReplicaIds := errorReplicas t;
                          ql_publishResult := QUORUM_SUCC;
                          ql_errMsg := errMsg t; ql_checks := [] |}
                       (errorReplicas t, [])) by done.
  destruct (checkPartitionsQuorum_tracks _ _ _ _ _ _ _ _ Htr Hloop) as [Hcomp Hwalk].
  destruct completed.
  - destruct (negb (bool_decide (ql_publishResult st = FAILED)) || _);
      injection Hrun as <- <- <-; (split; [done|]); (split; [done|]);
      (split; [intros Hn; exfalso; apply Hn; by apply Hcomp|]);
      intros _; exists st; destruct (Hwalk eq_refl) as [_ Hc];
      (split; [exact Hinv|]); (split; [done|]); (split; [exact Hc|]); done.
  - injection Hrun as <- <- <-. split; [done|]. split; [done|].
    split; [done|]. intros Hk. apply Hcomp in Hk. done.
Qed.

(** What the walk reads depends on the header and the publish tasks of the
    transaction only. *)
Lemma publish_walk_frame env t t1 acc ws :
  header t1 = header t → publishVersionTasks t1 = publishVersionTasks t →
  publish_walk env t1 acc ws = publish_walk env t acc ws.
Proof.
  intros Hh Hp. unfold publish_walk, publish_tablet, publish_step, getTransactionId.
  by rewrite Hh, Hp.
Qed.

Lemma tablets_to_publish_frame t t1 tp :
  header t1 = header t → tablets_to_publish t1 tp = tablets_to_publish t tp.
Proof. intros Hh. unfold tablets_to_publish, allIndicesOf. by rewrite Hh. Qed.

(** The checks name the tablets of the catalog, each with the number of
    replicas that its partition requires. *)
Lemma publish_walk_ids env t ws : ∀ acc,
  tc_tabletId <$> (publish_walk env t acc ws).2
  = (tc_tabletId <$> acc.2) ++ ((λ w, tablet_id (pt_tablet w)) <$> ws).
Proof.
  unfold publish_walk. induction ws as [|w ws IH]; intros acc; simpl.
  - by rewrite app_nil_r.
  - rewrite IH. simpl. rewrite fmap_app. simpl. by rewrite <- app_assoc.
Qed.

Lemma publish_walk_required env t ws : ∀ acc,
  tc_required <$> (publish_walk env t acc ws).2
  = (tc_required <$> acc.2)
    ++ ((λ w, loadRequiredReplicaNum (pt_table w) (partition_id (pt_partition w))) <$> ws).
Proof.
  unfold publish_walk. induction ws as [|w ws IH]; intros acc; simpl.
  - by rewrite app_nil_r.
  - rewrite IH. simpl. rewrite fmap_app. simpl. by rewrite <- app_assoc.
Qed.

(** C2, as amended: a COMMITTED transaction is finished.  If its database
    is gone the call throws MetaNotFoundException; if a surviving partition
    is not visible just below its commit version the call returns with the
    transaction still COMMITTED; if the loaded-index map lacks a table the
    call throws NullPointerException.  Otherwise the tablets of the indices
    of the surviving partitions are checked in order, each against
    [loadRequiredReplicaNum] of its partition, its replicas classified for
    the version that follows the visible one; and if some tablet has fewer
    successful replicas than required, the verdict is TIMEOUT_SUCC and the
    transaction becomes VISIBLE provided [publish_wait_time_second] is
    positive, a first publish time is set, the deadline has been reached
    and every under-quorum tablet has a successful replica; otherwise the
    verdict is FAILED, the message of a tablet under quorum is recorded and
    the transaction stays COMMITTED. *)
Theorem finishTransaction_under_quorum
    (env : Env) (now transactionId : Z) (m : Mgr) (t : TransactionState) :
  unprotectedGetTransactionState transactionId m = Some t →
  transactionStatus t = COMMITTED →
  let result := finishTransaction env now transactionId m in
  (idToDb env !! dbId (header t) = None → result = (m, env, Thrown MetaNotFoundException))
  ∧ ∀ db,
      idToDb env !! dbId (header t) = Some db →
      let checks := publish_checks env db t in
      let promoted := publish_wait_over (config env) now t ∧ one_succ_each checks in
      tc_tabletId <$> checks = (λ w, tablet_id (pt_tablet w)) <$> publish_tablets db t
      ∧ tc_required <$> checks
        = (λ w, loadRequiredReplicaNum (pt_table w) (partition_id (pt_partition w)))
          <$> publish_tablets db t
      ∧ (¬ versions_ready db t →
         ∃ t', result = (storeTxn t' m, env, Returned FinishWaitVersion)
               ∧ transactionStatus t' = COMMITTED)
      ∧ (versions_ready db t → ¬ indexes_known db t →
         ∃ t', result = (storeTxn t' m, env, Thrown NullPointerException)
               ∧ transactionStatus t' = COMMITTED)
      ∧ (versions_ready db t → indexes_known db t → Exists under_quorum checks →
         (promoted →
            ∃ m' env' t',
              result = (m', env', Returned (FinishVisible TIMEOUT_SUCC))
              ∧ txnObjects m' !! getTransactionId t = Some t'
              ∧ transactionStatus t' = VISIBLE
              ∧ getTransactionId t ∈ idToFinalStatusTransactionState m'
              ∧ getTransactionId t ∉ idToRunningTransactionState m')
         ∧ (¬ promoted →
            ∃ t', result = (storeTxn t' m, env, Returned FinishPublishFailed)
                  ∧ transactionStatus t' = COMMITTED
                  ∧ ∃ c table_id partition_id v,
                      c ∈ checks ∧ under_quorum c
                      ∧ errMsg t' = Some (PublishFailed (tc_tabletId c) (healthReplicaNum c)
                                            (tc_required c) table_id partition_id v))).
Proof.
  intros Hget Hstatus. cbv zeta. split.
  { intros Hdb. unfold finishTransaction. by rewrite Hget, Hdb. }
  intros db Hdb.
  split; [unfold publish_checks; by rewrite publish_walk_ids|].
  split; [unfold publish_checks; by rewrite publish_walk_required|].
  destruct (finishCheckPartitionVersion t db) as [[t1 related] ok] eqn:Hversion.
  destruct (finishCheckPartitionVersion_hands_on _ _ _ _ _ Hversion)
    as (Hh1 & Hs1 & Hf1 & Hp1 & He1 & Hok & Hrel).
  destruct (finishCheckQuorumReplicas env now t1 related) as [[t2 checks2] r] eqn:Hquorum.
  destruct (finishCheckQuorumReplicas_walk _ _ _ _ _ _ _ Hquorum)
    as (Hh2 & Hs2 & Hnpe & Hwalk).
  assert (Hrun : finishTransaction env now transactionId m
            = if negb ok then (storeTxn t1 m, env, Returned FinishWaitVersion)
              else match r with
                   | Thrown e => (storeTxn t2 m, env, Thrown e)
                   | Returned FAILED => (storeTxn t2 m, env, Returned FinishPublishFailed)
                   | Returned publishResult =>
                       let t' := setTransactionStatus VISIBLE
                                   (setErrMsg None (setFinishTime now t2)) in
                       (unprotectUpsertTransactionState t' false m,
                        setIdToDb (<[dbId (header t') := updateCatalogAfterVisible t' db]>
                                     (idToDb env)) env,
                        Returned (FinishVisible publishResult))
                   end).
  { unfold finishTransaction. rewrite Hget, Hdb, Hversion.
    destruct ok; simpl; [|done]. rewrite Hquorum. destruct r as [[]|]; done. }
  split.
  { intros Hnr. destruct ok; [exfalso; by apply Hnr, Hok|].
    exists t1. rewrite Hrun. split; [done|]. by rewrite Hs1. }
  assert (Hknown : ok = true →
            Forall (λ tp : OlapTable * Partition,
                      is_Some (allIndicesOf t1 (table_id tp.1) tp.2)) related
            ↔ indexes_known db t).
  { intros Hk. rewrite (Hrel Hk). unfold indexes_known, allIndicesOf. by rewrite Hh1. }
  split.
  { intros Hr Hnk. apply Hok in Hr. subst ok. rewrite <- (Hknown eq_refl) in Hnk.
    exists t2. rewrite Hrun, (Hnpe Hnk). split; [done|]. by rewrite Hs2, Hs1. }
  intros Hr Hk Hunder. apply Hok in Hr. subst ok. apply (Hknown eq_refl) in Hk.
  destruct (Hwalk Hk) as (st & [Hq Hf He] & -> & Hchecks & Hmsg).
  assert (Hsame : ql_checks st = publish_checks env db t).
  { rewrite Hchecks, (Hrel eq_refl). unfold publish_checks, publish_tablets.
    rewrite He1, (publish_walk_frame _ _ _ _ _ Hh1 Hp1). do 2 f_equal.
    apply list_bind_ext; [|done]. intros tp. by apply tablets_to_publish_frame. }
  rewrite Hsame in Hq, Hf, He.
  pose proof (allowPublishOneSucc_over (config env) now t1) as Hallow.
  assert (Hover : publish_wait_over (config env) now t1 ↔ publish_wait_over (config env) now t).
  { unfold publish_wait_over. by rewrite Hf1. }
  assert (Hnq : ql_publishResult st ≠ QUORUM_SUCC).
  { intros Heq. apply (proj1 Hq) in Heq.
    apply Exists_exists in Hunder as (c & Hc & Hu).
    rewrite Forall_forall in Heq. by apply (Heq c). }
  split.
  - intros [Hw Hall].
    assert (Hnf : ql_publishResult st ≠ FAILED).
    { intros Heq. apply (proj1 Hf) in Heq.
      apply Exists_exists in Heq as (c & Hc & Hu & Hn).
      apply Hn. split; [by apply Hallow, Hover|].
      unfold one_succ_each in Hall. rewrite Forall_forall in Hall. by apply Hall. }
    assert (Hres : ql_publishResult st = TIMEOUT_SUCC) by by destruct (ql_publishResult st).
    rewrite Hrun, Hres. cbv zeta. simpl. do 3 eexists. split; [done|].
    unfold unprotectUpsertTransactionState. simpl.
    assert (getTransactionId (setTransactionStatus VISIBLE
              (setErrMsg None (setFinishTime now t2))) = getTransactionId t) as ->.
    { unfold getTransactionId. simpl. by rewrite Hh2, Hh1. }
    rewrite lookup_insert_eq. split; [done|]. split; [done|]. set_solver.
  - intros Hnp.
    assert (Hres : ql_publishResult st = FAILED).
    { apply Hf. destruct (allowPublishOneSucc (config env) now t1) eqn:Ha.
      - pose proof (proj1 Hallow eq_refl) as Hw1. apply (proj1 Hover) in Hw1.
        assert (Hnall : ¬ Forall (λ c, under_quorum c → 0 < healthReplicaNum c)
                          (publish_checks env db t)) by (unfold one_succ_each in Hnp; tauto).
        apply not_Forall_Exists in Hnall; [|apply _].
        apply Exists_exists in Hnall as (c & Hc & Hn). simpl in Hn.
        apply Exists_exists. exists c. split; [done|].
        destruct (decide (under_quorum c)) as [Hu|Hu]; [|tauto].
        split; [done|]. intros [_ Hpos]. tauto.
      - apply Exists_exists in Hunder as (c & Hc & Hu).
        apply Exists_exists. exists c. split; [done|]. split; [done|].
        by intros [? _]. }
    exists t2. rewrite Hrun, Hres. simpl. split; [done|].
    split; [by rewrite Hs2, Hs1|].
    destruct (He Hres) as (c & tid & pid & v & Hc & Hu & Hm).
    exists c, tid, pid, v. by rewrite Hmsg.
Qed.

End Quorum.

Import TxnExamples PublishQuorumExamples.
#[local] Existing Instance plain_collaborators.

(** C2, counterexample: transaction 100 is committed on partition 10 at
    version 3 while the partition is visible at version 1.  Of the two
    replicas of tablet 2000 one has published and caught up, the other has
    not finished: one success replica where two are required.  The wait of
    30 s is over, yet the call returns without a verdict and the transaction
    stays COMMITTED, because the partition is not visible at version 2. *)
Lemma finishTransaction_waits_for_version :
  unprotectedGetTransactionState 100 (mgr_of txn_behind) = Some txn_behind
  ∧ healthReplicaNum <$> publish_checks env_pair_ahead db_pair_ahead txn_behind = [1]
  ∧ tc_required <$> publish_checks env_pair_ahead db_pair_ahead txn_behind = [2]
  ∧ (finishTransaction env_pair_ahead 32000 100 (mgr_of txn_behind)).2
    = Returned FinishWaitVersion
  ∧ transactionStatus
      <$> txnObjects (finishTransaction env_pair_ahead 32000 100
                        (mgr_of txn_behind)).1.1 !! 100
    = Some COMMITTED
  ∧ ¬ promoted_after_wait env_pair_ahead 32000 100 (mgr_of txn_behind).
Proof.
  assert (Hchecks : ∃ c, publish_checks env_pair_ahead db_pair_ahead txn_behind = [c]
                         ∧ healthReplicaNum c = 1 ∧ tc_required c = 2).
  { eexists. split; [vm_compute; reflexivity|]. split; reflexivity. }
  destruct Hchecks as (c & Hc & Hhealth & Hreq).
  assert (Hrun : (finishTransaction env_pair_ahead 32000 100 (mgr_of txn_behind)).2
                 = Returned FinishWaitVersion) by (vm_compute; reflexivity).
  split; [vm_compute; reflexivity|].
  split; [rewrite Hc; simpl; by rewrite Hhealth|].
  split; [rewrite Hc; simpl; by rewrite Hreq|].
  split; [exact Hrun|]. split; [vm_compute; reflexivity|].
  intros Hclaim.
  destruct (Hclaim txn_behind db_pair_ahead) as (m' & env' & t' & Hfin & _).
  - vm_compute. reflexivity.
  - reflexivity.
  - reflexivity.
  - rewrite Hc. apply Exists_cons_hd. unfold under_quorum. lia.
  - simpl. lia.
  - simpl. lia.
  - unfold one_succ_each. rewrite Hc. apply Forall_cons; split; [lia|apply Forall_nil_2].
  - rewrite Hfin in Hrun. discriminate.
Qed.

(** One replica of two has published, the wait is 30 s and the first
    publish was 31 s ago: the verdict is TIMEOUT_SUCC and the transaction
    becomes VISIBLE. *)
Lemma finishTransaction_under_quorum_witness :
  ∃ m' env',
    finishTransaction (env_with db_pair) 32000 100 (mgr_of txn_half_published)
    = (m', env', Returned (FinishVisible TIMEOUT_SUCC))
    ∧ transactionStatus <$> txnObjects m' !! 100 = Some VISIBLE.
Proof.
  set (env := env_with db_pair).
  assert (Hget : unprotectedGetTransactionState 100 (mgr_of txn_half_published)
                 = Some txn_half_published) by (vm_compute; reflexivity).
  assert (Hchecks : ∃ c, publish_checks env db_pair txn_half_published = [c]
                         ∧ healthReplicaNum c = 1 ∧ tc_required c = 2).
  { eexists. split; [vm_compute; reflexivity|]. split; reflexivity. }
  destruct Hchecks as (c & Hc & Hhealth & Hreq).
  destruct (finishTransaction_under_quorum env 32000 100 (mgr_of txn_half_published)
              txn_half_published Hget eq_refl) as [_ Hfound].
  destruct (Hfound db_pair eq_refl) as (_ & _ & _ & _ & Hquorum).
  destruct Hquorum as [Hpromoted _].
  { apply Forall_cons. split; [|apply Forall_nil_2].
    intros table Htable. vm_compute in Htable. injection Htable as <-.
    apply Forall_cons. split; [|apply Forall_nil_2].
    intros partition Hpartition. vm_compute in Hpartition. injection Hpartition as <-.
    vm_compute. reflexivity. }
  { apply Forall_cons. split; [by eexists|apply Forall_nil_2]. }
  { rewrite Hc. apply Exists_cons_hd. unfold under_quorum. lia. }
  destruct Hpromoted as (m' & env' & t' & Hrun & Hobj & Hstatus & _).
  { split.
    - unfold publish_wait_over. split; [simpl; lia|]. split; [simpl; lia|].
      vm_compute. discriminate.
    - unfold one_succ_each. rewrite Hc.
      apply Forall_cons; split; [lia|apply Forall_nil_2]. }
  exists m', env'. split; [exact Hrun|].
  change (getTransactionId txn_half_published) with 100 in Hobj.
  by rewrite Hobj, <- Hstatus.
Defined.

End PublishQuorumProofs.

(** ** The commit status check *)

Module CommitStatusProofs.
Import MachineInt MachineIntFacts TxnMgr TxnSpecs CommitWalkSpecs.

Lemma commitReplicaCheck_fold idx tabletId ttb_entry backends : ∀ errs tally errs' tally' thrown,
  foldE (commitReplicaCheck idx tabletId ttb_entry) (errs, tally) backends
  = ((errs', tally'), thrown) →
  let commit := default ∅ ttb_entry in
  match thrown with
  | None =>
      Forall (λ b, is_Some (getReplica idx tabletId b)) backends
      ∧ tally' = tally_app tally
                   {| tabletSuccReplicas := class_lists idx commit tabletId backends Success;
                      tabletWriteFailedReplicas :=
                        class_lists idx commit tabletId backends WriteFailed;
                      tabletVersionFailedReplicas :=
                        class_lists idx commit tabletId backends VersionFailed |}
      ∧ errs' = errs ∪ list_to_set (replica_id <$>
                                      class_lists idx commit tabletId backends WriteFailed)
  | Some e =>
      ∃ pre b post, backends = pre ++ b :: post
           ∧ Forall (λ b', is_Some (getReplica idx tabletId b')) pre
           ∧ getReplica idx tabletId b = None
           ∧ e = TransactionCommitFailedException (ReplicaNotFound tabletId b)
  end.
Proof.
  induction backends as [|b rest IH]; intros errs tally errs' tally' thrown Hrun; simpl in Hrun.
  - injection Hrun as <- <- <-. simpl. split; [done|]. split.
    + destruct tally. unfold tally_app. simpl. by rewrite !app_nil_r.
    + set_solver.
  - unfold commitReplicaCheck at 1 in Hrun.
    destruct (getReplica idx tabletId b) as [r|] eqn:Hr.
    + assert (Hclass : ∀ c, class_lists idx (default ∅ ttb_entry) tabletId (b :: rest) c
                = (if decide (commit_class (default ∅ ttb_entry) b r = c) then [r] else [])
                  ++ class_lists idx (default ∅ ttb_entry) tabletId rest c).
      { intros c. unfold class_lists. simpl. rewrite Hr. simpl. by case_decide. }
      assert (Hmem : (match ttb_entry with
                      | Some backends => bool_decide (b ∈ backends)
                      | None => false
                      end) = bool_decide (b ∈ default ∅ ttb_entry)).
      { destruct ttb_entry; simpl; [done|]. by rewrite bool_decide_eq_false_2 by set_solver. }
      rewrite Hmem in Hrun.
      destruct (bool_decide (b ∈ default ∅ ttb_entry)) eqn:Hb.
      * apply bool_decide_eq_true_1 in Hb.
        destruct (lastFailedVersion r <? 0) eqn:Hlf.
        -- apply Z.ltb_lt in Hlf. simpl in Hrun.
           specialize (IH _ _ _ _ _ Hrun). cbv zeta in *.
           assert (Hc : commit_class (default ∅ ttb_entry) b r = Success).
           { unfold commit_class. by rewrite !decide_True. }
           destruct thrown as [e|].
           ++ destruct IH as (pre & b' & post & -> & Hpre & ?). exists (b :: pre), b', post.
              split; [done|]. split; [constructor; [by rewrite Hr|done]|done].
           ++ destruct IH as (Hall & -> & ->). split; [constructor; [by rewrite Hr|done]|].
              rewrite !Hclass, Hc. simpl. split; [|done].
              destruct tally. unfold tally_app, addSucc. simpl. by rewrite <- app_assoc.
        -- apply Z.ltb_ge in Hlf. simpl in Hrun.
           specialize (IH _ _ _ _ _ Hrun). cbv zeta in *.
           assert (Hc : commit_class (default ∅ ttb_entry) b r = VersionFailed).
           { unfold commit_class. rewrite decide_True by done. rewrite decide_False by lia. done. }
           destruct thrown as [e|].
           ++ destruct IH as (pre & b' & post & -> & Hpre & ?). exists (b :: pre), b', post.
              split; [done|]. split; [constructor; [by rewrite Hr|done]|done].
           ++ destruct IH as (Hall & -> & ->). split; [constructor; [by rewrite Hr|done]|].
              rewrite !Hclass, Hc. simpl. split; [|done].
              destruct tally. unfold tally_app, addVersionFailed. simpl. by rewrite <- app_assoc.
      * apply bool_decide_eq_false_1 in Hb. simpl in Hrun.
        specialize (IH _ _ _ _ _ Hrun). cbv zeta in *.
        assert (Hc : commit_class (default ∅ ttb_entry) b r = WriteFailed).
        { unfold commit_class. by rewrite decide_False. }
        destruct thrown as [e|].
        -- destruct IH as (pre & b' & post & -> & Hpre & ?). exists (b :: pre), b', post.
           split; [done|]. split; [constructor; [by rewrite Hr|done]|done].
        -- destruct IH as (Hall & -> & ->). split; [constructor; [by rewrite Hr|done]|].
           rewrite !Hclass, Hc. simpl. split.
           ++ destruct tally. unfold tally_app, addWriteFailed. simpl. by rewrite <- app_assoc.
           ++ set_solver.
    + injection Hrun as <- <- <-. exists [], b, rest. by repeat split.
Qed.

Section Walk.
Variables (idx : TabletInvertedIndex) (ttb : gmap Z (gset Z)) (transactionId : Z).

Local Abbreviation succ_num := (TxnSpecs.succ_num idx ttb).
Local Abbreviation check_of := (TxnSpecs.check_of idx ttb).
Local Abbreviation write_failed_ids := (TxnSpecs.write_failed_ids idx ttb).
Local Abbreviation walk_rel := (TxnSpecs.walk_rel idx ttb).
Local Abbreviation step_ok := (CommitWalkSpecs.step_ok idx ttb).
Local Abbreviation step_fails := (CommitWalkSpecs.step_fails idx ttb transactionId).
Local Abbreviation first_failure := (CommitWalkSpecs.first_failure idx ttb transactionId).
Local Abbreviation steps_result := (CommitWalkSpecs.steps_result idx ttb transactionId).

Lemma walk_rel_nil st : walk_rel st st [].
Proof.
  split; simpl; [by rewrite app_nil_r| |done].
  unfold TxnSpecs.write_failed_ids. simpl. set_solver.
Qed.

Lemma write_failed_ids_app W1 W2 :
  write_failed_ids (W1 ++ W2) = write_failed_ids W1 ∪ write_failed_ids W2.
Proof. unfold TxnSpecs.write_failed_ids. by rewrite fmap_app, union_list_app_L. Qed.

Lemma walk_rel_app st0 st1 st2 W1 W2 :
  walk_rel st0 st1 W1 → walk_rel st1 st2 W2 → walk_rel st0 st2 (W1 ++ W2).
Proof.
  intros [Hc1 He1 Ho1] [Hc2 He2 Ho2]. split.
  - by rewrite Hc2, Hc1, fmap_app, app_assoc.
  - rewrite He2, He1, write_failed_ids_app. set_solver.
  - by apply Forall_app.
Qed.

Lemma tablets_of_app s1 s2 : tablets_of (s1 ++ s2) = tablets_of s1 ++ tablets_of s2.
Proof. unfold tablets_of. by rewrite omap_app. Qed.

Lemma steps_result_nil st : steps_result st st None [].
Proof. split; [done|]. apply walk_rel_nil. Qed.

(** A step that fails is not one that is passed. *)
Lemma step_fails_not_ok s e : step_fails s e → ¬ step_ok s.
Proof.
  destruct s as [required tablet| |]; simpl; [|by intros _ []..].
  intros [(b & (pre & post & Hsplit & _ & Hnone) & _)|(_ & Hlt & _)] [Hfound Hle].
  - unfold replicas_found in Hfound. simpl in Hfound. rewrite Hsplit in Hfound.
    apply Forall_app in Hfound as [_ Hfound]. apply Forall_cons in Hfound as [[r Hr] _].
    congruence.
  - simpl in Hle. lia.
Qed.

Lemma commitTabletCheck_result required st0 tablet st thrown :
  commitTabletCheck idx transactionId ttb required st0 tablet = (st, thrown) →
  steps_result st0 st thrown [CheckTablet required tablet].
Proof.
  unfold commitTabletCheck. intros Hrun.
  destruct (foldE _ _ (getBackendIds tablet)) as [[errs tally] thrown1] eqn:Hfold.
  pose proof (commitReplicaCheck_fold _ _ _ _ _ _ _ _ _ Hfold) as Hspec. cbv zeta in Hspec.
  destruct thrown1 as [e|].
  - injection Hrun as <- <-. destruct Hspec as (pre & b & post & Hsplit & Hpre & Hnone & ->).
    exists [], (CheckTablet required tablet), []. split; [done|]. split; [done|].
    left. exists b. split; [|done]. by exists pre, post.
  - destruct Hspec as (Hfound & -> & ->).
    assert (Hsucc : Z.of_nat (length (tabletSuccReplicas
                      (tally_app emptyTally
                         {| tabletSuccReplicas :=
                              class_lists idx (default ∅ (ttb !! tablet_id tablet))
                                (tablet_id tablet) (getBackendIds tablet) Success;
                            tabletWriteFailedReplicas :=
                              class_lists idx (default ∅ (ttb !! tablet_id tablet))
                                (tablet_id tablet) (getBackendIds tablet) WriteFailed;
                            tabletVersionFailedReplicas :=
                              class_lists idx (default ∅ (ttb !! tablet_id tablet))
                                (tablet_id tablet) (getBackendIds tablet) VersionFailed |})))
                    = succ_num (required, tablet)) by done.
    rewrite Hsucc in Hrun.
    destruct (succ_num (required, tablet) <? required) eqn:Hlt.
    + apply Z.ltb_lt in Hlt. injection Hrun as <- <-.
      exists [], (CheckTablet required tablet), []. split; [done|]. split; [done|].
      right. done.
    + apply Z.ltb_ge in Hlt. injection Hrun as <- <-.
      assert (Hok : tablet_ok idx ttb (required, tablet)) by (split; done).
      split; [by constructor|]. split; simpl.
      * done.
      * unfold TxnSpecs.write_failed_ids. simpl. set_solver.
      * by constructor.
Qed.

Lemma foldE_steps {B} (f : CommitLoop → B → CommitLoop * option Exception)
    (steps : B → list WalkStep) :
  (∀ st0 b st thrown, f st0 b = (st, thrown) → steps_result st0 st thrown (steps b)) →
  ∀ l st0 st thrown,
    foldE f st0 l = (st, thrown) → steps_result st0 st thrown (concat (steps <$> l)).
Proof.
  intros Hstep. induction l as [|b l IH]; intros st0 st thrown Hrun; simpl in Hrun.
  - injection Hrun as <- <-. apply steps_result_nil.
  - change (concat (steps <$> b :: l)) with (steps b ++ concat (steps <$> l)).
    destruct (f st0 b) as [st1 [e|]] eqn:Hf.
    + injection Hrun as <- <-. apply Hstep in Hf. simpl in *.
      destruct Hf as (pre & s & post & Hsplit & Hpre & Hfail).
      exists pre, s, (post ++ concat (steps <$> l)). split; [|done].
      rewrite Hsplit. by rewrite <- app_assoc.
    + apply Hstep in Hf. apply IH in Hrun. simpl in Hf. destruct Hf as [Hok1 Hrel1].
      destruct thrown as [e|]; simpl in *.
      * destruct Hrun as (pre & s & post & Hsplit & Hpre & Hfail).
        exists (steps b ++ pre), s, post. split; [by rewrite Hsplit, <- app_assoc|].
        split; [by apply Forall_app|done].
      * destruct Hrun as [Hok2 Hrel2]. split; [by apply Forall_app|].
        rewrite tablets_of_app. by eapply walk_rel_app.
Qed.

End Walk.

Lemma steps_result_start idx ttb txn st0 st0' st thrown steps :
  cs_checks st0' = cs_checks st0 →
  cs_errorReplicaIds st0' = cs_errorReplicaIds st0 →
  steps_result idx ttb txn st0' st thrown steps →
  steps_result idx ttb txn st0 st thrown steps.
Proof.
  intros Hc He. destruct thrown as [e|]; simpl; [done|].
  intros [Hok [Hc' He' Ho]]. split; [done|].
  split; [by rewrite Hc', Hc|by rewrite He', He|done].
Qed.

Lemma commitPartitionCheck_result idx t ttb tableId affected table st0 partition st thrown :
  commitPartitionCheck idx t ttb tableId affected table st0 partition = (st, thrown) →
  steps_result idx ttb (getTransactionId t) st0 st thrown
    (steps_of_partition t tableId affected table partition).
Proof.
  unfold commitPartitionCheck, steps_of_partition. intros Hrun.
  destruct (decide (partition_id partition ∉ affected)) as [Hn|Hin].
  - injection Hrun as <- <-. rewrite decide_False by done. apply steps_result_nil.
  - apply dec_stable in Hin. rewrite decide_True by done.
    destruct (allIndicesOf t tableId partition) as [allIndices|].
    + eapply steps_result_start;
        [| |eapply (foldE_steps idx ttb (getTransactionId t)); [|exact Hrun]];
        [done|done|].
      intros st1 index st2 thrown2 Hindex. unfold steps_of_index.
      assert (Hcat : ∀ required (l : list Tablet),
                CheckTablet required <$> l
                = concat ((λ tablet, [CheckTablet required tablet]) <$> l)).
      { intros required l. induction l as [|a l IH]; csimpl; [done|]. by rewrite IH. }
      rewrite Hcat.
      eapply (foldE_steps idx ttb (getTransactionId t)); [|exact Hindex].
      intros st3 tablet st4 thrown4 Htablet. by eapply commitTabletCheck_result.
    + injection Hrun as <- <-. exists [], IndexesUnknown, []. by repeat split.
Qed.

Lemma commitTableCheck_result idx db t maps st0 entry st thrown :
  commitTableCheck idx db t maps st0 entry = (st, thrown) →
  steps_result idx (tabletToBackends maps) (getTransactionId t) st0 st thrown
    (steps_of_table db t entry).
Proof.
  unfold commitTableCheck, steps_of_table. intros Hrun.
  destruct (getTableNullable db entry.1) as [table|].
  - eapply (foldE_steps idx (tabletToBackends maps) (getTransactionId t)); [|exact Hrun].
    intros st1 partition st2 thrown2 Hp. by eapply commitPartitionCheck_result.
  - injection Hrun as <- <-. exists [], TableGone, []. by repeat split.
Qed.

(** The replicas of a class are those that the class rule puts there. *)
Lemma elem_of_replicas_of_class idx commit tablet c r :
  r ∈ replicas_of_class idx commit tablet c ↔
  ∃ b, b ∈ getBackendIds tablet ∧ getReplica idx (tablet_id tablet) b = Some r
       ∧ commit_class commit b r = c.
Proof.
  unfold replicas_of_class. rewrite list_elem_of_omap. split.
  - intros (b & Hb & Hr). exists b. split; [done|].
    destruct (getReplica idx (tablet_id tablet) b) as [r'|]; simpl in Hr; [|done].
    case_decide; [|done]. by injection Hr as <-.
  - intros (b & Hb & Hr & Hc). exists b. split; [done|].
    rewrite Hr. simpl. by rewrite decide_True.
Qed.

Lemma collectCommitInfo_step idx idToTable maps info maps' :
  collectCommitInfo idx idToTable maps info = (maps', None) →
  (∀ tabletId b,
     b ∈ default ∅ (tabletToBackends maps' !! tabletId) ↔
     b ∈ default ∅ (tabletToBackends maps !! tabletId)
     ∨ reported_backend idx idToTable [info] tabletId b)
  ∧ (∀ tableId pid,
       pid ∈ default ∅ (tableToPartition maps' !! tableId) ↔
       pid ∈ default ∅ (tableToPartition maps !! tableId)
       ∨ affected_partition idx idToTable [info] tableId pid).
Proof.
  unfold collectCommitInfo. intros Hrun.
  assert (Hskip : (∀ tableId pid, ¬ accepted idx idToTable info tableId pid) →
            maps' = maps →
            (∀ tabletId b,
               b ∈ default ∅ (tabletToBackends maps' !! tabletId) ↔
               b ∈ default ∅ (tabletToBackends maps !! tabletId)
               ∨ reported_backend idx idToTable [info] tabletId b)
            ∧ (∀ tableId pid,
                 pid ∈ default ∅ (tableToPartition maps' !! tableId) ↔
                 pid ∈ default ∅ (tableToPartition maps !! tableId)
                 ∨ affected_partition idx idToTable [info] tableId pid)).
  { intros Hno ->. split.
    - intros tabletId b. split; [by left|]. intros [?|(i & tid & pid & Hi & _ & _ & Hacc)]; [done|].
      apply list_elem_of_singleton in Hi as ->. by destruct (Hno tid pid).
    - intros tableId pid. split; [by left|]. intros [?|(i & Hi & Hacc)]; [done|].
      apply list_elem_of_singleton in Hi as ->. by destruct (Hno tableId pid). }
  destruct (tabletMetaMap idx !! tci_tabletId info) as [[tid pid]|] eqn:Hmeta.
  2: { injection Hrun as <-. apply Hskip; [|done]. intros ? ? (tbl & ? & _). congruence. }
  simpl in Hrun.
  destruct (idToTable !! tid) as [tbl|] eqn:Htbl.
  2: { injection Hrun as <-. apply Hskip; [|done].
       intros ? ? (tbl & Hm & Ht & _). rewrite Hmeta in Hm. injection Hm as <- <-. congruence. }
  case_decide as Hstate; [done|].
  destruct (getPartition tbl pid) as [partition|] eqn:Hp.
  2: { injection Hrun as <-. apply Hskip; [|done].
       intros ? ? (tbl' & Hm & Ht & [p' Hp']). rewrite Hmeta in Hm. injection Hm as <- <-.
       rewrite Htbl in Ht. injection Ht as <-. congruence. }
  injection Hrun as <-. simpl.
  assert (Hacc : accepted idx idToTable info tid pid).
  { exists tbl. split; [done|]. split; [done|]. by exists partition. }
  assert (Hinv : ∀ tid' pid', accepted idx idToTable info tid' pid' → tid' = tid ∧ pid' = pid).
  { intros tid' pid' (tbl' & Hm & _). rewrite Hmeta in Hm. by injection Hm as <- <-. }
  split.
  - intros tabletId b. destruct (decide (tabletId = tci_tabletId info)) as [->|Hne].
    + rewrite lookup_insert_eq. simpl. rewrite elem_of_union, elem_of_singleton. split.
      * intros [?| ->]; [by left|]. right. exists info, tid, pid.
        split; [apply list_elem_of_here|done].
      * intros [?|(i & tid' & pid' & Hi & _ & Hb & _)]; [by left|].
        apply list_elem_of_singleton in Hi as ->. by right.
    + rewrite lookup_insert_ne by done. split; [by left|].
      intros [?|(i & tid' & pid' & Hi & Ht & _)]; [done|].
      apply list_elem_of_singleton in Hi as ->. done.
  - intros tableId partitionId. destruct (decide (tableId = tid)) as [->|Hne].
    + rewrite lookup_insert_eq. simpl. rewrite elem_of_union, elem_of_singleton. split.
      * intros [?| ->]; [by left|]. right. exists info. split; [apply list_elem_of_here|done].
      * intros [?|(i & Hi & Ha)]; [by left|].
        apply list_elem_of_singleton in Hi as ->. right. by destruct (Hinv _ _ Ha).
    + rewrite lookup_insert_ne by done. split; [by left|].
      intros [?|(i & Hi & Ha)]; [done|].
      apply list_elem_of_singleton in Hi as ->. by destruct (Hinv _ _ Ha).
Qed.

Lemma collectCommitInfo_maps idx idToTable infos : ∀ maps0 maps,
  foldE (collectCommitInfo idx idToTable) maps0 infos = (maps, None) →
  (∀ tabletId b,
     b ∈ default ∅ (tabletToBackends maps !! tabletId) ↔
     b ∈ default ∅ (tabletToBackends maps0 !! tabletId)
     ∨ reported_backend idx idToTable infos tabletId b)
  ∧ (∀ tableId pid,
       pid ∈ default ∅ (tableToPartition maps !! tableId) ↔
       pid ∈ default ∅ (tableToPartition maps0 !! tableId)
       ∨ affected_partition idx idToTable infos tableId pid).
Proof.
  induction infos as [|info infos IH]; intros maps0 maps Hrun; simpl in Hrun.
  - injection Hrun as <-. split.
    + intros tabletId b. split; [by left|].
      intros [?|(i & ? & ? & Hi & _)]; [done|]. by apply elem_of_nil in Hi.
    + intros tableId pid. split; [by left|].
      intros [?|(i & Hi & _)]; [done|]. by apply elem_of_nil in Hi.
  - destruct (collectCommitInfo idx idToTable maps0 info) as [maps1 [e|]] eqn:Hstep; [done|].
    destruct (collectCommitInfo_step _ _ _ _ _ Hstep) as [Hb1 Hp1].
    destruct (IH _ _ Hrun) as [Hb Hp]. split.
    + intros tabletId b. rewrite Hb, Hb1. unfold reported_backend. split.
      * intros [[?|(i & tid & pid & Hi & ?)]|(i & tid & pid & Hi & ?)]; [by left| |].
        -- right. exists i, tid, pid. apply list_elem_of_singleton in Hi as ->.
           split; [apply list_elem_of_here|done].
        -- right. exists i, tid, pid. split; [by apply list_elem_of_further|done].
      * intros [?|(i & tid & pid & Hi & ?)]; [by left; left|].
        apply elem_of_cons in Hi as [->|Hi].
        -- left. right. exists info, tid, pid. split; [apply list_elem_of_here|done].
        -- right. by exists i, tid, pid.
    + intros tableId pid. rewrite Hp, Hp1. unfold affected_partition. split.
      * intros [[?|(i & Hi & ?)]|(i & Hi & ?)]; [by left| |].
        -- right. exists i. apply list_elem_of_singleton in Hi as ->.
           split; [apply list_elem_of_here|done].
        -- right. exists i. split; [by apply list_elem_of_further|done].
      * intros [?|(i & Hi & ?)]; [by left; left|].
        apply elem_of_cons in Hi as [->|Hi].
        -- left. right. exists info. split; [apply list_elem_of_here|done].
        -- right. by exists i.
Qed.

(** The first loop throws exactly when a report refers to a table under
    restore, and then LoadException. *)
Lemma collectCommitInfo_throws idx idToTable maps info :
  (restore_info idx idToTable info
   ∧ collectCommitInfo idx idToTable maps info = (maps, Some LoadException))
  ∨ (¬ restore_info idx idToTable info
     ∧ ∃ maps', collectCommitInfo idx idToTable maps info = (maps', None)).
Proof.
  unfold collectCommitInfo, restore_info.
  destruct (tabletMetaMap idx !! tci_tabletId info) as [tabletMeta|] eqn:Hm;
    [|right; split; [by intros (? & ? & ? & _)|by eexists]].
  destruct (idToTable !! tm_tableId tabletMeta) as [tbl|] eqn:Ht;
    [|right; split; [intros (? & ? & [= <-] & ? & _); congruence|by eexists]].
  destruct (decide (table_state tbl = TABLE_RESTORE)) as [Hs|Hs].
  - left. split; [by exists tabletMeta, tbl|done].
  - right. split.
    + intros (? & ? & [= <-] & ? & ?). congruence.
    + destruct (getPartition tbl (tm_partitionId tabletMeta)); by eexists.
Qed.

Lemma collectCommitInfo_restore idx idToTable infos : ∀ maps0,
  (restore_referenced idx idToTable infos →
     (foldE (collectCommitInfo idx idToTable) maps0 infos).2 = Some LoadException)
  ∧ (¬ restore_referenced idx idToTable infos →
       (foldE (collectCommitInfo idx idToTable) maps0 infos).2 = None).
Proof.
  unfold restore_referenced.
  induction infos as [|info infos IH]; intros maps0; simpl.
  - split; [by intros ?%Exists_nil|done].
  - destruct (collectCommitInfo_throws idx idToTable maps0 info)
      as [[Hr ->]|[Hr [maps' ->]]]; simpl.
    + split; [done|]. intros Hn. exfalso. apply Hn. by left.
    + destruct (IH maps') as [IH1 IH2]. split.
      * intros [?|?]%Exists_cons; [done|by apply IH1].
      * intros Hn. apply IH2. intros ?. apply Hn. by right.
Qed.


Import TxnExamples TxnExamplesMore CommitExamples.



End CommitStatusProofs.

(** ** Begin with a label in use *)

Module BeginLabelProofs.
Import MachineInt MachineIntFacts TxnMgr TxnSpecs.

Section Begin.
Context `{Collaborators}.

(** C6, as amended: [beginTransaction] with a label under which exactly one
    transaction that is not aborted is filed, when the checks that come
    before the label lookup pass (the database is there and the caller may
    use it, the data quota is not used up, coordinator and label are given,
    the label is well formed).  A retry gets DuplicatedRequestException with
    the id of the transaction found; every other call gets
    LabelAlreadyUsedException.  No transaction is created: the manager is as
    before, but for the cache of the used quota. *)
Theorem beginTransaction_label_in_use
    (env : Env) (now : Z) (tableIdList : list Z) (lbl : string)
    (requestId : option TUniqueId) (coordinator : TxnCoordinator)
    (sourceType : LoadJobSourceType) (listenerId timeoutSecond : Z) (m : Mgr)
    (db : Database) (existingTxnIds : gset Z) (found : TransactionState) :
  idToDb env !! mgr_dbId m = Some db →
  db_access_ok db = true →
  (checkDatabaseDataQuota db m).2 = true →
  checkLabel lbl = true →
  unprotectedGetTxnIdsByLabel lbl m = Some existingTxnIds →
  notAbortedTxnsOf existingTxnIds m = Some [found] →
  let r := beginTransaction env now tableIdList (Some lbl) requestId (Some coordinator)
             sourceType listenerId timeoutSecond m in
  (is_retry requestId found →
     ∃ req, requestId = Some req
            ∧ r.2 = Thrown (DuplicatedRequestException req (getTransactionId found)))
  ∧ (¬ is_retry requestId found →
     r.2 = Thrown (LabelAlreadyUsedException (getTransactionId found)))
  ∧ (r.1 = m ∨ same_but_quota_cache m r.1)
  ∧ txnObjects r.1 = txnObjects m
  ∧ idToRunningTransactionState r.1 = idToRunningTransactionState m
  ∧ idToFinalStatusTransactionState r.1 = idToFinalStatusTransactionState m
  ∧ finalStatusTransactionStateDequeShort r.1 = finalStatusTransactionStateDequeShort m
  ∧ finalStatusTransactionStateDequeLong r.1 = finalStatusTransactionStateDequeLong m
  ∧ labelToTxnIds r.1 = labelToTxnIds m
  ∧ runningTxnNums r.1 = runningTxnNums m
  ∧ idGenerator r.1 = idGenerator m
  ∧ editLog r.1 = editLog m.
Proof.
  intros Hdb Hacc Hquota Hlabel Hids Hscan. cbv zeta.
  unfold beginTransaction. rewrite Hdb, Hacc. cbn [negb].
  assert (Hm1 : ∃ m1, checkDatabaseDataQuota db m = (m1, true)
                ∧ (m1 = m ∨ same_but_quota_cache m m1)
                ∧ unprotectedGetTxnIdsByLabel lbl m1 = Some existingTxnIds
                ∧ notAbortedTxnsOf existingTxnIds m1 = Some [found]).
  { revert Hquota. unfold checkDatabaseDataQuota. case_decide; simpl; intros ->.
    - eexists. split; [done|]. split; [right; by eexists|]. done.
    - eexists. split; [done|]. split; [by left|]. done. }
  destruct Hm1 as (m1 & -> & Hsame & Hids1 & Hscan1). cbn [negb].
  rewrite Hlabel. cbn [negb]. rewrite Hids1.
  assert (Hne : existingTxnIds ≠ ∅).
  { intros ->. unfold notAbortedTxnsOf in Hscan1. rewrite elements_empty in Hscan1.
    done. }
  rewrite decide_False by done. rewrite Hscan1.
  assert (Hframe : txnObjects m1 = txnObjects m
    ∧ idToRunningTransactionState m1 = idToRunningTransactionState m
    ∧ idToFinalStatusTransactionState m1 = idToFinalStatusTransactionState m
    ∧ finalStatusTransactionStateDequeShort m1 = finalStatusTransactionStateDequeShort m
    ∧ finalStatusTransactionStateDequeLong m1 = finalStatusTransactionStateDequeLong m
    ∧ labelToTxnIds m1 = labelToTxnIds m
    ∧ runningTxnNums m1 = runningTxnNums m
    ∧ idGenerator m1 = idGenerator m
    ∧ editLog m1 = editLog m).
  { destruct Hsame as [->|[v ->]]; by repeat split. }
  destruct requestId as [req|]; [destruct (getRequestId found) as [req'|] eqn:Hreq|].
  - destruct (decide (req' = req)) as [->|Hd].
    + destruct (decide (transactionStatus found = PREPARE
                        ∨ transactionStatus found = PRECOMMITTED)) as [Hs|Hs].
      * assert ((bool_decide (transactionStatus found = PREPARE)
                 || bool_decide (transactionStatus found = PRECOMMITTED))
                && bool_decide (req = req) = true) as ->.
        { rewrite (bool_decide_eq_true_2 (req = req)) by done.
          destruct Hs as [Hs|Hs]; rewrite Hs; done. }
        simpl. split; [intros _; by exists req|]. split; [|done].
        intros Hn. exfalso. apply Hn. split; [done|]. by exists req.
      * assert ((bool_decide (transactionStatus found = PREPARE)
                 || bool_decide (transactionStatus found = PRECOMMITTED))
                && bool_decide (req = req) = false) as ->.
        { rewrite (bool_decide_eq_false_2 (transactionStatus found = PREPARE)) by tauto.
          by rewrite (bool_decide_eq_false_2 (transactionStatus found = PRECOMMITTED))
            by tauto. }
        simpl. split; [by intros [? _]|]. by split.
    + rewrite (bool_decide_eq_false_2 (req' = req)) by done.
      rewrite andb_false_r. simpl.
      split; [intros (_ & r0 & [= <-] & Hr); rewrite Hreq in Hr; by injection Hr|].
      by split.
  - simpl. split; [intros (_ & r0 & _ & Hr); by rewrite Hreq in Hr|]. by split.
  - simpl. split; [intros (_ & r0 & ? & _); done|]. by split.
Qed.

End Begin.

Import TxnExamples TxnExamplesMore.
#[local] Existing Instance plain_collaborators.

(** C6, counterexample: transaction 100 of label L1 is PREPARE and the
    request that began it asks again.  With the database dropped the call
    throws MetaNotFoundException, with the database closed to the caller
    AnalysisException, with the data quota used up QuotaExceedException and
    without a coordinator NullPointerException: the checks that come before
    the label lookup decide, and the caller gets neither the id of the
    transaction nor a label-already-used error.  And when two transactions of
    the label are not aborted the lookup itself fails its assertion. *)
Lemma beginTransaction_guards_before_label :
  (∃ found, notAbortedTxnsOf {[100]} mgr_begun = Some [found]
            ∧ unprotectedGetTxnIdsByLabel "L1" mgr_begun = Some {[100]}
            ∧ is_retry (Some req1) found)
  ∧ (beginTransaction env_dropped 15 [1] (Some "L1") (Some req1) (Some coord) BACKEND 0 60
       mgr_begun).2 = Thrown MetaNotFoundException
  ∧ (beginTransaction env_no_access 15 [1] (Some "L1") (Some req1) (Some coord) BACKEND 0 60
       mgr_begun).2 = Thrown AnalysisException
  ∧ (beginTransaction env_quota_used_up 15 [1] (Some "L1") (Some req1) (Some coord) BACKEND
       0 60 mgr_begun).2 = Thrown QuotaExceedException
  ∧ (beginTransaction env0 15 [1] (Some "L1") (Some req1) None BACKEND 0 60
       mgr_begun).2 = Thrown NullPointerException
  ∧ (beginTransaction env0 50 [1] (Some "L1") (Some req2) (Some coord) BACKEND 0 60
       mgr_aborted_finished).2 = Thrown IllegalStateException.
Proof.
  split.
  { eexists. split; [vm_compute; reflexivity|]. split; [vm_compute; reflexivity|].
    split; [by left|]. by exists req1. }
  repeat split; vm_compute; reflexivity.
Qed.

(** The retry of the request that began transaction 100 gets its id
    back. *)
Lemma beginTransaction_label_in_use_witness :
  (beginTransaction env0 15 [1] (Some "L1"%string) (Some req1) (Some coord) BACKEND 0 60
     mgr_begun).2
  = Thrown (DuplicatedRequestException req1 100).
Proof.
  assert (Hfound : ∃ found, notAbortedTxnsOf {[100]} mgr_begun = Some [found]
                            ∧ getTransactionId found = 100
                            ∧ is_retry (Some req1) found).
  { eexists. split; [vm_compute; reflexivity|]. split; [reflexivity|].
    split; [by left|]. by exists req1. }
  destruct Hfound as (found & Hscan & Hid & Hretry).
  destruct (beginTransaction_label_in_use (H := plain_collaborators) env0 15 [1] "L1"%string (Some req1) coord
              BACKEND 0 60 mgr_begun (db_with ∅) {[100]} found
              eq_refl eq_refl eq_refl eq_refl eq_refl Hscan) as (Hdup & _).
  destruct (Hdup Hretry) as (req & Hreq & Hthrown).
  injection Hreq as <-. rewrite Hthrown. by rewrite Hid.
Defined.

End BeginLabelProofs.

(** ** Commit of a transaction that is committed already, aborted or
    unknown *)

Module CommitGuardProofs.
Import MachineInt MachineIntFacts TxnMgr TxnSpecs.

Section Guard.
Context `{Collaborators}.

(** C10, as amended: [commitTransaction] looks for the database first.
    When the database is gone the call throws MetaNotFoundException,
    whatever the transaction.  When it is there: on a transaction that is
    COMMITTED or VISIBLE the one-phase call returns and the two-phase call
    throws TransactionCommitFailedException; on an id that is not tracked
    and on an ABORTED transaction both throw
    TransactionCommitFailedException.  In every one of these cases the
    manager and the catalog are left as they were. *)
Theorem commitTransaction_status_guard
    (env : Env) (now : Z) (tableList : list OlapTable) (transactionId : Z)
    (tabletCommitInfos : list TabletCommitInfo) (attachment : option TxnCommitAttachment)
    (is2PC : bool) (m : Mgr) :
  let r := commitTransaction env now tableList transactionId tabletCommitInfos
             attachment is2PC m in
  (idToDb env !! mgr_dbId m = None → r = (m, env, Thrown MetaNotFoundException))
  ∧ (is_Some (idToDb env !! mgr_dbId m) →
     (∀ t, unprotectedGetTransactionState transactionId m = Some t →
           transactionStatus t = COMMITTED ∨ transactionStatus t = VISIBLE →
           r.1 = (m, env)
           ∧ (is2PC = false → r.2 = Returned ())
           ∧ (is2PC = true → commit_failed r.2))
     ∧ (unprotectedGetTransactionState transactionId m = None →
        r.1 = (m, env) ∧ commit_failed r.2)
     ∧ (∀ t, unprotectedGetTransactionState transactionId m = Some t →
             transactionStatus t = ABORTED →
             r.1 = (m, env) ∧ commit_failed r.2)).
Proof.
  cbv zeta. unfold commitTransaction, commit_failed. split.
  { by intros ->. }
  intros [db Hdb]. rewrite Hdb.
  split; [|split].
  - intros t -> [Hs|Hs]; rewrite Hs; destruct is2PC; simpl;
      (split; [done|]); (split; [done|]); first [done|intros _; by eexists].
  - intros ->. split; [done|]. by eexists.
  - intros t -> ->. split; [done|]. by eexists.
Qed.

End Guard.

Import TxnExamples TxnExamplesMore.
#[local] Existing Instance plain_collaborators.

(** C10, counterexample: database 1 has been dropped.  The one-phase commit
    of transaction 100, which is COMMITTED, does not return but throws
    MetaNotFoundException; and the commit of the unknown id 7 throws
    MetaNotFoundException too, not TransactionCommitFailedException. *)
Lemma commitTransaction_dropped_database :
  unprotectedGetTransactionState 100 (mgr_of txn_half_published) = Some txn_half_published
  ∧ transactionStatus txn_half_published = COMMITTED
  ∧ (commitTransaction env_dropped 50 [] 100 [] None false (mgr_of txn_half_published)).2
    = Thrown MetaNotFoundException
  ∧ (commitTransaction env_dropped 50 [] 100 [] None false (mgr_of txn_half_published)).2
    ≠ Returned ()
  ∧ unprotectedGetTransactionState 7 (mgr_of txn_half_published) = None
  ∧ (commitTransaction env_dropped 50 [] 7 [] None false (mgr_of txn_half_published)).2
    = Thrown MetaNotFoundException
  ∧ ¬ commit_failed
        (commitTransaction env_dropped 50 [] 7 [] None false (mgr_of txn_half_published)).2.
Proof.
  assert (H100 : (commitTransaction env_dropped 50 [] 100 [] None false
                    (mgr_of txn_half_published)).2 = Thrown MetaNotFoundException)
    by (vm_compute; reflexivity).
  assert (H7 : (commitTransaction env_dropped 50 [] 7 [] None false
                  (mgr_of txn_half_published)).2 = Thrown MetaNotFoundException)
    by (vm_compute; reflexivity).
  split; [vm_compute; reflexivity|]. split; [reflexivity|].
  split; [exact H100|]. split; [by rewrite H100|].
  split; [vm_compute; reflexivity|]. split; [exact H7|].
  rewrite H7. by intros [why Hwhy].
Qed.

(** Transaction 100 is committed already: a second one-phase commit returns
    and changes nothing. *)
Lemma commitTransaction_status_guard_witness :
  commitTransaction (env_with db_pair) 50 [] 100 [] None false (mgr_of txn_half_published)
  = (mgr_of txn_half_published, env_with db_pair, Returned ()).
Proof.
  destruct (commitTransaction_status_guard (H := plain_collaborators) (env_with db_pair) 50 [] 100
              [] None false (mgr_of txn_half_published)) as (_ & Hthere).
  destruct Hthere as (Hdone & _); [by eexists|].
  destruct (Hdone txn_half_published) as (Hsame & Hret & _);
    [vm_compute; reflexivity|by left|].
  specialize (Hret eq_refl).
  destruct (commitTransaction _ _ _ _ _ _ _ _) as [[m' env'] o]. simpl in *.
  by rewrite Hret, Hsame.
Defined.

End CommitGuardProofs.

(** ** Label uniqueness *)

Module LabelUniquenessProofs.
Import MachineInt MachineIntFacts TxnMgr TxnSpecs.

Lemma touched_refl t : touched t t.
Proof. by split. Qed.

Lemma touched_trans t1 t2 t3 : touched t1 t2 → touched t2 t3 → touched t1 t3.
Proof. intros [? ?] [? ?]. split; congruence. Qed.

Lemma touched_in_place t t' : touched t t' → in_place t t'.
Proof. intros [? Hs]. split; [done|]. rewrite Hs. by split. Qed.

Lemma in_place_advance t t' : in_place t t' → advance t t'.
Proof. intros (? & Hf & ?). split; [done|]. split; [|done]. by rewrite Hf. Qed.

Lemma in_place_trans t1 t2 t3 : in_place t1 t2 → in_place t2 t3 → in_place t1 t3.
Proof. intros (? & ? & ?) (? & ? & ?). split; [congruence|]. split; [congruence|auto]. Qed.

Lemma advance_trans t1 t2 t3 : advance t1 t2 → advance t2 t3 → advance t1 t3.
Proof. intros (? & ? & ?) (? & ? & ?). split; [congruence|]. split; auto. Qed.

Lemma holds_inv m id t : holds m id t → mgr_inv m.
Proof. by intros [? _]. Qed.

Lemma holds_id m id t : holds m id t → getTransactionId t = id.
Proof. intros (Hinv & _ & Hobj). by apply (inv_objects _ Hinv). Qed.

Lemma id_of_header t t' : header t' = header t → getTransactionId t' = getTransactionId t.
Proof. unfold getTransactionId. by intros ->. Qed.

Lemma label_of_header t t' : header t' = header t → getLabel t' = getLabel t.
Proof. unfold getLabel. by intros ->. Qed.

Lemma unprotectedGet_tracked m id t :
  unprotectedGetTransactionState id m = Some t →
  is_tracked m id ∧ txnObjects m !! id = Some t.
Proof.
  unfold unprotectedGetTransactionState, is_tracked. intros Hget.
  repeat case_decide; try done; tauto.
Qed.

Lemma tracked_unprotectedGet m id t :
  is_tracked m id → txnObjects m !! id = Some t →
  unprotectedGetTransactionState id m = Some t.
Proof.
  unfold unprotectedGetTransactionState, is_tracked. intros Htr Hobj.
  repeat case_decide; try done; tauto.
Qed.

Lemma unprotectedGet_holds m id t :
  mgr_inv m → unprotectedGetTransactionState id m = Some t → holds m id t.
Proof. intros Hinv Hget. apply unprotectedGet_tracked in Hget as [? ?]. by split. Qed.

(** Objects rewritten at one key: what the other lemmas need of the old
    object behind a new one. *)
Lemma lookup_rewritten (objs : gmap Z TransactionState) id t t' i ti :
  objs !! id = Some t → header t' = header t →
  (transactionStatus t' ≠ ABORTED → transactionStatus t ≠ ABORTED) →
  <[id := t']> objs !! i = Some ti →
  ∃ ti0, objs !! i = Some ti0 ∧ header ti = header ti0
         ∧ (transactionStatus ti ≠ ABORTED → transactionStatus ti0 ≠ ABORTED)
         ∧ (i ≠ id → ti = ti0) ∧ (i = id → ti = t').
Proof.
  intros Hobj Hhdr Hab. destruct (decide (i = id)) as [->|Hne].
  - rewrite lookup_insert_eq. intros [= <-]. by exists t.
  - rewrite lookup_insert_ne by done. intros Hi. by exists ti.
Qed.

Lemma store_holds m id t t' :
  holds m id t → in_place t t' → holds (storeTxn t' m) id t'.
Proof.
  intros Hh (Hhdr & Hfin & Hab). pose proof (holds_id _ _ _ Hh) as Hid.
  destruct Hh as ([Ht Ho Hr Hf Hu] & Htr & Hobj).
  assert (Hid' : getTransactionId t' = id) by (by rewrite (id_of_header _ _ Hhdr)).
  assert (Eo : txnObjects (storeTxn t' m) = <[id := t']> (txnObjects m))
    by (unfold storeTxn; simpl; by rewrite Hid').
  split; [|split; [done|by rewrite Eo, lookup_insert_eq]].
  split.
  - intros id0 Htr0. destruct (Ht id0 Htr0) as (t0 & ids & Hobj0 & Hl & Hin).
    rewrite Eo. change (labelToTxnIds (storeTxn t' m)) with (labelToTxnIds m).
    destruct (decide (id0 = id)) as [->|Hne].
    + rewrite lookup_insert_eq. exists t', ids. rewrite (label_of_header _ _ Hhdr).
      rewrite Hobj in Hobj0. injection Hobj0 as <-. done.
    + rewrite lookup_insert_ne by done. by exists t0, ids.
  - intros id0 t0. rewrite Eo. intros Hl.
    destruct (lookup_rewritten _ _ _ _ _ _ Hobj Hhdr Hab Hl) as (t00 & Ho0 & Hh0 & _).
    rewrite (id_of_header _ _ Hh0). by apply Ho.
  - intros id0 t0 Hin. rewrite Eo. intros Hl.
    destruct (lookup_rewritten _ _ _ _ _ _ Hobj Hhdr Hab Hl) as (t00 & Ho0 & _ & _ & Hne & Heq).
    destruct (decide (id0 = id)) as [->|Hn].
    + rewrite (Heq eq_refl), Hfin. by apply (Hr id).
    + rewrite (Hne Hn). by apply (Hr id0).
  - intros id0 t0 Hin. rewrite Eo. intros Hl.
    destruct (lookup_rewritten _ _ _ _ _ _ Hobj Hhdr Hab Hl) as (t00 & Ho0 & _ & _ & Hne & Heq).
    destruct (decide (id0 = id)) as [->|Hn].
    + rewrite (Heq eq_refl), Hfin. by apply (Hf id).
    + rewrite (Hne Hn). by apply (Hf id0).
  - intros id1 id2 t1 t2 [Htr1 Ho1] [Htr2 Ho2] Hl Hn1 Hn2.
    rewrite Eo in Ho1, Ho2.
    destruct (lookup_rewritten _ _ _ _ _ _ Hobj Hhdr Hab Ho1) as (t10 & Ho10 & Hh1 & Ha1 & _).
    destruct (lookup_rewritten _ _ _ _ _ _ Hobj Hhdr Hab Ho2) as (t20 & Ho20 & Hh2 & Ha2 & _).
    apply (Hu id1 id2 t10 t20); try done; [|auto|auto].
    rewrite <- (label_of_header _ _ Hh1), <- (label_of_header _ _ Hh2). done.
Qed.

Section Steps.
Context `{Collaborators}.

Lemma upsert_fields t b m :
  let m' := unprotectUpsertTransactionState t b m in
  txnObjects m' = <[getTransactionId t := t]> (txnObjects m)
  ∧ labelToTxnIds m' = updateTxnLabels t (labelToTxnIds m)
  ∧ idGenerator m' = idGenerator m
  ∧ (if isFinalStatus (transactionStatus t)
     then idToRunningTransactionState m'
            = idToRunningTransactionState m ∖ {[getTransactionId t]}
          ∧ idToFinalStatusTransactionState m'
            = idToFinalStatusTransactionState m ∪ {[getTransactionId t]}
     else idToRunningTransactionState m'
            = idToRunningTransactionState m ∪ {[getTransactionId t]}
          ∧ idToFinalStatusTransactionState m' = idToFinalStatusTransactionState m).
Proof.
  unfold unprotectUpsertTransactionState.
  destruct (isFinalStatus (transactionStatus t)); simpl; done.
Qed.

Lemma updateTxnLabels_lookup t labels l :
  updateTxnLabels t labels !! l
  = if decide (l = getLabel t)
    then Some (default ∅ (labels !! getLabel t) ∪ {[getTransactionId t]})
    else labels !! l.
Proof.
  unfold updateTxnLabels. case_decide as Hl.
  - subst. by rewrite lookup_insert_eq.
  - by rewrite lookup_insert_ne.
Qed.

Lemma upsert_holds m id t t' b :
  holds m id t → advance t t' →
  holds (unprotectUpsertTransactionState t' b m) id t'.
Proof.
  intros Hh (Hhdr & Hfin & Hab). pose proof (holds_id _ _ _ Hh) as Hid.
  destruct Hh as ([Ht Ho Hr Hf Hu] & Htr & Hobj).
  assert (Hid' : getTransactionId t' = id) by (by rewrite (id_of_header _ _ Hhdr)).
  destruct (upsert_fields t' b m) as (Eo & El & Eg & Es). rewrite Hid' in Eo, Es.
  set (m' := unprotectUpsertTransactionState t' b m) in *.
  assert (Htr' : ∀ i, is_tracked m' i ↔ is_tracked m i).
  { intros i. unfold is_tracked.
    destruct (isFinalStatus (transactionStatus t')) eqn:Ef; destruct Es as [-> ->].
    - destruct (decide (i = id)) as [->|Hn]; [|set_solver].
      split; [intros _; exact Htr|set_solver].
    - destruct (decide (i = id)) as [->|Hn]; [|set_solver].
      split; [intros _; exact Htr|set_solver]. }
  split; [|split; [by apply Htr'|by rewrite Eo, lookup_insert_eq]].
  split.
  - intros i Hi. apply Htr' in Hi. destruct (Ht i Hi) as (t0 & ids & Hobj0 & Hl & Hin).
    rewrite Eo, El. destruct (decide (i = id)) as [->|Hne].
    + rewrite lookup_insert_eq. eexists t', _. split; [done|].
      rewrite updateTxnLabels_lookup, decide_True by done. split; [done|]. set_solver.
    + rewrite lookup_insert_ne by done.
      destruct (decide (getLabel t0 = getLabel t')) as [Hlab|Hlab].
      * eexists t0, _. split; [done|].
        rewrite updateTxnLabels_lookup, decide_True by done. split; [done|].
        rewrite <- Hlab, Hl. simpl. set_solver.
      * exists t0, ids. split; [done|].
        by rewrite updateTxnLabels_lookup, decide_False.
  - intros i ti. rewrite Eo, Eg. intros Hl.
    destruct (lookup_rewritten _ _ _ _ _ _ Hobj Hhdr Hab Hl) as (t00 & Ho0 & Hh0 & _).
    rewrite (id_of_header _ _ Hh0). by apply Ho.
  - intros i ti Hin. rewrite Eo. intros Hl.
    destruct (lookup_rewritten _ _ _ _ _ _ Hobj Hhdr Hab Hl) as (t00 & Ho0 & _ & _ & Hne & Heq).
    destruct (isFinalStatus (transactionStatus t')) eqn:Ef; destruct Es as [Er Efi];
      rewrite Er in Hin.
    + assert (i ≠ id) as Hn by set_solver. rewrite (Hne Hn). apply (Hr i); [set_solver|done].
    + destruct (decide (i = id)) as [->|Hn]; [by rewrite (Heq eq_refl)|].
      rewrite (Hne Hn). apply (Hr i); [set_solver|done].
  - intros i ti Hin. rewrite Eo. intros Hl.
    destruct (lookup_rewritten _ _ _ _ _ _ Hobj Hhdr Hab Hl) as (t00 & Ho0 & _ & _ & Hne & Heq).
    destruct (isFinalStatus (transactionStatus t')) eqn:Ef; destruct Es as [Er Efi];
      rewrite Efi in Hin.
    + destruct (decide (i = id)) as [->|Hn]; [by rewrite (Heq eq_refl)|].
      rewrite (Hne Hn). apply (Hf i); [set_solver|done].
    + destruct (decide (i = id)) as [->|Hn]; [|rewrite (Hne Hn); by apply (Hf i)].
      pose proof (Hf id t Hin Hobj) as Hfin0. apply Hfin in Hfin0.
      rewrite (Heq eq_refl). congruence.
  - intros id1 id2 t1 t2 [Htr1 Ho1] [Htr2 Ho2] Hl Hn1 Hn2.
    apply Htr' in Htr1, Htr2. rewrite Eo in Ho1, Ho2.
    destruct (lookup_rewritten _ _ _ _ _ _ Hobj Hhdr Hab Ho1) as (t10 & Ho10 & Hh1 & Ha1 & _).
    destruct (lookup_rewritten _ _ _ _ _ _ Hobj Hhdr Hab Ho2) as (t20 & Ho20 & Hh2 & Ha2 & _).
    apply (Hu id1 id2 t10 t20); try done; [|auto|auto].
    rewrite <- (label_of_header _ _ Hh1), <- (label_of_header _ _ Hh2). done.
Qed.

Lemma same_core_inv m m' : same_core m m' → mgr_inv m → mgr_inv m'.
Proof.
  intros (Eo & Er & Ef & El & Eg) [Ht Ho Hr Hf Hu].
  split; unfold is_tracked, label_unique, tracked; rewrite ?Eo, ?Er, ?Ef, ?El; try done.
  intros id t Hl. destruct (Ho id t Hl). split; [done|lia].
Qed.

Lemma same_core_holds m m' id t : same_core m m' → holds m id t → holds m' id t.
Proof.
  intros Hc (Hinv & Htr & Hobj). split; [by eapply same_core_inv|].
  destruct Hc as (Eo & Er & Ef & _). unfold is_tracked. by rewrite Eo, Er, Ef.
Qed.

Lemma same_core_log t m : same_core m (logInsertTransactionState t m).
Proof. by repeat split. Qed.

Lemma same_core_quota v m : same_core m (setUsedQuotaDataBytes v m).
Proof. by repeat split. Qed.

Lemma same_core_deques short long log m : same_core m (setDeques short long log m).
Proof. by repeat split. Qed.

Lemma same_core_generator v m : idGenerator m ≤ v → same_core m (setIdGenerator v m).
Proof. by repeat split. Qed.

Lemma newMgr_inv dbId cfg lastTxnId : mgr_inv (newMgr dbId cfg lastTxnId).
Proof.
  split; unfold is_tracked, label_unique, tracked; simpl; set_solver.
Qed.

(** A new transaction, filed under an id the generator has just made. *)
Lemma upsert_new m t b :
  mgr_inv m →
  idGenerator m < getTransactionId t →
  isFinalStatus (transactionStatus t) = false →
  (∀ id' t', tracked m id' t' → getLabel t' = getLabel t →
             transactionStatus t' = ABORTED) →
  mgr_inv (unprotectUpsertTransactionState t b
             (setIdGenerator (getTransactionId t) m)).
Proof.
  intros [Ht Ho Hr Hf Hu] Hnew Hfin Hscan.
  set (id := getTransactionId t) in *. set (m0 := setIdGenerator id m).
  destruct (upsert_fields t b m0) as (Eo & El & Eg & Es). rewrite Hfin in Es.
  destruct Es as [Er Ef]. simpl in Eo, El, Eg, Er, Ef. fold id in Eo, Er.
  set (m' := unprotectUpsertTransactionState t b m0) in *.
  assert (Hfresh : txnObjects m !! id = None).
  { destruct (txnObjects m !! id) as [t0|] eqn:E; [|done].
    destruct (Ho _ _ E). lia. }
  assert (Hnot : ¬ is_tracked m id).
  { intros Htr. destruct (Ht _ Htr) as (? & ? & ? & _). congruence. }
  assert (Htr' : ∀ i, is_tracked m' i ↔ i = id ∨ is_tracked m i).
  { intros i. unfold is_tracked. rewrite Er, Ef. set_solver. }
  split.
  - intros i Hi. apply Htr' in Hi. rewrite Eo, El. destruct Hi as [->|Hi].
    + rewrite lookup_insert_eq. eexists t, _. split; [done|].
      rewrite updateTxnLabels_lookup, decide_True by done. split; [done|].
      fold id. set_solver.
    + assert (i ≠ id) by (intros ->; done).
      destruct (Ht i Hi) as (t0 & ids & Hobj0 & Hl & Hin).
      rewrite lookup_insert_ne by done.
      destruct (decide (getLabel t0 = getLabel t)) as [Hlab|Hlab].
      * eexists t0, _. split; [done|].
        rewrite updateTxnLabels_lookup, decide_True by done. split; [done|].
        rewrite <- Hlab, Hl. simpl. set_solver.
      * exists t0, ids. split; [done|].
        by rewrite updateTxnLabels_lookup, decide_False.
  - intros i ti. rewrite Eo, Eg. simpl. destruct (decide (i = id)) as [->|Hne].
    + rewrite lookup_insert_eq. intros [= <-]. split; [done|lia].
    + rewrite lookup_insert_ne by done. intros Hl. destruct (Ho _ _ Hl). split; [done|lia].
  - intros i ti. rewrite Er, Eo. intros Hin. destruct (decide (i = id)) as [->|Hne].
    + rewrite lookup_insert_eq. by intros [= <-].
    + rewrite lookup_insert_ne by done. apply Hr. set_solver.
  - intros i ti. rewrite Ef, Eo. intros Hin.
    assert (i ≠ id) by (intros ->; apply Hnot; by right).
    rewrite lookup_insert_ne by done. by apply Hf.
  - assert (Hold : ∀ i ti, tracked m' i ti → i ≠ id → tracked m i ti).
    { intros i ti [Htr Hl] Hne. apply Htr' in Htr. rewrite Eo in Hl.
      rewrite lookup_insert_ne in Hl by done. split; [|done]. by destruct Htr. }
    assert (Hnew' : ∀ ti, tracked m' id ti → ti = t).
    { intros ti [_ Hl]. rewrite Eo, lookup_insert_eq in Hl. congruence. }
    intros id1 id2 t1 t2 Htr1 Htr2 Hl Hn1 Hn2.
    destruct (decide (id1 = id)) as [->|Hne1]; destruct (decide (id2 = id)) as [->|Hne2];
      try done.
    + apply Hnew' in Htr1 as ->. apply Hold in Htr2; [|done].
      exfalso. apply Hn2. by apply (Hscan id2).
    + apply Hnew' in Htr2 as ->. apply Hold in Htr1; [|done].
      exfalso. apply Hn1. by apply (Hscan id1).
    + apply (Hu id1 id2 t1 t2); auto.
Qed.

(** [clearTransactionState] drops an id from the final-status index and
    from its label. *)
Lemma clearTransactionState_inv txnId m :
  mgr_inv m → mgr_inv (clearTransactionState txnId m).1.
Proof.
  intros Hinv. pose proof Hinv as [Ht Ho Hr Hf Hu]. unfold clearTransactionState.
  case_decide as Hin; [|done].
  destruct (txnObjects m !! txnId) as [t|] eqn:Hobj; [|done].
  destruct (Ho _ _ Hobj) as [Hid _].
  assert (Hnr : txnId ∉ idToRunningTransactionState m).
  { intros Hrun. pose proof (Hr _ _ Hrun Hobj). pose proof (Hf _ _ Hin Hobj). congruence. }
  assert (Hsub : ∀ m', txnObjects m' = txnObjects m →
            idToRunningTransactionState m' = idToRunningTransactionState m →
            idToFinalStatusTransactionState m'
              = idToFinalStatusTransactionState m ∖ {[txnId]} →
            idGenerator m' = idGenerator m →
            (∀ i, is_tracked m' i → ∃ t0 ids, txnObjects m' !! i = Some t0
                    ∧ labelToTxnIds m' !! getLabel t0 = Some ids ∧ i ∈ ids) →
            mgr_inv m').
  { intros m' Eo Er Ef Eg Hlab. split; [done|..].
    - rewrite Eo, Eg. apply Ho.
    - rewrite Eo, Er. apply Hr.
    - rewrite Eo, Ef. intros i ti Hi. apply Hf. set_solver.
    - intros id1 id2 t1 t2 [Htr1 Ho1] [Htr2 Ho2]. rewrite Eo in Ho1, Ho2.
      apply (Hu id1 id2 t1 t2); (split; [|done]).
      + unfold is_tracked in *. rewrite Er, Ef in Htr1. set_solver.
      + unfold is_tracked in *. rewrite Er, Ef in Htr2. set_solver. }
  unfold unprotectedGetTxnIdsByLabel.
  destruct (labelToTxnIds m !! getLabel t) as [txnIds|] eqn:Hlab; simpl.
  - apply Hsub; try done. intros i Hi. unfold is_tracked in Hi. simpl in Hi.
    assert (Hne : i ≠ txnId) by set_solver.
    assert (Hi' : is_tracked m i) by (unfold is_tracked; set_solver).
    destruct (Ht i Hi') as (t0 & ids & Hobj0 & Hl0 & Hin0).
    simpl. exists t0. destruct (decide (getLabel t0 = getLabel t)) as [El|El].
    + rewrite El in Hl0. rewrite Hlab in Hl0. injection Hl0 as <-.
      rewrite Hid. exists (txnIds ∖ {[txnId]}). split; [done|].
      rewrite decide_False by set_solver. rewrite El, lookup_insert_eq.
      split; [done|set_solver].
    + exists ids. split; [done|]. split; [|done].
      case_decide; [by rewrite lookup_delete_ne|by rewrite lookup_insert_ne].
  - apply Hsub; try done. intros i Hi. unfold is_tracked in Hi. simpl in Hi.
    apply Ht. unfold is_tracked. set_solver.
Qed.
(** The helpers of the operations leave header and status alone. *)
Lemma finishCheckPartitionVersion_touched t db :
  touched t (finishCheckPartitionVersion t db).1.1.
Proof.
  unfold finishCheckPartitionVersion.
  destruct (checkTableVersions db (idToTableCommitInfos t)) as [[kept related] [msg|]];
    by split.
Qed.

Lemma finishCheckQuorumReplicas_touched env now t related :
  touched t (finishCheckQuorumReplicas env now t related).1.1.
Proof.
  unfold finishCheckQuorumReplicas.
  destruct (checkPartitionsQuorum _ _ _ _ _) as [st [|]]; simpl; [|by split].
  match goal with |- context [if ?c then _ else _] => destruct c end; by split.
Qed.

Lemma checkCommitStatus_touched env dbId tableList t infos attachment :
  touched t (checkCommitStatus env dbId tableList t infos attachment).1.
Proof.
  unfold checkCommitStatus. destruct (idToDb env !! dbId); [|by split].
  destruct (foldE (collectCommitInfo _ _) _ _) as [maps [e|]].
  { destruct attachment; by split. }
  destruct (foldE (commitTableCheck _ _ _ _) _ _) as [st [e|]];
    destruct attachment; by split.
Qed.

Lemma putTableCommitInfos_touched twoPhase now db entries t :
  touched t (putTableCommitInfos twoPhase now db entries t).1.
Proof.
  revert t. induction entries as [|[tableId pids] rest IH]; intros t; simpl; [by split|].
  destruct (getTableNullable db tableId); [|by split].
  destruct (newPartitionCommitInfos _ _ _ _ _); [|by split].
  eapply touched_trans; [|apply IH]. by split.
Qed.

(** *** The operations keep the invariant *)

Lemma finishTransaction_inv env now id m :
  mgr_inv m →
  ¬ (∃ t, unprotectedGetTransactionState id m = Some t ∧ transactionStatus t = ABORTED) →
  mgr_inv (finishTransaction env now id m).1.1.
Proof.
  intros Hinv Hguard. unfold finishTransaction.
  destruct (unprotectedGetTransactionState id m) as [t|] eqn:Hget; [|done].
  pose proof (unprotectedGet_holds _ _ _ Hinv Hget) as Hh.
  assert (Hna : transactionStatus t ≠ ABORTED) by (intros Ha; apply Hguard; eauto).
  destruct (idToDb env !! dbId (header t)) as [db|]; [|done].
  pose proof (finishCheckPartitionVersion_touched t db) as T1.
  destruct (finishCheckPartitionVersion t db) as [[t1 related] ready]. simpl in T1.
  destruct ready; simpl.
  2: { eapply holds_inv, store_holds; [done|by apply touched_in_place]. }
  pose proof (finishCheckQuorumReplicas_touched env now t1 related) as T2.
  destruct (finishCheckQuorumReplicas env now t1 related) as [[t2 checks] verdict].
  simpl in T2. pose proof (touched_trans _ _ _ T1 T2) as T.
  destruct verdict as [[| |]|e]; simpl;
    try (eapply holds_inv, store_holds; [done|by apply touched_in_place]);
    (eapply holds_inv, upsert_holds; [done|]);
    (destruct T as [Hh' _]; split; [done|by split]).
Qed.

Lemma unprotectedCommitTransaction_holds now t cc db m id :
  holds m id t →
  let r := unprotectedCommitTransaction now t cc db m in
  holds r.1.1 id r.1.2.
Proof.
  intros Hh. unfold unprotectedCommitTransaction.
  case_bool_decide as Hs; simpl; [|done].
  set (t1 := setErrorReplicas _ _).
  pose proof (putTableCommitInfos_touched false now db
                (map_to_list (cc_tableToPartition cc)) t1) as T.
  destruct (putTableCommitInfos _ _ _ _ t1) as [t2 [e|]]; simpl in *.
  - apply (store_holds _ _ t); [done|]. destruct T as [Hh2 Hs2].
    split; [done|]. rewrite Hs2, Hs. by split.
  - apply (store_holds _ _ t2); [|by apply touched_in_place; split].
    eapply upsert_holds; [done|]. destruct T as [Hh2 Hs2].
    split; [done|]. rewrite Hs2, Hs. by split.
Qed.

Lemma unprotectedPreCommitTransaction2PC_inv now t cc db m id :
  holds m id t → mgr_inv (unprotectedPreCommitTransaction2PC now t cc db m).1.
Proof.
  intros Hh. unfold unprotectedPreCommitTransaction2PC.
  case_bool_decide as Hs; simpl; [|by eapply holds_inv].
  set (t1 := setErrorReplicas _ _).
  pose proof (putTableCommitInfos_touched true now db
                (map_to_list (cc_tableToPartition cc)) t1) as T.
  destruct (putTableCommitInfos _ _ _ _ t1) as [t2 [e|]]; simpl in *.
  - eapply holds_inv, (store_holds _ _ t); [done|]. destruct T as [Hh2 Hs2].
    split; [done|]. rewrite Hs2, Hs. by split.
  - eapply holds_inv, (store_holds _ _ t2); [|by apply touched_in_place; split].
    eapply upsert_holds; [done|]. destruct T as [Hh2 Hs2].
    split; [done|]. rewrite Hs2, Hs. by split.
Qed.

Lemma unprotectedCommitTransaction2PC_holds now t db m id :
  holds m id t →
  let r := unprotectedCommitTransaction2PC now t db m in
  holds r.1 id r.2.
Proof.
  intros Hh. unfold unprotectedCommitTransaction2PC.
  case_bool_decide as Hs; simpl; [|done].
  eapply same_core_holds; [apply same_core_log|].
  apply (store_holds _ _ t); [done|]. split; [done|]. simpl. rewrite Hs. by split.
Qed.

Lemma commitTransaction_inv env now tableList id infos attachment is2PC m :
  mgr_inv m →
  mgr_inv (commitTransaction env now tableList id infos attachment is2PC m).1.1.
Proof.
  intros Hinv. unfold commitTransaction.
  destruct (idToDb env !! mgr_dbId m) as [db|]; [|done].
  destruct (unprotectedGetTransactionState id m) as [t|] eqn:Hget; [|done].
  pose proof (unprotectedGet_holds _ _ _ Hinv Hget) as Hh.
  assert (Hgo : mgr_inv
    (if is2PC && bool_decide (transactionStatus t = PREPARE)
     then (m, env, Thrown (TransactionCommitFailedException TxnIsPrepareNotPreCommitted))
     else if isPartialUpdate (header t) && negb (partialUpdateCompatible is2PC t db tableList)
     then (m, env, Thrown (TransactionCommitFailedException SchemaCompatibilityFailed))
     else
       let '(t, checked) :=
         if is2PC then (t, Returned emptyCommitCheck)
         else checkCommitStatus env (mgr_dbId m) tableList t infos attachment in
       match checked with
       | Thrown e => (storeTxn t m, env, Thrown e)
       | Returned cc =>
           if negb (beforeStateTransform t COMMITTED)
           then (storeTxn t m, env, Thrown TransactionException)
           else
             let '(m, t, thrown) :=
               if is2PC
               then (unprotectedCommitTransaction2PC now t db (storeTxn t m), None)
               else unprotectedCommitTransaction now t cc db (storeTxn t m) in
             match thrown with
             | Some e => (m, env, Thrown e)
             | None =>
                 let db := updateCatalogAfterCommitted t db in
                 (m, setIdToDb (<[mgr_dbId m := db]> (idToDb env)) env, Returned ())
             end
       end).1.1).
  { destruct (is2PC && bool_decide (transactionStatus t = PREPARE)); [done|].
    destruct (isPartialUpdate (header t) && negb _); [done|].
    assert (∃ t1 checked,
      (if is2PC then (t, Returned emptyCommitCheck)
       else checkCommitStatus env (mgr_dbId m) tableList t infos attachment)
      = (t1, checked) ∧ touched t t1) as (t1 & checked & -> & T).
    { destruct is2PC.
      - eexists _, _. split; [done|apply touched_refl].
      - pose proof (checkCommitStatus_touched env (mgr_dbId m) tableList t infos attachment).
        destruct (checkCommitStatus _ _ _ _ _ _) as [t1 c]. by eexists _, _. }
    pose proof (store_holds _ _ _ _ Hh (touched_in_place _ _ T)) as Hh1.
    destruct checked as [cc|e]; [|by eapply holds_inv].
    destruct (negb (beforeStateTransform t1 COMMITTED)); [by eapply holds_inv|].
    destruct is2PC.
    - pose proof (unprotectedCommitTransaction2PC_holds now t1 db _ _ Hh1) as Hh2.
      destruct (unprotectedCommitTransaction2PC now t1 db (storeTxn t1 m)) as [m2 t2].
      simpl in *. by eapply holds_inv.
    - pose proof (unprotectedCommitTransaction_holds now t1 cc db _ _ Hh1) as Hh2.
      destruct (unprotectedCommitTransaction now t1 cc db (storeTxn t1 m))
        as [[m2 t2] [e|]]; simpl in *; by eapply holds_inv. }
  destruct (transactionStatus t) eqn:Hs; try done; by destruct is2PC.
Qed.

Lemma preCommitTransaction2PC_inv env now tableList id infos attachment m :
  mgr_inv m →
  mgr_inv (preCommitTransaction2PC env now tableList id infos attachment m).1.
Proof.
  intros Hinv. unfold preCommitTransaction2PC.
  destruct (idToDb env !! mgr_dbId m) as [db|]; [|done].
  destruct (unprotectedGetTransactionState id m) as [t|] eqn:Hget; [|done].
  pose proof (unprotectedGet_holds _ _ _ Hinv Hget) as Hh.
  pose proof (checkCommitStatus_touched env (mgr_dbId m) tableList t infos attachment) as T.
  destruct (transactionStatus t) eqn:Hs; try done;
    destruct (checkCommitStatus _ _ _ _ _ _) as [t1 [cc|e]]; simpl in T;
    pose proof (store_holds _ _ _ _ Hh (touched_in_place _ _ T)) as Hh1;
    try (by eapply holds_inv);
    pose proof (unprotectedPreCommitTransaction2PC_inv now t1 cc db _ _ Hh1) as Hi;
    destruct (unprotectedPreCommitTransaction2PC _ _ _ _ _) as [m2 [e|]]; done.
Qed.

Lemma unprotectAbortTransaction_inv now id why m :
  mgr_inv m → mgr_inv (unprotectAbortTransaction now id why m).1.
Proof.
  intros Hinv. unfold unprotectAbortTransaction.
  destruct (unprotectedGetTransactionState id m) as [t|] eqn:Hget; [|done].
  pose proof (unprotectedGet_holds _ _ _ Hinv Hget) as Hh.
  destruct (transactionStatus t) eqn:Hs; try done; simpl;
    (eapply holds_inv, upsert_holds; [done|]); (split; [done|]); by split.
Qed.

Lemma abortTransaction_inv now id why attachment m :
  mgr_inv m → mgr_inv (abortTransaction now id why attachment m).1.
Proof.
  intros Hinv. unfold abortTransaction. destruct (id <? 0); [done|].
  case_decide as Hrun; [|done].
  destruct (txnObjects m !! id) as [t|] eqn:Hobj; [|done].
  assert (Hh : holds m id t) by (split; [done|split; [by left|done]]).
  set (t1 := match attachment with Some a => _ | None => t end).
  assert (T : touched t t1) by (unfold t1; destruct attachment; by split).
  pose proof (store_holds _ _ _ _ Hh (touched_in_place _ _ T)) as Hh1.
  destruct (negb (beforeStateTransform t1 ABORTED)); simpl; [by eapply holds_inv|].
  pose proof (unprotectAbortTransaction_inv now id why _ (holds_inv _ _ _ Hh1)) as Hi.
  destruct (unprotectAbortTransaction now id why (storeTxn t1 m)) as [m2 [b|e]]; done.
Qed.

Lemma abortTransaction2PC_inv now id m :
  mgr_inv m → mgr_inv (abortTransaction2PC now id m).1.
Proof.
  intros Hinv. unfold abortTransaction2PC. destruct (id <? 0); [done|].
  destruct (unprotectedGetTransactionState id m) as [t|] eqn:Hget; [|done].
  destruct (negb (beforeStateTransform t ABORTED)); simpl; [done|].
  pose proof (unprotectAbortTransaction_inv now id "User Abort" _ Hinv) as Hi.
  destruct (unprotectAbortTransaction now id "User Abort" m) as [m2 [b|e]]; done.
Qed.
Lemma checkDatabaseDataQuota_same_core db m : same_core m (checkDatabaseDataQuota db m).1.
Proof.
  unfold checkDatabaseDataQuota. case_decide; simpl; [apply same_core_quota|].
  repeat split; done.
Qed.

Lemma label_free_aborted lbl m id t :
  mgr_inv m → label_free lbl m → tracked m id t → getLabel t = lbl →
  transactionStatus t = ABORTED.
Proof.
  intros Hinv Hfree [Htr Hobj] Hlab. unfold label_free, unprotectedGetTxnIdsByLabel in Hfree.
  destruct (inv_tracked _ Hinv id Htr) as (t0 & ids & Hobj0 & Hl & Hin).
  assert (t0 = t) as -> by congruence. rewrite Hlab in Hl. rewrite Hl in Hfree.
  destruct Hfree as [->|Hscan]; [set_solver|].
  unfold notAbortedTxnsOf in Hscan.
  destruct (mapM _ (elements ids)) as [l|] eqn:Hm; [|done].
  simpl in Hscan. injection Hscan as Hfil. apply mapM_Some_1 in Hm.
  assert (Hel : id ∈ elements ids) by (by apply elem_of_elements).
  apply list_elem_of_lookup in Hel as [i Hi].
  destruct (Forall2_lookup_l _ _ _ _ _ Hm Hi) as (y & Hy & Hget).
  rewrite (tracked_unprotectedGet _ _ _ Htr Hobj) in Hget. injection Hget as <-.
  destruct (decide (transactionStatus t = ABORTED)) as [|Hne]; [done|].
  exfalso. eapply (filter_nil_not_elem_of _ _ _ Hfil Hne).
  apply list_elem_of_lookup. eauto.
Qed.

Lemma beginTransaction_inv env now tableIdList lbl requestId coordinator sourceType
    listenerId timeoutSecond m :
  mgr_inv m →
  mgr_inv (beginTransaction env now tableIdList lbl requestId coordinator sourceType
             listenerId timeoutSecond m).1.
Proof.
  intros Hinv. unfold beginTransaction.
  destruct (idToDb env !! mgr_dbId m) as [db|]; [|done].
  destruct (negb (db_access_ok db)); [done|].
  pose proof (same_core_inv _ _ (checkDatabaseDataQuota_same_core db m) Hinv) as Hinv1.
  destruct (checkDatabaseDataQuota db m) as [m1 ok]. simpl in Hinv1.
  destruct (negb ok); [done|].
  destruct coordinator as [coordinator|]; [|done].
  destruct lbl as [lbl|]; [|done].
  destruct (negb (checkLabel lbl)); [done|].
  assert (Hnew : label_free lbl m1 →
    mgr_inv
      (if negb (checkRunningTxnExceedLimit db sourceType m1)
       then (m1, Thrown BeginTransactionException)
       else
         (unprotectUpsertTransactionState
            (setPrepareTime now
               (newTransactionState (mgr_dbId m1) tableIdList (idGenerator m1 + 1) lbl
                  requestId sourceType coordinator listenerId
                  (wrap64 (timeoutSecond * 1000))))
            false (setIdGenerator (idGenerator m1 + 1) m1),
          Returned (idGenerator m1 + 1))).1).
  { intros Hfree. destruct (negb _); [done|]. simpl.
    set (t := setPrepareTime now _).
    apply (upsert_new m1 t false); [done|unfold t, getTransactionId; simpl; lia|done|].
    intros id' t' Htr Hl. by apply (label_free_aborted lbl m1 id' t'). }
  pose proof Hnew as Hnew'. unfold label_free in Hnew'.
  destruct (unprotectedGetTxnIdsByLabel lbl m1) as [existing|]; [|by apply Hnew'].
  case_decide as Hemp; [apply Hnew'; by left|].
  destruct (notAbortedTxnsOf existing m1) as [[|t1 [|t2 rest]]|] eqn:Hscan; try done.
  - apply Hnew'. by right.
  - destruct requestId as [req|], (getRequestId t1) as [req'|]; try done.
    by destruct (_ && _).
Qed.

Lemma removeExpiredLoop_inv currentMillis left deque m latestTxnId num :
  mgr_inv m →
  mgr_inv (rl_mgr (removeExpiredLoop currentMillis left deque m latestTxnId num).1).
Proof.
  revert m latestTxnId num.
  induction deque as [|ref rest IH]; intros m latestTxnId num Hinv; simpl; [done|].
  destruct (num <? left); [|done].
  destruct (txnObjects m !! ref) as [t|]; [|done].
  destruct (isExpired t currentMillis); [|done].
  pose proof (clearTransactionState_inv (getTransactionId t) m Hinv) as Hc.
  destruct (clearTransactionState (getTransactionId t) m) as [m' [e|]]; simpl in *; [done|].
  by apply IH.
Qed.

Lemma removeOverflowLoop_inv left deque m latestTxnId num :
  mgr_inv m →
  mgr_inv (rl_mgr (removeOverflowLoop left deque m latestTxnId num).1).
Proof.
  revert m latestTxnId num.
  induction deque as [|ref rest IH]; intros m latestTxnId num Hinv; [done|].
  cbn [removeOverflowLoop].
  destruct (_ && _); [|done].
  destruct (txnObjects m !! ref) as [t|]; [|done].
  destruct (negb _); [|done].
  pose proof (clearTransactionState_inv (getTransactionId t) m Hinv) as Hc.
  destruct (clearTransactionState (getTransactionId t) m) as [m' [e|]]; simpl in *; [done|].
  by apply IH.
Qed.

Lemma unprotectedRemoveUselessTxns_inv currentMillis deque left m :
  mgr_inv m →
  mgr_inv (rl_mgr (unprotectedRemoveUselessTxns currentMillis deque left m).1).
Proof.
  intros Hinv. unfold unprotectedRemoveUselessTxns.
  pose proof (removeExpiredLoop_inv currentMillis left deque m (-1) 0 Hinv) as H1.
  destruct (removeExpiredLoop currentMillis left deque m (-1) 0) as [r [e|]];
    simpl in *; [done|].
  by apply removeOverflowLoop_inv.
Qed.

Lemma setDeques_inv short long log m : mgr_inv m → mgr_inv (setDeques short long log m).
Proof. apply same_core_inv, same_core_deques. Qed.

Lemma removeUselessTxns_inv currentMillis m :
  mgr_inv m → mgr_inv (removeUselessTxns currentMillis m).1.
Proof.
  intros Hinv. unfold removeUselessTxns.
  pose proof (unprotectedRemoveUselessTxns_inv currentMillis
                (finalStatusTransactionStateDequeShort m) MAX_REMOVE_TXN_PER_ROUND m Hinv)
    as H1.
  destruct (unprotectedRemoveUselessTxns _ (finalStatusTransactionStateDequeShort m) _ m)
    as [s [e|]]; cbn [fst] in *.
  { by apply setDeques_inv. }
  set (m1 := setDeques _ _ _ (rl_mgr s)).
  assert (Hinv1 : mgr_inv m1) by (by apply setDeques_inv).
  pose proof (unprotectedRemoveUselessTxns_inv currentMillis
                (finalStatusTransactionStateDequeLong m1)
                (wrap32 (MAX_REMOVE_TXN_PER_ROUND - rl_num s)) m1 Hinv1) as H2.
  destruct (unprotectedRemoveUselessTxns _ (finalStatusTransactionStateDequeLong m1) _ m1)
    as [l [e|]]; cbn [fst] in *; by apply setDeques_inv.
Qed.

Lemma removeExpiredAndTimeoutTxns_inv currentMillis m :
  mgr_inv m → mgr_inv (removeExpiredAndTimeoutTxns currentMillis m).1.
Proof.
  intros Hinv. unfold removeExpiredAndTimeoutTxns.
  pose proof (removeUselessTxns_inv currentMillis m Hinv) as H1.
  destruct (removeUselessTxns currentMillis m) as [m1 [[]|e]]; simpl in *; [|done].
  generalize (getTimeoutTxns currentMillis m1). intros ids. revert m1 H1.
  induction ids as [|id ids IH]; intros m1 H1; simpl; [done|].
  apply IH. by apply abortTransaction_inv.
Qed.

Lemma run_op_inv env op m :
  mgr_inv m → ¬ finishes_aborted op m → mgr_inv (run_op env op m).
Proof.
  intros Hinv Hguard. destruct op; simpl.
  - by apply beginTransaction_inv.
  - by apply preCommitTransaction2PC_inv.
  - by apply commitTransaction_inv.
  - by apply abortTransaction_inv.
  - by apply abortTransaction2PC_inv.
  - by apply finishTransaction_inv.
  - by apply removeExpiredAndTimeoutTxns_inv.
  - eapply same_core_inv; [apply same_core_generator|done]. lia.
Qed.

(** In every state of the manager reached by [beginTransaction],
    [preCommitTransaction2PC], [commitTransaction], [abortTransaction],
    [abortTransaction2PC], [finishTransaction] and
    [removeExpiredAndTimeoutTxns] in which [finishTransaction] is never
    called on a transaction that is ABORTED, at most one tracked transaction
    of a label has a status other than ABORTED: the calls keep the
    invariant, but for the one that [finishTransaction] does not guard. *)
Theorem label_unique_unless_aborted_finished dbId cfg lastTxnId m :
  reachable_guarded dbId cfg lastTxnId m → label_unique m.
Proof.
  intros Hreach. apply inv_unique.
  induction Hreach as [|m env op _ IH Hguard].
  - apply newMgr_inv.
  - by apply run_op_inv.
Qed.

End Steps.

Import TxnExamples.
#[local] Existing Instance plain_collaborators.

Lemma label_unique_unless_aborted_finished_witness :
  reachable_guarded 1 cfg0 99 mgr_begun_again ∧ label_unique mgr_begun_again.
Proof.
  assert (Hreach : reachable_guarded 1 cfg0 99 mgr_begun_again).
  { unfold mgr_begun_again, mgr_begun.
    apply guarded_step; [apply guarded_step; [apply guarded_step|]|]; simpl; try tauto.
    apply guarded_new. }
  split; [exact Hreach|].
  exact (label_unique_unless_aborted_finished 1 cfg0 99 mgr_begun_again Hreach).
Defined.

(** C1: L1 is begun as transaction 100, which is aborted; L1 is begun
    again as transaction 101; [finishTransaction] on 100, which has no check
    of the status, makes it VISIBLE.  Both transactions of L1 are then
    tracked and not aborted, so that the label is not unique, and the next
    [beginTransaction] with the label fails the assertion that at most one
    transaction of a label is not aborted. *)
Lemma finish_revives_aborted_label :
  reachable 1 cfg0 99 mgr_aborted_finished
  ∧ (∃ t100, unprotectedGetTransactionState 100 mgr_begun_again = Some t100
             ∧ transactionStatus t100 = ABORTED)
  ∧ (finishTransaction env0 40 100 mgr_begun_again).2 = Returned (FinishVisible QUORUM_SUCC)
  ∧ (∃ t100 t101,
       tracked mgr_aborted_finished 100 t100 ∧ tracked mgr_aborted_finished 101 t101
       ∧ getLabel t100 = "L1"%string ∧ getLabel t101 = "L1"%string
       ∧ transactionStatus t100 = VISIBLE ∧ transactionStatus t101 = PREPARE)
  ∧ ¬ label_unique mgr_aborted_finished
  ∧ (beginTransaction env0 50 [1] (Some "L1"%string) (Some req2) (Some coord) BACKEND 0 60
       mgr_aborted_finished).2 = Thrown IllegalStateException.
Proof.
  assert (Htwo : ∃ t100 t101,
       tracked mgr_aborted_finished 100 t100 ∧ tracked mgr_aborted_finished 101 t101
       ∧ getLabel t100 = "L1"%string ∧ getLabel t101 = "L1"%string
       ∧ transactionStatus t100 = VISIBLE ∧ transactionStatus t101 = PREPARE).
  { unfold tracked.
    assert (H100 : 100 ∈ idToFinalStatusTransactionState mgr_aborted_finished)
      by (apply (bool_decide_unpack _); vm_compute; exact I).
    assert (H101 : 101 ∈ idToRunningTransactionState mgr_aborted_finished)
      by (apply (bool_decide_unpack _); vm_compute; exact I).
    destruct (txnObjects mgr_aborted_finished !! 100) as [t100|] eqn:E100;
      [|vm_compute in E100; discriminate].
    destruct (txnObjects mgr_aborted_finished !! 101) as [t101|] eqn:E101;
      [|vm_compute in E101; discriminate].
    exists t100, t101.
    vm_compute in E100. injection E100 as <-.
    vm_compute in E101. injection E101 as <-.
    repeat split; auto. }
  split.
  { unfold mgr_aborted_finished, mgr_begun_again, mgr_begun.
    do 4 apply reachable_step. apply reachable_new. }
  split.
  { eexists. split; [vm_compute; reflexivity|reflexivity]. }
  split; [vm_compute; reflexivity|].
  split; [exact Htwo|].
  split; [|vm_compute; reflexivity].
  destruct Htwo as (t100 & t101 & Htr1 & Htr2 & Hl1 & Hl2 & Hs1 & Hs2).
  intros Hu. specialize (Hu 100 101 t100 t101 Htr1 Htr2).
  assert (100 = 101); [|done].
  apply Hu; congruence.
Qed.

End LabelUniquenessProofs.

(** ** Round robin over the candidate stores *)

Module RoundRobinProofs.
Import MachineInt MachineIntFacts StorageEngine StorageEngineStores StorageStoresSpecs.

Lemma level_groups_cons d rest :
  let r := same_level_run (available_level d) rest in
  level_groups (d :: rest) = (d :: take r rest) :: level_groups (drop r rest).
Proof.
  revert d. induction rest as [|d' rest IH]; intros d; [done|].
  cbn [level_groups] in *. specialize (IH d'). cbv zeta in IH. rewrite IH.
  cbn [same_level_run]. destruct (decide (available_level d = available_level d')) as [He|He].
  - simpl. by rewrite He.
  - cbn [take drop level_groups]. by rewrite IH.
Qed.

Lemma level_groups_nonempty l : Forall (λ g, g ≠ []) (level_groups l).
Proof.
  induction l as [|d l IH]; [constructor|]. cbn [level_groups].
  destruct (level_groups l) as [|[|d' g] gs] eqn:Hg.
  - by repeat constructor.
  - by apply Forall_cons in IH as [? _].
  - apply Forall_cons in IH as [_ IH]. case_decide; by repeat constructor.
Qed.

Lemma concat_level_groups l : concat (level_groups l) = l.
Proof.
  induction l as [|d l IH]; [done|]. cbn [level_groups].
  pose proof (level_groups_nonempty l) as Hne.
  destruct (level_groups l) as [|[|d' g] gs] eqn:Hg; simpl in *.
  - by rewrite <- IH.
  - by apply Forall_cons in Hne as [? _].
  - case_decide; simpl; by rewrite <- IH.
Qed.

Lemma level_groups_level l :
  Forall (λ g, ∃ lv, Forall (λ d, available_level d = lv) g) (level_groups l).
Proof.
  induction l as [|d l IH]; [constructor|]. cbn [level_groups].
  destruct (level_groups l) as [|[|d' g] gs] eqn:Hg.
  - repeat constructor. exists (available_level d). by repeat constructor.
  - constructor; [|done]. exists (available_level d). by repeat constructor.
  - apply Forall_cons in IH as [(lv & Hlv) IH]. apply Forall_cons in Hlv as [Hd' Hlv].
    case_decide as He.
    + constructor; [|done]. exists lv. repeat constructor; [congruence|done|done].
    + constructor; [exists (available_level d); by repeat constructor|].
      constructor; [|done]. exists lv. by constructor.
Qed.

Lemma omap_lookup_seq {A B} (f : A → B) (l : list A) :
  omap (λ k, f <$> l !! k) (seq 0 (length l)) = f <$> l.
Proof.
  induction l as [|x l IH]; [done|].
  change (seq 0 (length (x :: l))) with (0%nat :: seq 1 (length l)).
  rewrite <- fmap_S_seq, fmap_cons. rewrite <- IH.
  generalize (seq 0 (length l)). intros ks. csimpl. f_equal.
  induction ks as [|k ks IHk]; [done|].
  csimpl. rewrite IHk. done.
Qed.

Lemma foldl_push {A B} (f : nat → option A) (g : A → B) ks stores :
  foldl (λ stores k, match f k with Some x => stores ++ [g x] | None => stores end) stores ks
  = stores ++ omap (λ k, g <$> f k) ks.
Proof.
  revert stores. induction ks as [|k ks IH]; intros stores; csimpl; [by rewrite app_nil_r|].
  rewrite IH. destruct (f k); simpl; [by rewrite <- app_assoc|done].
Qed.

(** One range: the entries [[i, i + count)] rotated by [curr_index]. *)
Lemma push_range_rotate curr_index dir_infos i count stores :
  0 ≤ curr_index →
  curr_index + Z.of_nat (length dir_infos) ≤ 2 ^ 64 →
  (i + count ≤ length dir_infos)%nat →
  push_range curr_index dir_infos i count stores
  = stores ++ (data_dir <$> rotate (Z.to_nat curr_index) (take count (drop i dir_infos))).
Proof.
  intros Hc Hno Hlen. unfold push_range.
  set (g := take count (drop i dir_infos)).
  assert (Hg : length g = count) by (unfold g; rewrite length_take, length_drop; lia).
  rewrite (foldl_push (λ k, dir_infos !! (i + Z.to_nat (wrap_size (Z.of_nat k + curr_index) `mod` Z.of_nat count))%nat) data_dir).
  f_equal.
  rewrite <- (omap_lookup_seq data_dir (rotate _ g)), length_rotate, Hg.
  apply list_omap_ext. apply Forall2_same_length_lookup_2; [done|].
  intros k k1 k2 Hk1 Hk2. rewrite Hk1 in Hk2. injection Hk2 as <-.
  apply lookup_seq in Hk1 as [-> Hk]. simpl.
  rewrite lookup_rotate_r, Hg by lia.
  unfold g. rewrite lookup_take_lt by (apply rotate_nat_add_lt; lia).
  rewrite lookup_drop. do 3 f_equal.
  unfold rotate_nat_add, wrap_size.
  rewrite (Z.mod_small (Z.of_nat k + curr_index)) by lia.
  rewrite Z2Nat.id by lia. f_equal. f_equal. lia.
Qed.

Lemma round_robin_from_groups curr_index dir_infos turns i stores :
  0 ≤ curr_index →
  curr_index + Z.of_nat (length dir_infos) ≤ 2 ^ 64 →
  (length dir_infos ≤ i + turns)%nat →
  round_robin_from curr_index dir_infos turns i stores
  = stores ++ (data_dir <$> concat (rotate (Z.to_nat curr_index)
                                      <$> level_groups (drop i dir_infos))).
Proof.
  intros Hc Hno. revert i stores. induction turns as [|turns IH]; intros i stores Hlen.
  - simpl. rewrite drop_ge by lia. simpl. by rewrite app_nil_r.
  - simpl. destruct (dir_infos !! i) as [first|] eqn:Hi.
    2: { apply lookup_ge_None in Hi. rewrite drop_ge by lia. simpl. by rewrite app_nil_r. }
    pose proof (lookup_lt_Some _ _ _ Hi) as Hlt.
    rewrite (drop_S _ _ _ Hi), level_groups_cons. cbv zeta.
    set (r := same_level_run (available_level first) (drop (S i) dir_infos)).
    assert (Hr : (r ≤ length dir_infos - S i)%nat).
    { unfold r. rewrite <- (length_drop dir_infos (S i)).
      generalize (drop (S i) dir_infos). clear. intros l.
      induction l as [|d l IHl]; simpl; [lia|]. case_decide; simpl; lia. }
    replace (i + 1)%nat with (S i) by lia. fold r.
    rewrite IH by lia.
    rewrite push_range_rotate by lia.
    replace (S i + r - i)%nat with (S r) by lia.
    rewrite <- app_assoc. f_equal.
    rewrite fmap_cons, concat_cons, fmap_app. f_equal.
    + do 2 f_equal. rewrite (drop_S _ _ _ Hi). done.
    + rewrite drop_drop. do 4 f_equal. 
Qed.

Lemma level_groups_maximal l i g1 g2 d1 d2 :
  level_groups l !! i = Some g1 → level_groups l !! S i = Some g2 →
  last g1 = Some d1 → head g2 = Some d2 →
  available_level d1 ≠ available_level d2.
Proof.
  revert i g1 g2. induction l as [|d l IH]; intros i g1 g2; [done|].
  cbn [level_groups].
  pose proof (level_groups_nonempty l) as Hne.
  destruct (level_groups l) as [|[|d' g] gs] eqn:Hg.
  - done.
  - by apply Forall_cons in Hne as [? _].
  - case_decide as He.
    + destruct i as [|i]; simpl.
      * intros [= <-] H2 Hl Hh. apply (IH 0%nat (d' :: g) g2); done.
      * intros H1 H2. by apply (IH (S i) g1 g2).
    + destruct i as [|i]; simpl.
      * intros [= <-] [= <-] [= <-] [= <-]. done.
      * intros H1 H2. by apply (IH i g1 g2).
Qed.

(** [get_round_robin_stores] appends, for each maximal run of candidates of
    one availability level taken in order, the run rotated to the left by
    [curr_index] (that is, by [curr_index mod] the length of the run),
    provided that [curr_index] is not negative and [k + curr_index] stays in
    the range of [size_t].  The runs are not empty, hold one level each,
    make up the candidate list, and two runs in a row differ in level. *)
Theorem get_round_robin_stores_rotates_each_level
    (curr_index : Z) (dir_infos : list DirInfo) (stores : list string) :
  0 ≤ curr_index →
  curr_index + Z.of_nat (length dir_infos) ≤ 2 ^ 64 →
  get_round_robin_stores curr_index dir_infos stores
  = stores ++ (data_dir <$> concat (rotate (Z.to_nat curr_index)
                                      <$> level_groups dir_infos))
  ∧ concat (level_groups dir_infos) = dir_infos
  ∧ Forall (λ g, g ≠ [] ∧ ∃ lv, Forall (λ d, available_level d = lv) g)
           (level_groups dir_infos)
  ∧ (∀ i g1 g2 d1 d2,
       level_groups dir_infos !! i = Some g1 →
       level_groups dir_infos !! S i = Some g2 →
       last g1 = Some d1 → head g2 = Some d2 →
       available_level d1 ≠ available_level d2).
Proof.
  intros Hc Hno. split; [|split; [|split]].
  - unfold get_round_robin_stores.
    rewrite round_robin_from_groups by (done || lia). by rewrite drop_0.
  - apply concat_level_groups.
  - pose proof (level_groups_nonempty dir_infos) as H1.
    pose proof (level_groups_level dir_infos) as H2.
    rewrite Forall_forall in *. intros g Hg. split; [by apply H1|by apply H2].
  - apply level_groups_maximal.
Qed.

Lemma get_round_robin_stores_rotates_each_level_witness :
  get_round_robin_stores 4
    [mkDirInfo "/d1" LOW; mkDirInfo "/d2" LOW; mkDirInfo "/d3" LOW;
     mkDirInfo "/d4" MID; mkDirInfo "/d5" HIGH; mkDirInfo "/d6" HIGH] []
  = ["/d2"; "/d3"; "/d1"; "/d4"; "/d5"; "/d6"]%string.
Proof.
  destruct (get_round_robin_stores_rotates_each_level 4
    [mkDirInfo "/d1" LOW; mkDirInfo "/d2" LOW; mkDirInfo "/d3" LOW;
     mkDirInfo "/d4" MID; mkDirInfo "/d5" HIGH; mkDirInfo "/d6" HIGH] [])
    as (H & _).
  - lia.
  - simpl. lia.
  - rewrite H. reflexivity.
Defined.

Lemma rotate_groups_permutation c (gs : list (list DirInfo)) :
  concat (rotate c <$> gs) ≡ₚ concat gs.
Proof.
  induction gs as [|g gs IH]; [done|]. csimpl. rewrite IH.
  apply Permutation_app_tail. unfold rotate.
  rewrite Permutation_app_comm. by rewrite take_drop.
Qed.

Lemma rotate_groups_levels c (gs : list (list DirInfo)) :
  Forall (λ g, ∃ lv, Forall (λ d, available_level d = lv) g) gs →
  available_level <$> concat (rotate c <$> gs) = available_level <$> concat gs.
Proof.
  induction 1 as [|g gs (lv & Hlv) _ IH]; [done|]. csimpl.
  rewrite !fmap_app, IH. f_equal.
  assert (Hconst : ∀ l : list DirInfo, Forall (λ d, available_level d = lv) l →
            available_level <$> l = replicate (length l) lv).
  { induction 1 as [|d l Hd _ IHl]; [done|]. csimpl. by rewrite Hd, IHl. }
  rewrite (Hconst g Hlv), (Hconst (rotate c g)), length_rotate; [done|].
  rewrite Forall_forall in *. intros d Hd. apply Hlv. by apply elem_of_rotate in Hd.
Qed.

(** Under the same condition the stores that [get_round_robin_stores]
    returns are the candidates, each exactly as often as it is listed, and
    the availability level found at every position is the one the candidate
    list has there: no store is lost or doubled, and none moves in front of
    a store of another level. *)
Theorem get_round_robin_stores_keeps_levels
    (curr_index : Z) (dir_infos : list DirInfo) :
  0 ≤ curr_index →
  curr_index + Z.of_nat (length dir_infos) ≤ 2 ^ 64 →
  ∃ chosen,
    get_round_robin_stores curr_index dir_infos [] = data_dir <$> chosen
    ∧ chosen ≡ₚ dir_infos
    ∧ available_level <$> chosen = available_level <$> dir_infos.
Proof.
  intros Hc Hno.
  exists (concat (rotate (Z.to_nat curr_index) <$> level_groups dir_infos)).
  split; [|split].
  - unfold get_round_robin_stores.
    rewrite round_robin_from_groups by (done || lia). by rewrite drop_0.
  - rewrite rotate_groups_permutation. by rewrite concat_level_groups.
  - rewrite rotate_groups_levels by apply level_groups_level.
    by rewrite concat_level_groups.
Qed.

Lemma get_round_robin_stores_keeps_levels_witness :
  ∃ chosen,
    get_round_robin_stores 5
      [mkDirInfo "/d1" LOW; mkDirInfo "/d2" LOW; mkDirInfo "/d3" MID] []
    = data_dir <$> chosen
    ∧ chosen ≡ₚ [mkDirInfo "/d1" LOW; mkDirInfo "/d2" LOW; mkDirInfo "/d3" MID]
    ∧ available_level <$> chosen = [LOW; LOW; MID].
Proof.
  apply (get_round_robin_stores_keeps_levels 5
           [mkDirInfo "/d1" LOW; mkDirInfo "/d2" LOW; mkDirInfo "/d3" MID]).
  - lia.
  - simpl. lia.
Defined.

End RoundRobinProofs.

(** ** Successive placements of one partition *)

Module PlacementSequenceProofs.
Import MachineInt MachineIntFacts StorageEngine StorageEngineStores StorageStoresSpecs.

Lemma next_disk_index_cached now_ms partition_id m st :
  (0 < capacity (_create_tablet_idx_lru_cache st))%nat →
  let r := _get_and_set_next_disk_index now_ms partition_id m st in
  capacity (_create_tablet_idx_lru_cache r.2) = capacity (_create_tablet_idx_lru_cache st)
  ∧ cached_index (get_key partition_id m) r.2 = Some (Z.max 0 (wrap32 (r.1 + 1)))
  ∧ (∀ c, cached_index (get_key partition_id m) st = Some c → c ≠ -1 → r.1 = c).
Proof.
  intros Hcap. unfold _get_and_set_next_disk_index, get_index, cached_index.
  destruct (cache_lookup (get_key partition_id m) (_create_tablet_idx_lru_cache st))
    as [v|] eqn:Hlk; simpl.
  - split; [done|]. split.
    + unfold set_index, cache_lookup, cache_insert. simpl.
      destruct (capacity _) as [|n]; [lia|]. simpl. by rewrite decide_True.
    + intros c [= <-] Hc. by rewrite decide_False.
  - split; [done|]. split; [|done].
    unfold set_index, cache_lookup, cache_insert. simpl.
    destruct (capacity _) as [|n]; [lia|]. simpl. by rewrite decide_True.
Qed.

Lemma next_disk_indices_from times partition_id m : ∀ st c,
  (0 < capacity (_create_tablet_idx_lru_cache st))%nat →
  cached_index (get_key partition_id m) st = Some c →
  0 ≤ c → c + Z.of_nat (length times) ≤ INT_MAX + 1 →
  next_disk_indices times partition_id m st
  = (λ j, c + Z.of_nat j) <$> seq 0 (length times).
Proof.
  induction times as [|now_ms times IH]; intros st c Hcap Hc H0 Hmax; [done|].
  cbn [next_disk_indices length].
  pose proof (next_disk_index_cached now_ms partition_id m st Hcap) as Hstep.
  destruct (_get_and_set_next_disk_index now_ms partition_id m st) as [c1 st1].
  cbv zeta in Hstep. simpl in Hstep. destruct Hstep as (Hcap1 & Hc1 & Hhit).
  rewrite (Hhit c Hc) in * by lia.
  simpl in Hmax.
  destruct (decide (times = [])) as [->|Hne]; [simpl; f_equal; lia|].
  assert (0 < length times)%nat by (destruct times; [done|simpl; lia]).
  rewrite (IH st1 (c + 1)); [| lia | | lia | lia].
  - cbn [seq fmap list_fmap]. f_equal; [lia|].
    rewrite <- fmap_S_seq, <- list_fmap_compose. apply list_fmap_ext.
    intros _ j _. simpl. lia.
  - rewrite Hc1. f_equal. unfold INT_MAX in Hmax.
    rewrite wrap32_id by (unfold in_int, INT_MIN, INT_MAX; lia). lia.
Qed.

Lemma level_groups_single (infos : list DirInfo) lv :
  Forall (λ d, available_level d = lv) infos → infos ≠ [] →
  level_groups infos = [infos].
Proof.
  induction 1 as [|d l Hd Hl IH]; intros Hne; [done|].
  cbn [level_groups]. destruct l as [|d' l']; [done|].
  rewrite IH by done. apply Forall_cons in Hl as [Hd' _].
  rewrite decide_True by congruence. done.
Qed.

(** Successive calls for one partition and medium count upwards from the
    index of the first call, so that, with the candidates all of one
    availability level, request number [j] is offered the candidate at
    position [(c0 + j) mod K] first, [K] being the number of candidates: the
    first choice goes round the stores in turn. *)
Theorem successive_placements_take_turns
    (times : list Z) (partition_id : Z) (m : TStorageMedium) (st : PlacementState)
    (dir_infos : list DirInfo) (lv : DiskRemainingLevel) (c0 : Z) (j : nat) :
  (0 < capacity (_create_tablet_idx_lru_cache st))%nat →
  Forall (λ d, available_level d = lv) dir_infos →
  dir_infos ≠ [] →
  Z.of_nat (length dir_infos) ≤ 2 ^ 63 →
  head (next_disk_indices times partition_id m st) = Some c0 →
  0 ≤ c0 →
  c0 + Z.of_nat (length times) ≤ INT_MAX + 1 →
  (j < length times)%nat →
  next_disk_indices times partition_id m st !! j = Some (c0 + Z.of_nat j)
  ∧ head (get_round_robin_stores (c0 + Z.of_nat j) dir_infos [])
    = data_dir <$> dir_infos !! Z.to_nat ((c0 + Z.of_nat j) `mod` Z.of_nat (length dir_infos)).
Proof.
  intros Hcap Hlv Hne Hlen Hhead H0 Hmax Hj.
  split.
  - destruct times as [|now_ms times]; [done|].
    cbn [next_disk_indices] in *.
    pose proof (next_disk_index_cached now_ms partition_id m st Hcap) as Hstep.
    destruct (_get_and_set_next_disk_index now_ms partition_id m st) as [c1 st1].
    cbv zeta in Hstep. simpl in Hstep. destruct Hstep as (Hcap1 & Hc1 & _).
    simpl in Hhead. injection Hhead as ->. simpl in Hmax, Hj.
    destruct j as [|j]; [simpl; f_equal; lia|]. simpl.
    rewrite (next_disk_indices_from times partition_id m st1 (c0 + 1)); [| lia | | lia | lia].
    + rewrite list_lookup_fmap, lookup_seq_lt by lia. simpl. f_equal. lia.
    + rewrite Hc1. f_equal. unfold INT_MAX in Hmax.
      rewrite wrap32_id by (unfold in_int, INT_MIN, INT_MAX; lia). lia.
  - unfold get_round_robin_stores.
    rewrite RoundRobinProofs.round_robin_from_groups; [| lia | unfold INT_MAX in Hmax; lia | lia].
    rewrite drop_0, (level_groups_single _ lv) by done. simpl.
    rewrite app_nil_r, head_lookup, list_lookup_fmap.
    assert (0 < length dir_infos)%nat by (destruct dir_infos; [done|simpl; lia]).
    rewrite lookup_rotate_r by lia. unfold rotate_nat_add.
    do 3 f_equal. rewrite Z2Nat.id by lia. f_equal. lia.
Qed.

Lemma successive_placements_take_turns_witness :
  next_disk_indices [0; 5; 9] 7 HDD StorageSpecs.fresh_placement !! 2%nat = Some 3
  ∧ head (get_round_robin_stores 3
            [mkDirInfo "/d1" LOW; mkDirInfo "/d2" LOW] [])
    = Some "/d2"%string.
Proof.
  apply (successive_placements_take_turns [0; 5; 9] 7 HDD StorageSpecs.fresh_placement
           [mkDirInfo "/d1" LOW; mkDirInfo "/d2" LOW] LOW 1 2).
  - simpl. lia.
  - repeat constructor.
  - done.
  - simpl. lia.
  - reflexivity.
  - lia.
  - simpl. unfold INT_MAX. lia.
  - simpl. lia.
Defined.

End PlacementSequenceProofs.

(** ** Candidate stores *)

Module CandidateStoresProofs.
Import MachineInt StorageEngine StorageEngineStores.

Lemma medium_types_fold store_map : ∀ types : gset TStorageMedium,
  foldl (λ (types : gset TStorageMedium) d,
           if dir_is_used d then {[ dir_storage_medium d ]} ∪ types else types)
        types store_map
  = types ∪ list_to_set (dir_storage_medium <$> filter (λ d, dir_is_used d = true) store_map).
Proof.
  induction store_map as [|d l IH]; intros types; simpl; [set_solver|].
  rewrite IH, filter_cons. case_decide as Hu.
  - rewrite Hu. csimpl. set_solver.
  - destruct (dir_is_used d); done.
Qed.

Lemma medium_type_count_one store_map d :
  d ∈ store_map → dir_is_used d = true →
  _update_storage_medium_type_count store_map = 1%nat
  ↔ ∀ d', d' ∈ store_map → dir_is_used d' = true →
          dir_storage_medium d' = dir_storage_medium d.
Proof.
  intros Hd Hused. unfold _update_storage_medium_type_count.
  rewrite medium_types_fold, union_empty_l_L.
  set (S := list_to_set _ : gset TStorageMedium).
  assert (HS : ∀ m, m ∈ S ↔ ∃ d', d' ∈ store_map ∧ dir_is_used d' = true
                                  ∧ dir_storage_medium d' = m).
  { intros m. unfold S. rewrite elem_of_list_to_set, list_elem_of_fmap.
    split.
    - intros (d' & -> & Hd'). apply list_elem_of_filter in Hd' as [? ?]. by exists d'.
    - intros (d' & ? & ? & <-). exists d'. split; [done|]. by apply list_elem_of_filter. }
  split.
  - intros Hsize d' Hd' Hused'.
    assert (dir_storage_medium d' ∈ S) as H1 by (apply HS; by exists d').
    assert (dir_storage_medium d ∈ S) as H2 by (apply HS; by exists d).
    by apply (size_singleton_inv S).
  - intros Hall. assert (S = {[ dir_storage_medium d ]}) as ->; [|apply size_singleton].
    apply set_eq. intros m. rewrite HS, elem_of_singleton. split.
    + intros (d' & ? & ? & <-). by apply Hall.
    + intros ->. by exists d.
Qed.

Lemma candidate_stores_fold count medium store_map : ∀ dir_infos,
  _get_candidate_stores count medium store_map dir_infos
  = dir_infos ++
    ((λ d, {| data_dir := dir_path d; available_level := get_available_level (usage0 d) |})
     <$> filter (λ d, dir_is_used d = true
                      ∧ (count = 1%nat ∨ dir_storage_medium d = medium)
                      ∧ reach_capacity_limit0 d = false) store_map).
Proof.
  induction store_map as [|d l IH]; intros dir_infos; simpl; [by rewrite app_nil_r|].
  unfold _get_candidate_stores in *. simpl. rewrite IH, filter_cons.
  destruct (dir_is_used d) eqn:Hu; [|rewrite decide_False by (intros (? & _); done); done].
  destruct (reach_capacity_limit0 d) eqn:Hr.
  { rewrite andb_false_r, decide_False by (intros (_ & _ & ?); done). done. }
  rewrite andb_true_r.
  destruct (decide (count = 1%nat ∨ dir_storage_medium d = medium)) as [Hm|Hm].
  - rewrite decide_True by done.
    assert (bool_decide (count = 1%nat) || bool_decide (dir_storage_medium d = medium) = true) as ->.
    { destruct Hm; [rewrite (bool_decide_eq_true_2 (count = 1%nat)) by done; done|].
      rewrite (bool_decide_eq_true_2 (dir_storage_medium d = medium)) by done.
      by rewrite orb_true_r. }
    csimpl. by rewrite <- app_assoc.
  - rewrite decide_False by tauto.
    rewrite !bool_decide_eq_false_2 by tauto. done.
Qed.

(** The candidates that [_get_candidate_stores] collects, with the count of
    media that [_update_storage_medium_type_count] keeps, are the stores
    that are used and below the capacity limit and either have the medium
    asked for or the medium that every used store has: with one medium left
    the medium of the request is not looked at.  Each candidate carries the
    availability level of its usage. *)
Theorem get_candidate_stores_usable
    (store_map : list DataDir) (storage_medium : TStorageMedium) (info : DirInfo) :
  info ∈ _get_candidate_stores (_update_storage_medium_type_count store_map)
           storage_medium store_map []
  ↔ ∃ d, d ∈ store_map
         ∧ dir_is_used d = true
         ∧ reach_capacity_limit0 d = false
         ∧ (dir_storage_medium d = storage_medium
            ∨ ∀ d', d' ∈ store_map → dir_is_used d' = true →
                    dir_storage_medium d' = dir_storage_medium d)
         ∧ info = {| data_dir := dir_path d;
                     available_level := get_available_level (usage0 d) |}.
Proof.
  rewrite candidate_stores_fold, app_nil_l, list_elem_of_fmap.
  split.
  - intros (d & -> & Hd). apply list_elem_of_filter in Hd as [(Hu & Hm & Hr) Hd].
    exists d. repeat split; try done.
    destruct Hm as [Hone|Hm]; [right|by left].
    by apply (medium_type_count_one store_map d).
  - intros (d & Hd & Hu & Hr & Hm & ->). exists d. split; [done|].
    apply list_elem_of_filter. split; [|done]. repeat split; try done.
    destruct Hm as [Hm|Hall]; [by right|left].
    by apply (medium_type_count_one store_map d).
Qed.

End CandidateStoresProofs.

(** ** Cluster id of the stores *)

Module ClusterIdProofs.
Import MachineInt StorageEngine StorageEngineStores.

Lemma check_stores_agree stores : ∀ c all_exist c' all_exist',
  check_stores stores c all_exist = inr (c', all_exist') →
  (c ≠ -1 → c' = c)
  ∧ ∀ s, s ∈ stores → cluster_id_incomplete s = false →
         cluster_id s = -1 ∨ cluster_id s = c'.
Proof.
  induction stores as [|s rest IH]; intros c all_exist c' all_exist' Hrun; simpl in Hrun.
  - injection Hrun as <- <-. split; [done|]. intros s Hs. by apply elem_of_nil in Hs.
  - destruct (cluster_id_incomplete s) eqn:Hinc.
    { destruct (IH _ _ _ _ Hrun) as [Hc Hall]. split; [done|].
      intros s' [->|Hs']%elem_of_cons Hs'c; [congruence|by apply Hall]. }
    case_bool_decide as Hsame.
    { destruct (IH _ _ _ _ Hrun) as [Hc Hall]. split; [done|].
      intros s' [->|Hs']%elem_of_cons Hs'c; [|by apply Hall].
      destruct (decide (c = -1)) as [->|Hne]; [by left|right].
      rewrite Hsame. symmetry. by apply Hc. }
    case_bool_decide as Hunset; [|done].
    destruct (IH _ _ _ _ Hrun) as [Hc Hall]. split; [done|].
    intros s' [->|Hs']%elem_of_cons Hs'c; [|by apply Hall].
    right. symmetry. apply Hc. congruence.
Qed.

Lemma judge_effective c st r st' :
  _judge_and_update_effective_cluster_id c st = (r, st') →
  cluster_stores st' = cluster_stores st
  ∧ _is_all_cluster_id_exist st' = _is_all_cluster_id_exist st
  ∧ (_effective_cluster_id st ≠ -1 → _effective_cluster_id st' = _effective_cluster_id st)
  ∧ (r = ClusterOK → c = -1 ∨ c = _effective_cluster_id st')
  ∧ (r ≠ ClusterOK → st' = st ∧ c ≠ -1 ∧ _effective_cluster_id st ≠ -1
                     ∧ c ≠ _effective_cluster_id st).
Proof.
  unfold _judge_and_update_effective_cluster_id.
  repeat case_bool_decide; simpl; intros [= <- <-]; simpl; repeat split; try done;
    try tauto; try (intros; congruence); try (by left); try (by right).
Qed.

(** [_check_all_root_path_cluster_id] never changes an effective cluster id
    that is set.  When it returns OK, every store whose cluster id is
    complete holds either [-1] or the effective cluster id, and if an
    effective id is known the flag [_is_all_cluster_id_exist] is set.  Two
    complete stores that hold different ids, neither of them [-1], make it
    return [Corruption] with the stores untouched. *)
Theorem check_all_root_path_cluster_id_agrees
    (store_set_cluster_id : Z → StoreClusterId → string + StoreClusterId)
    (st st' : ClusterIdState) (r : ClusterStatus) :
  _check_all_root_path_cluster_id store_set_cluster_id st = (r, st') →
  (_effective_cluster_id st ≠ -1 → _effective_cluster_id st' = _effective_cluster_id st)
  ∧ (r = ClusterOK →
     (∀ s, s ∈ cluster_stores st → cluster_id_incomplete s = false →
           cluster_id s = -1 ∨ cluster_id s = _effective_cluster_id st')
     ∧ (_effective_cluster_id st' ≠ -1 → _is_all_cluster_id_exist st' = true))
  ∧ (∀ s1 s2, s1 ∈ cluster_stores st → s2 ∈ cluster_stores st →
       cluster_id_incomplete s1 = false → cluster_id_incomplete s2 = false →
       cluster_id s1 ≠ -1 → cluster_id s2 ≠ -1 → cluster_id s1 ≠ cluster_id s2 →
       (∃ one other, r = Corruption one other)
       ∧ cluster_stores st' = cluster_stores st).
Proof.
  unfold _check_all_root_path_cluster_id. intros Hrun.
  destruct (check_stores (cluster_stores st) (-1) (_is_all_cluster_id_exist st))
    as [[[one other] all_exist]|[c all_exist]] eqn:Hloop.
  { injection Hrun as <- <-. simpl. split; [done|]. split; [done|].
    intros. split; [by eexists _, _|done]. }
  apply check_stores_agree in Hloop as [_ Hagree].
  assert (Hdiff : ∀ s1 s2, s1 ∈ cluster_stores st → s2 ∈ cluster_stores st →
       cluster_id_incomplete s1 = false → cluster_id_incomplete s2 = false →
       cluster_id s1 ≠ -1 → cluster_id s2 ≠ -1 → cluster_id s1 ≠ cluster_id s2 → False).
  { intros s1 s2 H1 H2 Hc1 Hc2 Hn1 Hn2 Hne.
    destruct (Hagree s1 H1 Hc1), (Hagree s2 H2 Hc2); congruence. }
  destruct (_judge_and_update_effective_cluster_id c _) as [r2 st2] eqn:Hjudge.
  apply judge_effective in Hjudge as (Hstores & Hflag & Hkeep & Hok & Hbad). simpl in *.
  destruct r2.
  - specialize (Hok eq_refl).
    assert (Hag2 : ∀ s, s ∈ cluster_stores st → cluster_id_incomplete s = false →
              cluster_id s = -1 ∨ cluster_id s = _effective_cluster_id st2).
    { intros s Hs Hsc. destruct (Hagree s Hs Hsc) as [?|Hs']; [by left|].
      destruct Hok as [Hc| <-]; [left; congruence|by right]. }
    destruct (negb (bool_decide (_effective_cluster_id st2 = -1))
              && negb (_is_all_cluster_id_exist st2)) eqn:Hset.
    + unfold set_cluster_id in Hrun.
      destruct (set_cluster_id_stores _ _ _) as [[err|] stores'];
        injection Hrun as <- <-; simpl.
      * split; [done|]. split; [done|]. intros. exfalso. eauto.
      * split; [intros Hne; rewrite <- Hkeep; done|]. split; [|intros; exfalso; eauto].
        intros _. split; [done|done].
    + injection Hrun as <- <-. split; [done|]. split; [|intros; exfalso; eauto].
      intros _. split; [done|]. intros Hne.
      apply andb_false_iff in Hset as [Hset|Hset].
      * apply negb_false_iff, bool_decide_eq_true in Hset. done.
      * by apply negb_false_iff in Hset.
  - injection Hrun as <- <-. split; [done|]. split; [done|]. intros. exfalso. eauto.
  - injection Hrun as <- <-. split; [done|]. split; [done|]. intros. exfalso. eauto.
Qed.

Lemma check_all_root_path_cluster_id_agrees_witness :
  _effective_cluster_id
    (_check_all_root_path_cluster_id
       (λ c s, inr {| cluster_id := c; cluster_id_incomplete := false |})
       {| cluster_stores := [ {| cluster_id := -1; cluster_id_incomplete := true |};
                              {| cluster_id := 7; cluster_id_incomplete := false |} ];
          _effective_cluster_id := -1;
          _is_all_cluster_id_exist := true |}).2 = 7
  ∧ _is_all_cluster_id_exist
      (_check_all_root_path_cluster_id
         (λ c s, inr {| cluster_id := c; cluster_id_incomplete := false |})
         {| cluster_stores := [ {| cluster_id := -1; cluster_id_incomplete := true |};
                                {| cluster_id := 7; cluster_id_incomplete := false |} ];
            _effective_cluster_id := -1;
            _is_all_cluster_id_exist := true |}).2 = true.
Proof.
  destruct (check_all_root_path_cluster_id_agrees
              (λ c s, inr {| cluster_id := c; cluster_id_incomplete := false |})
              {| cluster_stores := [ {| cluster_id := -1; cluster_id_incomplete := true |};
                                     {| cluster_id := 7; cluster_id_incomplete := false |} ];
                 _effective_cluster_id := -1;
                 _is_all_cluster_id_exist := true |}
              _ ClusterOK eq_refl) as (_ & Hok & _).
  destruct (Hok eq_refl) as [Hagree Hflag].
  destruct (Hagree {| cluster_id := 7; cluster_id_incomplete := false |}) as [H|H].
  - apply list_elem_of_further, list_elem_of_here.
  - reflexivity.
  - discriminate H.
  - split; [symmetry; exact H|]. apply Hflag. rewrite <- H. done.
Defined.

End ClusterIdProofs.

(** ** Report listeners *)

Module ReportListenerProofs.
Import StorageEngine StorageEngineStores StorageStoresSpecs.

Lemma erase_first_elem_of (x y : ReportWorkerPtr) l :
  NoDup l → x ∈ erase_first y l ↔ x ∈ l ∧ x ≠ y.
Proof.
  induction 1 as [|z l Hz Hl IH]; simpl; [set_solver|].
  case_decide as Hzy.
  - subst z. rewrite elem_of_cons. split; [|intros [[?|?] ?]; done].
    intros Hx. split; [by right|]. intros ->. done.
  - rewrite !elem_of_cons, IH. split; [intros [->|[? ?]]; auto|].
    intros [[->|?] ?]; auto.
Qed.

Lemma erase_first_NoDup (y : ReportWorkerPtr) l : NoDup l → NoDup (erase_first y l).
Proof.
  induction 1 as [|z l Hz Hl IH]; simpl; [constructor|].
  case_decide; [done|]. constructor; [|done].
  rewrite erase_first_elem_of by done. intros [? ?]. done.
Qed.

Lemma listener_call_NoDup ls c : NoDup ls → NoDup (listener_call ls c).
Proof.
  intros Hnd. destruct c as [l|l]; simpl.
  - unfold register_report_listener. case_bool_decide; [done|].
    apply NoDup_app. split; [done|]. split; [|apply NoDup_singleton].
    intros x Hx ->%list_elem_of_singleton. done.
  - unfold deregister_report_listener. case_bool_decide; [|done].
    by apply erase_first_NoDup.
Qed.

Lemma listener_call_elem_of ls c x :
  NoDup ls →
  x ∈ listener_call ls c ↔
  match c with
  | Register l => x = l ∨ x ∈ ls
  | Deregister l => x ≠ l ∧ x ∈ ls
  end.
Proof.
  intros Hnd. destruct c as [l|l]; simpl.
  - unfold register_report_listener. case_bool_decide; [set_solver|].
    rewrite elem_of_app, list_elem_of_singleton. tauto.
  - unfold deregister_report_listener. case_bool_decide as Hin.
    + rewrite erase_first_elem_of by done. tauto.
    + split; [|tauto]. intros Hx. split; [|done]. intros ->. done.
Qed.

Lemma listener_calls_inv calls : ∀ ls,
  NoDup ls →
  NoDup (foldl listener_call ls calls)
  ∧ ∀ x, x ∈ foldl listener_call ls calls ↔
         match last (filter (λ c, call_subject c = x) calls) with
         | Some (Register _) => True
         | Some (Deregister _) => False
         | None => x ∈ ls
         end.
Proof.
  induction calls as [|c calls IH] using rev_ind; intros ls Hnd; [done|].
  rewrite foldl_app. simpl. destruct (IH ls Hnd) as [Hnd' Hin]. split.
  - by apply listener_call_NoDup.
  - intros x. rewrite listener_call_elem_of by done.
    rewrite filter_app, filter_cons, filter_nil.
    case_decide as Hc.
    + rewrite last_snoc. destruct c as [l|l]; simpl in Hc; subst; [tauto|].
      tauto.
    + rewrite app_nil_r. rewrite <- Hin.
      destruct c as [l|l]; simpl in Hc.
      * split; [intros [->|?]; done|tauto].
      * split; [tauto|]. intros ?. split; [congruence|done].
Qed.

Lemma notify_listeners_all ls : notify_listeners ls = ls.
Proof.
  unfold notify_listeners.
  assert (H : ∀ acc, foldl (λ notified listener, notified ++ [listener]) acc ls = acc ++ ls).
  { induction ls as [|x l IH]; intros acc; simpl; [by rewrite app_nil_r|].
    rewrite IH. by rewrite <- app_assoc. }
  by rewrite H.
Qed.

Lemma notify_listener_fold (name_of : ReportWorkerPtr → string) (name : string)
    (ls : list ReportWorkerPtr) : ∀ found notified,
  foldl (λ '(found, notified) listener,
           if bool_decide (name_of listener = name)
           then (true, notified ++ [listener])
           else (found, notified))
        (found, notified) ls
  = (found || bool_decide (filter (λ l, name_of l = name) ls ≠ []),
     notified ++ filter (λ l, name_of l = name) ls).
Proof.
  induction ls as [|x l IH]; intros found notified.
  - simpl. by rewrite orb_false_r, app_nil_r.
  - cbn [foldl]. cbv beta iota. rewrite filter_cons.
    destruct (decide (name_of x = name)) as [Hx|Hx].
    + rewrite (bool_decide_eq_true_2 _ Hx), IH. simpl. rewrite orb_true_r.
      by rewrite <- app_assoc.
    + rewrite (bool_decide_eq_false_2 _ Hx), IH. done.
Qed.

(** After any calls of [register_report_listener] and
    [deregister_report_listener] on an engine without listeners,
    [notify_listeners] notifies the workers whose latest call was a
    registration, each of them once; [notify_listener] notifies those of
    them that have the name, and returns whether there was one. *)
Theorem report_listeners_notified_once
    (calls : list ListenerCall) (name_of : ReportWorkerPtr → string) (name : string) :
  let listeners := foldl listener_call [] calls in
  NoDup (notify_listeners listeners)
  ∧ (∀ l, l ∈ notify_listeners listeners ↔ registered l calls)
  ∧ (notify_listener name_of name listeners).2
    = filter (λ l, name_of l = name) (notify_listeners listeners)
  ∧ ((notify_listener name_of name listeners).1 = true
     ↔ ∃ l, registered l calls ∧ name_of l = name).
Proof.
  cbv zeta. rewrite notify_listeners_all.
  destruct (listener_calls_inv calls [] (NoDup_nil_2 (A:=ReportWorkerPtr))) as [Hnd Hin].
  assert (Hreg : ∀ l, l ∈ foldl listener_call [] calls ↔ registered l calls).
  { intros l. rewrite Hin. unfold registered.
    destruct (last (filter _ calls)) as [[l'|l']|] eqn:Hlast.
    - split; [intros _|done]. f_equal. f_equal.
      apply last_Some_elem_of in Hlast. apply list_elem_of_filter in Hlast as [? _]. done.
    - split; [done|]. intros [=].
    - split; [intros H; by apply elem_of_nil in H|done]. }
  split; [done|]. split; [done|].
  unfold notify_listener. rewrite notify_listener_fold. simpl.
  split; [done|].
  rewrite bool_decide_eq_true. split.
  - intros Hne. destruct (filter _ _) as [|l rest] eqn:Hf; [done|].
    assert (l ∈ filter (λ l, name_of l = name) (foldl listener_call [] calls)) as Hl
      by (rewrite Hf; left).
    apply list_elem_of_filter in Hl as [? Hl]. exists l. split; [by apply Hreg|done].
  - intros (l & Hl & Hn) Hnil. apply Hreg in Hl.
    assert (l ∈ filter (λ l, name_of l = name) (foldl listener_call [] calls)) as Hl'
      by (by apply list_elem_of_filter).
    rewrite Hnil in Hl'. by apply elem_of_nil in Hl'.
Qed.

End ReportListenerProofs.

(** ** The rowset registries under any calls *)

Module RowsetRegistryProofs.
Import StorageEngine StorageSpecs StorageEngineStores StorageStoresSpecs.
Import UnusedRowsetProofs.

Lemma start_delete_unused_rowset_well_keyed now_at st :
  well_keyed st → well_keyed (start_delete_unused_rowset now_at st).1.
Proof.
  intros Hwk. unfold start_delete_unused_rowset.
  pose proof (sweep_loop_inv now_at st Hwk) as Hinv.
  set (loop := foldl (sweep_entry st now_at) _ _) in *.
  destruct (foldl (remove_entry (rowsets st)) _ _) as [tablets' disk'].
  simpl. apply (sweep_inv_keyed now_at st Hwk _ _ Hinv).
Qed.

Lemma gc_call_well_keyed st c : well_keyed st → well_keyed (gc_call st c).
Proof.
  intros Hwk. destruct c as [rowset|rs|rs_id|now_at]; simpl.
  - by apply add_unused_rowset_well_keyed.
  - by apply add_quering_rowset_well_keyed.
  - destruct Hwk as [Hu Hq]. split; [done|]. simpl.
    by apply evict_querying_rowset_keyed.
  - by apply start_delete_unused_rowset_well_keyed.
Qed.

Lemma gc_call_rowset_id st c q :
  rowset_id (rowsets (gc_call st c) q) = rowset_id (rowsets st q).
Proof.
  destruct c as [[p|]|rs|rs_id|now_at]; simpl; try done.
  - unfold add_unused_rowset. destruct (_unused_rowsets st !! _); [done|]. simpl.
    case_decide; [by subst|done].
  - unfold add_quering_rowset. by destruct (_querying_rowsets st !! _).
  - unfold start_delete_unused_rowset.
    destruct (foldl (remove_entry (rowsets st)) _ _) as [tablets' disk']. done.
Qed.

Lemma gc_call_disk st c id :
  well_keyed st →
  id ∈ disk st → id ∉ disk (gc_call st c) →
  ∃ p, _unused_rowsets st !! id = Some p ∧ rowset_id (rowsets st p) = id.
Proof.
  intros Hwk Hin Hout. destruct c as [[p|]|rs|rs_id|now_at]; simpl in Hout; try done.
  - unfold add_unused_rowset in Hout.
    by destruct (_unused_rowsets st !! _) in Hout.
  - unfold add_quering_rowset in Hout.
    by destruct (_querying_rowsets st !! _) in Hout.
  - unfold start_delete_unused_rowset in Hout.
    pose proof (sweep_loop_inv now_at st Hwk) as [_ _ Hc].
    set (loop := foldl (sweep_entry st now_at) _ _) in *.
    pose proof (remove_fold_disk (rowsets st) (sl_copy loop) (tablets st, disk st)) as Hd.
    destruct (foldl (remove_entry (rowsets st)) _ _) as [tablets' disk'].
    simpl in *. subst disk'.
    assert (id ∈ (list_to_set ((λ p, rowset_id (rowsets st p)) <$> sl_copy loop)
                  : gset RowsetId)) as Hid.
    { destruct (decide (id ∈ (list_to_set ((λ p, rowset_id (rowsets st p))
                                <$> sl_copy loop) : gset RowsetId))); [done|].
      exfalso. apply Hout. by apply elem_of_difference. }
    apply elem_of_list_to_set, list_elem_of_fmap in Hid as (p & -> & Hp).
    apply Hc in Hp as (k & _ & Hk & _).
    exists p. destruct Hwk as [Hu _]. rewrite (Hu _ _ Hk) in *. done.
Qed.

(** Whatever calls of [add_unused_rowset], [add_quering_rowset],
    [evict_querying_rowset] and [start_delete_unused_rowset] are made, the
    two registries go on filing every rowset under its own id, and a file
    that is on disk before a call and gone after it belongs to a rowset that
    the unused-rowset registry held when the call was made: the collector
    deletes no file of a rowset that was not handed to
    [add_unused_rowset]. *)
Theorem rowset_registries_well_keyed (calls : list GcCall) (st : GcState) :
  well_keyed st →
  well_keyed (foldl gc_call st calls)
  ∧ ∀ (c : GcCall) (id : RowsetId),
      id ∈ disk (foldl gc_call st calls) →
      id ∉ disk (gc_call (foldl gc_call st calls) c) →
      check_rowset_id_in_unused_rowsets id (foldl gc_call st calls) = true.
Proof.
  intros Hwk.
  assert (Hall : well_keyed (foldl gc_call st calls)).
  { induction calls as [|c cs IH] using rev_ind; [done|].
    rewrite foldl_app. simpl. by apply gc_call_well_keyed. }
  split; [apply Hall|].
  intros c id Hin Hout.
  destruct (gc_call_disk _ c id Hall Hin Hout) as (p & Hp & _).
  unfold check_rowset_id_in_unused_rowsets. apply bool_decide_eq_true. by exists p.
Qed.

Lemma rowset_registries_well_keyed_witness :
  well_keyed (foldl gc_call pinned_state [EvictQuerying 10; DeleteUnused (λ _, 200)]).
Proof.
  apply (rowset_registries_well_keyed [EvictQuerying 10; DeleteUnused (λ _, 200)]
           pinned_state).
  apply pinned_state_well_keyed.
Defined.

(** A rowset that nobody else holds, handed to [add_unused_rowset] and past
    its delayed expiry at the next [start_delete_unused_rowset], is taken by
    that sweep: it is registered after the first call and gone from the
    registry after the second; if it is local its files are removed, and if
    it is not they are left alone. *)
Theorem add_unused_rowset_then_sweep
    (now_at : RowsetId → Z) (st st2 : GcState) (p : RowsetPtr) (batch : list RowsetPtr) :
  well_keyed st →
  check_rowset_id_in_unused_rowsets (rowset_id (rowsets st p)) st = false →
  get_quering_rowset (rowset_id (rowsets st p)) st = None →
  other_refs st p = 0%nat →
  delayed_expired_timestamp (rowsets st p) < now_at (rowset_id (rowsets st p)) →
  start_delete_unused_rowset now_at (add_unused_rowset (Some p) st) = (st2, batch) →
  check_rowset_id_in_unused_rowsets (rowset_id (rowsets st p))
    (add_unused_rowset (Some p) st) = true
  ∧ check_rowset_id_in_unused_rowsets (rowset_id (rowsets st p)) st2 = false
  ∧ (is_local (rowsets st p) = true →
     p ∈ batch ∧ (rowset_id (rowsets st p) ∉ disk st2))
  ∧ (is_local (rowsets st p) = false →
     (p ∉ batch)
     ∧ (rowset_id (rowsets st p) ∈ disk st → rowset_id (rowsets st p) ∈ disk st2)).
Proof.
  intros Hwk Hfresh Hquery Hrefs Hexp Hrun.
  set (id := rowset_id (rowsets st p)) in *.
  set (st1 := add_unused_rowset (Some p) st) in *.
  pose proof (add_unused_rowset_well_keyed (Some p) st Hwk) as Hwk1. fold st1 in Hwk1.
  unfold check_rowset_id_in_unused_rowsets in Hfresh.
  apply bool_decide_eq_false in Hfresh.
  assert (Hnone : _unused_rowsets st !! id = None).
  { destruct (_unused_rowsets st !! id) eqn:E; [|done]. exfalso. apply Hfresh. by eexists. }
  assert (Hst1 : st1 =
    {| rowsets := λ q, if decide (q = p)
                       then {| rowset_id := id; need_delete_file := true;
                               delayed_expired_timestamp :=
                                 delayed_expired_timestamp (rowsets st p);
                               is_local := is_local (rowsets st p);
                               rs_tablet_id := rs_tablet_id (rowsets st p) |}
                       else rowsets st q;
       _unused_rowsets := <[id := p]> (_unused_rowsets st);
       _querying_rowsets := _querying_rowsets st;
       other_refs := other_refs st;
       tablets := tablets st;
       disk := disk st |}).
  { unfold st1, add_unused_rowset. fold id. by rewrite Hnone. }
  assert (Hobj : rowsets st1 p =
            {| rowset_id := id; need_delete_file := true;
               delayed_expired_timestamp := delayed_expired_timestamp (rowsets st p);
               is_local := is_local (rowsets st p);
               rs_tablet_id := rs_tablet_id (rowsets st p) |}).
  { rewrite Hst1. simpl. by rewrite decide_True. }
  assert (Hlk : _unused_rowsets st1 !! id = Some p).
  { rewrite Hst1. simpl. by rewrite lookup_insert_eq. }
  assert (Hsel : gc_selected now_at st1 id p).
  { split; [|split].
    - unfold use_count_of, use_count. simpl.
      rewrite (holders_keyed_lookup (rowsets st1) _ id p) by (first [done|apply Hwk1]).
      rewrite (holders_keyed (rowsets st1)) by apply Hwk1.
      rewrite Hobj. simpl. rewrite decide_False.
      + rewrite Hst1. simpl. lia.
      + rewrite Hst1. simpl. unfold get_quering_rowset in Hquery. by rewrite Hquery.
    - by rewrite Hobj.
    - by rewrite Hobj. }
  unfold start_delete_unused_rowset in Hrun.
  pose proof (sweep_loop_inv now_at st1 Hwk1) as [Hu _ Hc].
  set (loop := foldl (sweep_entry st1 now_at) _ _) in *.
  pose proof (remove_fold_disk (rowsets st1) (sl_copy loop) (tablets st1, disk st1)) as Hd.
  destruct (foldl (remove_entry (rowsets st1)) _ _) as [tablets' disk'].
  injection Hrun as <- <-. simpl in Hd. subst disk'.
  split; [|split; [|split]].
  - unfold check_rowset_id_in_unused_rowsets. apply bool_decide_eq_true. by exists p.
  - unfold check_rowset_id_in_unused_rowsets. apply bool_decide_eq_false. simpl.
    rewrite Hu, Hlk. rewrite decide_True; [by intros [? ?]|].
    split; [|done]. apply elem_of_dom. by exists p.
  - intros Hlocal.
    assert (Hp : p ∈ sl_copy loop).
    { apply Hc. exists id. split; [apply elem_of_dom; by exists p|].
      split; [done|]. split; [done|]. by rewrite Hobj. }
    split; [done|]. simpl. intros Hin. apply elem_of_difference in Hin as [_ Hin].
    apply Hin. apply elem_of_list_to_set, list_elem_of_fmap. exists p.
    split; [by rewrite Hobj|done].
  - intros Hremote. split.
    + intros Hp. apply Hc in Hp as (k & _ & _ & _ & Hl). rewrite Hobj in Hl. simpl in Hl.
      congruence.
    + intros Hin. simpl. apply elem_of_difference. split; [by rewrite Hst1|].
      intros Hid. apply elem_of_list_to_set, list_elem_of_fmap in Hid as (q & Hq & Hqin).
      apply Hc in Hqin as (k & _ & Hk & _ & Hl).
      assert (k = id) as ->.
      { pose proof (proj1 Hwk1 _ _ Hk) as Hkq. congruence. }
      assert (q = p) as -> by congruence.
      rewrite Hobj in Hl. simpl in Hl. congruence.
Qed.

Lemma add_unused_rowset_then_sweep_witness :
  let st := {| rowsets := λ _, pinned_rowset;
               _unused_rowsets := ∅; _querying_rowsets := ∅;
               other_refs := λ _, 0%nat; tablets := ∅; disk := {[ 10 ]} |} in
  (0%nat ∈ (start_delete_unused_rowset (λ _, 200) (add_unused_rowset (Some 0%nat) st)).2)
  ∧ 10 ∉ disk (start_delete_unused_rowset (λ _, 200) (add_unused_rowset (Some 0%nat) st)).1.
Proof.
  cbv zeta.
  destruct (add_unused_rowset_then_sweep (λ _, 200)
    {| rowsets := λ _, pinned_rowset;
       _unused_rowsets := ∅; _querying_rowsets := ∅;
       other_refs := λ _, 0%nat; tablets := ∅; disk := {[ 10 ]} |}
    (start_delete_unused_rowset (λ _, 200)
       (add_unused_rowset (Some 0%nat)
          {| rowsets := λ _, pinned_rowset;
             _unused_rowsets := ∅; _querying_rowsets := ∅;
             other_refs := λ _, 0%nat; tablets := ∅; disk := {[ 10 ]} |})).1
    0%nat
    (start_delete_unused_rowset (λ _, 200)
       (add_unused_rowset (Some 0%nat)
          {| rowsets := λ _, pinned_rowset;
             _unused_rowsets := ∅; _querying_rowsets := ∅;
             other_refs := λ _, 0%nat; tablets := ∅; disk := {[ 10 ]} |})).2)
    as (_ & _ & Hlocal & _).
  - split; intros k q Hk; simpl in Hk; by rewrite lookup_empty in Hk.
  - reflexivity.
  - reflexivity.
  - reflexivity.
  - simpl. lia.
  - by destruct (start_delete_unused_rowset _ _).
  - apply Hlocal. reflexivity.
Defined.

End RowsetRegistryProofs.

(** ** Placement indices stay in range *)

Module PlacementRangeProofs.
Import MachineInt MachineIntFacts StorageEngine StorageEngineStores StorageStoresSpecs.

Lemma next_index_in_range (x : Z) : 0 ≤ Z.max 0 (wrap32 (x + 1)) ≤ INT_MAX.
Proof.
  pose proof (wrap32_in_int (x + 1)) as [_ ?]. unfold INT_MAX in *. lia.
Qed.

Lemma cache_find_elem key es v :
  cache_find key es = Some v → (key, v) ∈ es.
Proof.
  induction es as [|[k v'] es IH]; [done|]. simpl.
  case_decide as Hk; [intros [= ->]; subst; left|intros ?; right; auto].
Qed.

Lemma get_and_set_in_range now_ms partition_id m st :
  cache_in_range st →
  0 ≤ (_get_and_set_next_disk_index now_ms partition_id m st).1 ≤ INT_MAX
  ∧ cache_in_range (_get_and_set_next_disk_index now_ms partition_id m st).2.
Proof.
  unfold cache_in_range. intros Hin. rewrite Forall_forall in Hin.
  unfold _get_and_set_next_disk_index, get_index.
  destruct (cache_lookup (get_key partition_id m) (_create_tablet_idx_lru_cache st))
    as [v|] eqn:Hlk; simpl.
  - apply cache_find_elem in Hlk. pose proof (Hin _ Hlk) as Hv. simpl in Hv.
    destruct (decide (idx v = -1)) as [?|_]; [lia|]. split; [done|].
    apply Forall_forall. intros e He. apply elem_of_take in He as (i & He & _).
    apply list_elem_of_lookup_2 in He.
    apply elem_of_cons in He as [->|He]; [apply next_index_in_range|].
    apply list_elem_of_filter in He as [_ He].
    apply elem_of_cons in He as [->|He]; [done|].
    apply list_elem_of_filter in He as [_ He]. by apply Hin.
  - destruct (decide (-1 = -1)) as [_|?]; [|done]. split; [apply next_index_in_range|].
    apply Forall_forall. intros e He. apply elem_of_take in He as (i & He & _).
    apply list_elem_of_lookup_2 in He.
    apply elem_of_cons in He as [->|He]; [apply next_index_in_range|].
    apply list_elem_of_filter in He as [_ He]. by apply Hin.
Qed.

(** The indices in the cache are never negative: they are so on an empty
    cache and every call keeps them so, which is what the assertion of
    [set_index] asks.  Hence every index that
    [_get_and_set_next_disk_index] returns, whatever calls were made
    before, lies between [0] and [INT_MAX], as the round robin over the
    stores needs it. *)
Theorem placement_indices_in_range
    (calls : list (Z * Z * TStorageMedium)) (st : PlacementState) :
  cache_in_range st →
  Forall (λ curr_index, 0 ≤ curr_index ≤ INT_MAX) (placement_calls calls st).1
  ∧ cache_in_range (placement_calls calls st).2.
Proof.
  revert st. induction calls as [|[[now_ms partition_id] m] calls IH]; intros st Hin.
  - split; [constructor|done].
  - cbn [placement_calls].
    destruct (get_and_set_in_range now_ms partition_id m st Hin) as [Hc Hin1].
    destruct (_get_and_set_next_disk_index now_ms partition_id m st) as [c st1].
    destruct (IH st1 Hin1) as [Hall Hin2].
    destruct (placement_calls calls st1) as [indices st2]. simpl in *.
    split; [by constructor|done].
Qed.

Lemma placement_indices_in_range_witness :
  Forall (λ curr_index, 0 ≤ curr_index ≤ INT_MAX)
    (placement_calls [(0, 7, HDD); (5, 7, HDD); (9, 8, SSD)]
       StorageSpecs.fresh_placement).1.
Proof.
  apply (placement_indices_in_range [(0, 7, HDD); (5, 7, HDD); (9, 8, SSD)]
           StorageSpecs.fresh_placement).
  constructor.
Defined.

End PlacementRangeProofs.

(** ** Broken paths *)

Module BrokenPathProofs.
Import StorageEngine StorageEngineStores.
Local Open Scope string_scope.

(** [add_broken_path] and [remove_broken_path] return whether the set
    changed, and the set then holds, or lacks, the path.  The configuration
    value is written only when the set is left non-empty: removing the only
    broken path leaves [broken_storage_path] as it was, so that a path added
    to an empty set and removed again is still named in the persisted
    value. *)
Theorem broken_path_last_removal_not_persisted
    (set_config_ok : bool) (path : string) (st : BrokenPathState) :
  ((add_broken_path set_config_ok path st).1 = negb (bool_decide (path ∈ _broken_paths st))
   ∧ path ∈ _broken_paths (add_broken_path set_config_ok path st).2)
  ∧ ((remove_broken_path set_config_ok path st).1 = bool_decide (path ∈ _broken_paths st)
     ∧ path ∉ _broken_paths (remove_broken_path set_config_ok path st).2)
  ∧ (_broken_paths st = {[ path ]} →
     remove_broken_path set_config_ok path st
     = (true, {| _broken_paths := ∅; broken_storage_path := broken_storage_path st |}))
  ∧ (_broken_paths st = ∅ →
     (remove_broken_path true path (add_broken_path true path st).2).2
     = {| _broken_paths := ∅; broken_storage_path := path +:+ ";" |}).
Proof.
  split; [|split; [|split]].
  - unfold add_broken_path. case_bool_decide as Hin; simpl; [done|].
    split; [done|]. unfold _persist_broken_paths. simpl.
    destruct (_ && _); simpl; set_solver.
  - unfold remove_broken_path. case_bool_decide as Hin; simpl; [|done].
    split; [done|]. unfold _persist_broken_paths. simpl.
    destruct (_ && _); simpl; set_solver.
  - intros Hset. unfold remove_broken_path. rewrite Hset.
    rewrite bool_decide_eq_true_2 by set_solver. simpl.
    unfold _persist_broken_paths. simpl.
    rewrite difference_diag_L, elements_empty. simpl. done.
  - intros Hset.
    assert (Hadd : (add_broken_path true path st).2
                   = {| _broken_paths := {[ path ]};
                        broken_storage_path := path +:+ ";" |}).
    { unfold add_broken_path. rewrite Hset.
      rewrite bool_decide_eq_false_2 by set_solver.
      cbn [negb snd]. unfold _persist_broken_paths.
      cbn [_broken_paths broken_storage_path].
      rewrite !union_empty_r_L, !elements_singleton.
      change (merge_sort string_le [path]) with [path]. cbn [foldl].
      change ("" +:+ (path +:+ ";")) with (path +:+ ";").
      assert (Hlen : (0 <? String.length (path +:+ ";"))%nat = true) by (by destruct path).
      rewrite Hlen. done. }
    rewrite Hadd. unfold remove_broken_path. cbn [_broken_paths].
    rewrite bool_decide_eq_true_2 by set_solver. cbn [Nat.ltb Nat.leb snd].
    unfold _persist_broken_paths. cbn [_broken_paths broken_storage_path].
    rewrite difference_diag_L, elements_empty. done.
Qed.

Lemma broken_path_last_removal_not_persisted_witness :
  remove_broken_path true "/data1"
    {| _broken_paths := {[ "/data1" ]}; broken_storage_path := "/data1;" |}
  = (true, {| _broken_paths := ∅; broken_storage_path := "/data1;" |}).
Proof.
  destruct (broken_path_last_removal_not_persisted true "/data1"
              {| _broken_paths := {[ "/data1" ]}; broken_storage_path := "/data1;" |})
    as (_ & _ & Hlast & _).
  apply Hlast. reflexivity.
Defined.

End BrokenPathProofs.

(** ** Low-priority compaction tasks *)

Module LowPriorityTaskProofs.
Import MachineInt MachineIntFacts StorageEngine StorageEngineStores.

(** With priority scheduling enabled, [_increase_low_priority_task_nums]
    succeeds exactly when the count of the dir is below
    [low_priority_compaction_task_num_per_disk], and then adds one to it: a
    count that is within the limit stays within it, the counts of the other
    dirs are left alone, and the [_decrease_low_priority_task_nums] that
    follows a successful increase restores the count. *)
Theorem low_priority_task_nums_bounded
    (cfg : TaskConfig) (dir : string) (nums : gmap string Z) :
  enable_compaction_priority_scheduling cfg = true →
  in_int (task_nums_of nums dir) →
  in_int (low_priority_compaction_task_num_per_disk cfg) →
  let n := task_nums_of nums dir in
  let r := _increase_low_priority_task_nums cfg dir nums in
  (r.1 = true ↔ n < low_priority_compaction_task_num_per_disk cfg)
  ∧ task_nums_of r.2 dir = (if r.1 then n + 1 else n)
  ∧ (n ≤ low_priority_compaction_task_num_per_disk cfg →
     task_nums_of r.2 dir ≤ low_priority_compaction_task_num_per_disk cfg)
  ∧ (∀ other, other ≠ dir → task_nums_of r.2 other = task_nums_of nums other)
  ∧ (r.1 = true → task_nums_of (_decrease_low_priority_task_nums cfg dir r.2) dir = n).
Proof.
  intros Hen Hn Hlim. cbv zeta.
  unfold _increase_low_priority_task_nums, _decrease_low_priority_task_nums.
  rewrite Hen. cbn [negb].
  unfold in_int, INT_MIN, INT_MAX in *.
  destruct (Z.ltb_spec (task_nums_of nums dir) (low_priority_compaction_task_num_per_disk cfg))
    as [Hlt|Hge]; cbn [fst snd].
  - rewrite (wrap32_id (task_nums_of nums dir + 1))
      by (unfold in_int, INT_MIN, INT_MAX; lia).
    assert (Hnew : task_nums_of (<[dir := task_nums_of nums dir + 1]> nums) dir
                   = task_nums_of nums dir + 1).
    { unfold task_nums_of at 1. by rewrite lookup_insert_eq. }
    rewrite Hnew.
    split; [done|]. split; [done|]. split; [lia|]. split.
    + intros other Hne. unfold task_nums_of. by rewrite lookup_insert_ne.
    + intros _. unfold task_nums_of at 1. rewrite lookup_insert_eq. simpl.
      rewrite wrap32_id by (unfold in_int, INT_MIN, INT_MAX; lia). lia.
  - assert (Hnew : task_nums_of (<[dir := task_nums_of nums dir]> nums) dir
                   = task_nums_of nums dir).
    { unfold task_nums_of at 1. by rewrite lookup_insert_eq. }
    rewrite Hnew.
    split; [split; [done|lia]|]. split; [done|]. split; [lia|]. split; [|done].
    intros other Hne. unfold task_nums_of. by rewrite lookup_insert_ne.
Qed.

Lemma low_priority_task_nums_bounded_witness :
  (_increase_low_priority_task_nums
     {| enable_compaction_priority_scheduling := true;
        low_priority_compaction_task_num_per_disk := 2 |}
     "/data1" {[ "/data1"%string := 2 ]}).1 = false.
Proof.
  destruct (low_priority_task_nums_bounded
              {| enable_compaction_priority_scheduling := true;
                 low_priority_compaction_task_num_per_disk := 2 |}
              "/data1" {[ "/data1"%string := 2 ]}) as (Hok & _).
  - reflexivity.
  - vm_compute. split; discriminate.
  - vm_compute. split; discriminate.
  - apply not_true_is_false. intros E.
    apply Hok in E. vm_compute in E. discriminate E.
Defined.

End LowPriorityTaskProofs.

(** ** Peer replicas *)

Module PeerReplicaProofs.
Import StorageEngine StorageEngineStores.

(** [get_peer_replica_info] hands out a replica exactly when
    [should_fetch_from_peer] says yes; the replica is the one recorded for
    the tablet, it is never the replica that the tablet itself is, and the
    token is the engine's. *)
Theorem peer_replica_info_matches_should_fetch (tablet_id : Z) (st : PeerState) :
  (is_Some (get_peer_replica_info tablet_id st) ↔ should_fetch_from_peer tablet_id st = true)
  ∧ ∀ replica token,
      get_peer_replica_info tablet_id st = Some (replica, token) →
      _peer_replica_infos st !! tablet_id = Some replica
      ∧ token = _token st
      ∧ ∃ local_replica, tablet_replica_id st !! tablet_id = Some local_replica
                         ∧ replica_id replica ≠ local_replica.
Proof.
  unfold get_peer_replica_info, should_fetch_from_peer.
  destruct (tablet_replica_id st !! tablet_id) as [local_replica|].
  2: { split; [split; [by intros [? ?]|done]|done]. }
  destruct (_peer_replica_infos st !! tablet_id) as [info|].
  2: { split; [split; [by intros [? ?]|done]|done]. }
  case_bool_decide as Hsame; simpl.
  - split; [split; [by intros [? ?]|done]|done].
  - split; [split; [done|by eexists]|].
    intros replica token [= <- <-]. split; [done|]. split; [done|]. by exists local_replica.
Qed.

End PeerReplicaProofs.

(** ** Trash and snapshot sweep *)

Module TrashSweepSafetyProofs.
Import StorageEngine StorageEngineStores StorageStoresSpecs.

Lemma do_sweep_deleted delete_ok listing local_now expire :
  Forall (λ d, listed d listing ∧ expired local_now expire d ∧ delete_ok d = true)
         (_do_sweep delete_ok listing local_now expire).2.
Proof.
  apply Forall_forall. intros d Hd. unfold _do_sweep in Hd.
  destruct listing as [l|]; [|by apply elem_of_nil in Hd].
  destruct (sweep_sorted delete_ok local_now expire OK (merge_sort string_le l))
    as [res deleted] eqn:Hrun.
  destruct (TrashSweepProofs.sweep_sorted_deleted_expired _ _ _ _ _ _ _ Hrun d Hd)
    as (Hin & Hexp & Hok).
  split; [|done]. exists l. split; [done|].
  by rewrite merge_sort_Permutation in Hin.
Qed.

Lemma sweep_data_dirs_swept delete_ok ignore_guard cfg local_now infos : ∀ acc,
  (foldl (sweep_data_dir delete_ok ignore_guard cfg local_now) acc infos).2
  = acc.2 ++
    ((λ info, {| swept_path := path info;
                 snapshot_deleted :=
                   (_do_sweep delete_ok (snapshot_listing info) local_now
                      (snapshot_expire_time_sec cfg)).2;
                 trash_deleted :=
                   (_do_sweep delete_ok (trash_listing info) local_now
                      (trash_expire_of ignore_guard cfg info)).2 |})
     <$> filter (λ info, is_used info = true) infos).
Proof.
  induction infos as [|info infos IH]; intros acc; [simpl; by rewrite app_nil_r|].
  cbn [foldl]. rewrite IH, filter_cons. unfold sweep_data_dir at 1.
  destruct (is_used info) eqn:Hused; cbn [negb].
  - rewrite decide_True by done. rewrite fmap_cons. cbv beta.
    destruct (_do_sweep delete_ok (snapshot_listing info) _ _) as [res1 snap].
    destruct (_do_sweep delete_ok (trash_listing info) _ _) as [res2 trash].
    cbn [snd]. rewrite <- app_assoc. done.
  - rewrite decide_False by done. done.
Qed.

(** Whatever [start_trash_sweep] deletes is an entry of the [snapshot] or
    [trash] directory of a data dir that is in use, has a well-formed name,
    has reached its expiry (the snapshot expiry, or the trash expiry chosen
    for the usage of the dir) and was deleted without error; every dir in
    use is swept, in the order given, and none that is not; and a sweep that
    finds the lock taken deletes nothing. *)
Theorem start_trash_sweep_deletes_only_expired
    (delete_ok : string → bool) (busy ignore_guard : bool) (cfg : SweepConfig)
    (local_now : Z) (data_dir_infos : list DataDirInfo) :
  let swept := (start_trash_sweep delete_ok busy ignore_guard cfg local_now
                  data_dir_infos).2 in
  Forall (λ s, ∃ info, info ∈ data_dir_infos ∧ is_used info = true
                 ∧ swept_path s = path info
                 ∧ Forall (λ d, listed d (snapshot_listing info)
                                ∧ expired local_now (snapshot_expire_time_sec cfg) d
                                ∧ delete_ok d = true) (snapshot_deleted s)
                 ∧ Forall (λ d, listed d (trash_listing info)
                                ∧ expired local_now (trash_expire_of ignore_guard cfg info) d
                                ∧ delete_ok d = true) (trash_deleted s))
         swept
  ∧ swept_path <$> swept
    = (if busy then []
       else path <$> filter (λ info, is_used info = true) data_dir_infos).
Proof.
  cbv zeta. unfold start_trash_sweep. destruct busy; [split; [constructor|done]|].
  rewrite sweep_data_dirs_swept. cbn [snd app]. split.
  - apply Forall_forall. intros s Hs.
    apply list_elem_of_fmap in Hs as (info & -> & Hin).
    apply list_elem_of_filter in Hin as [Hused Hin].
    exists info. split; [done|]. split; [done|]. split; [done|].
    split; apply do_sweep_deleted.
  - rewrite <- list_fmap_compose. done.
Qed.

End TrashSweepSafetyProofs.

(** ** The status of a transaction only advances *)

Module TransactionStatusProofs.
Import MachineInt MachineIntFacts TxnMgr TxnSpecs TxnMoreSpecs.
Import LabelUniquenessProofs.

Lemma status_step_refl s : status_step s s.
Proof. by left. Qed.

Lemma status_step_trans s1 s2 s3 :
  status_step s1 s2 → status_step s2 s3 → status_step s1 s3.
Proof.
  unfold status_step. intros H1 H2.
  destruct s1, s2, s3; try tauto;
    repeat match goal with
           | H : _ ∨ _ |- _ => destruct H
           | H : _ ∧ _ |- _ => destruct H
           end; try discriminate; tauto.
Qed.

Lemma status_step_final s s' :
  status_step s s' → isFinalStatus s = true → isFinalStatus s' = true.
Proof.
  unfold status_step. intros Hs Hf. destruct s; try discriminate;
    repeat match goal with
           | H : _ ∨ _ |- _ => destruct H
           | H : _ ∧ _ |- _ => destruct H
           end; subst; try discriminate; done.
Qed.

Lemma status_step_known s s' : status_step s s' → s ≠ UNKNOWN → s' ≠ UNKNOWN.
Proof.
  unfold status_step. intros Hs Hk. 
  repeat match goal with
         | H : _ ∨ _ |- _ => destruct H
         | H : _ ∧ _ |- _ => destruct H
         end; subst; done.
Qed.

Lemma evolves_refl m : mgr_wf m → evolves m m.
Proof.
  intros Hwf. split; [done|]. split; [lia|]. intros id t Ht. exists t.
  split; [done|]. split; [done|apply status_step_refl].
Qed.

Lemma evolves_trans m1 m2 m3 : evolves m1 m2 → evolves m2 m3 → evolves m1 m3.
Proof.
  intros (_ & Hg1 & H1) (Hwf & Hg2 & H2). split; [done|]. split; [lia|].
  intros id t Ht. destruct (H1 _ _ Ht) as (t2 & Ht2 & Hh2 & Hs2).
  destruct (H2 _ _ Ht2) as (t3 & Ht3 & Hh3 & Hs3). exists t3.
  split; [done|]. split; [congruence|by eapply status_step_trans].
Qed.

Lemma evolves_wf m m' : evolves m m' → mgr_wf m'.
Proof. by intros [? _]. Qed.

(** Writes that touch none of the fields the invariant reads. *)
Lemma same_core_evolves m m' : same_core m m' → mgr_wf m → evolves m m'.
Proof.
  intros (Eo & Er & Ef & El & Eg) [Ho Hfi Hl Hr Hf Hk].
  split; [|split; [done|]].
  - split; unfold is_tracked; rewrite ?Eo, ?Er, ?Ef, ?El; try done.
    intros id t Ht. destruct (Ho id t Ht). split; [done|lia].
  - intros id t Ht. exists t. rewrite Eo. split; [done|]. split; [done|apply status_step_refl].
Qed.

(** A write to the fields of an object in the store. *)
Lemma store_evolves m id t t' :
  mgr_wf m → txnObjects m !! id = Some t →
  header t' = header t →
  isFinalStatus (transactionStatus t') = isFinalStatus (transactionStatus t) →
  status_step (transactionStatus t) (transactionStatus t') →
  evolves m (storeTxn t' m) ∧ txnObjects (storeTxn t' m) !! id = Some t'.
Proof.
  intros [Ho Hfi Hl Hr Hf Hk] Hobj Hhdr Hfin Hstep.
  destruct (Ho _ _ Hobj) as [Hid _].
  assert (Hid' : getTransactionId t' = id) by (by rewrite (id_of_header _ _ Hhdr)).
  assert (Eo : txnObjects (storeTxn t' m) = <[id := t']> (txnObjects m))
    by (unfold storeTxn; simpl; by rewrite Hid').
  split; [|by rewrite Eo, lookup_insert_eq].
  split; [|split; [simpl; lia|]].
  - split.
    + intros i ti. rewrite Eo. destruct (decide (i = id)) as [->|Hne].
      * rewrite lookup_insert_eq. intros [= <-]. split; [done|]. by apply (Ho id t).
      * rewrite lookup_insert_ne by done. apply Ho.
    + intros i Hi. destruct (Hfi i Hi) as (t0 & ids & Hobj0 & Hl0 & Hin).
      rewrite Eo. change (labelToTxnIds (storeTxn t' m)) with (labelToTxnIds m).
      destruct (decide (i = id)) as [->|Hne].
      * rewrite lookup_insert_eq. exists t', ids. rewrite (label_of_header _ _ Hhdr).
        rewrite Hobj in Hobj0. injection Hobj0 as <-. done.
      * rewrite lookup_insert_ne by done. by exists t0, ids.
    + intros l ids i Hlk Hin. destruct (Hl l ids i Hlk Hin) as (Htr & t0 & Hobj0 & Hlab).
      split; [done|]. rewrite Eo. destruct (decide (i = id)) as [->|Hne].
      * rewrite lookup_insert_eq. exists t'. split; [done|].
        rewrite (label_of_header _ _ Hhdr). congruence.
      * rewrite lookup_insert_ne by done. by exists t0.
    + intros i ti Hin. rewrite Eo. destruct (decide (i = id)) as [->|Hne].
      * rewrite lookup_insert_eq. intros [= <-]. rewrite Hfin. by apply (Hr id).
      * rewrite lookup_insert_ne by done. by apply Hr.
    + intros i ti Hin. rewrite Eo. destruct (decide (i = id)) as [->|Hne].
      * rewrite lookup_insert_eq. intros [= <-]. rewrite Hfin. by apply (Hf id).
      * rewrite lookup_insert_ne by done. by apply Hf.
    + intros i ti. rewrite Eo. destruct (decide (i = id)) as [->|Hne].
      * rewrite lookup_insert_eq. intros [= <-].
        apply (status_step_known _ _ Hstep). by apply (Hk id).
      * rewrite lookup_insert_ne by done. apply Hk.
  - intros i ti Hi. rewrite Eo. destruct (decide (i = id)) as [->|Hne].
    + rewrite lookup_insert_eq. exists t'. split; [done|].
      rewrite Hobj in Hi. injection Hi as <-. done.
    + rewrite lookup_insert_ne by done. exists ti. split; [done|].
      split; [done|apply status_step_refl].
Qed.

Section Steps.
Context `{Collaborators}.

(** An upsert of an object in the store, or of a new one. *)
Lemma upsert_evolves m t' b :
  mgr_wf m →
  match txnObjects m !! getTransactionId t' with
  | Some t => header t' = header t
              ∧ status_step (transactionStatus t) (transactionStatus t')
  | None => getTransactionId t' ≤ idGenerator m ∧ transactionStatus t' ≠ UNKNOWN
  end →
  evolves m (unprotectUpsertTransactionState t' b m)
  ∧ txnObjects (unprotectUpsertTransactionState t' b m) !! getTransactionId t' = Some t'.
Proof.
  intros [Ho Hfi Hl Hr Hf Hk] Hold.
  set (id := getTransactionId t') in *.
  destruct (upsert_fields t' b m) as (Eo & El & Eg & Es). fold id in Eo, Es.
  set (m' := unprotectUpsertTransactionState t' b m) in *.
  assert (Htr' : ∀ i, is_tracked m' i ↔ i = id ∨ is_tracked m i).
  { intros i. unfold is_tracked.
    destruct (isFinalStatus (transactionStatus t')); destruct Es as [-> ->].
    - destruct (decide (i = id)); set_solver.
    - set_solver. }
  assert (Hother : ∀ i, i ≠ id → txnObjects m' !! i = txnObjects m !! i).
  { intros i Hne. by rewrite Eo, lookup_insert_ne. }
  assert (Hself : txnObjects m' !! id = Some t') by (by rewrite Eo, lookup_insert_eq).
  assert (Hlabel : ∀ t0, txnObjects m !! id = Some t0 → getLabel t0 = getLabel t').
  { intros t0 Ht0. rewrite Ht0 in Hold. destruct Hold as [Hh _].
    symmetry. by apply label_of_header. }
  assert (Hnofinal : isFinalStatus (transactionStatus t') = false →
                     id ∉ idToFinalStatusTransactionState m).
  { intros Hnf Hin. destruct (Hfi id (or_intror Hin)) as (t0 & _ & Ht0 & _).
    pose proof (Hf _ _ Hin Ht0) as Hf0. rewrite Ht0 in Hold. destruct Hold as [_ Hs].
    pose proof (status_step_final _ _ Hs Hf0). congruence. }
  split; [|done]. split; [|split; [lia|]].
  - split.
    + intros i ti. rewrite Eg. destruct (decide (i = id)) as [->|Hne].
      * rewrite Hself. intros [= <-]. split; [done|].
        destruct (txnObjects m !! id) as [t0|] eqn:Ht0; [|by destruct Hold].
        by apply (Ho id t0).
      * rewrite Hother by done. apply Ho.
    + intros i Hi. apply Htr' in Hi. rewrite El. destruct (decide (i = id)) as [->|Hne].
      * eexists t', _. split; [done|].
        rewrite updateTxnLabels_lookup, decide_True by done. split; [done|].
        fold id. set_solver.
      * destruct Hi as [?|Hi]; [done|].
        destruct (Hfi i Hi) as (t0 & ids & Hobj0 & Hl0 & Hin).
        exists t0. rewrite Hother by done.
        destruct (decide (getLabel t0 = getLabel t')) as [Hlab|Hlab].
        -- eexists. split; [done|].
           rewrite updateTxnLabels_lookup, decide_True by done. split; [done|].
           rewrite <- Hlab, Hl0. simpl. set_solver.
        -- exists ids. split; [done|].
           by rewrite updateTxnLabels_lookup, decide_False.
    + intros l ids i. rewrite El, updateTxnLabels_lookup. case_decide as Hll.
      * intros [= <-] Hin. destruct (decide (i = id)) as [->|Hne].
        { split; [apply Htr'; by left|]. by exists t'. }
        assert (Hin0 : i ∈ default ∅ (labelToTxnIds m !! getLabel t')) by set_solver.
        destruct (labelToTxnIds m !! getLabel t') as [ids0|] eqn:Hl0; [|set_solver].
        destruct (Hl _ _ _ Hl0 Hin0) as (Htr & t0 & Hobj0 & Hlab).
        split; [apply Htr'; by right|]. exists t0. rewrite Hother by done.
        split; [done|congruence].
      * intros Hlk Hin. destruct (Hl _ _ _ Hlk Hin) as (Htr & t0 & Hobj0 & Hlab).
        split; [apply Htr'; by right|].
        destruct (decide (i = id)) as [->|Hne].
        -- exfalso. apply Hll. rewrite <- Hlab. by apply Hlabel.
        -- exists t0. by rewrite Hother.
    + intros i ti Hin. destruct (isFinalStatus (transactionStatus t')) eqn:Ef;
        destruct Es as [Er Efi]; rewrite Er in Hin.
      * assert (i ≠ id) as Hn by set_solver. rewrite Hother by done.
        apply Hr. set_solver.
      * destruct (decide (i = id)) as [->|Hn].
        -- rewrite Hself. by intros [= <-].
        -- rewrite Hother by done. apply Hr. set_solver.
    + intros i ti Hin. destruct (isFinalStatus (transactionStatus t')) eqn:Ef;
        destruct Es as [Er Efi]; rewrite Efi in Hin.
      * destruct (decide (i = id)) as [->|Hn].
        -- rewrite Hself. by intros [= <-].
        -- rewrite Hother by done. apply Hf. set_solver.
      * destruct (decide (i = id)) as [->|Hn]; [by apply Hnofinal in Hin|].
        rewrite Hother by done. by apply Hf.
    + intros i ti. destruct (decide (i = id)) as [->|Hne].
      * rewrite Hself. intros [= <-].
        destruct (txnObjects m !! id) as [t0|] eqn:Ht0; [|by destruct Hold].
        destruct Hold as [_ Hs]. apply (status_step_known _ _ Hs). by apply (Hk id).
      * rewrite Hother by done. apply Hk.
  - intros i ti Hi. destruct (decide (i = id)) as [->|Hne].
    + exists t'. split; [done|]. by rewrite Hi in Hold.
    + exists ti. rewrite Hother by done. split; [done|].
      split; [done|apply status_step_refl].
Qed.

Lemma upsert_known m id t t' b :
  mgr_wf m → txnObjects m !! id = Some t →
  header t' = header t →
  status_step (transactionStatus t) (transactionStatus t') →
  evolves m (unprotectUpsertTransactionState t' b m)
  ∧ txnObjects (unprotectUpsertTransactionState t' b m) !! id = Some t'.
Proof.
  intros Hwf Hobj Hhdr Hstep.
  assert (Hid : getTransactionId t' = id).
  { rewrite (id_of_header _ _ Hhdr). by apply (wf_objects _ Hwf). }
  rewrite <- Hid. apply upsert_evolves; [done|]. by rewrite Hid, Hobj.
Qed.

Lemma store_touched m id t t' :
  mgr_wf m → txnObjects m !! id = Some t → touched t t' →
  evolves m (storeTxn t' m) ∧ txnObjects (storeTxn t' m) !! id = Some t'.
Proof.
  intros Hwf Hobj [Hhdr Hs]. apply (store_evolves m id t t'); try done.
  - by rewrite Hs.
  - rewrite Hs. apply status_step_refl.
Qed.

Lemma get_object m id t :
  unprotectedGetTransactionState id m = Some t → txnObjects m !! id = Some t.
Proof. intros Hget. by apply unprotectedGet_tracked in Hget as [_ ?]. Qed.

Lemma finishTransaction_evolves env now id m :
  mgr_wf m → evolves m (finishTransaction env now id m).1.1.
Proof.
  intros Hwf. unfold finishTransaction.
  destruct (unprotectedGetTransactionState id m) as [t|] eqn:Hget; [|by apply evolves_refl].
  apply get_object in Hget.
  destruct (idToDb env !! dbId (header t)) as [db|]; [|by apply evolves_refl].
  pose proof (finishCheckPartitionVersion_touched t db) as T1.
  destruct (finishCheckPartitionVersion t db) as [[t1 related] ready]. simpl in T1.
  destruct ready; simpl.
  2: { by apply (store_touched m id t t1). }
  pose proof (finishCheckQuorumReplicas_touched env now t1 related) as T2.
  destruct (finishCheckQuorumReplicas env now t1 related) as [[t2 checks] verdict].
  simpl in T2. pose proof (touched_trans _ _ _ T1 T2) as T.
  destruct verdict as [[| |]|e]; simpl;
    try (by apply (store_touched m id t t2));
    (eapply proj1, (upsert_known m id t); [done|done|by destruct T|by right; left]).
Qed.

Lemma unprotectedCommitTransaction_evolves now t cc db m id :
  mgr_wf m → txnObjects m !! id = Some t →
  evolves m (unprotectedCommitTransaction now t cc db m).1.1.
Proof.
  intros Hwf Hobj. unfold unprotectedCommitTransaction.
  case_bool_decide as Hs; simpl; [|by apply evolves_refl].
  set (t1 := setErrorReplicas _ _).
  pose proof (putTableCommitInfos_touched false now db
                (map_to_list (cc_tableToPartition cc)) t1) as [Hh2 Hs2].
  destruct (putTableCommitInfos _ _ _ _ t1) as [t2 [e|]]; simpl in *.
  - eapply proj1, (store_evolves m id t t2); try done.
    + by rewrite Hs2, Hs.
    + rewrite Hs2, Hs. right. right. left. tauto.
  - destruct (upsert_known m id t t2 false Hwf Hobj) as [He Ho]; [done| |].
    { rewrite Hs2, Hs. right. right. left. tauto. }
    eapply evolves_trans; [exact He|].
    eapply proj1, (store_touched _ id t2); [by eapply evolves_wf|done|by split].
Qed.

Lemma unprotectedPreCommitTransaction2PC_evolves now t cc db m id :
  mgr_wf m → txnObjects m !! id = Some t →
  evolves m (unprotectedPreCommitTransaction2PC now t cc db m).1.
Proof.
  intros Hwf Hobj. unfold unprotectedPreCommitTransaction2PC.
  case_bool_decide as Hs; simpl; [|by apply evolves_refl].
  set (t1 := setErrorReplicas _ _).
  pose proof (putTableCommitInfos_touched true now db
                (map_to_list (cc_tableToPartition cc)) t1) as [Hh2 Hs2].
  destruct (putTableCommitInfos _ _ _ _ t1) as [t2 [e|]]; simpl in *.
  - eapply proj1, (store_evolves m id t t2); try done.
    + by rewrite Hs2, Hs.
    + rewrite Hs2, Hs. right. right. left. tauto.
  - destruct (upsert_known m id t t2 false Hwf Hobj) as [He Ho]; [done| |].
    { rewrite Hs2, Hs. right. right. left. tauto. }
    eapply evolves_trans; [exact He|].
    eapply proj1, (store_touched _ id t2); [by eapply evolves_wf|done|by split].
Qed.

Lemma unprotectedCommitTransaction2PC_evolves now t db m id :
  mgr_wf m → txnObjects m !! id = Some t →
  evolves m (unprotectedCommitTransaction2PC now t db m).1.
Proof.
  intros Hwf Hobj. unfold unprotectedCommitTransaction2PC.
  case_bool_decide as Hs; simpl; [|by apply evolves_refl].
  set (t2 := setIdToTableCommitInfos _ _).
  destruct (store_evolves m id t t2 Hwf Hobj) as [He Ho]; [done| | |].
  { simpl. by rewrite Hs. }
  { simpl. rewrite Hs. right. right. right. tauto. }
  eapply evolves_trans; [exact He|].
  apply same_core_evolves; [apply same_core_log|by eapply evolves_wf].
Qed.

Lemma commitTransaction_evolves env now tableList id infos attachment is2PC m :
  mgr_wf m →
  evolves m (commitTransaction env now tableList id infos attachment is2PC m).1.1.
Proof.
  intros Hwf. unfold commitTransaction.
  destruct (idToDb env !! mgr_dbId m) as [db|]; [|by apply evolves_refl].
  destruct (unprotectedGetTransactionState id m) as [t|] eqn:Hget; [|by apply evolves_refl].
  apply get_object in Hget.
  assert (Hgo : evolves m
    (if is2PC && bool_decide (transactionStatus t = PREPARE)
     then (m, env, Thrown (TransactionCommitFailedException TxnIsPrepareNotPreCommitted))
     else if isPartialUpdate (header t) && negb (partialUpdateCompatible is2PC t db tableList)
     then (m, env, Thrown (TransactionCommitFailedException SchemaCompatibilityFailed))
     else
       let '(t, checked) :=
         if is2PC then (t, Returned emptyCommitCheck)
         else checkCommitStatus env (mgr_dbId m) tableList t infos attachment in
       match checked with
       | Thrown e => (storeTxn t m, env, Thrown e)
       | Returned cc =>
           if negb (beforeStateTransform t COMMITTED)
           then (storeTxn t m, env, Thrown TransactionException)
           else
             let '(m, t, thrown) :=
               if is2PC
               then (unprotectedCommitTransaction2PC now t db (storeTxn t m), None)
               else unprotectedCommitTransaction now t cc db (storeTxn t m) in
             match thrown with
             | Some e => (m, env, Thrown e)
             | None =>
                 let db := updateCatalogAfterCommitted t db in
                 (m, setIdToDb (<[mgr_dbId m := db]> (idToDb env)) env, Returned ())
             end
       end).1.1).
  { destruct (is2PC && bool_decide (transactionStatus t = PREPARE));
      [by apply evolves_refl|].
    destruct (isPartialUpdate (header t) && negb _); [by apply evolves_refl|].
    assert (∃ t1 checked,
      (if is2PC then (t, Returned emptyCommitCheck)
       else checkCommitStatus env (mgr_dbId m) tableList t infos attachment)
      = (t1, checked) ∧ touched t t1) as (t1 & checked & -> & T).
    { destruct is2PC.
      - eexists _, _. split; [done|apply touched_refl].
      - pose proof (checkCommitStatus_touched env (mgr_dbId m) tableList t infos attachment).
        destruct (checkCommitStatus _ _ _ _ _ _) as [t1 c]. by eexists _, _. }
    destruct (store_touched m id t t1 Hwf Hget T) as [He1 Ho1].
    destruct checked as [cc|e]; [|done].
    destruct (negb (beforeStateTransform t1 COMMITTED)); [done|].
    destruct is2PC.
    - pose proof (unprotectedCommitTransaction2PC_evolves now t1 db _ id
                    (evolves_wf _ _ He1) Ho1) as He2.
      destruct (unprotectedCommitTransaction2PC now t1 db (storeTxn t1 m)) as [m2 t2].
      simpl in *. by eapply evolves_trans.
    - pose proof (unprotectedCommitTransaction_evolves now t1 cc db _ id
                    (evolves_wf _ _ He1) Ho1) as He2.
      destruct (unprotectedCommitTransaction now t1 cc db (storeTxn t1 m))
        as [[m2 t2] [e|]]; simpl in *; by eapply evolves_trans. }
  destruct (transactionStatus t) eqn:Hs; try done;
    destruct is2PC; try done; by apply evolves_refl.
Qed.

Lemma preCommitTransaction2PC_evolves env now tableList id infos attachment m :
  mgr_wf m →
  evolves m (preCommitTransaction2PC env now tableList id infos attachment m).1.
Proof.
  intros Hwf. unfold preCommitTransaction2PC.
  destruct (idToDb env !! mgr_dbId m) as [db|]; [|by apply evolves_refl].
  destruct (unprotectedGetTransactionState id m) as [t|] eqn:Hget; [|by apply evolves_refl].
  apply get_object in Hget.
  pose proof (checkCommitStatus_touched env (mgr_dbId m) tableList t infos attachment) as T.
  destruct (transactionStatus t) eqn:Hs; try (by apply evolves_refl);
    destruct (checkCommitStatus _ _ _ _ _ _) as [t1 [cc|e]]; simpl in T;
    destruct (store_touched m id t t1 Hwf Hget T) as [He1 Ho1];
    try done;
    pose proof (unprotectedPreCommitTransaction2PC_evolves now t1 cc db _ id
                  (evolves_wf _ _ He1) Ho1) as He2;
    destruct (unprotectedPreCommitTransaction2PC _ _ _ _ _) as [m2 [e|]];
    simpl in *; by eapply evolves_trans.
Qed.

Lemma unprotectAbortTransaction_evolves now id why m :
  mgr_wf m → evolves m (unprotectAbortTransaction now id why m).1.
Proof.
  intros Hwf. unfold unprotectAbortTransaction.
  destruct (unprotectedGetTransactionState id m) as [t|] eqn:Hget; [|by apply evolves_refl].
  apply get_object in Hget. pose proof (wf_known _ Hwf _ _ Hget) as Hk.
  destruct (transactionStatus t) eqn:Hs; try (by apply evolves_refl); try done; simpl;
    (eapply proj1, (upsert_known m id t); [done|done|done|]); simpl; rewrite Hs;
    unfold status_step; tauto.
Qed.

Lemma abortTransaction_evolves now id why attachment m :
  mgr_wf m → evolves m (abortTransaction now id why attachment m).1.
Proof.
  intros Hwf. unfold abortTransaction. destruct (id <? 0); [by apply evolves_refl|].
  case_decide as Hrun; [|by apply evolves_refl].
  destruct (txnObjects m !! id) as [t|] eqn:Hobj; [|by apply evolves_refl].
  set (t1 := match attachment with Some a => _ | None => t end).
  assert (T : touched t t1) by (unfold t1; destruct attachment; by split).
  destruct (store_touched m id t t1 Hwf Hobj T) as [He1 Ho1].
  destruct (negb (beforeStateTransform t1 ABORTED)); simpl; [done|].
  pose proof (unprotectAbortTransaction_evolves now id why _ (evolves_wf _ _ He1)) as He2.
  destruct (unprotectAbortTransaction now id why (storeTxn t1 m)) as [m2 [b|e]];
    simpl in *; by eapply evolves_trans.
Qed.

Lemma abortTransaction2PC_evolves now id m :
  mgr_wf m → evolves m (abortTransaction2PC now id m).1.
Proof.
  intros Hwf. unfold abortTransaction2PC. destruct (id <? 0); [by apply evolves_refl|].
  destruct (unprotectedGetTransactionState id m) as [t|] eqn:Hget; [|by apply evolves_refl].
  destruct (negb (beforeStateTransform t ABORTED)); simpl; [by apply evolves_refl|].
  pose proof (unprotectAbortTransaction_evolves now id "User Abort" _ Hwf) as He.
  destruct (unprotectAbortTransaction now id "User Abort" m) as [m2 [b|e]]; done.
Qed.

Lemma beginTransaction_evolves env now tableIdList lbl requestId coordinator sourceType
    listenerId timeoutSecond m :
  mgr_wf m →
  evolves m (beginTransaction env now tableIdList lbl requestId coordinator sourceType
               listenerId timeoutSecond m).1.
Proof.
  intros Hwf. unfold beginTransaction.
  destruct (idToDb env !! mgr_dbId m) as [db|]; [|by apply evolves_refl].
  destruct (negb (db_access_ok db)); [by apply evolves_refl|].
  pose proof (same_core_evolves _ _ (checkDatabaseDataQuota_same_core db m) Hwf) as He1.
  destruct (checkDatabaseDataQuota db m) as [m1 ok]. simpl in He1.
  pose proof (evolves_wf _ _ He1) as Hwf1.
  destruct (negb ok); [done|].
  destruct coordinator as [coordinator|]; [|done].
  destruct lbl as [lbl|]; [|done].
  destruct (negb (checkLabel lbl)); [done|].
  assert (Hnew : evolves m
      (if negb (checkRunningTxnExceedLimit db sourceType m1)
       then (m1, Thrown BeginTransactionException)
       else
         (unprotectUpsertTransactionState
            (setPrepareTime now
               (newTransactionState (mgr_dbId m1) tableIdList (idGenerator m1 + 1) lbl
                  requestId sourceType coordinator listenerId
                  (wrap64 (timeoutSecond * 1000))))
            false (setIdGenerator (idGenerator m1 + 1) m1),
          Returned (idGenerator m1 + 1))).1).
  { destruct (negb _); [done|]. simpl.
    set (t := setPrepareTime now _).
    assert (He2 : evolves m1 (setIdGenerator (idGenerator m1 + 1) m1)).
    { apply same_core_evolves; [apply same_core_generator; lia|done]. }
    eapply evolves_trans; [exact He1|]. eapply evolves_trans; [exact He2|].
    eapply proj1, upsert_evolves; [by eapply evolves_wf|].
    change (getTransactionId t) with (idGenerator m1 + 1).
    change (txnObjects (setIdGenerator (idGenerator m1 + 1) m1)) with (txnObjects m1).
    destruct (txnObjects m1 !! (idGenerator m1 + 1)) as [t0|] eqn:Ht0.
    - destruct (wf_objects _ Hwf1 _ _ Ht0). lia.
    - simpl. split; [lia|done]. }
  destruct (unprotectedGetTxnIdsByLabel lbl m1) as [existing|]; [|done].
  case_decide as Hemp; [done|].
  destruct (notAbortedTxnsOf existing m1) as [[|t1 [|t2 rest]]|] eqn:Hscan; try done.
  destruct requestId as [req|], (getRequestId t1) as [req'|]; try done.
  by destruct (_ && _).
Qed.

Lemma clearTransactionState_evolves txnId m :
  mgr_wf m → evolves m (clearTransactionState txnId m).1.
Proof.
  intros Hwf. pose proof Hwf as [Ho Hfi Hl Hr Hf Hk]. unfold clearTransactionState.
  case_decide as Hin; [|by apply evolves_refl].
  destruct (txnObjects m !! txnId) as [t|] eqn:Hobj; [|by apply evolves_refl].
  destruct (Ho _ _ Hobj) as [Hid _].
  destruct (Hfi txnId (or_intror Hin)) as (t0 & txnIds & Hobj0 & Hlab & Hinl).
  assert (t0 = t) as -> by congruence.
  unfold unprotectedGetTxnIdsByLabel. rewrite Hlab. simpl.
  assert (Hnr : txnId ∉ idToRunningTransactionState m).
  { intros Hrun. pose proof (Hr _ _ Hrun Hobj). pose proof (Hf _ _ Hin Hobj). congruence. }
  set (labels' := if decide (txnIds ∖ {[getTransactionId t]} = ∅)
                  then delete (getLabel t) (labelToTxnIds m)
                  else <[getLabel t := txnIds ∖ {[getTransactionId t]}]> (labelToTxnIds m)).
  assert (Hlk : ∀ l ids, labels' !! l = Some ids ↔
            (l = getLabel t ∧ ids = txnIds ∖ {[txnId]} ∧ ids ≠ ∅)
            ∨ (l ≠ getLabel t ∧ labelToTxnIds m !! l = Some ids)).
  { intros l ids. unfold labels'. rewrite Hid. case_decide as Hemp.
    - rewrite lookup_delete_Some. split.
      + intros [? ?]. right. split; [congruence|done].
      + intros [(_ & -> & ?)|[? ?]]; [done|]. split; [congruence|done].
    - destruct (decide (l = getLabel t)) as [->|Hne].
      + rewrite lookup_insert_eq. split.
        * intros [= <-]. by left.
        * intros [(_ & -> & _)|[? _]]; done.
      + rewrite lookup_insert_ne by done. split; [intros ?; by right|].
        intros [(? & _)|[_ ?]]; done. }
  split; [|split; [simpl; lia|]].
  - split; simpl.
    + apply Ho.
    + intros i Hi. unfold is_tracked in Hi. simpl in Hi.
      assert (Hne : i ≠ txnId) by set_solver.
      assert (Hi' : is_tracked m i) by (unfold is_tracked; set_solver).
      destruct (Hfi i Hi') as (ti & ids & Hobji & Hli & Hini).
      exists ti. destruct (decide (getLabel ti = getLabel t)) as [El|El].
      * rewrite El in Hli. rewrite Hlab in Hli. injection Hli as <-.
        exists (txnIds ∖ {[txnId]}). split; [done|]. split; [|set_solver].
        fold labels'. apply Hlk. left. rewrite El. split; [done|]. split; [done|set_solver].
      * exists ids. split; [done|]. split; [|done].
        fold labels'. apply Hlk. by right.
    + intros l ids i Hlki Hini. fold labels' in Hlki. apply Hlk in Hlki.
      unfold is_tracked. simpl.
      destruct Hlki as [(-> & -> & _)|[Hne Hlki]].
      * assert (i ∈ txnIds ∧ i ≠ txnId) as [Hi1 Hi2] by set_solver.
        destruct (Hl _ _ _ Hlab Hi1) as (Htr & ti & Hobji & Hlabi).
        split; [unfold is_tracked in Htr; set_solver|]. by exists ti.
      * destruct (Hl _ _ _ Hlki Hini) as (Htr & ti & Hobji & Hlabi).
        assert (i ≠ txnId) by (intros ->; congruence).
        split; [unfold is_tracked in Htr; set_solver|]. by exists ti.
    + apply Hr.
    + intros i ti Hi. apply Hf. set_solver.
    + apply Hk.
  - intros i ti Hi. exists ti. simpl. split; [done|]. split; [done|apply status_step_refl].
Qed.

Lemma removeExpiredLoop_evolves currentMillis left deque m latestTxnId num :
  mgr_wf m →
  evolves m (rl_mgr (removeExpiredLoop currentMillis left deque m latestTxnId num).1).
Proof.
  revert m latestTxnId num.
  induction deque as [|ref rest IH]; intros m latestTxnId num Hwf; simpl;
    [by apply evolves_refl|].
  destruct (num <? left); [|by apply evolves_refl].
  destruct (txnObjects m !! ref) as [t|]; [|by apply evolves_refl].
  destruct (isExpired t currentMillis); [|by apply evolves_refl].
  pose proof (clearTransactionState_evolves (getTransactionId t) m Hwf) as Hc.
  destruct (clearTransactionState (getTransactionId t) m) as [m' [e|]]; simpl in *; [done|].
  eapply evolves_trans; [exact Hc|]. apply IH. by eapply evolves_wf.
Qed.

Lemma removeOverflowLoop_evolves left deque m latestTxnId num :
  mgr_wf m →
  evolves m (rl_mgr (removeOverflowLoop left deque m latestTxnId num).1).
Proof.
  revert m latestTxnId num.
  induction deque as [|ref rest IH]; intros m latestTxnId num Hwf;
    [by apply evolves_refl|].
  cbn [removeOverflowLoop].
  destruct (_ && _); [|by apply evolves_refl].
  destruct (txnObjects m !! ref) as [t|]; [|by apply evolves_refl].
  destruct (negb _); [|by apply evolves_refl].
  pose proof (clearTransactionState_evolves (getTransactionId t) m Hwf) as Hc.
  destruct (clearTransactionState (getTransactionId t) m) as [m' [e|]]; simpl in *; [done|].
  eapply evolves_trans; [exact Hc|]. apply IH. by eapply evolves_wf.
Qed.

Lemma unprotectedRemoveUselessTxns_evolves currentMillis deque left m :
  mgr_wf m →
  evolves m (rl_mgr (unprotectedRemoveUselessTxns currentMillis deque left m).1).
Proof.
  intros Hwf. unfold unprotectedRemoveUselessTxns.
  pose proof (removeExpiredLoop_evolves currentMillis left deque m (-1) 0 Hwf) as H1.
  destruct (removeExpiredLoop currentMillis left deque m (-1) 0) as [r [e|]];
    simpl in *; [done|].
  eapply evolves_trans; [exact H1|]. apply removeOverflowLoop_evolves. by eapply evolves_wf.
Qed.

Lemma setDeques_evolves short long log m0 m :
  evolves m0 m → evolves m0 (setDeques short long log m).
Proof.
  intros He. eapply evolves_trans; [exact He|].
  apply same_core_evolves; [apply same_core_deques|by eapply evolves_wf].
Qed.

Lemma removeUselessTxns_evolves currentMillis m :
  mgr_wf m → evolves m (removeUselessTxns currentMillis m).1.
Proof.
  intros Hwf. unfold removeUselessTxns.
  pose proof (unprotectedRemoveUselessTxns_evolves currentMillis
                (finalStatusTransactionStateDequeShort m) MAX_REMOVE_TXN_PER_ROUND m Hwf)
    as H1.
  destruct (unprotectedRemoveUselessTxns _ (finalStatusTransactionStateDequeShort m) _ m)
    as [s [e|]]; cbn [fst] in *.
  { by apply setDeques_evolves. }
  set (m1 := setDeques _ _ _ (rl_mgr s)).
  assert (He1 : evolves m m1) by (by apply setDeques_evolves).
  pose proof (unprotectedRemoveUselessTxns_evolves currentMillis
                (finalStatusTransactionStateDequeLong m1)
                (wrap32 (MAX_REMOVE_TXN_PER_ROUND - rl_num s)) m1 (evolves_wf _ _ He1)) as H2.
  destruct (unprotectedRemoveUselessTxns _ (finalStatusTransactionStateDequeLong m1) _ m1)
    as [l [e|]]; cbn [fst] in *; apply setDeques_evolves; by eapply evolves_trans.
Qed.

Lemma removeExpiredAndTimeoutTxns_evolves currentMillis m :
  mgr_wf m → evolves m (removeExpiredAndTimeoutTxns currentMillis m).1.
Proof.
  intros Hwf. unfold removeExpiredAndTimeoutTxns.
  pose proof (removeUselessTxns_evolves currentMillis m Hwf) as H1.
  destruct (removeUselessTxns currentMillis m) as [m1 [[]|e]]; simpl in *; [|done].
  generalize (getTimeoutTxns currentMillis m1). intros ids. revert m1 H1.
  induction ids as [|id ids IH]; intros m1 H1; simpl; [done|].
  apply IH. eapply evolves_trans; [exact H1|].
  apply abortTransaction_evolves. by eapply evolves_wf.
Qed.

Lemma run_op_evolves env op m : mgr_wf m → evolves m (run_op env op m).
Proof.
  intros Hwf. destruct op; simpl.
  - by apply beginTransaction_evolves.
  - by apply preCommitTransaction2PC_evolves.
  - by apply commitTransaction_evolves.
  - by apply abortTransaction_evolves.
  - by apply abortTransaction2PC_evolves.
  - by apply finishTransaction_evolves.
  - by apply removeExpiredAndTimeoutTxns_evolves.
  - apply same_core_evolves; [apply same_core_generator; lia|done].
Qed.

Lemma run_ops_evolves calls m : mgr_wf m → evolves m (run_ops calls m).
Proof.
  revert m. induction calls as [|[env op] calls IH]; intros m Hwf; [by apply evolves_refl|].
  unfold run_ops in *. simpl.
  eapply evolves_trans; [by apply (run_op_evolves env op)|].
  apply IH. eapply evolves_wf. by apply run_op_evolves.
Qed.

Lemma newMgr_wf dbId cfg lastTxnId : mgr_wf (newMgr dbId cfg lastTxnId).
Proof. split; unfold is_tracked; simpl; set_solver. Qed.

Lemma reachable_wf dbId cfg lastTxnId m : reachable dbId cfg lastTxnId m → mgr_wf m.
Proof.
  induction 1 as [|m env op _ IH]; [apply newMgr_wf|].
  eapply evolves_wf. by apply run_op_evolves.
Qed.

(** Whatever is called on a manager, a transaction that it goes on
    tracking keeps its id, its label, its database and its list of tables,
    and its status changes only as follows: to VISIBLE, from any status;
    from PREPARE to PRECOMMITTED, COMMITTED or ABORTED; from PRECOMMITTED to
    COMMITTED or ABORTED.  So a
    VISIBLE transaction stays VISIBLE, a COMMITTED one is never aborted nor
    taken back, and an ABORTED one can only be made VISIBLE (which
    [finishTransaction], having no check of the status, does). *)
Theorem transaction_status_only_advances
    (dbId : Z) (cfg : Config) (lastTxnId : Z) (m : Mgr) (calls : list (Env * Op))
    (id : Z) (t t' : TransactionState) :
  reachable dbId cfg lastTxnId m →
  unprotectedGetTransactionState id m = Some t →
  unprotectedGetTransactionState id (run_ops calls m) = Some t' →
  getTransactionId t' = getTransactionId t
  ∧ getLabel t' = getLabel t
  ∧ TxnMgr.dbId (header t') = TxnMgr.dbId (header t)
  ∧ tableIdList (header t') = tableIdList (header t)
  ∧ status_step (transactionStatus t) (transactionStatus t')
  ∧ (transactionStatus t = VISIBLE → transactionStatus t' = VISIBLE)
  ∧ (transactionStatus t = COMMITTED →
     transactionStatus t' = COMMITTED ∨ transactionStatus t' = VISIBLE)
  ∧ (transactionStatus t = ABORTED →
     transactionStatus t' = ABORTED ∨ transactionStatus t' = VISIBLE).
Proof.
  intros Hreach Hget Hget'. apply get_object in Hget, Hget'.
  destruct (run_ops_evolves calls m (reachable_wf _ _ _ _ Hreach)) as (_ & _ & Hev).
  destruct (Hev _ _ Hget) as (t2 & Ht2 & Hhdr & Hstep).
  assert (t2 = t') as -> by congruence.
  unfold getTransactionId, getLabel. rewrite Hhdr.
  split; [done|]. split; [done|]. split; [done|]. split; [done|]. split; [done|].
  unfold status_step in Hstep.
  repeat split; intros Hs; rewrite Hs in Hstep;
    repeat match goal with
           | H : _ ∨ _ |- _ => destruct H
           | H : _ ∧ _ |- _ => destruct H
           end; try discriminate; auto.
Qed.

(** In every state of the manager, whatever calls were made: an id is in at
    most one of the running and the final-status index; a transaction of
    the running index is not final and one of the final-status index is; a
    tracked transaction sits at its own id, which the generator has handed
    out, and is filed under its label; the ids filed under a label are those
    of tracked transactions with that label; and no transaction is
    UNKNOWN. *)
Theorem reachable_manager_well_formed
    (dbId : Z) (cfg : Config) (lastTxnId : Z) (m : Mgr) :
  reachable dbId cfg lastTxnId m →
  mgr_wf m
  ∧ idToRunningTransactionState m ∩ idToFinalStatusTransactionState m = ∅
  ∧ ∀ id t, unprotectedGetTransactionState id m = Some t →
      getTransactionId t = id
      ∧ id ≤ idGenerator m
      ∧ transactionStatus t ≠ UNKNOWN
      ∧ (id ∈ idToFinalStatusTransactionState m
         ↔ isFinalStatus (transactionStatus t) = true)
      ∧ ∃ ids, unprotectedGetTxnIdsByLabel (getLabel t) m = Some ids ∧ id ∈ ids.
Proof.
  intros Hreach. pose proof (reachable_wf _ _ _ _ Hreach) as Hwf.
  pose proof Hwf as [Ho Hfi Hl Hr Hf Hk].
  assert (Hdis : idToRunningTransactionState m ∩ idToFinalStatusTransactionState m = ∅).
  { apply set_eq. intros i. split; [|set_solver].
    intros [Hi1 Hi2]%elem_of_intersection.
    destruct (Hfi i (or_introl Hi1)) as (t & _ & Hobj & _).
    pose proof (Hr _ _ Hi1 Hobj). pose proof (Hf _ _ Hi2 Hobj). congruence. }
  split; [done|]. split; [done|].
  intros id t Hget. apply unprotectedGet_tracked in Hget as [Htr Hobj].
  destruct (Ho _ _ Hobj) as [Hid Hgen].
  split; [done|]. split; [done|]. split; [by apply (Hk id)|]. split.
  - split; [intros Hin; by apply (Hf id)|].
    intros Hfin. destruct Htr as [Hrun|Hin]; [|done].
    pose proof (Hr _ _ Hrun Hobj). congruence.
  - destruct (Hfi id Htr) as (t0 & ids & Hobj0 & Hlab & Hin).
    assert (t0 = t) as -> by congruence. by exists ids.
Qed.

End Steps.

Import TxnExamples.
#[local] Existing Instance plain_collaborators.

Lemma transaction_status_only_advances_witness :
  ∃ t t', unprotectedGetTransactionState 100 mgr_begun = Some t
          ∧ unprotectedGetTransactionState 100
              (run_ops [(env0, OpAbort 20 100 "user" None);
                        (env0, begin_L1 30 (Some req2));
                        (env0, OpFinish 40 100)] mgr_begun) = Some t'
          ∧ status_step (transactionStatus t) (transactionStatus t').
Proof.
  destruct (unprotectedGetTransactionState 100 mgr_begun) as [t|] eqn:E;
    [|vm_compute in E; discriminate].
  destruct (unprotectedGetTransactionState 100
              (run_ops [(env0, OpAbort 20 100 "user" None);
                        (env0, begin_L1 30 (Some req2));
                        (env0, OpFinish 40 100)] mgr_begun)) as [t'|] eqn:E';
    [|vm_compute in E'; discriminate].
  exists t, t'. split; [done|]. split; [done|].
  destruct (transaction_status_only_advances 1 cfg0 99 mgr_begun
              [(env0, OpAbort 20 100 "user" None);
               (env0, begin_L1 30 (Some req2));
               (env0, OpFinish 40 100)] 100 t t') as (_ & _ & _ & _ & Hstep & _).
  - unfold mgr_begun. apply reachable_step, reachable_new.
  - exact E.
  - exact E'.
  - exact Hstep.
Defined.

Lemma reachable_manager_well_formed_witness :
  mgr_wf mgr_aborted_finished
  ∧ idToRunningTransactionState mgr_aborted_finished
    ∩ idToFinalStatusTransactionState mgr_aborted_finished = ∅.
Proof.
  destruct (reachable_manager_well_formed 1 cfg0 99 mgr_aborted_finished) as (Hwf & Hdis & _).
  - unfold mgr_aborted_finished, mgr_begun_again, mgr_begun.
    do 4 apply reachable_step. apply reachable_new.
  - split; [exact Hwf|exact Hdis].
Defined.

End TransactionStatusProofs.

(** ** Abort *)

Module AbortProofs.
Import MachineInt MachineIntFacts TxnMgr TxnSpecs TxnMoreSpecs TxnMgrQueries.
Import LabelUniquenessProofs TransactionStatusProofs.

Section Steps.
Context `{Collaborators}.

(** [abortTransaction] on a manager in a state it can reach, for an id that
    is not negative.  An id that is not in the running index gives
    [TransactionNotFoundException] and changes nothing.  A running
    transaction is PREPARE, PRECOMMITTED or COMMITTED.  A COMMITTED one is
    never aborted: the call throws and the transaction stays COMMITTED in
    the running index.  A PREPARE or PRECOMMITTED one whose listener agrees
    becomes ABORTED, with the finish time and the reason of the call, and
    moves from the running to the final-status index. *)
Theorem abortTransaction_status_guard
    (now id : Z) (why : string) (attachment : option TxnCommitAttachment) (m : Mgr) :
  mgr_wf m → 0 ≤ id →
  let r := abortTransaction now id why attachment m in
  (id ∉ idToRunningTransactionState m → r = (m, Thrown TransactionNotFoundException))
  ∧ ∀ t, id ∈ idToRunningTransactionState m → txnObjects m !! id = Some t →
      (transactionStatus t = PREPARE ∨ transactionStatus t = PRECOMMITTED
       ∨ transactionStatus t = COMMITTED)
      ∧ (transactionStatus t = COMMITTED →
         (∃ e, r.2 = Thrown e)
         ∧ id ∈ idToRunningTransactionState r.1
         ∧ ∃ t', unprotectedGetTransactionState id r.1 = Some t'
                 ∧ transactionStatus t' = COMMITTED)
      ∧ (transactionStatus t ≠ COMMITTED →
         beforeStateTransform
           (match attachment with
            | Some a => setTxnCommitAttachmentOpt (Some a) t
            | None => t
            end) ABORTED = true →
         r.2 = Returned ()
         ∧ (id ∉ idToRunningTransactionState r.1)
         ∧ id ∈ idToFinalStatusTransactionState r.1
         ∧ ∃ t', unprotectedGetTransactionState id r.1 = Some t'
                 ∧ header t' = header t
                 ∧ transactionStatus t' = ABORTED
                 ∧ finishTime t' = now ∧ reason t' = why).
Proof.
  intros Hwf Hid. cbv zeta. unfold abortTransaction.
  assert ((id <? 0) = false) as -> by lia.
  split.
  { intros Hnot. by rewrite decide_False. }
  intros t Hrun Hobj. rewrite decide_True, Hobj by done.
  pose proof (wf_running _ Hwf _ _ Hrun Hobj) as Hnf.
  pose proof (wf_known _ Hwf _ _ Hobj) as Hk.
  pose proof (proj1 (wf_objects _ Hwf _ _ Hobj)) as Hkey.
  split; [destruct (transactionStatus t); try done; tauto|].
  set (t1 := match attachment with Some a => _ | None => t end).
  assert (T : touched t t1) by (unfold t1; destruct attachment; by split).
  destruct T as [Hh1 Hs1].
  assert (Hkey1 : getTransactionId t1 = id) by (by rewrite (id_of_header _ _ Hh1)).
  assert (Hget1 : unprotectedGetTransactionState id (storeTxn t1 m) = Some t1).
  { unfold unprotectedGetTransactionState, storeTxn. simpl.
    rewrite decide_True by done. by rewrite Hkey1, lookup_insert_eq. }
  split.
  - intros Hc. destruct (negb (beforeStateTransform t1 ABORTED)); simpl.
    + split; [by eexists|]. split; [done|]. exists t1. split; [done|congruence].
    + unfold unprotectAbortTransaction. rewrite Hget1, Hs1, Hc. simpl.
      split; [by eexists|]. split; [done|]. exists t1. split; [done|congruence].
  - intros Hnc Hok. rewrite Hok. simpl.
    unfold unprotectAbortTransaction. rewrite Hget1, Hs1.
    set (t2 := setTransactionStatus ABORTED _).
    assert (Hkey2 : getTransactionId t2 = id) by done.
    assert (Hres : ∀ m0,
      (id ∉ idToRunningTransactionState (unprotectUpsertTransactionState t2 false m0))
      ∧ id ∈ idToFinalStatusTransactionState (unprotectUpsertTransactionState t2 false m0)
      ∧ unprotectedGetTransactionState id (unprotectUpsertTransactionState t2 false m0)
        = Some t2).
    { intros m0. destruct (upsert_fields t2 false m0) as (Eo & _ & _ & Es).
      change (isFinalStatus (transactionStatus t2)) with true in Es.
      destruct Es as [Er Ef]. rewrite Hkey2 in *.
      split; [rewrite Er; set_solver|]. split; [rewrite Ef; set_solver|].
      unfold unprotectedGetTransactionState.
      rewrite decide_False by (rewrite Er; set_solver).
      rewrite decide_True by (rewrite Ef; set_solver).
      by rewrite Eo, lookup_insert_eq. }
    destruct (transactionStatus t) eqn:Hs; try done; simpl;
      (split; [done|]); destruct (Hres (storeTxn t1 m)) as (? & ? & ?);
      (split; [done|]); (split; [done|]); exists t2; repeat split; done.
Qed.

End Steps.

Import TxnExamples.
#[local] Existing Instance plain_collaborators.

Lemma abortTransaction_status_guard_witness :
  (abortTransaction 20 100 "user" None mgr_begun).2 = Returned ()
  ∧ 100 ∈ idToFinalStatusTransactionState (abortTransaction 20 100 "user" None mgr_begun).1.
Proof.
  assert (Hreach : reachable 1 cfg0 99 mgr_begun)
    by (unfold mgr_begun; apply reachable_step, reachable_new).
  destruct (txnObjects mgr_begun !! 100) as [t|] eqn:E; [|vm_compute in E; discriminate].
  destruct (abortTransaction_status_guard (H := plain_collaborators)
              20 100 "user" None mgr_begun
              (reachable_wf _ _ _ _ Hreach)) as [_ Hrun]; [lia|].
  destruct (Hrun t) as (_ & _ & Hgo).
  - apply (bool_decide_unpack _). vm_compute. exact I.
  - exact E.
  - destruct Hgo as (Hret & _ & Hfin & _).
    + vm_compute in E. injection E as <-. discriminate.
    + reflexivity.
    + split; [exact Hret|exact Hfin].
Defined.

End AbortProofs.

(** ** Labels *)

Module LabelQueryProofs.
Import MachineInt MachineIntFacts TxnMgr TxnSpecs TxnMoreSpecs TxnMgrQueries.
Import LabelUniquenessProofs TransactionStatusProofs.

Lemma foldl_max_spec (ids : list Z) : ∀ id,
  (foldl Z.max id ids = id ∨ foldl Z.max id ids ∈ ids)
  ∧ id ≤ foldl Z.max id ids
  ∧ ∀ i, i ∈ ids → i ≤ foldl Z.max id ids.
Proof.
  induction ids as [|x ids IH]; intros id; simpl.
  - split; [by left|]. split; [lia|]. intros i Hi. by apply elem_of_nil in Hi.
  - destruct (IH (Z.max id x)) as (Hin & Hle & Hall). split; [|split].
    + destruct Hin as [Heq|Hin]; [|right; by right].
      rewrite Heq. destruct (Z.max_spec id x) as [[_ ->]|[_ ->]]; [right; left|by left].
    + lia.
    + intros i [->|Hi]%elem_of_cons; [lia|by apply Hall].
Qed.

Lemma maxTxnIdOf_spec (ids : gset Z) :
  ids ≠ ∅ → maxTxnIdOf ids ∈ ids ∧ ∀ i, i ∈ ids → i ≤ maxTxnIdOf ids.
Proof.
  intros Hne. unfold maxTxnIdOf.
  destruct (elements ids) as [|x l] eqn:He.
  { apply elements_empty_inv in He. by apply leibniz_equiv in He. }
  destruct (foldl_max_spec l x) as (Hin & Hle & Hall).
  assert (Hel : ∀ i, i ∈ ids ↔ i = x ∨ i ∈ l).
  { intros i. rewrite <- elem_of_elements, He, elem_of_cons. done. }
  split.
  - apply Hel. destruct Hin as [->|?]; [by left|by right].
  - intros i [->|Hi]%Hel; [done|by apply Hall].
Qed.

(** The ids filed under a label are those of the tracked transactions that
    have the label. *)
Lemma filed_iff_tracked m label id :
  mgr_wf m →
  (∃ ids, unprotectedGetTxnIdsByLabel label m = Some ids ∧ id ∈ ids)
  ↔ ∃ t, unprotectedGetTransactionState id m = Some t ∧ getLabel t = label.
Proof.
  intros Hwf. unfold unprotectedGetTxnIdsByLabel. split.
  - intros (ids & Hl & Hin). destruct (wf_labels _ Hwf _ _ _ Hl Hin) as (Htr & t & Hobj & Hlab).
    exists t. split; [by apply tracked_unprotectedGet|done].
  - intros (t & Hget & Hlab). apply unprotectedGet_tracked in Hget as [Htr Hobj].
    destruct (wf_filed _ Hwf _ Htr) as (t0 & ids & Hobj0 & Hl & Hin).
    assert (t0 = t) as -> by congruence. exists ids. by rewrite <- Hlab.
Qed.

(** The two cases of [getLabelState] on a well-formed manager. *)
Lemma getLabelState_cases (label : string) (m : Mgr) :
  mgr_wf m →
  ((∀ id t, unprotectedGetTransactionState id m = Some t → getLabel t ≠ label) →
   getLabelState label m = Returned UNKNOWN ∧ getTransactionIdByLabel label m = None)
  ∧ ((∃ id t, unprotectedGetTransactionState id m = Some t ∧ getLabel t = label) →
     ∃ id t, getTransactionIdByLabel label m = Some id
             ∧ unprotectedGetTransactionState id m = Some t
             ∧ getLabel t = label
             ∧ getLabelState label m = Returned (transactionStatus t)
             ∧ transactionStatus t ≠ UNKNOWN
             ∧ ∀ id' t', unprotectedGetTransactionState id' m = Some t' →
                         getLabel t' = label → id' ≤ id).
Proof.
  intros Hwf. unfold getLabelState, getTransactionIdByLabel. split.
  - intros Hnone. destruct (unprotectedGetTxnIdsByLabel label m) as [ids|] eqn:Hl; [|done].
    case_decide as Hemp; [done|]. exfalso.
    destruct (maxTxnIdOf_spec ids Hemp) as [Hin _].
    destruct (proj1 (filed_iff_tracked m label (maxTxnIdOf ids) Hwf))
      as (t & Hget & Hlab); [by eauto|].
    by apply (Hnone _ _ Hget).
  - intros (id0 & t0 & Hget0 & Hlab0).
    destruct (proj2 (filed_iff_tracked m label id0 Hwf)) as (ids & Hl & Hin0); [by eauto|].
    rewrite Hl. rewrite !decide_False by set_solver.
    destruct (maxTxnIdOf_spec ids) as [Hin Hmax]; [set_solver|].
    destruct (proj1 (filed_iff_tracked m label (maxTxnIdOf ids) Hwf))
      as (t & Hget & Hlab); [by eauto|].
    exists (maxTxnIdOf ids), t. rewrite Hget.
    split; [done|]. split; [done|]. split; [done|]. split; [done|].
    split; [apply get_object in Hget; by apply (wf_known _ Hwf _ _ Hget)|].
    intros id' t' Hget' Hlab'.
    destruct (proj2 (filed_iff_tracked m label id' Hwf)) as (ids' & Hl' & Hin'); [by eauto|].
    assert (ids' = ids) as -> by congruence. by apply Hmax.
Qed.

(** On a manager in a state it can reach, [getLabelState] does not throw: it
    returns the status of the tracked transaction of the label that has the
    largest id, which is the id that [getTransactionIdByLabel] returns, and
    UNKNOWN, with [getTransactionIdByLabel] returning null, exactly when no
    tracked transaction has the label. *)
Theorem getLabelState_latest (label : string) (m : Mgr) :
  mgr_wf m →
  ((∀ id t, unprotectedGetTransactionState id m = Some t → getLabel t ≠ label) →
   getLabelState label m = Returned UNKNOWN ∧ getTransactionIdByLabel label m = None)
  ∧ ((∃ id t, unprotectedGetTransactionState id m = Some t ∧ getLabel t = label) →
     ∃ id t, getTransactionIdByLabel label m = Some id
             ∧ unprotectedGetTransactionState id m = Some t
             ∧ getLabel t = label
             ∧ getLabelState label m = Returned (transactionStatus t)
             ∧ transactionStatus t ≠ UNKNOWN
             ∧ ∀ id' t', unprotectedGetTransactionState id' m = Some t' →
                         getLabel t' = label → id' ≤ id).
Proof. apply getLabelState_cases. Qed.

Section Steps.
Context `{Collaborators}.

(** A [beginTransaction] that returns, on a manager in a state it can reach:
    the id returned is larger than every id of the manager and is taken from
    the generator; the new transaction is PREPARE, has the label and the
    prepare time of the call, and is in the running index; the transactions
    that were tracked are tracked as they were; and the label now answers
    PREPARE and the new id. *)
Theorem beginTransaction_returns_fresh_id
    (env : Env) (now : Z) (tableIdList : list Z) (label : option string)
    (requestId : option TUniqueId) (coordinator : option TxnCoordinator)
    (sourceType : LoadJobSourceType) (listenerId timeoutSecond : Z)
    (m m' : Mgr) (tid : Z) :
  mgr_wf m →
  beginTransaction env now tableIdList label requestId coordinator sourceType
    listenerId timeoutSecond m = (m', Returned tid) →
  ∃ lbl t,
    label = Some lbl
    ∧ tid = idGenerator m + 1 ∧ idGenerator m' = tid
    ∧ (∀ id t0, txnObjects m !! id = Some t0 → id < tid)
    ∧ unprotectedGetTransactionState tid m' = Some t
    ∧ getTransactionId t = tid ∧ getLabel t = lbl
    ∧ transactionStatus t = PREPARE ∧ prepareTime t = now
    ∧ idToRunningTransactionState m' = idToRunningTransactionState m ∪ {[tid]}
    ∧ idToFinalStatusTransactionState m' = idToFinalStatusTransactionState m
    ∧ (∀ id t0, unprotectedGetTransactionState id m = Some t0 →
                unprotectedGetTransactionState id m' = Some t0)
    ∧ getLabelState lbl m' = Returned PREPARE
    ∧ getTransactionIdByLabel lbl m' = Some tid.
Proof.
  intros Hwf Hrun.
  pose proof (beginTransaction_evolves env now tableIdList label requestId coordinator
                sourceType listenerId timeoutSecond m Hwf) as Hev.
  rewrite Hrun in Hev. simpl in Hev. pose proof (evolves_wf _ _ Hev) as Hwf'.
  unfold beginTransaction in Hrun.
  destruct (idToDb env !! mgr_dbId m) as [db|]; [|done].
  destruct (negb (db_access_ok db)); [done|].
  pose proof (checkDatabaseDataQuota_same_core db m) as (Eo1 & Er1 & Ef1 & El1 & Eg1).
  assert (Eg1' : idGenerator (checkDatabaseDataQuota db m).1 = idGenerator m).
  { unfold checkDatabaseDataQuota. by case_decide. }
  destruct (checkDatabaseDataQuota db m) as [m1 ok]. simpl in *.
  destruct (negb ok); [done|].
  destruct coordinator as [coordinator|]; [|done].
  destruct label as [lbl|]; [|done].
  destruct (negb (checkLabel lbl)); [done|].
  set (t := setPrepareTime now
              (newTransactionState (mgr_dbId m1) tableIdList (idGenerator m1 + 1) lbl
                 requestId sourceType coordinator listenerId
                 (wrap64 (timeoutSecond * 1000)))) in *.
  assert (Hnew :
      (if negb (checkRunningTxnExceedLimit db sourceType m1)
       then (m1, Thrown BeginTransactionException)
       else (unprotectUpsertTransactionState t false
               (setIdGenerator (idGenerator m1 + 1) m1),
             Returned (idGenerator m1 + 1))) = (m', Returned tid)).
  { destruct (unprotectedGetTxnIdsByLabel lbl m1) as [existing|]; [|done].
    case_decide as Hemp; [done|].
    destruct (notAbortedTxnsOf existing m1) as [[|t1 [|t2 rest]]|] eqn:Hscan; try done.
    destruct requestId as [req|], (getRequestId t1) as [req'|]; try done.
    by destruct (_ && _). }
  clear Hrun. destruct (negb _); [done|]. injection Hnew as <- <-.
  pose proof (upsert_fields t false (setIdGenerator (idGenerator m1 + 1) m1)) as Hfields.
  set (m' := unprotectUpsertTransactionState t false _) in *.
  cbv zeta in Hfields. fold m' in Hfields.
  change (isFinalStatus (transactionStatus t)) with false in Hfields.
  change (getTransactionId t) with (idGenerator m1 + 1) in Hfields.
  change (txnObjects (setIdGenerator (idGenerator m1 + 1) m1)) with (txnObjects m1)
    in Hfields.
  change (idToRunningTransactionState (setIdGenerator (idGenerator m1 + 1) m1))
    with (idToRunningTransactionState m1) in Hfields.
  change (idToFinalStatusTransactionState (setIdGenerator (idGenerator m1 + 1) m1))
    with (idToFinalStatusTransactionState m1) in Hfields.
  change (idGenerator (setIdGenerator (idGenerator m1 + 1) m1))
    with (idGenerator m1 + 1) in Hfields.
  destruct Hfields as (Eo & El & Eg & Er & Ef).
  assert (Hfresh : ∀ id t0, txnObjects m !! id = Some t0 → id < idGenerator m1 + 1).
  { intros id t0 Ht0. destruct (wf_objects _ Hwf _ _ Ht0). lia. }
  assert (Hget : unprotectedGetTransactionState (idGenerator m1 + 1) m' = Some t).
  { unfold unprotectedGetTransactionState. rewrite decide_True by (rewrite Er; set_solver).
    by rewrite Eo, lookup_insert_eq. }
  assert (Hold : ∀ id t0, unprotectedGetTransactionState id m = Some t0 →
                          unprotectedGetTransactionState id m' = Some t0).
  { intros id t0 Hget0. apply unprotectedGet_tracked in Hget0 as [Htr Hobj].
    apply tracked_unprotectedGet.
    - unfold is_tracked in *. rewrite Er, Ef, Er1, Ef1. set_solver.
    - rewrite Eo, lookup_insert_ne, Eo1; [done|]. apply Hfresh in Hobj. lia. }
  exists lbl, t. split; [done|]. split; [lia|]. split; [done|].
  split; [intros id t0 Ht0; by apply (Hfresh id t0)|].
  split; [done|]. split; [done|]. split; [done|]. split; [done|]. split; [done|].
  split; [by rewrite Er, Er1|]. split; [by rewrite Ef, Ef1|]. split; [done|].
  destruct (getLabelState_cases lbl m' Hwf') as [_ Hsome].
  destruct Hsome as (id & t' & Hid & Hget' & Hlab' & Hstate & _ & Hmax);
    [by exists (idGenerator m1 + 1), t|].
  assert (id = idGenerator m1 + 1) as ->.
  { pose proof (Hmax _ _ Hget eq_refl).
    apply get_object in Hget'. destruct (wf_objects _ Hwf' _ _ Hget'). lia. }
  assert (t' = t) as -> by congruence. done.
Qed.

End Steps.

Import TxnExamples.
#[local] Existing Instance plain_collaborators.

Lemma getLabelState_latest_witness :
  ∃ id t, getTransactionIdByLabel "L1" mgr_begun_again = Some id
          ∧ unprotectedGetTransactionState id mgr_begun_again = Some t
          ∧ getLabelState "L1" mgr_begun_again = Returned (transactionStatus t).
Proof.
  assert (Hreach : reachable 1 cfg0 99 mgr_begun_again).
  { unfold mgr_begun_again, mgr_begun. do 3 apply reachable_step. apply reachable_new. }
  destruct (unprotectedGetTransactionState 101 mgr_begun_again) as [t101|] eqn:E;
    [|vm_compute in E; discriminate].
  destruct (getLabelState_latest "L1" mgr_begun_again (reachable_wf _ _ _ _ Hreach))
    as [_ Hsome].
  destruct Hsome as (id & t & Hid & Hget & _ & Hstate & _).
  - exists 101, t101. split; [exact E|].
    vm_compute in E. injection E as <-. reflexivity.
  - exists id, t. split; [exact Hid|]. split; [exact Hget|exact Hstate].
Defined.

Lemma beginTransaction_returns_fresh_id_witness :
  ∃ m', beginTransaction env0 10 [1] (Some "L1"%string) (Some req1) (Some coord)
          BACKEND 0 60 (newMgr 1 cfg0 99) = (m', Returned 100)
        ∧ getLabelState "L1" m' = Returned PREPARE
        ∧ getTransactionIdByLabel "L1" m' = Some 100.
Proof.
  assert (Hrun : beginTransaction env0 10 [1] (Some "L1"%string) (Some req1) (Some coord)
                   BACKEND 0 60 (newMgr 1 cfg0 99)
                 = ((beginTransaction env0 10 [1] (Some "L1"%string) (Some req1)
                       (Some coord) BACKEND 0 60 (newMgr 1 cfg0 99)).1, Returned 100)).
  { destruct (beginTransaction env0 10 [1] (Some "L1"%string) (Some req1) (Some coord)
                BACKEND 0 60 (newMgr 1 cfg0 99)) as [m' o] eqn:E.
    assert (o = Returned 100) as ->; [|done].
    apply (f_equal snd) in E. vm_compute in E. congruence. }
  eexists. split; [exact Hrun|].
  destruct (beginTransaction_returns_fresh_id (H := plain_collaborators)
              env0 10 [1] (Some "L1"%string) (Some req1) (Some coord) BACKEND 0 60
              (newMgr 1 cfg0 99) _ 100 (newMgr_wf 1 cfg0 99) Hrun)
    as (lbl & t & Hlbl & _ & _ & _ & _ & _ & _ & _ & _ & _ & _ & _ & Hstate & Hid).
  injection Hlbl as <-. split; [exact Hstate|exact Hid].
Defined.

End LabelQueryProofs.

(** ** Finding a transaction by label and status *)

Module LabelStatusProofs.
Import MachineInt MachineIntFacts TxnMgr TxnSpecs TxnMoreSpecs TxnMgrQueries.
Import LabelUniquenessProofs TransactionStatusProofs LabelQueryProofs.

Lemma findTxnWithStatus_spec status txnIds m :
  (∀ id, id ∈ txnIds → is_Some (unprotectedGetTransactionState id m)) →
  match findTxnWithStatus status txnIds m with
  | Returned (Some txn) =>
      ∃ id, id ∈ txnIds ∧ unprotectedGetTransactionState id m = Some txn
            ∧ transactionStatus txn = status
  | Returned None =>
      ∀ id t, id ∈ txnIds → unprotectedGetTransactionState id m = Some t →
              transactionStatus t ≠ status
  | Thrown _ => False
  end.
Proof.
  induction txnIds as [|id rest IH]; intros Hall; simpl.
  - intros id t Hin. by apply elem_of_nil in Hin.
  - destruct (Hall id) as [txn Hget]; [left|]. rewrite Hget.
    case_decide as Hs.
    + exists id. split; [left|done].
    + assert (Hrest : ∀ id0, id0 ∈ rest → is_Some (unprotectedGetTransactionState id0 m))
        by (intros id0 Hin; apply Hall; by right).
      specialize (IH Hrest).
      destruct (findTxnWithStatus status rest m) as [[txn'|]|e]; [| |done].
      * destruct IH as (id' & Hin' & ?). exists id'. split; [by right|done].
      * intros id0 t0 [->|Hin]%elem_of_cons Hget0; [congruence|by eapply IH].
Qed.

Lemma findTxnByStatusList_spec label m existingTxns statusList :
  mgr_wf m →
  unprotectedGetTxnIdsByLabel label m = Some existingTxns → existingTxns ≠ ∅ →
  ∀ findTxn,
  ∃ r, findTxnByStatusList label statusList findTxn m = Returned r
       ∧ ((r = findTxn ∧ ∀ status, status ∈ statusList → ¬ has_status m label status)
          ∨ ∃ txn pre post,
              r = Some txn
              ∧ unprotectedGetTransactionState (getTransactionId txn) m = Some txn
              ∧ getLabel txn = label
              ∧ statusList = pre ++ transactionStatus txn :: post
              ∧ ∀ status, status ∈ post → ¬ has_status m label status).
Proof.
  intros Hwf Hl Hne.
  assert (Hfiled : ∀ id, id ∈ elements existingTxns →
            ∃ t, unprotectedGetTransactionState id m = Some t ∧ getLabel t = label).
  { intros id Hin. apply elem_of_elements in Hin.
    apply (proj1 (filed_iff_tracked m label id Hwf)). by exists existingTxns. }
  assert (Hmember : ∀ id t, unprotectedGetTransactionState id m = Some t →
            getLabel t = label → id ∈ elements existingTxns).
  { intros id t Hget Hlab. apply elem_of_elements.
    destruct (proj2 (filed_iff_tracked m label id Hwf)) as (ids & Hl' & Hin); [by eauto|].
    congruence. }
  induction statusList as [|status rest IH]; intros findTxn; simpl.
  - exists findTxn. split; [done|]. left. split; [done|].
    intros status Hin. by apply elem_of_nil in Hin.
  - rewrite Hl. rewrite decide_False by done.
    pose proof (findTxnWithStatus_spec status (elements existingTxns) m) as Hinner.
    destruct (findTxnWithStatus status (elements existingTxns) m) as [found|e].
    2: { exfalso. apply Hinner. intros id Hin. destruct (Hfiled id Hin) as (t & -> & _).
         by eexists. }
    assert (Hinner' := Hinner (λ id Hin, ltac:(destruct (Hfiled id Hin) as (t & -> & _);
                                               by eexists))).
    clear Hinner.
    destruct (IH (match found with Some txn => Some txn | None => findTxn end))
      as (r & Hr & Hcase).
    exists r. split; [done|].
    destruct Hcase as [[-> Hnone]|(txn & pre & post & -> & Hget & Hlab & -> & Hpost)].
    + destruct found as [txn|].
      * right. destruct Hinner' as (id & Hin & Hget & Hs).
        destruct (Hfiled id Hin) as (t & Hget' & Hlab).
        assert (t = txn) as -> by congruence.
        assert (getTransactionId txn = id) as Hid.
        { apply get_object in Hget. by apply (wf_objects _ Hwf). }
        exists txn, [], rest. rewrite Hid, Hs. done.
      * left. split; [done|]. intros status' [->|Hin]%elem_of_cons; [|by apply Hnone].
        intros (id & t & Hget & Hlab & Hs). by apply (Hinner' id t (Hmember _ _ Hget Hlab)).
    + right. exists txn, (status :: pre), post. done.
Qed.

(** What [getTransactionIdByLabel(String, List)] gives on a well-formed
    manager. *)
Lemma getTransactionIdByLabelAndStatus_cases
    (label : string) (statusList : list TransactionStatus) (m : Mgr) :
  mgr_wf m →
  match getTransactionIdByLabelAndStatus label statusList m with
  | Returned id =>
      ∃ t pre post,
        unprotectedGetTransactionState id m = Some t
        ∧ getLabel t = label
        ∧ statusList = pre ++ transactionStatus t :: post
        ∧ ∀ status, status ∈ post → ¬ has_status m label status
  | Thrown e =>
      e = TransactionNotFoundException
      ∧ ∀ status, status ∈ statusList → ¬ has_status m label status
  end.
Proof.
  intros Hwf. unfold getTransactionIdByLabelAndStatus.
  destruct (unprotectedGetTxnIdsByLabel label m) as [existingTxns|] eqn:Hl.
  2: { assert (Hno : ∀ status, ¬ has_status m label status).
       { intros status (id & t & Hget & Hlab & _).
         destruct (proj2 (filed_iff_tracked m label id Hwf)) as (ids & Hl' & _);
           [by eauto|congruence]. }
       destruct statusList as [|status rest]; simpl; [|rewrite Hl]; split; try done;
         intros; apply Hno. }
  destruct (decide (existingTxns = ∅)) as [->|Hne].
  { assert (Hno : ∀ status, ¬ has_status m label status).
    { intros status (id & t & Hget & Hlab & _).
      destruct (proj2 (filed_iff_tracked m label id Hwf)) as (ids & Hl' & Hin);
        [by eauto|]. rewrite Hl in Hl'. injection Hl' as <-. set_solver. }
    destruct statusList as [|status rest]; simpl; [|rewrite Hl, decide_True by done];
      split; try done; intros; apply Hno. }
  destruct (findTxnByStatusList_spec label m existingTxns statusList Hwf Hl Hne None)
    as (r & -> & Hcase).
  destruct Hcase as [[-> Hnone]|(txn & pre & post & -> & Hget & Hlab & Hsplit & Hpost)].
  - done.
  - by exists txn, pre, post.
Qed.

(** [getTransactionIdByLabel(label, statusList)] on a manager in a state it
    can reach.  It returns the id of a tracked transaction of the label
    whose status is in the list, and no transaction of the label has a
    status that comes later in the list: of the statuses that some
    transaction of the label has, the last in the list decides.  It throws,
    and then a [TransactionNotFoundException], exactly when no transaction
    of the label has a status of the list. *)
Theorem getTransactionIdByLabelAndStatus_last_status
    (label : string) (statusList : list TransactionStatus) (m : Mgr) :
  mgr_wf m →
  match getTransactionIdByLabelAndStatus label statusList m with
  | Returned id =>
      ∃ t pre post,
        unprotectedGetTransactionState id m = Some t
        ∧ getLabel t = label
        ∧ statusList = pre ++ transactionStatus t :: post
        ∧ ∀ status, status ∈ post → ¬ has_status m label status
  | Thrown e =>
      e = TransactionNotFoundException
      ∧ ∀ status, status ∈ statusList → ¬ has_status m label status
  end.
Proof. apply getTransactionIdByLabelAndStatus_cases. Qed.

Section Steps.
Context `{Collaborators}.

(** [abortTransaction(label, reason)] on a manager in a state it can reach:
    without a PREPARE transaction of the label it throws
    [TransactionNotFoundException] and changes nothing; with one it is
    [abortTransaction] on the id of a PREPARE transaction of the label. *)
Theorem abortTransactionByLabel_aborts_prepare
    (now : Z) (label : string) (why : string) (m : Mgr) :
  mgr_wf m →
  (¬ has_status m label PREPARE →
   abortTransactionByLabel now (Some label) why m = (m, Thrown TransactionNotFoundException))
  ∧ (has_status m label PREPARE →
     ∃ id t, unprotectedGetTransactionState id m = Some t
             ∧ getLabel t = label ∧ transactionStatus t = PREPARE
             ∧ abortTransactionByLabel now (Some label) why m
               = abortTransaction now id why None m).
Proof.
  intros Hwf. unfold abortTransactionByLabel.
  pose proof (getTransactionIdByLabelAndStatus_cases label [PREPARE] m Hwf) as Hfind.
  destruct (getTransactionIdByLabelAndStatus label [PREPARE] m) as [id|e].
  - destruct Hfind as (t & pre & post & Hget & Hlab & Hsplit & _).
    assert (transactionStatus t = PREPARE) as Hs.
    { destruct pre as [|s pre]; simpl in Hsplit; [congruence|].
      injection Hsplit as _ Hsplit. by destruct pre. }
    split.
    + intros Hno. exfalso. apply Hno. by exists id, t.
    + intros _. by exists id, t.
  - destruct Hfind as [-> Hno]. split; [done|].
    intros Hhas. exfalso. apply (Hno PREPARE); [left|done].
Qed.

End Steps.

Import TxnExamples.
#[local] Existing Instance plain_collaborators.

Lemma getTransactionIdByLabelAndStatus_last_status_witness :
  ∃ t pre post,
    unprotectedGetTransactionState 100 mgr_begun_again = Some t
    ∧ getLabel t = "L1"%string
    ∧ [PREPARE; ABORTED] = pre ++ transactionStatus t :: post.
Proof.
  assert (Hreach : reachable 1 cfg0 99 mgr_begun_again).
  { unfold mgr_begun_again, mgr_begun. do 3 apply reachable_step. apply reachable_new. }
  pose proof (getTransactionIdByLabelAndStatus_last_status "L1" [PREPARE; ABORTED]
                mgr_begun_again (reachable_wf _ _ _ _ Hreach)) as Hspec.
  assert (E : getTransactionIdByLabelAndStatus "L1" [PREPARE; ABORTED] mgr_begun_again
              = Returned 100) by (vm_compute; reflexivity).
  rewrite E in Hspec. destruct Hspec as (t & pre & post & Hget & Hlab & Hsplit & _).
  exists t, pre, post. split; [exact Hget|]. split; [exact Hlab|exact Hsplit].
Defined.

Lemma abortTransactionByLabel_aborts_prepare_witness :
  ∃ id t, unprotectedGetTransactionState id mgr_begun = Some t
          ∧ transactionStatus t = PREPARE
          ∧ abortTransactionByLabel 20 (Some "L1"%string) "user" mgr_begun
            = abortTransaction 20 id "user" None mgr_begun.
Proof.
  assert (Hreach : reachable 1 cfg0 99 mgr_begun)
    by (unfold mgr_begun; apply reachable_step, reachable_new).
  destruct (unprotectedGetTransactionState 100 mgr_begun) as [t100|] eqn:E;
    [|vm_compute in E; discriminate].
  destruct (abortTransactionByLabel_aborts_prepare (H := plain_collaborators)
              20 "L1" "user" mgr_begun (reachable_wf _ _ _ _ Hreach)) as [_ Hsome].
  destruct Hsome as (id & t & Hget & _ & Hs & Hrun).
  - exists 100, t100. split; [exact E|].
    vm_compute in E. injection E as <-. split; reflexivity.
  - exists id, t. split; [exact Hget|]. split; [exact Hs|exact Hrun].
Defined.

End LabelStatusProofs.

(** ** Finish without a check of the status *)

Module FinishStatusProofs.
Import MachineInt MachineIntFacts TxnMgr TxnSpecs TxnMoreSpecs TxnMgrQueries.
Import LabelUniquenessProofs TransactionStatusProofs.

Section Steps.
Context `{Collaborators}.

(** [finishTransaction] does not look at the status of the transaction: a
    tracked transaction that records no table commit infos, as every
    transaction does before it is committed, passes the version check and
    the quorum check with nothing to check and is made VISIBLE, whatever
    its status was, PREPARE and ABORTED included. *)
Theorem finishTransaction_no_status_check
    (env : Env) (now id : Z) (m : Mgr) (t : TransactionState) (db : Database) :
  mgr_wf m →
  unprotectedGetTransactionState id m = Some t →
  idToDb env !! dbId (header t) = Some db →
  idToTableCommitInfos t = [] →
  (finishTransaction env now id m).2 = Returned (FinishVisible QUORUM_SUCC)
  ∧ (id ∉ idToRunningTransactionState (finishTransaction env now id m).1.1)
  ∧ id ∈ idToFinalStatusTransactionState (finishTransaction env now id m).1.1
  ∧ ∃ t', unprotectedGetTransactionState id (finishTransaction env now id m).1.1 = Some t'
          ∧ header t' = header t
          ∧ transactionStatus t' = VISIBLE
          ∧ finishTime t' = now.
Proof.
  intros Hwf Hget Hdb Hinfos.
  pose proof (get_object _ _ _ Hget) as Hobj.
  pose proof (proj1 (wf_objects _ Hwf _ _ Hobj)) as Hkey.
  unfold finishTransaction. rewrite Hget, Hdb.
  unfold finishCheckPartitionVersion. rewrite Hinfos. cbn [checkTableVersions].
  cbv beta iota zeta. cbn [negb].
  unfold finishCheckQuorumReplicas. cbn [checkPartitionsQuorum].
  cbv beta iota zeta. cbn [ql_publishResult].
  rewrite (bool_decide_eq_false_2 (QUORUM_SUCC = FAILED)) by done. cbn [negb orb].
  set (t2 := setTransactionStatus VISIBLE _).
  assert (Hkey2 : getTransactionId t2 = id) by done.
  destruct (upsert_fields t2 false m) as (Eo & _ & _ & Es).
  change (isFinalStatus (transactionStatus t2)) with true in Es.
  destruct Es as [Er Ef]. rewrite Hkey2 in *.
  cbn [fst snd].
  split; [done|]. split; [rewrite Er; set_solver|]. split; [rewrite Ef; set_solver|].
  exists t2. split; [|done].
  unfold unprotectedGetTransactionState.
  rewrite decide_False by (rewrite Er; set_solver).
  rewrite decide_True by (rewrite Ef; set_solver).
  by rewrite Eo, lookup_insert_eq.
Qed.

End Steps.

Import TxnExamples.
#[local] Existing Instance plain_collaborators.

Lemma finishTransaction_no_status_check_witness :
  (finishTransaction env0 40 100 mgr_begun).2 = Returned (FinishVisible QUORUM_SUCC)
  ∧ 100 ∈ idToFinalStatusTransactionState (finishTransaction env0 40 100 mgr_begun).1.1.
Proof.
  assert (Hreach : reachable 1 cfg0 99 mgr_begun)
    by (unfold mgr_begun; apply reachable_step, reachable_new).
  destruct (unprotectedGetTransactionState 100 mgr_begun) as [t|] eqn:E;
    [|vm_compute in E; discriminate].
  destruct (idToDb env0 !! dbId (header t)) as [db|] eqn:Edb.
  2: { vm_compute in E. injection E as <-. vm_compute in Edb. discriminate Edb. }
  destruct (finishTransaction_no_status_check (H := plain_collaborators)
              env0 40 100 mgr_begun t db (reachable_wf _ _ _ _ Hreach) E Edb)
    as (Hret & _ & Hfin & _).
  - vm_compute in E. injection E as <-. reflexivity.
  - split; [exact Hret|exact Hfin].
Defined.

End FinishStatusProofs.

(** ** Removal of useless transactions, and its replay *)

Module RemoveReplayProofs.
Import MachineInt MachineIntFacts TxnMgr TxnSpecs TxnMoreSpecs TxnMgrQueries.
Import LabelUniquenessProofs TransactionStatusProofs.

Lemma clear_fields txnId m :
  let m' := (clearTransactionState txnId m).1 in
  txnObjects m' = txnObjects m
  ∧ idToRunningTransactionState m' = idToRunningTransactionState m
  ∧ maxFinalTxnsNum m' = maxFinalTxnsNum m
  ∧ finalStatusTransactionStateDequeShort m' = finalStatusTransactionStateDequeShort m
  ∧ finalStatusTransactionStateDequeLong m' = finalStatusTransactionStateDequeLong m
  ∧ editLog m' = editLog m
  ∧ idGenerator m' = idGenerator m
  ∧ idToFinalStatusTransactionState m' ⊆ idToFinalStatusTransactionState m.
Proof.
  cbv zeta. unfold clearTransactionState.
  case_decide; [|done].
  destruct (txnObjects m !! txnId); [|done].
  destruct (unprotectedGetTxnIdsByLabel _ m); simpl; repeat split; set_solver.
Qed.

Lemma clear_keyed txnId m : keyed m → keyed (clearTransactionState txnId m).1.
Proof.
  intros Hk ref t. destruct (clear_fields txnId m) as (-> & _). apply Hk.
Qed.

Lemma clearAll_app l1 l2 m : clearAll (l1 ++ l2) m = clearAll l2 (clearAll l1 m).
Proof. unfold clearAll. by rewrite foldl_app. Qed.

Lemma clearsReturn_app l1 l2 m :
  clearsReturn (l1 ++ l2) m ↔ clearsReturn l1 m ∧ clearsReturn l2 (clearAll l1 m).
Proof.
  revert m. induction l1 as [|x l1 IH]; intros m; simpl; [tauto|].
  rewrite IH. unfold clearAll. simpl. tauto.
Qed.

Lemma clearAll_fields l : ∀ m,
  txnObjects (clearAll l m) = txnObjects m
  ∧ idToRunningTransactionState (clearAll l m) = idToRunningTransactionState m
  ∧ maxFinalTxnsNum (clearAll l m) = maxFinalTxnsNum m
  ∧ finalStatusTransactionStateDequeShort (clearAll l m)
    = finalStatusTransactionStateDequeShort m
  ∧ finalStatusTransactionStateDequeLong (clearAll l m)
    = finalStatusTransactionStateDequeLong m
  ∧ editLog (clearAll l m) = editLog m
  ∧ idGenerator (clearAll l m) = idGenerator m
  ∧ idToFinalStatusTransactionState (clearAll l m) ⊆ idToFinalStatusTransactionState m.
Proof.
  induction l as [|x l IH]; intros m; [done|].
  unfold clearAll in *. simpl.
  destruct (IH (clearTransactionState x m).1) as (-> & -> & -> & -> & -> & -> & -> & Hs).
  destruct (clear_fields x m) as (-> & -> & -> & -> & -> & -> & -> & Hs').
  repeat split; try done. set_solver.
Qed.

Lemma clearAll_keyed l m : keyed m → keyed (clearAll l m).
Proof.
  intros Hk ref t. destruct (clearAll_fields l m) as (-> & _). apply Hk.
Qed.

Section Steps.
Context `{Collaborators}.

(** The two loops take a prefix off the deque. *)
Lemma removeExpiredLoop_prefix currentMillis left deque : ∀ m latestTxnId num r,
  keyed m → 0 ≤ num ≤ left → left ≤ INT_MAX →
  removeExpiredLoop currentMillis left deque m latestTxnId num = (r, None) →
  ∃ removed,
    deque = removed ++ rl_deque r
    ∧ rl_mgr r = clearAll removed m
    ∧ clearsReturn removed m
    ∧ Forall (λ ref, is_Some (txnObjects m !! ref)) removed
    ∧ rl_latestTxnId r = default latestTxnId (last removed)
    ∧ rl_num r = num + Z.of_nat (length removed)
    ∧ rl_num r ≤ left.
Proof.
  induction deque as [|ref rest IH]; intros m latestTxnId num r Hk Hnum Hleft Hrun;
    simpl in Hrun.
  { injection Hrun as <-. exists []. simpl. repeat split; try done; lia. }
  assert (Hstop : (r = {| rl_deque := ref :: rest; rl_mgr := m;
                          rl_latestTxnId := latestTxnId; rl_num := num |}) →
    ∃ removed,
      ref :: rest = removed ++ rl_deque r
      ∧ rl_mgr r = clearAll removed m
      ∧ clearsReturn removed m
      ∧ Forall (λ ref, is_Some (txnObjects m !! ref)) removed
      ∧ rl_latestTxnId r = default latestTxnId (last removed)
      ∧ rl_num r = num + Z.of_nat (length removed)
      ∧ rl_num r ≤ left).
  { intros ->. exists []. simpl. repeat split; try done; lia. }
  destruct (Z.ltb_spec num left) as [Hlt|Hge]; [|apply Hstop; congruence].
  destruct (txnObjects m !! ref) as [t|] eqn:Hobj; [|apply Hstop; congruence].
  destruct (isExpired t currentMillis); [|apply Hstop; congruence].
  rewrite (Hk _ _ Hobj) in Hrun.
  destruct (clearTransactionState ref m) as [m' [e|]] eqn:Hclear; [done|].
  assert (Hw : wrap32 (num + 1) = num + 1)
    by (apply wrap32_id; unfold in_int, INT_MIN, INT_MAX in *; lia).
  rewrite Hw in Hrun.
  assert (Hm' : m' = (clearTransactionState ref m).1) by (by rewrite Hclear).
  apply IH in Hrun as (removed & Hd & Hm & Hret & Hobjs & Hlast & Hn & Hle);
    [|subst m'; by apply clear_keyed|lia|done].
  exists (ref :: removed). split; [by rewrite Hd|].
  split; [by rewrite Hm, Hm'|]. split; [simpl; rewrite Hclear; simpl; by split|].
  split.
  { constructor; [by eexists|]. eapply Forall_impl; [exact Hobjs|].
    intros x. subst m'. by destruct (clear_fields ref m) as (-> & _). }
  split; [|split; [simpl length; lia|done]].
  rewrite Hlast, last_cons. by destruct (last removed).
Qed.

Lemma removeOverflowLoop_prefix left deque : ∀ m latestTxnId num r,
  keyed m → 0 ≤ num ≤ left → left ≤ INT_MAX →
  removeOverflowLoop left deque m latestTxnId num = (r, None) →
  ∃ removed,
    deque = removed ++ rl_deque r
    ∧ rl_mgr r = clearAll removed m
    ∧ clearsReturn removed m
    ∧ Forall (λ ref, is_Some (txnObjects m !! ref)) removed
    ∧ rl_latestTxnId r = default latestTxnId (last removed)
    ∧ rl_num r = num + Z.of_nat (length removed)
    ∧ rl_num r ≤ left.
Proof.
  induction deque as [|ref rest IH]; intros m latestTxnId num r Hk Hnum Hleft Hrun.
  { injection Hrun as <-. exists []. simpl. repeat split; try done; lia. }
  cbn [removeOverflowLoop] in Hrun.
  assert (Hstop : (r = {| rl_deque := ref :: rest; rl_mgr := m;
                          rl_latestTxnId := latestTxnId; rl_num := num |}) →
    ∃ removed,
      ref :: rest = removed ++ rl_deque r
      ∧ rl_mgr r = clearAll removed m
      ∧ clearsReturn removed m
      ∧ Forall (λ ref, is_Some (txnObjects m !! ref)) removed
      ∧ rl_latestTxnId r = default latestTxnId (last removed)
      ∧ rl_num r = num + Z.of_nat (length removed)
      ∧ rl_num r ≤ left).
  { intros ->. exists []. simpl. repeat split; try done; lia. }
  destruct (maxFinalTxnsNum m <? Z.of_nat (length (ref :: rest))); simpl in Hrun;
    [|apply Hstop; congruence].
  destruct (Z.ltb_spec num left) as [Hlt|Hge]; [|apply Hstop; congruence].
  destruct (txnObjects m !! ref) as [t|] eqn:Hobj; [|apply Hstop; congruence].
  destruct (negb (bool_decide (finishTime t = -1))); [|apply Hstop; congruence].
  rewrite (Hk _ _ Hobj) in Hrun.
  destruct (clearTransactionState ref m) as [m' [e|]] eqn:Hclear; [done|].
  assert (Hw : wrap32 (num + 1) = num + 1)
    by (apply wrap32_id; unfold in_int, INT_MIN, INT_MAX in *; lia).
  rewrite Hw in Hrun.
  assert (Hm' : m' = (clearTransactionState ref m).1) by (by rewrite Hclear).
  apply IH in Hrun as (removed & Hd & Hm & Hret & Hobjs & Hlast & Hn & Hle);
    [|subst m'; by apply clear_keyed|lia|done].
  exists (ref :: removed). split; [by rewrite Hd|].
  split; [by rewrite Hm, Hm'|]. split; [simpl; rewrite Hclear; simpl; by split|].
  split.
  { constructor; [by eexists|]. eapply Forall_impl; [exact Hobjs|].
    intros x. subst m'. by destruct (clear_fields ref m) as (-> & _). }
  split; [|split; [simpl length; lia|done]].
  rewrite Hlast, last_cons. by destruct (last removed).
Qed.

Lemma unprotectedRemoveUselessTxns_prefix currentMillis deque left m r :
  keyed m → 0 ≤ left ≤ INT_MAX →
  unprotectedRemoveUselessTxns currentMillis deque left m = (r, None) →
  ∃ removed,
    deque = removed ++ rl_deque r
    ∧ rl_mgr r = clearAll removed m
    ∧ clearsReturn removed m
    ∧ Forall (λ ref, is_Some (txnObjects m !! ref)) removed
    ∧ rl_latestTxnId r = default (-1) (last removed)
    ∧ rl_num r = Z.of_nat (length removed)
    ∧ rl_num r ≤ left.
Proof.
  intros Hk Hleft. unfold unprotectedRemoveUselessTxns.
  destruct (removeExpiredLoop currentMillis left deque m (-1) 0) as [r1 [e|]] eqn:H1; [done|].
  apply removeExpiredLoop_prefix in H1
    as (rem1 & Hd1 & Hm1 & Hret1 & Hobj1 & Hlast1 & Hn1 & Hle1); [|done|lia|lia].
  intros H2. apply removeOverflowLoop_prefix in H2
    as (rem2 & Hd2 & Hm2 & Hret2 & Hobj2 & Hlast2 & Hn2 & Hle2);
    [|rewrite Hm1; by apply clearAll_keyed|lia|lia].
  exists (rem1 ++ rem2). split; [by rewrite Hd1, Hd2, app_assoc|].
  split; [by rewrite Hm2, Hm1, clearAll_app|].
  split; [apply clearsReturn_app; split; [done|by rewrite <- Hm1]|].
  split.
  { apply Forall_app. split; [done|]. eapply Forall_impl; [exact Hobj2|].
    intros x. rewrite Hm1. by destruct (clearAll_fields rem1 m) as (-> & _). }
  split; [|split; [rewrite length_app; lia|done]].
  rewrite Hlast2, Hlast1, last_app. by destruct (last rem2).
Qed.

(** [clearTransactionState] reads neither the deques nor the log. *)
Lemma clear_setDeques txnId short long log m :
  clearTransactionState txnId (setDeques short long log m)
  = (setDeques short long log (clearTransactionState txnId m).1,
     (clearTransactionState txnId m).2).
Proof.
  unfold clearTransactionState. simpl.
  case_decide; [|done].
  destruct (txnObjects m !! txnId); [|done].
  unfold unprotectedGetTxnIdsByLabel. simpl.
  destruct (labelToTxnIds m !! _); done.
Qed.

Lemma clearAll_setDeques l short long log : ∀ m,
  clearAll l (setDeques short long log m) = setDeques short long log (clearAll l m)
  ∧ (clearsReturn l (setDeques short long log m) ↔ clearsReturn l m).
Proof.
  induction l as [|x l IH]; intros m; [done|].
  unfold clearAll in *. simpl. rewrite clear_setDeques. simpl.
  destruct (IH (clearTransactionState x m).1) as [-> ->]. done.
Qed.

Lemma popThrough_prefix latestTxnId rest : ∀ pre m,
  keyed m →
  Forall (λ ref, is_Some (txnObjects m !! ref)) (pre ++ [latestTxnId]) →
  clearsReturn (pre ++ [latestTxnId]) m →
  latestTxnId ∉ pre →
  popThrough latestTxnId (pre ++ latestTxnId :: rest) m
  = (rest, clearAll (pre ++ [latestTxnId]) m, None).
Proof.
  induction pre as [|x pre IH]; intros m Hk Hobjs Hret Hnot; simpl in *.
  - apply Forall_cons in Hobjs as [[t Hobj] _]. rewrite Hobj, (Hk _ _ Hobj).
    destruct Hret as [Hret _].
    destruct (clearTransactionState latestTxnId m) as [m' e]. simpl in Hret. subst e.
    by rewrite bool_decide_eq_true_2.
  - apply Forall_cons in Hobjs as [[t Hobj] Hobjs]. rewrite Hobj, (Hk _ _ Hobj).
    destruct Hret as [Hret Hrets].
    apply not_elem_of_cons in Hnot as [Hne Hnot].
    pose proof (clear_keyed x m Hk) as Hk'.
    pose proof (clear_fields x m) as (Eo & _).
    destruct (clearTransactionState x m) as [m' e]. simpl in *. subst e.
    rewrite bool_decide_eq_false_2 by done.
    rewrite IH; [done|done| |done|done].
    eapply Forall_impl; [exact Hobjs|]. intros y. by rewrite Eo.
Qed.

(** What a pop-and-clear of [replayBatchRemoveTransaction] does with the id
    that the removal of a prefix logged. *)
Lemma replay_prefix removed rest m :
  keyed m →
  Forall (λ ref, is_Some (txnObjects m !! ref)) removed →
  clearsReturn removed m →
  NoDup (removed ++ rest) → (-1) ∉ removed →
  (if negb (bool_decide (default (-1) (last removed) = -1))
   then popThrough (default (-1) (last removed)) (removed ++ rest) m
   else (removed ++ rest, m, None))
  = (rest, clearAll removed m, None).
Proof.
  intros Hk Hobjs Hret Hnd Hneg.
  destruct removed as [|x removed _] using rev_ind; [done|].
  rewrite last_snoc. simpl.
  assert (x ≠ -1) by (intros ->; apply Hneg; set_solver).
  rewrite bool_decide_eq_false_2 by done. simpl.
  rewrite <- app_assoc. simpl.
  apply popThrough_prefix; try done.
  rewrite <- app_assoc in Hnd. apply NoDup_app in Hnd as (_ & Hnd & _).
  intros Hin. apply (Hnd x Hin). left.
Qed.

(** What a call of [removeUselessTxns] that returns has removed. *)
Lemma removeUselessTxns_prefixes (currentMillis : Z) (m m' : Mgr) :
  keyed m →
  removeUselessTxns currentMillis m = (m', Returned ()) →
  ∃ removedShort removedLong,
    finalStatusTransactionStateDequeShort m
    = removedShort ++ finalStatusTransactionStateDequeShort m'
    ∧ finalStatusTransactionStateDequeLong m
      = removedLong ++ finalStatusTransactionStateDequeLong m'
    ∧ Z.of_nat (length removedShort) + Z.of_nat (length removedLong)
      ≤ MAX_REMOVE_TXN_PER_ROUND
    ∧ same_but_log (clearAll (removedShort ++ removedLong)
                      (setDeques (finalStatusTransactionStateDequeShort m')
                         (finalStatusTransactionStateDequeLong m') (editLog m) m)) m'
    ∧ clearsReturn (removedShort ++ removedLong) m
    ∧ Forall (λ ref, is_Some (txnObjects m !! ref)) (removedShort ++ removedLong)
    ∧ txnObjects m' = txnObjects m
    ∧ idToRunningTransactionState m' = idToRunningTransactionState m
    ∧ idToFinalStatusTransactionState m' ⊆ idToFinalStatusTransactionState m
    ∧ editLog m'
      = (if decide (removedShort ++ removedLong = []) then editLog m
         else editLog m ++ [LogBatchRemoveTransactions (mgr_dbId m)
                              (default (-1) (last removedShort))
                              (default (-1) (last removedLong))]).
Proof.
  intros Hk. unfold removeUselessTxns.
  destruct (unprotectedRemoveUselessTxns currentMillis
              (finalStatusTransactionStateDequeShort m) MAX_REMOVE_TXN_PER_ROUND m)
    as [s [e|]] eqn:Hs; [done|].
  apply unprotectedRemoveUselessTxns_prefix in Hs
    as (remS & HdS & HmS & HretS & HobjS & HlastS & HnS & HleS);
    [|done|unfold MAX_REMOVE_TXN_PER_ROUND, INT_MAX; lia].
  set (m1 := setDeques (rl_deque s) (finalStatusTransactionStateDequeLong m)
               (editLog m) (rl_mgr s)).
  assert (Hw : wrap32 (MAX_REMOVE_TXN_PER_ROUND - rl_num s)
               = MAX_REMOVE_TXN_PER_ROUND - rl_num s).
  { apply wrap32_id. unfold in_int, INT_MIN, INT_MAX, MAX_REMOVE_TXN_PER_ROUND in *. lia. }
  rewrite Hw.
  destruct (unprotectedRemoveUselessTxns currentMillis
              (finalStatusTransactionStateDequeLong m1)
              (MAX_REMOVE_TXN_PER_ROUND - rl_num s) m1) as [l [e|]] eqn:Hl; [done|].
  assert (Hk1 : keyed m1).
  { intros ref t. unfold m1. simpl. rewrite HmS. by apply clearAll_keyed. }
  apply unprotectedRemoveUselessTxns_prefix in Hl
    as (remL & HdL & HmL & HretL & HobjL & HlastL & HnL & HleL);
    [|done|unfold MAX_REMOVE_TXN_PER_ROUND, INT_MAX in *; lia].
  intros [= <-]. exists remS, remL. simpl in HdL.
  destruct (clearAll_setDeques remL (rl_deque s) (finalStatusTransactionStateDequeLong m)
              (editLog m) (rl_mgr s)) as [Hcl Hcr].
  fold m1 in Hcl, Hcr. rewrite Hcl in HmL. apply Hcr in HretL.
  rewrite HmS in HmL, HretL.
  destruct (clearAll_fields (remS ++ remL) m) as (Eo & Er & _ & _ & _ & Elog & _ & Ef).
  assert (Hlog : wrap32 (rl_num s + rl_num l) = rl_num s + rl_num l).
  { apply wrap32_id. unfold in_int, INT_MIN, INT_MAX, MAX_REMOVE_TXN_PER_ROUND in *. lia. }
  rewrite Hlog.
  split; [done|]. split; [done|]. split; [lia|]. split.
  { unfold same_but_log. simpl. rewrite HmL.
    destruct (clearAll_setDeques (remS ++ remL) (rl_deque s) (rl_deque l) (editLog m) m)
      as [-> _].
    rewrite clearAll_app. done. }
  split; [apply clearsReturn_app; by split|].
  split.
  { apply Forall_app. split; [done|]. eapply Forall_impl; [exact HobjL|].
    intros x. unfold m1. simpl. rewrite HmS.
    by destruct (clearAll_fields remS m) as (-> & _). }
  simpl. rewrite HmL. simpl. rewrite <- clearAll_app.
  split; [done|]. split; [done|]. split; [done|].
  rewrite HlastS, HlastL.
  destruct (Z.ltb_spec 0 (rl_num s + rl_num l)) as [Hpos|Hzero].
  - rewrite decide_False; [done|]. intros Hnil. apply app_eq_nil in Hnil as [-> ->].
    simpl in *. lia.
  - rewrite decide_True; [done|].
    destruct remS; [|simpl in *; lia]. destruct remL; [done|simpl in *; lia].
Qed.

(** [removeUselessTxns], when it returns, has taken a prefix off each of the
    two deques, at most [MAX_REMOVE_TXN_PER_ROUND] transactions in all, and
    has cleared these and no others: the running index and the transaction
    objects are as they were and the final-status index has only lost ids.
    It writes one entry to the edit log, with the last id taken off each
    deque ([-1] for none), unless it took nothing. *)
Theorem removeUselessTxns_takes_prefixes (currentMillis : Z) (m m' : Mgr) :
  keyed m →
  removeUselessTxns currentMillis m = (m', Returned ()) →
  ∃ removedShort removedLong,
    finalStatusTransactionStateDequeShort m
    = removedShort ++ finalStatusTransactionStateDequeShort m'
    ∧ finalStatusTransactionStateDequeLong m
      = removedLong ++ finalStatusTransactionStateDequeLong m'
    ∧ Z.of_nat (length removedShort) + Z.of_nat (length removedLong)
      ≤ MAX_REMOVE_TXN_PER_ROUND
    ∧ same_but_log (clearAll (removedShort ++ removedLong)
                      (setDeques (finalStatusTransactionStateDequeShort m')
                         (finalStatusTransactionStateDequeLong m') (editLog m) m)) m'
    ∧ clearsReturn (removedShort ++ removedLong) m
    ∧ Forall (λ ref, is_Some (txnObjects m !! ref)) (removedShort ++ removedLong)
    ∧ txnObjects m' = txnObjects m
    ∧ idToRunningTransactionState m' = idToRunningTransactionState m
    ∧ idToFinalStatusTransactionState m' ⊆ idToFinalStatusTransactionState m
    ∧ editLog m'
      = (if decide (removedShort ++ removedLong = []) then editLog m
         else editLog m ++ [LogBatchRemoveTransactions (mgr_dbId m)
                              (default (-1) (last removedShort))
                              (default (-1) (last removedLong))]).
Proof. apply removeUselessTxns_prefixes. Qed.

(** The entry that [removeUselessTxns] writes, replayed by
    [replayBatchRemoveTransaction] on a manager in the state the call found,
    leaves the state the call left, but for the edit log, which a replay
    does not write to, provided that no deque holds a transaction twice and
    no id is [-1]. *)
Theorem replayBatchRemoveTransaction_follows_removal
    (currentMillis : Z) (m m' : Mgr) (db latestTxnIdForShort latestTxnIdForLong : Z) :
  keyed m →
  NoDup (finalStatusTransactionStateDequeShort m) →
  NoDup (finalStatusTransactionStateDequeLong m) →
  (-1) ∉ finalStatusTransactionStateDequeShort m →
  (-1) ∉ finalStatusTransactionStateDequeLong m →
  removeUselessTxns currentMillis m = (m', Returned ()) →
  editLog m' = editLog m ++ [LogBatchRemoveTransactions db latestTxnIdForShort
                               latestTxnIdForLong] →
  ∃ replayed,
    replayBatchRemoveTransactionV2 latestTxnIdForShort latestTxnIdForLong m
    = (replayed, Returned ())
    ∧ same_but_log replayed m'.
Proof.
  intros Hk HndS HndL HnegS HnegL Hrun Hlogged.
  destruct (removeUselessTxns_prefixes currentMillis m m' Hk Hrun)
    as (remS & remL & HdS & HdL & _ & Hsame & Hret & Hobjs & _ & _ & _ & Hlog).
  rewrite Hlog in Hlogged. case_decide as Hnil.
  { exfalso. apply (f_equal length) in Hlogged. rewrite length_app in Hlogged.
    simpl in Hlogged. lia. }
  apply app_inv_head in Hlogged. injection Hlogged as _ <- <-.
  apply clearsReturn_app in Hret as [HretS HretL].
  apply Forall_app in Hobjs as [HobjS HobjL].
  pose proof (replay_prefix remS (finalStatusTransactionStateDequeShort m') m Hk HobjS HretS)
    as HpopS.
  rewrite <- HdS in HpopS.
  pose proof (replay_prefix remL (finalStatusTransactionStateDequeLong m') (clearAll remS m)
                (clearAll_keyed _ _ Hk)) as HpopL.
  rewrite <- HdL in HpopL.
  unfold replayBatchRemoveTransactionV2.
  rewrite HpopS; [|done|intros Hin; apply HnegS; rewrite HdS; set_solver].
  rewrite HpopL; [|..|done|intros Hin; apply HnegL; rewrite HdL; set_solver].
  - eexists. split; [done|].
    unfold same_but_log in *. simpl. rewrite Hsame at 1. simpl.
    destruct (clearAll_setDeques (remS ++ remL)
                (finalStatusTransactionStateDequeShort m')
                (finalStatusTransactionStateDequeLong m') (editLog m) m) as [-> _].
    rewrite clearAll_app. done.
  - eapply Forall_impl; [exact HobjL|]. intros x.
    by destruct (clearAll_fields remS m) as (-> & _).
  - done.
Qed.

End Steps.

Import TxnExamples.
#[local] Existing Instance plain_collaborators.

Lemma wf_keyed m : mgr_wf m → keyed m.
Proof. intros Hwf ref t Hobj. by apply (wf_objects _ Hwf). Qed.

Lemma removeUselessTxns_takes_prefixes_witness :
  ∃ removedShort removedLong,
    finalStatusTransactionStateDequeShort (run_op env0 (OpAbort 20 100 "user" None) mgr_begun)
    = removedShort
      ++ finalStatusTransactionStateDequeShort
           (removeUselessTxns 5000 (run_op env0 (OpAbort 20 100 "user" None) mgr_begun)).1
    ∧ finalStatusTransactionStateDequeLong (run_op env0 (OpAbort 20 100 "user" None) mgr_begun)
      = removedLong
        ++ finalStatusTransactionStateDequeLong
             (removeUselessTxns 5000 (run_op env0 (OpAbort 20 100 "user" None) mgr_begun)).1.
Proof.
  set (m := run_op env0 (OpAbort 20 100 "user" None) mgr_begun).
  assert (Hreach : reachable 1 cfg0 99 m).
  { unfold m, mgr_begun. do 2 apply reachable_step. apply reachable_new. }
  assert (Hrun : removeUselessTxns 5000 m = ((removeUselessTxns 5000 m).1, Returned ())).
  { destruct (removeUselessTxns 5000 m) as [m' o] eqn:E.
    assert (o = Returned ()) as ->; [|done].
    apply (f_equal snd) in E. vm_compute in E. congruence. }
  destruct (removeUselessTxns_takes_prefixes (H := plain_collaborators) 5000 m _
              (wf_keyed _ (reachable_wf _ _ _ _ Hreach)) Hrun)
    as (remS & remL & HdS & HdL & _).
  exists remS, remL. split; [exact HdS|exact HdL].
Defined.

Lemma replayBatchRemoveTransaction_follows_removal_witness :
  ∃ replayed,
    replayBatchRemoveTransactionV2 100 (-1)
      (run_op env0 (OpAbort 20 100 "user" None) mgr_begun) = (replayed, Returned ())
    ∧ same_but_log replayed
        (removeUselessTxns 5000 (run_op env0 (OpAbort 20 100 "user" None) mgr_begun)).1.
Proof.
  set (m := run_op env0 (OpAbort 20 100 "user" None) mgr_begun).
  assert (Hreach : reachable 1 cfg0 99 m).
  { unfold m, mgr_begun. do 2 apply reachable_step. apply reachable_new. }
  assert (Hrun : removeUselessTxns 5000 m = ((removeUselessTxns 5000 m).1, Returned ())).
  { destruct (removeUselessTxns 5000 m) as [m' o] eqn:E.
    assert (o = Returned ()) as ->; [|done].
    apply (f_equal snd) in E. vm_compute in E. congruence. }
  assert (Es : finalStatusTransactionStateDequeShort m = [100]) by (vm_compute; reflexivity).
  assert (El : finalStatusTransactionStateDequeLong m = []) by (vm_compute; reflexivity).
  apply (replayBatchRemoveTransaction_follows_removal (H := plain_collaborators)
           5000 m _ 1 100 (-1) (wf_keyed _ (reachable_wf _ _ _ _ Hreach))).
  - rewrite Es. apply NoDup_singleton.
  - rewrite El. apply NoDup_nil_2.
  - rewrite Es. intros Hin. apply list_elem_of_singleton in Hin. discriminate Hin.
  - rewrite El. apply not_elem_of_nil.
  - exact Hrun.
  - vm_compute. reflexivity.
Defined.

End RemoveReplayProofs.

(** ** Cleaning a label *)

Module CleanLabelProofs.
Import MachineInt MachineIntFacts TxnMgr TxnSpecs TxnMoreSpecs TxnMgrQueries.
Import LabelUniquenessProofs TransactionStatusProofs.

Lemma cleanLabelIds_fold (l : list Z) : ∀ txnIds final removedTxnIds : gset Z,
  foldl (λ '(txnIds, final, removedTxnIds) txnId,
           if decide (txnId ∈ final)
           then (txnIds ∖ {[txnId]}, final ∖ {[txnId]}, removedTxnIds ∪ {[txnId]})
           else (txnIds, final, removedTxnIds))
        (txnIds, final, removedTxnIds) l
  = (txnIds ∖ (list_to_set l ∩ final), final ∖ list_to_set l,
     removedTxnIds ∪ (list_to_set l ∩ final)).
Proof.
  induction l as [|x l IH]; intros txnIds final removedTxnIds.
  - simpl. (apply pair_equal_spec; split; [apply pair_equal_spec; split|]); set_solver.
  - cbn [foldl]. cbv beta iota. case_decide as Hx.
    + rewrite IH. apply pair_equal_spec; split; [apply pair_equal_spec; split|].
      * apply set_eq. intros i. rewrite !elem_of_difference, !elem_of_intersection,
          !elem_of_difference, elem_of_list_to_set, elem_of_list_to_set, elem_of_cons,
          elem_of_singleton.
        destruct (decide (i = x)) as [->|]; tauto.
      * apply set_eq. intros i. rewrite !elem_of_difference, elem_of_list_to_set,
          elem_of_list_to_set, elem_of_cons, elem_of_singleton. tauto.
      * apply set_eq. intros i. rewrite !elem_of_union, !elem_of_intersection,
          !elem_of_difference, elem_of_list_to_set, elem_of_list_to_set, elem_of_cons,
          elem_of_singleton.
        destruct (decide (i = x)) as [->|]; tauto.
    + rewrite IH. apply pair_equal_spec; split; [apply pair_equal_spec; split|].
      * apply set_eq. intros i. rewrite !elem_of_difference, !elem_of_intersection,
          elem_of_list_to_set, elem_of_list_to_set, elem_of_cons.
        destruct (decide (i = x)) as [->|]; tauto.
      * apply set_eq. intros i. rewrite !elem_of_difference, elem_of_list_to_set,
          elem_of_list_to_set, elem_of_cons.
        destruct (decide (i = x)) as [->|]; tauto.
      * apply set_eq. intros i. rewrite !elem_of_union, !elem_of_intersection,
          elem_of_list_to_set, elem_of_list_to_set, elem_of_cons.
        destruct (decide (i = x)) as [->|]; tauto.
Qed.

Lemma cleanLabelIds_sets (txnIds final removedTxnIds : gset Z) :
  cleanLabelIds txnIds final removedTxnIds
  = (txnIds ∖ final, final ∖ txnIds, removedTxnIds ∪ (txnIds ∩ final)).
Proof.
  unfold cleanLabelIds. rewrite cleanLabelIds_fold.
  rewrite list_to_set_elements_L. (apply pair_equal_spec; split; [apply pair_equal_spec; split|]); set_solver.
Qed.

Lemma filter_all {A} (P : A → Prop) `{!∀ x, Decision (P x)} (l : list A) :
  (∀ x, P x) → filter P l = l.
Proof.
  intros HP. induction l as [|x l IH]; [done|].
  rewrite filter_cons, IH. by rewrite decide_True.
Qed.

Lemma removedRef_keyed m (removed : gset Z) ref :
  mgr_wf m → removed ⊆ idToFinalStatusTransactionState m →
  removedRef m removed ref = false ↔ ref ∉ removed.
Proof.
  intros Hwf Hsub. unfold removedRef.
  destruct (txnObjects m !! ref) as [t|] eqn:Hobj.
  - rewrite (proj1 (wf_objects _ Hwf _ _ Hobj)). by rewrite bool_decide_eq_false.
  - split; [|done]. intros _ Hin.
    destruct (wf_filed _ Hwf ref (or_intror (Hsub _ Hin))) as (t & _ & Hobj' & _).
    congruence.
Qed.

Lemma filter_removedRef m (removed : gset Z) (deque : list Z) :
  mgr_wf m → removed ⊆ idToFinalStatusTransactionState m →
  filter (λ ref, removedRef m removed ref = false) deque
  = filter (λ ref, ref ∉ removed) deque.
Proof.
  intros Hwf Hsub. induction deque as [|ref deque IH]; [done|].
  rewrite !filter_cons, IH.
  pose proof (removedRef_keyed m removed ref Hwf Hsub) as Hiff.
  destruct (decide (removedRef m removed ref = false)) as [Hr|Hr];
    destruct (decide (ref ∉ removed)) as [Hn|Hn]; try done; tauto.
Qed.

(** [cleanLabel] with a label that is not empty, on a manager in a state it
    can reach, forgets the transactions of the label that are in the
    final-status index, and only those: they leave the index, the label and
    the two deques, which keep their order; the running transactions and
    the transactions of other labels are tracked as before; the state it
    leaves is again one in which the indexes agree.  An entry is logged
    unless the call is a replay or the label is not known. *)
Theorem cleanLabel_forgets_final_of_label
    (label : string) (isReplay : bool) (m : Mgr) :
  mgr_wf m → label ≠ ""%string →
  let removed := default ∅ (labelToTxnIds m !! label) ∩ idToFinalStatusTransactionState m in
  let r := cleanLabel (Some label) isReplay m in
  mgr_wf r.1
  ∧ (∀ id, id ∈ removed ↔
       ∃ t, unprotectedGetTransactionState id m = Some t ∧ getLabel t = label
            ∧ id ∈ idToFinalStatusTransactionState m)
  ∧ (∀ id t, unprotectedGetTransactionState id r.1 = Some t ↔
       unprotectedGetTransactionState id m = Some t ∧ id ∉ removed)
  ∧ finalStatusTransactionStateDequeShort r.1
    = filter (λ ref, ref ∉ removed) (finalStatusTransactionStateDequeShort m)
  ∧ finalStatusTransactionStateDequeLong r.1
    = filter (λ ref, ref ∉ removed) (finalStatusTransactionStateDequeLong m)
  ∧ idToRunningTransactionState r.1 = idToRunningTransactionState m
  ∧ r.2 = (if isReplay then None
           else match labelToTxnIds m !! label with
                | Some _ => Some (mgr_dbId m, Some label)
                | None => None
                end).
Proof.
  intros Hwf Hne. cbv zeta.
  pose proof Hwf as [Ho Hfi Hl Hr Hf Hk].
  assert (Hdisj : ∀ id, id ∈ idToRunningTransactionState m →
                        id ∈ idToFinalStatusTransactionState m → False).
  { intros id H1 H2. destruct (Hfi id (or_introl H1)) as (t & _ & Hobj & _).
    pose proof (Hr _ _ H1 Hobj). pose proof (Hf _ _ H2 Hobj). congruence. }
  assert (Hremoved : ∀ id,
    id ∈ default ∅ (labelToTxnIds m !! label) ∩ idToFinalStatusTransactionState m ↔
    ∃ t, unprotectedGetTransactionState id m = Some t ∧ getLabel t = label
         ∧ id ∈ idToFinalStatusTransactionState m).
  { intros id. rewrite elem_of_intersection. split.
    - intros [Hin Hfin]. destruct (labelToTxnIds m !! label) as [ids|] eqn:Hlk; [|set_solver].
      destruct (Hl _ _ _ Hlk Hin) as (Htr & t & Hobj & Hlab).
      exists t. split; [by apply tracked_unprotectedGet|done].
    - intros (t & Hget & Hlab & Hfin). split; [|done].
      apply unprotectedGet_tracked in Hget as [Htr Hobj].
      destruct (Hfi id Htr) as (t0 & ids & Hobj0 & Hlk & Hin).
      assert (t0 = t) as -> by congruence. rewrite Hlab in Hlk. by rewrite Hlk. }
  destruct label as [|a s]; [done|]. cbn [cleanLabel].
  destruct (labelToTxnIds m !! String a s) as [txnIds|] eqn:Hlk; cbn [default].
  2: { assert (Hgoal : mgr_wf m
         ∧ (∀ id, id ∈ (∅ : gset Z) ∩ idToFinalStatusTransactionState m ↔
              ∃ t, unprotectedGetTransactionState id m = Some t ∧ getLabel t = String a s
                   ∧ id ∈ idToFinalStatusTransactionState m)
         ∧ (∀ id t, unprotectedGetTransactionState id m = Some t ↔
              unprotectedGetTransactionState id m = Some t
              ∧ id ∉ (∅ : gset Z) ∩ idToFinalStatusTransactionState m)
         ∧ finalStatusTransactionStateDequeShort m
           = filter (λ ref, ref ∉ (∅ : gset Z) ∩ idToFinalStatusTransactionState m)
               (finalStatusTransactionStateDequeShort m)
         ∧ finalStatusTransactionStateDequeLong m
           = filter (λ ref, ref ∉ (∅ : gset Z) ∩ idToFinalStatusTransactionState m)
               (finalStatusTransactionStateDequeLong m)
         ∧ idToRunningTransactionState m = idToRunningTransactionState m).
       { split; [done|]. split; [apply Hremoved|].
         split; [intros id t; split; [intros ?; split; [done|set_solver]|by intros [? _]]|].
         rewrite !filter_all by set_solver. done. }
       destruct Hgoal as (? & ? & ? & ? & ? & ?).
       destruct isReplay; cbn [fst snd]; split_and!; done. }
  simpl in Hremoved. rewrite cleanLabelIds_sets, union_empty_l_L. cbv beta iota zeta.
  set (removed := txnIds ∩ idToFinalStatusTransactionState m) in *.
  set (labels' := if decide (txnIds ∖ idToFinalStatusTransactionState m = ∅)
                  then delete (String a s) (labelToTxnIds m)
                  else <[String a s := txnIds ∖ idToFinalStatusTransactionState m]>
                         (labelToTxnIds m)).
  rewrite !(filter_removedRef m removed) by (done || set_solver).
  cbn [fst snd].
  assert (Hlk' : ∀ l ids, labels' !! l = Some ids ↔
            (l = String a s ∧ ids = txnIds ∖ idToFinalStatusTransactionState m ∧ ids ≠ ∅)
            ∨ (l ≠ String a s ∧ labelToTxnIds m !! l = Some ids)).
  { intros l ids. unfold labels'. case_decide as Hemp.
    - rewrite lookup_delete_Some. split.
      + intros [? ?]. right. split; [congruence|done].
      + intros [(_ & -> & ?)|[? ?]]; [done|]. split; [congruence|done].
    - destruct (decide (l = String a s)) as [->|Hnel].
      + rewrite lookup_insert_eq. split.
        * intros [= <-]. by left.
        * intros [(_ & -> & _)|[? _]]; done.
      + rewrite lookup_insert_ne by done. split; [intros ?; by right|].
        intros [(? & _)|[_ ?]]; done. }
  assert (Htracked : ∀ id, is_tracked
            (setDeques (filter (λ ref, ref ∉ removed) (finalStatusTransactionStateDequeShort m))
               (filter (λ ref, ref ∉ removed) (finalStatusTransactionStateDequeLong m))
               (editLog m)
               (setFinalIndexes (idToFinalStatusTransactionState m ∖ txnIds) labels' m)) id
            ↔ is_tracked m id ∧ id ∉ removed).
  { intros id. unfold is_tracked, removed. simpl.
    rewrite elem_of_difference, elem_of_intersection. split.
    - intros [Hrun|[Hfin Hnot]]; [|tauto]. split; [by left|]. intros [_ Hfin]. eauto.
    - intros [[Hrun|Hfin] Hnot]; [by left|]. right. tauto. }
  split; [|split; [done|split; [|split; [done|split; [done|split; [done|]]]]]].
  - split.
    + apply Ho.
    + intros id Htr. apply Htracked in Htr as [Htr Hnot].
      destruct (Hfi id Htr) as (t & ids & Hobj & Hlk0 & Hin). exists t. simpl.
      destruct (decide (getLabel t = String a s)) as [Hlab|Hlab].
      * rewrite Hlab in Hlk0. assert (ids = txnIds) as -> by congruence.
        exists (txnIds ∖ idToFinalStatusTransactionState m). split; [done|].
        assert (id ∉ idToFinalStatusTransactionState m)
          by (intros ?; apply Hnot; unfold removed; set_solver).
        split; [|set_solver]. apply Hlk'. left. rewrite Hlab.
        split; [done|]. split; [done|set_solver].
      * exists ids. split; [done|]. split; [|done]. apply Hlk'. by right.
    + intros l ids id Hlki Hin. apply Hlk' in Hlki.
      destruct Hlki as [(-> & -> & _)|[Hnel Hlki]].
      * apply elem_of_difference in Hin as [Hin Hnf].
        destruct (Hl _ _ _ Hlk Hin) as (Htr & t & Hobj & Hlab).
        split; [|by exists t]. apply Htracked. split; [done|].
        unfold removed. set_solver.
      * destruct (Hl _ _ _ Hlki Hin) as (Htr & t & Hobj & Hlab).
        split; [|by exists t]. apply Htracked. split; [done|].
        intros [Hin' _]%elem_of_intersection.
        destruct (Hl _ _ _ Hlk Hin') as (_ & t' & Hobj' & Hlab'). congruence.
    + apply Hr.
    + intros id t Hin. apply Hf. simpl in Hin. set_solver.
    + apply Hk.
  - intros id t. split.
    + intros Hget. apply unprotectedGet_tracked in Hget as [Htr Hobj].
      apply Htracked in Htr as [Htr Hnot]. split; [|done].
      by apply tracked_unprotectedGet.
    + intros [Hget Hnot]. apply unprotectedGet_tracked in Hget as [Htr Hobj].
      apply tracked_unprotectedGet; [|done]. apply Htracked. by split.
  - by destruct isReplay.
Qed.

Import TxnExamples.
#[local] Existing Instance plain_collaborators.

Lemma cleanLabel_forgets_final_of_label_witness :
  mgr_wf (cleanLabel (Some "L1"%string) false mgr_begun_again).1
  ∧ idToRunningTransactionState (cleanLabel (Some "L1"%string) false mgr_begun_again).1
    = idToRunningTransactionState mgr_begun_again.
Proof.
  assert (Hreach : reachable 1 cfg0 99 mgr_begun_again).
  { unfold mgr_begun_again, mgr_begun. do 3 apply reachable_step. apply reachable_new. }
  destruct (cleanLabel_forgets_final_of_label "L1" false mgr_begun_again
              (reachable_wf _ _ _ _ Hreach)) as (Hwf & _ & _ & _ & _ & Hrun & _).
  - discriminate.
  - split; [exact Hwf|exact Hrun].
Defined.

End CleanLabelProofs.

(** ** Waiting for previous transactions *)

Module PreviousTransactionsProofs.
Import MachineInt MachineIntFacts TxnMgr TxnSpecs TxnMoreSpecs TxnMgrQueries.
Import LabelUniquenessProofs.

Lemma forallb_elements (f : Z → bool) (X : gset Z) :
  forallb f (elements X) = true ↔ ∀ key, key ∈ X → f key = true.
Proof.
  rewrite forallb_forall. split.
  - intros Hall key Hin. apply Hall. apply list_elem_of_In. by apply elem_of_elements.
  - intros Hall key Hin. apply Hall. apply elem_of_elements. by apply list_elem_of_In.
Qed.

Lemma forallb_elements_false (f : Z → bool) (X : gset Z) :
  forallb f (elements X) = false ↔ ∃ key, key ∈ X ∧ f key = false.
Proof.
  split.
  - intros Hfalse. induction (elements X) as [|key l IH] eqn:E in X, Hfalse |- *.
    + done.
    + assert (Hin : ∀ k, k ∈ key :: l → k ∈ X)
        by (intros k Hk; apply elem_of_elements; by rewrite E).
      clear E IH. induction l as [|k' l IH] in key, Hin, Hfalse |- *.
      * simpl in Hfalse. exists key. split; [apply Hin; left|].
        by destruct (f key).
      * simpl in Hfalse. destruct (f key) eqn:Hk.
        -- apply (IH k'); [done|]. intros k Hk'. apply Hin. by right.
        -- exists key. split; [apply Hin; left|done].
  - intros (key & Hin & Hk). apply not_true_is_false. intros Hall.
    rewrite forallb_elements in Hall. specialize (Hall key Hin). congruence.
Qed.

(** On a manager in a state it can reach, [isPreviousTransactionsFinished]
    with a list of tables answers false exactly when a running transaction
    of the database has an id that is not above [endTransactionId] and a
    table list that [isIntersectionNotEmpty] holds to meet the given one:
    the test of a final status in the loop never decides. *)
Theorem isPreviousTransactionsFinished_false_iff
    (endTransactionId : Z) (tableIdList : option (list Z)) (m : Mgr) :
  mgr_wf m →
  isPreviousTransactionsFinished endTransactionId tableIdList m = false ↔
  ∃ id t, id ∈ idToRunningTransactionState m
          ∧ unprotectedGetTransactionState id m = Some t
          ∧ dbId (header t) = mgr_dbId m
          ∧ isIntersectionNotEmpty (Some (TxnMgr.tableIdList (header t))) tableIdList = true
          ∧ id ≤ endTransactionId.
Proof.
  intros Hwf. unfold isPreviousTransactionsFinished.
  rewrite forallb_elements_false. split.
  - intros (key & Hin & Hk).
    destruct (txnObjects m !! key) as [t|] eqn:Hobj; [|done].
    exists key, t. split; [done|].
    split; [apply tracked_unprotectedGet; [by left|done]|].
    destruct (bool_decide (dbId (header t) = mgr_dbId m)) eqn:Hdb; [|done].
    apply bool_decide_eq_true in Hdb.
    destruct (isIntersectionNotEmpty _ tableIdList) eqn:Hint; [|done].
    destruct (isFinalStatus (transactionStatus t)) eqn:Hfin; [done|].
    simpl in Hk. apply negb_false_iff, Z.leb_le in Hk. done.
  - intros (id & t & Hin & Hget & Hdb & Hint & Hle).
    apply unprotectedGet_tracked in Hget as [_ Hobj].
    exists id. split; [done|]. rewrite Hobj, Hint.
    rewrite (wf_running _ Hwf _ _ Hin Hobj).
    rewrite bool_decide_eq_true_2 by done. simpl.
    apply negb_false_iff, Z.leb_le. done.
Qed.

(** Both forms of [isPreviousTransactionsFinished] answer true for every
    earlier [endTransactionId] once they answer true for one. *)
Theorem isPreviousTransactionsFinished_earlier
    (endTransactionId earlier tableId partitionId : Z)
    (tableIdList : option (list Z)) (m : Mgr) :
  earlier ≤ endTransactionId →
  (isPreviousTransactionsFinished endTransactionId tableIdList m = true →
   isPreviousTransactionsFinished earlier tableIdList m = true)
  ∧ (isPreviousTransactionsFinishedOnPartition endTransactionId tableId partitionId m = true →
     isPreviousTransactionsFinishedOnPartition earlier tableId partitionId m = true).
Proof.
  intros Hle. unfold isPreviousTransactionsFinished, isPreviousTransactionsFinishedOnPartition.
  rewrite !forallb_elements. split; intros Hall key Hin; specialize (Hall key Hin).
  - destruct (txnObjects m !! key) as [t|]; [|done].
    destruct (_ || _ || _); [done|].
    apply negb_true_iff, Z.leb_gt in Hall. apply negb_true_iff, Z.leb_gt. lia.
  - destruct (txnObjects m !! key) as [t|]; [|done].
    destruct (endTransactionId <? key) eqn:Hend.
    + apply Z.ltb_lt in Hend. assert ((earlier <? key) = true) as -> by (apply Z.ltb_lt; lia).
      done.
    + destruct (earlier <? key); [done|]. done.
Qed.

(** The check on a table is the stricter one: when
    [isPreviousTransactionsFinished] answers true for the list of one table,
    it answers true for each partition of that table. *)
Theorem isPreviousTransactionsFinished_table_covers_partition
    (endTransactionId tableId partitionId : Z) (m : Mgr) :
  isPreviousTransactionsFinished endTransactionId (Some [tableId]) m = true →
  isPreviousTransactionsFinishedOnPartition endTransactionId tableId partitionId m = true.
Proof.
  unfold isPreviousTransactionsFinished, isPreviousTransactionsFinishedOnPartition.
  rewrite !forallb_elements. intros Hall key Hin. specialize (Hall key Hin).
  destruct (txnObjects m !! key) as [t|]; [|done].
  destruct (endTransactionId <? key) eqn:Hend; [done|].
  destruct (isFinalStatus (transactionStatus t)); [done|].
  destruct (bool_decide (dbId (header t) = mgr_dbId m)); [|done].
  destruct (isIntersectionNotEmpty (Some (TxnMgr.tableIdList (header t))) (Some [tableId]))
    eqn:Hint.
  - simpl in Hall. apply negb_true_iff, Z.leb_gt in Hall.
    apply Z.ltb_ge in Hend. lia.
  - assert (Hnot : ¬ (tableId ∈ TxnMgr.tableIdList (header t))).
    { intros Hin'. destruct (TxnMgr.tableIdList (header t)) as [|s source]; [done|].
      cbn [isIntersectionNotEmpty] in Hint.
      apply not_true_iff_false in Hint. apply Hint.
      apply existsb_exists. exists tableId. split; [by apply list_elem_of_In|].
      simpl. by rewrite bool_decide_eq_true_2. }
    simpl. by rewrite bool_decide_eq_false_2.
Qed.

Import TxnExamples.
#[local] Existing Instance plain_collaborators.

Lemma isPreviousTransactionsFinished_false_iff_witness :
  isPreviousTransactionsFinished 200 None mgr_begun_again = false.
Proof.
  assert (Hreach : reachable 1 cfg0 99 mgr_begun_again).
  { unfold mgr_begun_again, mgr_begun. do 3 apply reachable_step. apply reachable_new. }
  apply (isPreviousTransactionsFinished_false_iff 200 None mgr_begun_again
           (TransactionStatusProofs.reachable_wf _ _ _ _ Hreach)).
  eexists 101, _.
  split; [apply (bool_decide_unpack _); vm_compute; exact I|].
  split; [vm_compute; reflexivity|].
  split; [vm_compute; reflexivity|].
  split; [vm_compute; reflexivity|lia].
Defined.

Lemma isPreviousTransactionsFinished_earlier_witness :
  isPreviousTransactionsFinished 0 (Some [7]) mgr_begun_again = true
  ∧ isPreviousTransactionsFinishedOnPartition 0 7 3 mgr_begun_again = true.
Proof.
  destruct (isPreviousTransactionsFinished_earlier 50 0 7 3 (Some [7]) mgr_begun_again)
    as [H1 H2]; [lia|].
  split; [apply H1|apply H2]; vm_compute; reflexivity.
Defined.

Lemma isPreviousTransactionsFinished_table_covers_partition_witness :
  isPreviousTransactionsFinishedOnPartition 50 7 3 mgr_begun_again = true.
Proof.
  apply (isPreviousTransactionsFinished_table_covers_partition 50 7 3 mgr_begun_again).
  vm_compute. reflexivity.
Defined.

End PreviousTransactionsProofs.
